(** * Piper-TTS-Electron: the conversion core of [server.js]

    A shallow embedding of the bounded task queue ([ProcessQueue]), of the
    conversion sessions kept in [activeConversions], and of the text
    normaliser and sentence segmenter, together with the properties of the
    design document that they satisfy, or fail to satisfy.

    Conventions.
    - A JavaScript string is a list of UTF-16 code units ([list N]) wherever
      the code inspects its characters; identifiers, messages and file paths
      that are only compared or passed on are Rocq [string]s.
    - A [Set] of ids is a [gset string], the [Map] of sessions a
      [gmap string Conversion].
    - A number that is only compared (the ceiling of the queue, the thread
      settings) is its value: [NaN], an infinity or a rational; a number
      that is computed (the percentage of the progress) is a binary64
      float.
    - What the event loop interleaves (task completions, [setImmediate]
      callbacks, HTTP requests) is a labelled step function; what the
      operating system decides (exit codes, file names, clock readings,
      [Math.random]) is carried by the labels. *)

From Stdlib Require Import ZArith NArith QArith Lia Bool List String Ascii DecimalString.
From Stdlib Require Import Floats.SpecFloat.
From stdpp Require Import base gmap sets list strings option sorting.

(* [set_solver] clears hypotheses that need not be there. *)
Set Warnings "-clear-no-such-hyp".

Local Open Scope Z_scope.

(* ===================================================================== *)
(** * JavaScript strings                                                  *)
(* ===================================================================== *)

Module Js.

(** A string value: its UTF-16 code units. *)
Definition str := list N.

(** Code units of a Rocq string literal.  The literals of this file are
    UTF-8; one- and two-byte sequences and three-byte sequences (all the
    source uses) are decoded, so that [lit "¿"] is the single unit 191. *)
Fixpoint utf8 (bs : list N) (fuel : nat) : str :=
  match fuel with
  | O => []
  | S fuel' =>
      match bs with
      | [] => []
      | b0 :: rest =>
          if (b0 <? 128)%N then b0 :: utf8 rest fuel'
          else if (b0 <? 224)%N then
            match rest with
            | b1 :: rest' => ((b0 - 192) * 64 + (b1 - 128))%N :: utf8 rest' fuel'
            | [] => [b0]
            end
          else
            match rest with
            | b1 :: b2 :: rest' =>
                ((b0 - 224) * 4096 + (b1 - 128) * 64 + (b2 - 128))%N :: utf8 rest' fuel'
            | _ => b0 :: rest
            end
      end
  end.

Definition lit (s : string) : str :=
  let bs := map N_of_ascii (list_ascii_of_string s) in utf8 bs (length bs).

(** White space and line terminators: what [\s] matches and [trim] strips. *)
Definition isSpace (c : N) : bool :=
  existsb (N.eqb c)
    [9; 10; 11; 12; 13; 32; 160; 5760; 8232; 8233; 8239; 8287; 12288; 65279]%N
  || ((8192 <=? c) && (c <=? 8202))%N.

Fixpoint trimStart (s : str) : str :=
  match s with
  | c :: s' => if isSpace c then trimStart s' else s
  | [] => []
  end.

Definition trimEnd (s : str) : str := rev (trimStart (rev s)).

Definition trim (s : str) : str := trimEnd (trimStart s).

(** Decimal digits of a number, as [String(n)] prints a natural number. *)
Definition ofNat (n : nat) : str :=
  map N_of_ascii (list_ascii_of_string (NilZero.string_of_uint (Nat.to_uint n))).

End Js.

(* ===================================================================== *)
(** * JavaScript numbers                                                  *)
(* ===================================================================== *)

Module Num.

(** A number by its value: [NaN], an infinity, or a finite number.  Every
    finite double is a rational, and [<], [>], [<=], [||], [Math.min] and
    [Math.max] are exact on doubles, so that a number which is only
    compared is as well its value.  (Minus zero is worth zero.) *)
Inductive number :=
| NaN
| Inf (negative : bool)
| Fin (q : Q).

(** An integer of the code ([running.size], [CPU_CORES * 2], a literal). *)
Definition ofZ (n : Z) : number := Fin (inject_Z n).

(** [x < y]: false as soon as one side is [NaN]. *)
Definition lt (x y : number) : bool :=
  match x, y with
  | NaN, _ | _, NaN => false
  | Inf a, Inf b => a && negb b
  | Inf a, Fin _ => a
  | Fin _, Inf b => negb b
  | Fin p, Fin q => match (p ?= q)%Q with Lt => true | _ => false end
  end.

(** [x <= y] *)
Definition le (x y : number) : bool :=
  match x, y with
  | NaN, _ | _, NaN => false
  | _, _ => negb (lt y x)
  end.

(** [Math.min(x, y)] and [Math.max(x, y)]: [NaN] as soon as one argument
    is. *)
Definition min (x y : number) : number :=
  match x, y with
  | NaN, _ | _, NaN => NaN
  | _, _ => if lt y x then y else x
  end.

Definition max (x y : number) : number :=
  match x, y with
  | NaN, _ | _, NaN => NaN
  | _, _ => if lt x y then y else x
  end.

(** Whether [x || d] is [x]: zero and [NaN] are falsy. *)
Definition truthy (x : number) : bool :=
  match x with
  | NaN => false
  | Inf _ => true
  | Fin q => negb (Qeq_bool q 0)
  end.

(** [isFinite(x)] *)
Definition isFinite (x : number) : bool :=
  match x with
  | Fin _ => true
  | _ => false
  end.

(** ** Arithmetic

    Where the code computes with numbers they are the binary64 floats of
    the language: 53 bits of precision, rounding to nearest, ties to
    even. *)
Definition double := spec_float.

(** An integer as a float. *)
Definition ofInt (n : Z) : double := binary_normalize 53 1024 n 0 false.

(** [x / y] and [x * y] *)
Definition div (x y : double) : double := SFdiv 53 1024 x y.
Definition mul (x y : double) : double := SFmul 53 1024 x y.

(** [Math.round(x)]: the integer nearest to [x], the larger one when two
    are equally near. *)
Definition round (x : double) : number :=
  match x with
  | S754_nan => NaN
  | S754_infinity s => Inf s
  | S754_zero _ => ofZ 0
  | S754_finite s m e =>
      let v := if s then Z.neg m else Z.pos m in
      match e with
      | Z.neg p => ofZ ((2 * v + 2 ^ Z.pos p) / 2 ^ (Z.pos p + 1))
      | _ => ofZ (v * 2 ^ e)
      end
  end.

End Num.

(** An integer is read as a number wherever one is expected. *)
Coercion Num.ofZ : Z >-> Num.number.

Arguments Num.lt : simpl never.
Arguments Num.le : simpl never.
Arguments Num.min : simpl never.
Arguments Num.max : simpl never.

(* ===================================================================== *)
(** * Regular expressions                                                 *)
(* ===================================================================== *)

(** The backtracking matcher of the language definition, for the syntax the
    server uses: a pattern is compiled to a function from a continuation to
    a function on match states, alternatives are tried left to right, and a
    quantifier is greedy unless marked lazy.  None of the patterns carries
    the [u], [m] or [s] flag. *)

Module Regex.

Import Js.

Inductive item :=
| One (c : N)                 (* a character *)
| Range (lo hi : N)           (* [lo-hi] *)
| Space                       (* \s *)
| Word                        (* \w *)
| Digit.                      (* \d *)

Inductive re :=
| Empty
| Chr (c : N)                                   (* a literal character *)
| Cls (negated : bool) (items : list item)      (* [...] and [^...], \s, \w, \d *)
| Seq (a b : re)
| Alt (a b : re)                                (* a|b *)
| Repeat (min : nat) (max : option nat) (greedy : bool) (a : re)
| Group (n : nat) (a : re)                      (* the n-th capturing group *)
| Ahead (a : re)                                (* (?=a) *)
| NotAhead (a : re)                             (* (?!a) *)
| BehindCls (negated : bool) (items : list item) (* (?<=[...]) *)
| Bol                                           (* ^ *)
| Eol                                           (* $ *)
| WordB.                                        (* \b *)

(** The usual quantifiers. *)
Definition star (a : re) : re := Repeat 0 None true a.
Definition plus (a : re) : re := Repeat 1 None true a.
Definition lazyStar (a : re) : re := Repeat 0 None false a.

(** A literal string, and the class of the characters of a string. *)
Definition text (s : string) : re := foldr (fun c r => Seq (Chr c) r) Empty (lit s).
Definition oneOf (s : string) : re := Cls false (map One (lit s)).
Definition noneOf (s : string) : re := Cls true (map One (lit s)).
Definition seqs (rs : list re) : re := foldr Seq Empty rs.
Definition alts (rs : list re) : re :=
  match rs with
  | [] => Empty
  | r :: rs' => fold_left Alt rs' r
  end.

(** Canonical form of a code unit under the [i] flag: its upper case when
    that is one code unit, except that a unit from 128 on never folds to one
    below 128.  Units above 255 are left as they are; none of them folds to
    a unit that occurs in a pattern of the server. *)
Definition canonicalize (c : N) : N :=
  if ((97 <=? c) && (c <=? 122))%N then (c - 32)%N
  else if ((224 <=? c) && (c <=? 254) && negb (c =? 247))%N then (c - 32)%N
  else if (c =? 255)%N then 376%N
  else if (c =? 181)%N then 924%N
  else c.

Definition isDigit (c : N) : bool := ((48 <=? c) && (c <=? 57))%N.

Definition isWord (c : N) : bool :=
  ((97 <=? c) && (c <=? 122) || (65 <=? c) && (c <=? 90))%N || isDigit c || (c =? 95)%N.

Definition interval (lo hi : N) : list N :=
  map (fun k => (lo + N.of_nat k)%N) (seq 0 (N.to_nat (hi + 1 - lo))).

Definition inItem (ic : bool) (c : N) (it : item) : bool :=
  match it with
  | One x => if ic then (canonicalize x =? canonicalize c)%N else (x =? c)%N
  | Range lo hi =>
      if ic then existsb (fun x => (canonicalize x =? canonicalize c)%N) (interval lo hi)
      else ((lo <=? c) && (c <=? hi))%N
  | Space => isSpace c
  | Word => isWord c
  | Digit => isDigit c
  end.

Definition inCls (ic negated : bool) (items : list item) (c : N) : bool :=
  xorb negated (existsb (inItem ic c) items).

(** A match state: the input before the current position (nearest
    character first), the input from it on, and the captures so far. *)
Record MState := { before : str; after : str; caps : list (nat * str) }.

Definition K := MState -> option MState.

Definition advance (st : MState) : MState :=
  match after st with
  | c :: rest => {| before := c :: before st; after := rest; caps := caps st |}
  | [] => st
  end.

Definition consumed (st st' : MState) : str :=
  take (length (after st) - length (after st')) (after st).

Definition setCap (n : nat) (s : str) (st : MState) : MState :=
  {| before := before st; after := after st; caps := (n, s) :: caps st |}.

Definition clearCaps (gs : list nat) (st : MState) : MState :=
  {| before := before st; after := after st;
     caps := filter (fun p => p.1 ∉ gs) (caps st) |}.

Fixpoint groups (r : re) : list nat :=
  match r with
  | Seq a b | Alt a b => groups a ++ groups b
  | Repeat _ _ _ a | Ahead a | NotAhead a => groups a
  | Group n a => n :: groups a
  | _ => []
  end.

(** A quantified atom.  An iteration past the minimum that consumes nothing
    is rejected; [fuel] bounds the number of iterations and is never
    exhausted when it exceeds [min] plus the length of the rest of the
    input.  The captures of the atom are reset before each iteration. *)
Fixpoint rep (ma : K -> K) (gs : list nat) (fuel min : nat) (max : option nat)
    (greedy : bool) (k : K) (st : MState) : option MState :=
  match fuel with
  | O => None
  | S fuel' =>
      match max with
      | Some O => k st
      | _ =>
          let d := fun st' =>
            if (min =? 0)%nat && (length (after st') =? length (after st))%nat then None
            else rep ma gs fuel' (Nat.pred min) (Nat.pred <$> max) greedy k st' in
          let st0 := clearCaps gs st in
          if (0 <? min)%nat then ma d st0
          else if greedy
               then match ma d st0 with
                    | Some e => Some e
                    | None => k st
                    end
               else match k st with
                    | Some e => Some e
                    | None => ma d st0
                    end
      end
  end.

Fixpoint m (ic : bool) (r : re) (k : K) (st : MState) {struct r} : option MState :=
  match r with
  | Empty => k st
  | Chr c =>
      match after st with
      | x :: _ =>
          if (if ic then (canonicalize x =? canonicalize c)%N else (x =? c)%N)
          then k (advance st) else None
      | [] => None
      end
  | Cls negated items =>
      match after st with
      | x :: _ => if inCls ic negated items x then k (advance st) else None
      | [] => None
      end
  | Seq a b => m ic a (m ic b k) st
  | Alt a b =>
      match m ic a k st with
      | Some e => Some e
      | None => m ic b k st
      end
  | Repeat min max greedy a =>
      rep (m ic a) (groups a) (S (min + length (after st))) min max greedy k st
  | Group n a => m ic a (fun st' => k (setCap n (consumed st st') st')) st
  | Ahead a =>
      match m ic a Some st with
      | Some e => k {| before := before st; after := after st; caps := caps e |}
      | None => None
      end
  | NotAhead a =>
      match m ic a Some st with
      | Some _ => None
      | None => k st
      end
  | BehindCls negated items =>
      match before st with
      | x :: _ => if inCls ic negated items x then k st else None
      | [] => None
      end
  | Bol => match before st with [] => k st | _ => None end
  | Eol => match after st with [] => k st | _ => None end
  | WordB =>
      let a := match before st with x :: _ => isWord x | [] => false end in
      let b := match after st with x :: _ => isWord x | [] => false end in
      if xorb a b then k st else None
  end.

(** A pattern with its [i] flag. *)
Record RegExp := { source : re; ignoreCase : bool }.

Definition rx (r : re) : RegExp := {| source := r; ignoreCase := false |}.
Definition rxi (r : re) : RegExp := {| source := r; ignoreCase := true |}.

(** A successful match: where it starts, the matched text, the captures and
    where it ends (indices into the whole input). *)
Record Match := {
  index : nat;
  matched : str;
  captures : list (nat * str);
  endIndex : nat
}.

(** The n-th capture, the empty string when the group took no part. *)
Definition capture (n : nat) (mt : Match) : str :=
  match list_find (fun p => p.1 = n) (captures mt) with
  | Some (_, (_, s)) => s
  | None => []
  end.

(** A match that starts exactly at the position between [bef] and [aft],
    with the state it ends in. *)
Definition matchAt (p : RegExp) (bef aft : str) : option (Match * MState) :=
  let st := {| before := bef; after := aft; caps := [] |} in
  match m (ignoreCase p) (source p) Some st with
  | Some e => Some ({| index := length bef; matched := consumed st e;
                       captures := caps e;
                       endIndex := length bef + (length aft - length (after e)) |}, e)
  | None => None
  end.

(** The leftmost match that starts at or after the position: the characters
    passed over to reach it, the match, and the input on both sides of its
    end. *)
Record Found := {
  skipped : str;
  found : Match;
  restBefore : str;
  restAfter : str
}.

Fixpoint search (p : RegExp) (bef aft : str) {struct aft} : option Found :=
  match matchAt p bef aft with
  | Some (mt, e) =>
      Some {| skipped := []; found := mt; restBefore := before e; restAfter := after e |}
  | None =>
      match aft with
      | c :: rest =>
          match search p (c :: bef) rest with
          | Some fd => Some {| skipped := c :: skipped fd; found := found fd;
                               restBefore := restBefore fd; restAfter := restAfter fd |}
          | None => None
          end
      | [] => None
      end
  end.

(** [p.exec(s)] with [p.lastIndex = i]. *)
Definition execFrom (p : RegExp) (s : str) (i : nat) : option Match :=
  if (length s <? i)%nat then None else found <$> search p (rev (take i s)) (drop i s).

(** [p.test(s)] for a pattern without the [g] flag. *)
Definition test (p : RegExp) (s : str) : bool :=
  match search p [] s with Some _ => true | None => false end.

(** [p.test(s)] for a pattern with the [g] flag: the search starts at
    [lastIndex], which becomes the end of the match, or 0 when there is
    none. *)
Definition testGlobal (p : RegExp) (s : str) (lastIndex : nat) : bool * nat :=
  match execFrom p s lastIndex with
  | Some mt => (true, endIndex mt)
  | None => (false, 0%nat)
  end.

(** [s.replace(p, f)] for a pattern with the [g] flag, from the position
    between [bef] and [aft] on; the callback [f] may carry a state of its
    own from one match to the next.  After an empty match the search
    resumes one character further. *)
Fixpoint replaceFold {A} (fuel : nat) (p : RegExp) (f : A -> Match -> A * str)
    (acc : A) (bef aft : str) : A * str :=
  match fuel with
  | O => (acc, aft)
  | S fuel' =>
      match search p bef aft with
      | None => (acc, aft)
      | Some fd =>
          let '(acc1, out) := f acc (found fd) in
          let '(acc2, tail) :=
            match matched (found fd), restAfter fd with
            | [], [] => (acc1, [])
            | [], c :: rest =>
                let '(a, t) := replaceFold fuel' p f acc1 (c :: restBefore fd) rest in
                (a, c :: t)
            | _, _ => replaceFold fuel' p f acc1 (restBefore fd) (restAfter fd)
            end in
          (acc2, skipped fd ++ out ++ tail)
      end
  end.

Definition replaceAll (p : RegExp) (f : Match -> str) (s : str) : str :=
  (replaceFold (S (length s)) p (fun _ mt => (tt, f mt)) tt [] s).2.

(** All the matches of [s.match(p)] for a pattern with the [g] flag. *)
Fixpoint matchAll_go (fuel : nat) (p : RegExp) (s : str) (i : nat) : list Match :=
  match fuel with
  | O => []
  | S fuel' =>
      match execFrom p s i with
      | None => []
      | Some mt =>
          mt :: matchAll_go fuel' p s
                  (if (endIndex mt =? index mt)%nat then S (endIndex mt) else endIndex mt)
      end
  end.

Definition matchAll (p : RegExp) (s : str) : list Match :=
  matchAll_go (S (length s)) p s 0.

(** [s.substring(a, b)] *)
Definition substring (a b : nat) (s : str) : str :=
  take (Nat.max a b - Nat.min a b) (drop (Nat.min a b) s).

(** [s.split(p)]: at each position [q] a match is tried at [q] only; a match
    that ends where the current piece starts is passed over; a match cuts
    the piece and is followed in the result by the texts of the capturing
    groups [gs]. *)
Fixpoint split_go (fuel : nat) (p : RegExp) (gs : list nat) (s : str) (pos q : nat)
  : list str :=
  match fuel with
  | O => [drop pos s]
  | S fuel' =>
      if (length s <=? q)%nat then [drop pos s]
      else
        match matchAt p (rev (take q s)) (drop q s) with
        | None => split_go fuel' p gs s pos (S q)
        | Some (mt, _) =>
            if (endIndex mt =? pos)%nat then split_go fuel' p gs s pos (S q)
            else substring pos q s :: map (fun g => capture g mt) gs
                   ++ split_go fuel' p gs s (endIndex mt) (endIndex mt)
        end
  end.

Definition split (p : RegExp) (gs : list nat) (s : str) : list str :=
  match s with
  | [] => match matchAt p [] [] with Some _ => [] | None => [[]] end
  | _ => split_go (2 * length s + 2) p gs s 0 0
  end.

End Regex.

(* ===================================================================== *)
(** * The text normaliser and the sentence segmenter                      *)
(* ===================================================================== *)

Module Text.

Import Js Regex.

Definition ws : re := Cls false [Space].

(** [[A-ZÁÉÍÓÚÑÜ]] and [[A-ZÁÉÍÓÚÑÜ¡¿]] *)
Definition upper : re := Cls false (Range 65 90 :: map One (lit "ÁÉÍÓÚÑÜ")).
Definition starter : re := Cls false (Range 65 90 :: map One (lit "ÁÉÍÓÚÑÜ¡¿")).

(** A replacement that does not look at the match. *)
Definition const (s : string) : Match -> str := fun _ => lit s.

(** The rewriting steps of [normalizeTextForTTS], in the order of the
    source; each is one [replace] with the [g] flag. *)
Definition paragraphBreaks (t : str) : str :=             (* /\n\s*\n/g -> '. ' *)
  replaceAll (rx (seqs [Chr 10; star ws; Chr 10])) (const ". ") t.
Definition lineBreaks (t : str) : str :=                  (* /\n/g -> ' ' *)
  replaceAll (rx (Chr 10)) (const " ") t.
Definition quotes (t : str) : str :=                      (* the class holds 34 and 39 *)
  replaceAll (rx (Cls false [One 34; One 34; One 39; One 39])) (fun _ => [34%N]) t.
Definition dashes (t : str) : str :=                      (* /[–—]/g -> '-' *)
  replaceAll (rx (oneOf "–—")) (const "-") t.
Definition ellipsis (t : str) : str :=                    (* /[…]/g -> '...' *)
  replaceAll (rx (oneOf "…")) (const "...") t.
Definition openQE (t : str) : str :=                      (* /¿¡/g -> '¿' *)
  replaceAll (rx (text "¿¡")) (const "¿") t.
Definition openEQ (t : str) : str :=                      (* /¡¿/g -> '¡' *)
  replaceAll (rx (text "¡¿")) (const "¡") t.
Definition closeQE (t : str) : str :=                     (* /\?!/g -> '?' *)
  replaceAll (rx (text "?!")) (const "?") t.
Definition closeEQ (t : str) : str :=                     (* /!\?/g -> '!' *)
  replaceAll (rx (text "!?")) (const "!") t.
Definition questionFormat (t : str) : str :=              (* /¿([^?]*?)\?/g *)
  replaceAll (rx (seqs [text "¿"; Group 1 (lazyStar (noneOf "?")); text "?"]))
    (fun mt => lit "¿" ++ trim (capture 1 mt) ++ lit "?") t.
Definition exclamationFormat (t : str) : str :=           (* /¡([^!]*?)!/g *)
  replaceAll (rx (seqs [text "¡"; Group 1 (lazyStar (noneOf "!")); text "!"]))
    (fun mt => lit "¡" ++ trim (capture 1 mt) ++ lit "!") t.
Definition incompleteQuestion (t : str) : str :=  (* /¿\s*([^?]*?)(?:\s*[.])(?!\?)/g -> '¿$1?' *)
  replaceAll (rx (seqs [text "¿"; star ws; Group 1 (lazyStar (noneOf "?"));
                        Seq (star ws) (oneOf "."); NotAhead (text "?")]))
    (fun mt => lit "¿" ++ capture 1 mt ++ lit "?") t.
Definition incompleteExclamation (t : str) : str := (* /¡\s*([^!]*?)(?:\s*[.])(?!\!)/g -> '¡$1!' *)
  replaceAll (rx (seqs [text "¡"; star ws; Group 1 (lazyStar (noneOf "!"));
                        Seq (star ws) (oneOf "."); NotAhead (text "!")]))
    (fun mt => lit "¡" ++ capture 1 mt ++ lit "!") t.
Definition finalColon (t : str) : str :=                  (* /:\s*$/g -> '.' *)
  replaceAll (rx (seqs [text ":"; star ws; Eol])) (const ".") t.
Definition colonBeforeCapital (t : str) : str :=          (* /:\s*(?=[A-ZÁÉÍÓÚÑÜ])/g -> '. ' *)
  replaceAll (rx (seqs [text ":"; star ws; Ahead upper])) (const ". ") t.
Definition spaceBeforeMark (t : str) : str :=             (* /\s+([.!?¿¡,;:])/g -> '$1' *)
  replaceAll (rx (seqs [plus ws; Group 1 (oneOf ".!?¿¡,;:")])) (fun mt => capture 1 mt) t.
Definition spaceBeforeOpening (t : str) : str :=          (* /([.!?])\s*([¿¡])/g -> '$1 $2' *)
  replaceAll (rx (seqs [Group 1 (oneOf ".!?"); star ws; Group 2 (oneOf "¿¡")]))
    (fun mt => capture 1 mt ++ lit " " ++ capture 2 mt) t.
Definition spaceAfterEnd (t : str) : str :=           (* /([.!?])\s*(?=[A-ZÁÉÍÓÚÑÜ])/g -> '$1 ' *)
  replaceAll (rx (seqs [Group 1 (oneOf ".!?"); star ws; Ahead upper]))
    (fun mt => capture 1 mt ++ lit " ") t.
Definition spaceAfterClause (t : str) : str :=        (* /([,:;])\s*(?=[A-ZÁÉÍÓÚÑÜ])/g -> '$1 ' *)
  replaceAll (rx (seqs [Group 1 (oneOf ",:;"); star ws; Ahead upper]))
    (fun mt => capture 1 mt ++ lit " ") t.
Definition manyDots (t : str) : str :=                    (* /\.{4,}/g -> '...' *)
  replaceAll (rx (Repeat 4 None true (Chr 46))) (const "...") t.
Definition twoDots (t : str) : str :=                     (* /\.{2}(?!\.)/g -> '.' *)
  replaceAll (rx (Seq (Repeat 2 (Some 2%nat) true (Chr 46)) (NotAhead (Chr 46)))) (const ".") t.
Definition repeatedMarks (t : str) : str :=               (* /([!?]){2,}/g -> '$1' *)
  replaceAll (rx (Repeat 2 None true (Group 1 (oneOf "!?")))) (fun mt => capture 1 mt) t.
Definition whitespace (t : str) : str :=                  (* /\s+/g -> ' ' *)
  replaceAll (rx (plus ws)) (const " ") t.

Definition normalizeSteps : list (str -> str) :=
  [ paragraphBreaks; lineBreaks; quotes; dashes; ellipsis;
    openQE; openEQ; closeQE; closeEQ;
    questionFormat; exclamationFormat; incompleteQuestion; incompleteExclamation;
    finalColon; colonBeforeCapital;
    spaceBeforeMark; spaceBeforeOpening; spaceAfterEnd; spaceAfterClause;
    manyDots; twoDots; repeatedMarks ].

Definition normalizeTextForTTS (text0 : str) : str :=
  let normalized := fold_left (fun t step => step t) normalizeSteps text0 in
  trim (whitespace normalized).

(** [enhanceSentenceForTTS] *)
Definition questionWords : RegExp :=
  rxi (seqs [WordB; Group 1 (alts (map text
         ["qué"; "quién"; "cuándo"; "dónde"; "cómo"; "por qué"; "cuál"]%string)); WordB]).
Definition exclamationWords : RegExp :=
  rxi (seqs [WordB; Group 1 (alts (map text
         ["wow"; "increíble"; "excelente"; "fantástico"]%string)); WordB]).
Definition answerWords : RegExp :=
  rxi (seqs [WordB; Group 1 (alts (map text ["yes"; "no"; "si"; "sí"]%string)); WordB]).
Definition cheerWords : RegExp :=
  rxi (seqs [WordB; Group 1 (alts (map text
         ["wow"; "increíble"; "excelente"; "fantástico"; "bravo"; "genial"]%string)); WordB]).

Definition startsWith (s : string) (t : str) : bool := test (rx (Seq Bol (text s))) t.
Definition endsWith (s : string) (t : str) : bool := test (rx (Seq (text s) Eol)) t.

Definition enhanceSentenceForTTS (sentence : str) : str :=
  let enhanced :=
    trim (whitespace
            (replaceAll (rx (plus (Cls false [One 13; One 10; One 9]))) (const " ") sentence)) in
  match enhanced with
  | [] => enhanced
  | _ =>
      let hasEndingPunctuation := test (rx (Seq (oneOf ".!?…") Eol)) enhanced in
      let enhanced :=
        if negb hasEndingPunctuation then
          if startsWith "¿" enhanced || test questionWords enhanced then enhanced ++ lit "?"
          else if startsWith "¡" enhanced || test exclamationWords enhanced
               then enhanced ++ lit "!"
               else enhanced ++ lit "."
        else enhanced in
      let enhanced :=
        if endsWith "?" enhanced && negb (startsWith "¿" enhanced)
           && negb (test answerWords enhanced)
        then lit "¿" ++ enhanced else enhanced in
      let enhanced :=
        if endsWith "!" enhanced && negb (startsWith "¡" enhanced)
           && test cheerWords enhanced
        then lit "¡" ++ enhanced else enhanced in
      enhanced
  end.

(** [splitLongSentence]; the pattern has the [g] flag, so that its [test]
    moves [lastIndex] from one part to the next. *)
Definition naturalBreaks : RegExp :=
  rxi (Group 1 (seqs [oneOf ",:;"; plus ws;
         alts (map text
           ["pero"; "sin embargo"; "además"; "por tanto"; "por lo tanto"; "no obstante";
            "mientras"; "cuando"; "donde"; "como"; "que"; "si"; "aunque"; "porque";
            "ya que"; "dado que"; "puesto que"]%string)])).

Definition splitLongSentence (sentence : str) : list str :=
  let parts := split naturalBreaks [1%nat] sentence in
  let '(chunks, currentChunk, _) :=
    fold_left
      (fun '(chunks, currentChunk, lastIndex) part =>
         let '(isBreak, lastIndex') := testGlobal naturalBreaks part lastIndex in
         if isBreak then (chunks, currentChunk ++ part, lastIndex')
         else if negb (length currentChunk =? 0)%nat
                 && (200 <? length (currentChunk ++ part))%nat
              then ((match trim currentChunk with
                     | [] => chunks
                     | c => chunks ++ [enhanceSentenceForTTS c]
                     end), part, lastIndex')
              else (chunks, currentChunk ++ part, lastIndex'))
      parts ([], [], 0%nat) in
  let chunks := match trim currentChunk with
                | [] => chunks
                | c => chunks ++ [enhanceSentenceForTTS c]
                end in
  match chunks with
  | [] => [sentence]
  | _ => chunks
  end.

(** [mergeShortFragments]: [merged] is the array built so far. *)
Definition wordCount (sentence : str) : nat :=
  length (matchAll (rx (seqs [WordB; plus (Cls false [Word]); WordB])) sentence).

Definition isShort (sentence : str) : bool :=
  (wordCount sentence <? 4)%nat && (length sentence <? 30)%nat.

Fixpoint mergeLoop (sentences merged : list str) : list str :=
  match sentences with
  | [] => merged
  | sentence :: rest =>
      if isShort sentence then
        match rev merged with
        | lastOne :: others => mergeLoop rest (rev others ++ [lastOne ++ lit " " ++ sentence])
        | [] =>
            match rest with
            | nextSentence :: rest' =>
                mergeLoop rest' (merged ++ [sentence ++ lit " " ++ nextSentence])
            | [] => mergeLoop rest (merged ++ [sentence])
            end
        end
      else mergeLoop rest (merged ++ [sentence])
  end.

Definition mergeShortFragments (sentences : list str) : list str := mergeLoop sentences [].

(** [splitSentences] *)
Definition abbreviations : list string :=
  [ "Sr"; "Sra"; "Srta"; "Dr"; "Dra"; "Prof"; "Profa"; "Lic"; "Licda";
    "Ing"; "Inga"; "Arq"; "Arqa"; "Mtro"; "Mtra"; "etc"; "vs"; "p.ej";
    "i.e"; "cf"; "vol"; "cap"; "art"; "núm"; "pág"; "ed"; "op.cit";
    "Mr"; "Mrs"; "Ms"; "Miss"; "Inc"; "Ltd"; "Corp"; "Co"; "e.g" ]%string.

(** [new RegExp(`\\b${abbrev.replace('.', '\\.')}\\b`, 'gi')]: no entry has
    more than one dot, so every character of it is matched literally. *)
Definition abbrevPattern (abbrev : string) : RegExp :=
  rxi (seqs [WordB; text abbrev; WordB]).

Definition placeholder (protectionCounter : nat) : str :=
  lit "__ABBREV_" ++ ofNat protectionCounter ++ lit "__".

(** Step 2: the text with its abbreviations replaced, the entries of
    [protectionMap] in insertion order, and [protectionCounter]. *)
Definition protect (normalizedText : str) : str * list (str * str) * nat :=
  fold_left
    (fun '(protectedText, protectionMap, protectionCounter) abbrev =>
       let '((protectionMap', protectionCounter'), protectedText') :=
         replaceFold (S (length protectedText)) (abbrevPattern abbrev)
           (fun '(pm, pc) mt => ((pm ++ [(placeholder pc, matched mt)], S pc), placeholder pc))
           (protectionMap, protectionCounter) [] protectedText in
       (protectedText', protectionMap', protectionCounter'))
    abbreviations (normalizedText, [], 0%nat).

(** /([.!?]+)\s+(?=[A-ZÁÉÍÓÚÑÜ¡¿]|$)/g *)
Definition sentencePattern : RegExp :=
  rx (seqs [Group 1 (plus (oneOf ".!?")); plus ws; Ahead (Alt starter Eol)]).

(** The [while] loop over [sentencePattern.exec]: [reLastIndex] is the
    [lastIndex] of the pattern, [lastIndex] the variable of the function.
    Every match is at least two characters long, so the loop ends. *)
Fixpoint execLoop (fuel : nat) (protectedText : str) (reLastIndex lastIndex : nat)
    (sentences : list str) : list str * nat :=
  match fuel with
  | O => (sentences, lastIndex)
  | S fuel' =>
      match execFrom sentencePattern protectedText reLastIndex with
      | None => (sentences, lastIndex)
      | Some mt =>
          let sentenceEnd := (index mt + length (capture 1 mt))%nat in
          let sentence := trim (substring lastIndex sentenceEnd protectedText) in
          execLoop fuel' protectedText (endIndex mt) sentenceEnd
            (match sentence with
             | [] => sentences
             | _ => sentences ++ [sentence]
             end)
      end
  end.

(** /(?<=[.!?])\s+(?=[A-ZÁÉÍÓÚÑÜ¡¿])/ *)
Definition fallbackPattern : RegExp :=
  rx (seqs [BehindCls false (map One (lit ".!?")); plus ws; Ahead starter]).

(** [new RegExp(placeholder, 'g')]: a placeholder is made of letters,
    digits and underscores. *)
Definition restore (protectionMap : list (str * str)) (sentence : str) : str :=
  fold_left
    (fun sentence '(ph, original) =>
       replaceAll (rx (foldr (fun c r => Seq (Chr c) r) Empty ph)) (fun _ => original) sentence)
    protectionMap sentence.

Definition splitSentences (text0 : str) : list str :=
  match trim text0 with
  | [] => []
  | _ =>
      let normalizedText := normalizeTextForTTS text0 in
      let '(protectedText, protectionMap, _) := protect normalizedText in
      let '(sentences, lastIndex) :=
        execLoop (S (length protectedText)) protectedText 0 0 [] in
      let sentences :=
        if (lastIndex <? length protectedText)%nat then
          match trim (drop lastIndex protectedText) with
          | [] => sentences
          | remainingSentence => sentences ++ [remainingSentence]
          end
        else sentences in
      let sentences :=
        match sentences with
        | [] => filter (fun s => trim s <> []) (split fallbackPattern [] protectedText)
        | _ => sentences
        end in
      let processedSentences :=
        fold_left
          (fun processedSentences sentence =>
             let sentence := enhanceSentenceForTTS (restore protectionMap sentence) in
             if (3 <? length sentence)%nat then
               if (400 <? length sentence)%nat
               then processedSentences ++ splitLongSentence sentence
               else processedSentences ++ [sentence]
             else processedSentences)
          sentences [] in
      mergeShortFragments processedSentences
  end.

(** ** The filter applied to the text of a request

    [filterTextSegment] is what [/convert] passes the text through before
    it is split: code blocks are removed, line breaks resolved and the
    replacement rules of the model applied. *)

(** [filterCodeBlocks]: /```[^`\n]*\n.*?```/gs -> ''.  With the [s] flag
    the dot matches every character. *)
Definition anyChar : re := Cls true [].

Definition fence : re := Seq (Chr 96) (Seq (Chr 96) (Chr 96)).

Definition codeBlock : RegExp :=
  rx (seqs [fence; star (Cls true [One 96; One 10]); Chr 10; lazyStar anyChar; fence]).

Definition filterCodeBlocks (text0 : str) : str := replaceAll codeBlock (const "") text0.

(** The steps of [processLineBreaks] that [normalizeTextForTTS] does not
    have. *)
Definition breakAfterMark (t : str) : str :=       (* /([.!?¿¡…])\s*\n/g -> '$1 ' *)
  replaceAll (rx (seqs [Group 1 (oneOf ".!?¿¡…"); star ws; Chr 10]))
    (fun mt => capture 1 mt ++ lit " ") t.
Definition breakBeforeCapital (t : str) : str :=
  (* /([^.!?¿¡…])\s*\n\s*([A-ZÁÉÍÓÚÑÜ])/g -> '$1. $2' *)
  replaceAll (rx (seqs [Group 1 (noneOf ".!?¿¡…"); star ws; Chr 10; star ws; Group 2 upper]))
    (fun mt => capture 1 mt ++ lit ". " ++ capture 2 mt) t.
Definition colons (t : str) : str :=               (* /([a-zA-Z])\s*:\s*/g -> '$1: ' *)
  replaceAll (rx (seqs [Group 1 (Cls false [Range 97 122; Range 65 90]);
                        star ws; Chr 58; star ws]))
    (fun mt => capture 1 mt ++ lit ": ") t.

Definition processLineBreaks (text0 : str) : str :=
  let processedText := paragraphBreaks text0 in
  let processedText := breakAfterMark processedText in
  let processedText := breakBeforeCapital processedText in
  let processedText := lineBreaks processedText in
  let processedText := trim (whitespace processedText) in
  let processedText := colons processedText in
  let processedText := manyDots processedText in
  twoDots processedText.

(** [find.replace(/[.*+?^${}()|[\]\\]/g, '\\$&')] inside [new RegExp]: every
    character of the syntax is escaped, so that the pattern matches the
    characters of [find] one after the other. *)
Definition literally (find : str) : re := foldr (fun c r => Seq (Chr c) r) Empty find.

(** /^\d+$/ *)
Definition onlyDigits : RegExp := rx (seqs [Bol; plus (Cls false [Digit]); Eol]).

(** (?![0-9,]|\.(?!\s)) *)
Definition numberEnd : re :=
  NotAhead (Alt (Cls false [Range 48 57; One 44]) (Seq (Chr 46) (NotAhead ws))).

(** The pattern [applyReplacements] builds for a rule, with the flags
    [gi]: an abbreviation that ends with a full stop, a phrase with a
    space in it, a number, or a single word.  The rules are data of the
    model; the [i] flag is that of [canonicalize], which is the one of
    JavaScript for a rule in the ASCII range whatever the text, and for a
    rule and a text in the Latin-1 range. *)
Definition rulePattern (find : str) : RegExp :=
  if bool_decide (last find = Some 46%N) then rxi (Seq WordB (literally find))
  else if bool_decide (32%N ∈ find) then rxi (seqs [WordB; literally find; WordB])
  else if test onlyDigits find then rxi (seqs [WordB; literally find; numberEnd])
  else rxi (seqs [WordB; literally find; WordB]).

(** What [replace] puts in the place of a match when its second argument is
    a string: [$$] stands for a dollar sign, [$&] for the matched text, [$`]
    for the text before the match and [$'] for the text after it.  The
    patterns of the rules have no capturing group, so that a dollar sign
    before any other character stands for itself. *)
Fixpoint substitution (replacement whole : str) (mt : Match) : str :=
  match replacement with
  | [] => []
  | c :: rest =>
      if (c =? 36)%N then
        match rest with
        | d :: rest' =>
            if (d =? 36)%N then 36%N :: substitution rest' whole mt
            else if (d =? 38)%N then matched mt ++ substitution rest' whole mt
            else if (d =? 96)%N then take (index mt) whole ++ substitution rest' whole mt
            else if (d =? 39)%N then drop (endIndex mt) whole ++ substitution rest' whole mt
            else c :: substitution rest whole mt
        | [] => [c]
        end
      else c :: substitution rest whole mt
  end.

(** One turn of the loop of [applyReplacements]; a rule is a pair
    [[find, replace]] of strings, and a rule with an empty [find] is
    passed over. *)
Definition applyRule (processedText : str) (rule : str * str) : str :=
  match rule.1 with
  | [] => processedText
  | find => replaceAll (rulePattern find) (substitution rule.2 processedText) processedText
  end.

(** [applyReplacements]; the rules of a model that has none are the empty
    list. *)
Definition applyReplacements (text0 : str) (replacements : list (str * str)) : str :=
  match text0, replacements with
  | [], _ => text0
  | _, [] => text0
  | _, _ => fold_left applyRule replacements text0
  end.

(** The rules of a model whose card gives none:
    [[['\n', ' . '], ['*', ''], [')', ',']]]. *)
Definition defaultReplacements : list (str * str) :=
  [ ([10%N], lit " . "); (lit "*", []); (lit ")", lit ",") ].

Definition filterTextSegment (textSegment : str) (modelReplacements : list (str * str)) : str :=
  let text1 := processLineBreaks (filterCodeBlocks textSegment) in
  let text2 := match modelReplacements with
               | [] => text1
               | _ => applyReplacements text1 modelReplacements
               end in
  trim (whitespace text2).

End Text.

(* ===================================================================== *)
(** * The bounded task queue: [class ProcessQueue]                        *)
(* ===================================================================== *)

Module Queue.

(** The message by which a cancellation is told apart from a failure. *)
Definition cancelMessage : string := "Conversion was cancelled".

Section WithTasks.

(** [Task] is the closure handed to [add]; [R] is what a task returns when
    it returns an object ([None] stands for [null]). *)
Context {Task R : Type}.

(** How [await queueItem.task()] ends inside [executeTask]. *)
Inductive TaskOutcome :=
| Returned (value : option R)
| Threw (message : string).

(** How the promise returned by [add] is settled. *)
Inductive Settlement :=
| Fulfilled (value : option R)
| Rejected (message : string).

Record QueueItem := { task : Task; id : string }.

Record ProcessQueue := {
  maxConcurrent : Num.number;
  running : gset string;
  queue : list QueueItem
}.

(** [constructor(maxConcurrent = null)]:
    [this.maxConcurrent = maxConcurrent || Math.min(32, CPU_CORES * 2)];
    [CPU_CORES] is [os.cpus().length], an integer. *)
Definition constructor (maxConcurrent0 : option Num.number) (CPU_CORES : Z) : ProcessQueue :=
  {| maxConcurrent :=
       match maxConcurrent0 with
       | Some m => if Num.truthy m then m else Num.min 32 (CPU_CORES * 2)
       | None => Num.min 32 (CPU_CORES * 2)
       end;
     running := ∅;
     queue := [] |}.

(** The [while] loop of [processQueue]: as long as something is queued and
    [running.size < maxConcurrent], shift the head, add its id to [running]
    and call [executeTask] on it.  The third component lists the items
    [executeTask] was called on, oldest first. *)
Fixpoint processQueue_loop (mc : Num.number) (run : gset string) (q : list QueueItem)
    (started : list QueueItem) : gset string * list QueueItem * list QueueItem :=
  match q with
  | [] => (run, [], started)
  | queueItem :: rest =>
      if Num.lt (Z.of_nat (size run)) mc
      then processQueue_loop mc ({[ id queueItem ]} ∪ run) rest (started ++ [queueItem])
      else (run, q, started)
  end.

Definition processQueue (pq : ProcessQueue) : ProcessQueue * list QueueItem :=
  let '(run, q, started) := processQueue_loop (maxConcurrent pq) (running pq) (queue pq) [] in
  ({| maxConcurrent := maxConcurrent pq; running := run; queue := q |}, started).

(** [Math.max(1, Math.min(32, max))]: a number from 1 to 32, or [NaN]
    when [max] is. *)
Definition clamp (max : Num.number) : Num.number := Num.max 1 (Num.min 32 max).

(** [setMaxConcurrent(max)]:
    [this.maxConcurrent = Math.max(1, Math.min(32, max)); this.processQueue()].
    Nothing rounds [max] or checks that it is a number. *)
Definition setMaxConcurrent (max : Num.number) (pq : ProcessQueue)
  : ProcessQueue * list QueueItem :=
  processQueue {| maxConcurrent := clamp max;
                  running := running pq;
                  queue := queue pq |}.

(** [add(task)]: push the new item, then [processQueue()]. *)
Definition add (queueItem : QueueItem) (pq : ProcessQueue) : ProcessQueue * list QueueItem :=
  processQueue {| maxConcurrent := maxConcurrent pq;
                  running := running pq;
                  queue := queue pq ++ [queueItem] |}.

(** The settlement chosen by [executeTask]: [resolve(result)] on return,
    [resolve(null)] when the error message is the cancellation message,
    [reject(error)] otherwise. *)
Definition settle (o : TaskOutcome) : Settlement :=
  match o with
  | Returned result => Fulfilled result
  | Threw message =>
      if String.eqb message cancelMessage then Fulfilled None else Rejected message
  end.

(** [executeTask] once the awaited task has ended: the id leaves [running]
    on both paths, the promise is settled, and the [finally] block schedules
    one [setImmediate(() => this.processQueue())]. *)
Definition executeTask (queueItem : QueueItem) (o : TaskOutcome) (pq : ProcessQueue)
  : ProcessQueue * Settlement :=
  ({| maxConcurrent := maxConcurrent pq;
      running := running pq ∖ {[ id queueItem ]};
      queue := queue pq |},
   settle o).

Record Status := { st_maxConcurrent : Num.number; st_running : nat; st_queued : nat }.

Definition getStatus (pq : ProcessQueue) : Status :=
  {| st_maxConcurrent := maxConcurrent pq;
     st_running := size (running pq);
     st_queued := length (queue pq) |}.

(** ** The queue inside the event loop

    Besides the three fields of the object, the runtime holds the calls of
    [executeTask] that are suspended at their [await] ([executing]), the
    promises already settled ([settled]) and the number of [setImmediate]
    callbacks not yet run ([immediates]). *)
Record Runtime := {
  pq : ProcessQueue;
  executing : list QueueItem;
  settled : list (QueueItem * Settlement);
  immediates : nat
}.

Inductive Event :=
| EAdd (queueItem : QueueItem)            (* a caller invokes [add] *)
| ESettle (i : nat) (o : TaskOutcome)     (* the i-th suspended task ends *)
| EImmediate                              (* a scheduled callback runs *)
| ESetMax (max : Num.number).             (* a caller invokes [setMaxConcurrent] *)

Definition boot (maxConcurrent0 : option Num.number) (CPU_CORES : Z) : Runtime :=
  {| pq := constructor maxConcurrent0 CPU_CORES;
     executing := []; settled := []; immediates := 0 |}.

(** One step of the event loop; [None] when the event cannot happen in this
    state (no such suspended task, no callback scheduled). *)
Definition step (rt : Runtime) (e : Event) : option Runtime :=
  match e with
  | EAdd queueItem =>
      let '(pq', started) := add queueItem (pq rt) in
      Some {| pq := pq'; executing := executing rt ++ started;
              settled := settled rt; immediates := immediates rt |}
  | ESettle i o =>
      match executing rt !! i with
      | Some queueItem =>
          let '(pq', s) := executeTask queueItem o (pq rt) in
          Some {| pq := pq'; executing := delete i (executing rt);
                  settled := settled rt ++ [(queueItem, s)];
                  immediates := S (immediates rt) |}
      | None => None
      end
  | EImmediate =>
      match immediates rt with
      | O => None
      | S n =>
          let '(pq', started) := processQueue (pq rt) in
          Some {| pq := pq'; executing := executing rt ++ started;
                  settled := settled rt; immediates := n |}
      end
  | ESetMax max =>
      let '(pq', started) := setMaxConcurrent max (pq rt) in
      Some {| pq := pq'; executing := executing rt ++ started;
              settled := settled rt; immediates := immediates rt |}
  end.

Fixpoint run (rt : Runtime) (tr : list Event) : option Runtime :=
  match tr with
  | [] => Some rt
  | e :: tr' => match step rt e with
                | Some rt' => run rt' tr'
                | None => None
                end
  end.

End WithTasks.

Arguments TaskOutcome : clear implicits.
Arguments Settlement : clear implicits.
Arguments QueueItem : clear implicits.
Arguments ProcessQueue : clear implicits.
Arguments Runtime : clear implicits.
Arguments Event : clear implicits.

End Queue.

(* ===================================================================== *)
(** * Conversion sessions: [activeConversions] and its handlers           *)
(* ===================================================================== *)

Module Session.

Import Queue.

(** A child process handle, as far as the server looks at it. *)
Record ChildProcess := { pid : nat; killed : bool }.

(** The object handed to [progressCallback], and the one the status
    request puts in its place before the first callback, which has no
    [currentSentence]. *)
Record Progress := {
  p_completed : nat;
  p_total : nat;
  p_percentage : Num.number;
  p_currentSentence : option nat
}.

(** [Math.round((completedCount / sentences.length) * 100)]: the quotient
    and the product are those of the floats, each rounded to nearest. *)
Definition percentage (completedCount total : nat) : Num.number :=
  Num.round (Num.mul (Num.div (Num.ofInt (Z.of_nat completedCount))
                               (Num.ofInt (Z.of_nat total)))
                     (Num.ofInt 100)).

Record Result := {
  audio : string;            (* the base64 payload after "data:audio/mpeg;base64," *)
  model : string;
  sentenceCount : nat
}.

(** One entry of [activeConversions].  A field the code leaves [undefined]
    until it assigns it is [None], or [false] for the flags it only ever
    sets to [true]. *)
Record Conversion := {
  id : string;
  cancelled : bool;
  processes : list ChildProcess;
  startTime : Z;
  totalSentences : nat;
  progress : option Progress;
  lastUpdate : option Z;
  completed : bool;
  result : option Result;
  completedAt : option Z;
  error : option string;
  failed : bool;
  cancelledAt : option Z
}.

(** The entry stored by [/convert]. *)
Definition newConversion (conversionId : string) (now : Z) (n : nat) : Conversion :=
  {| id := conversionId; cancelled := false; processes := []; startTime := now;
     totalSentences := n; progress := None; lastUpdate := None; completed := false;
     result := None; completedAt := None; error := None; failed := false;
     cancelledAt := None |}.

(** ** [GET /conversion-status/:id] *)

Record Snapshot := {
  s_id : string;
  s_cancelled : bool;
  s_completed : bool;
  s_failed : bool;
  s_progress : Progress;
  s_result : option Result;
  s_error : option string;
  s_startTime : Z;
  s_lastUpdate : Z
}.

(** [conversion.error || null]: the empty message is falsy. *)
Definition orNull (e : option string) : option string :=
  match e with
  | Some EmptyString => None
  | _ => e
  end.

Definition snapshot (conversion : Conversion) : Snapshot :=
  {| s_id := id conversion;
     s_cancelled := cancelled conversion;
     s_completed := completed conversion;
     s_failed := failed conversion;
     s_progress :=
       match progress conversion with
       | Some p => p
       | None => {| p_completed := 0; p_total := totalSentences conversion;
                    p_percentage := 0; p_currentSentence := None |}
       end;
     s_result := result conversion;
     s_error := orNull (error conversion);
     s_startTime := startTime conversion;
     s_lastUpdate := match lastUpdate conversion with
                     | Some t => t
                     | None => startTime conversion
                     end |}.

(** [None] is the 404 answer. *)
Definition conversionStatus (conversionId : string)
    (activeConversions : gmap string Conversion) : option Snapshot :=
  snapshot <$> activeConversions !! conversionId.

(** ** [POST /cancel-conversion/:id] *)

Inductive CancelResponse :=
| NotFound                      (* 404, success: false *)
| AlreadyCompleted              (* success: false, 'Conversion already completed' *)
| Accepted.                     (* success: true,  'Conversion cancelled' *)

Definition success (r : CancelResponse) : bool :=
  match r with Accepted => true | _ => false end.

(** Field updates, one for each group of assignments in the source. *)
Definition markCancelled (now : Z) (c : Conversion) : Conversion :=
  {| id := id c; cancelled := true; processes := processes c;
     startTime := startTime c; totalSentences := totalSentences c;
     progress := progress c; lastUpdate := lastUpdate c; completed := completed c;
     result := result c; completedAt := completedAt c; error := error c;
     failed := failed c; cancelledAt := Some now |}.

Definition setProcesses (ps : list ChildProcess) (c : Conversion) : Conversion :=
  {| id := id c; cancelled := cancelled c; processes := ps;
     startTime := startTime c; totalSentences := totalSentences c;
     progress := progress c; lastUpdate := lastUpdate c; completed := completed c;
     result := result c; completedAt := completedAt c; error := error c;
     failed := failed c; cancelledAt := cancelledAt c |}.

Definition markFailed (message : string) (c : Conversion) : Conversion :=
  {| id := id c; cancelled := cancelled c; processes := processes c;
     startTime := startTime c; totalSentences := totalSentences c;
     progress := progress c; lastUpdate := lastUpdate c; completed := completed c;
     result := result c; completedAt := completedAt c; error := Some message;
     failed := true; cancelledAt := cancelledAt c |}.

Definition markCompleted (r : Result) (now : Z) (c : Conversion) : Conversion :=
  {| id := id c; cancelled := cancelled c; processes := processes c;
     startTime := startTime c; totalSentences := totalSentences c;
     progress := progress c; lastUpdate := lastUpdate c; completed := true;
     result := Some r; completedAt := Some now; error := error c;
     failed := failed c; cancelledAt := cancelledAt c |}.

Definition setProgress (p : Progress) (now : Z) (c : Conversion) : Conversion :=
  {| id := id c; cancelled := cancelled c; processes := processes c;
     startTime := startTime c; totalSentences := totalSentences c;
     progress := Some p; lastUpdate := Some now; completed := completed c;
     result := result c; completedAt := completedAt c; error := error c;
     failed := failed c; cancelledAt := cancelledAt c |}.

(** The handler returns its answer, the map after it, and the handles it
    called [kill('SIGKILL')] on (those whose [killed] flag was not set). *)
Definition cancelConversion (conversionId : string) (now : Z)
    (activeConversions : gmap string Conversion)
  : CancelResponse * gmap string Conversion * list ChildProcess :=
  match activeConversions !! conversionId with
  | None => (NotFound, activeConversions, [])
  | Some conversion =>
      if completed conversion then (AlreadyCompleted, activeConversions, [])
      else
        (Accepted,
         <[ conversionId := setProcesses [] (markCancelled now conversion) ]> activeConversions,
         filter (fun p => killed p = false) (processes conversion))
  end.

(** ** The periodic sweep *)

Definition maxAge : Z := 5 * 60 * 1000.

Definition swept (now : Z) (conversion : Conversion) : bool :=
  (maxAge <? now - startTime conversion)
  && (completed conversion || failed conversion || cancelled conversion).

Definition cleanup (now : Z) (activeConversions : gmap string Conversion)
  : gmap string Conversion :=
  filter (fun kv => swept now kv.2 = false) activeConversions.

(** ** The background job of one conversion

    [processConversionInBackground] and [generateAudioParallel] run between
    the events of the loop.  A job is at one of four places: its sentence
    tasks are under way, or it awaits [concatenateAudio], or it awaits
    [convertToMp3] and [readFile], or it has returned. *)

Record SentenceResult := { index : nat; audioFile : string; sentence : Js.str }.

Inductive TaskState :=
| Waiting                                        (* in the queue *)
| Synthesising (outputFile : string)             (* inside [generateAudio] *)
| Settled (s : Settlement SentenceResult).       (* its promise is settled *)

Inductive Stage :=
| Parallel (tasks : list TaskState) (completedCount : nat)
| Concatenating (audioFiles : list string)
| Encoding (finalAudioPath : string)
| Finished.

Record Job := {
  sentences : list Js.str;
  modelName : string;
  stage : Stage
}.

Definition withStage (st : Stage) (j : Job) : Job :=
  {| sentences := sentences j; modelName := modelName j; stage := st |}.

(** [sentences.filter(s => s.trim())] *)
Definition validSentences (j : Job) : list Js.str :=
  filter (fun s => Js.trim s <> []) (sentences j).

(** The job as [/convert] starts it: one task for each valid sentence, all
    of them waiting in the queue, and none completed. *)
Definition newJob (sentences0 : list Js.str) (modelName0 : string) : Job :=
  {| sentences := sentences0; modelName := modelName0;
     stage := Parallel (replicate (length (filter (fun s => Js.trim s <> []) sentences0))
                          Waiting) 0 |}.

(** [activeConversions.has(id) && activeConversions.get(id).cancelled] and
    [!activeConversions.has(id) || activeConversions.get(id).cancelled], on
    the result of the lookup. *)
Definition isCancelled (entry : option Conversion) : bool :=
  match entry with
  | Some c => cancelled c
  | None => false
  end.

Definition goneOrCancelled (entry : option Conversion) : bool :=
  match entry with
  | Some c => cancelled c
  | None => true
  end.

(** [Array.prototype.sort] with a comparator: a stable sort. *)
Fixpoint insertBy {A} (cmp : A -> A -> Z) (x : A) (l : list A) : list A :=
  match l with
  | [] => [x]
  | y :: l' => if cmp x y <=? 0 then x :: l else y :: insertBy cmp x l'
  end.

Definition sortBy {A} (cmp : A -> A -> Z) (l : list A) : list A :=
  foldr (insertBy cmp) [] l.

(** The entries of [Promise.allSettled] that are fulfilled with a value
    other than [null], in the order of the task promises. *)
Definition successfulResults (results : list (Settlement SentenceResult))
  : list SentenceResult :=
  omap (fun r => match r with
                 | Fulfilled (Some v) => Some v
                 | _ => None
                 end) results.

(** [generateAudioParallel] from [Promise.allSettled] on: the message it
    throws, or the list it returns. *)
Definition generateAudioParallel (results : list (Settlement SentenceResult))
    (cancelledNow : bool) : string + list string :=
  if cancelledNow then inl cancelMessage
  else if (length (successfulResults results) =? 0)%nat
       then inl "No sentences were processed successfully"%string
       else inr (map audioFile
                   (sortBy (fun a b => Z.of_nat (index a) - Z.of_nat (index b))
                      (successfulResults results))).

(** The [catch] block of [processConversionInBackground]: what it does to
    the entry of the conversion, when there is one. *)
Definition catchBlock (message : string) (now : Z) (conv : Conversion) : Conversion :=
  if String.eqb message cancelMessage
  then markCancelled now conv
  else markFailed message conv.

(** The exit code in the message of [generateAudio]: [null] when the process
    was ended by a signal. *)
Definition showCode (code : option Z) : string :=
  match code with
  | Some z => NilZero.string_of_int (Z.to_int z)
  | None => "null"
  end.

Definition piperFailed (code : option Z) (stderr : string) : string :=
  ("Piper failed with code " ++ showCode code ++ ": " ++ stderr)%string.

Record Server := {
  activeConversions : gmap string Conversion;
  jobs : gmap string Job
}.

(** How [concatenateAudio], and [convertToMp3] followed by [readFile],
    fail: FFmpeg closes with a code other than 0 or without its output
    file; FFmpeg does not start, and the [error] event carries a message;
    or a call of the runtime throws ([writeFileSync], [spawn],
    [readFile]).  The message of an error of the runtime is never empty
    (as in [ENOENT: no such file or directory, open ...]): it is given by
    its first character and the rest. *)
Inductive Failure :=
| Closed (code : option Z) (stderr : string)
| NotStarted (message : string)
| Thrown (first : ascii) (rest : string).

(** The message of the error that [concatenateAudio] rejects with. *)
Definition concatFailed (f : Failure) : string :=
  match f with
  | Closed code stderr =>
      ("FFmpeg concatenation failed with code " ++ showCode code ++ ". Stderr: " ++ stderr)%string
  | NotStarted message => ("Failed to start FFmpeg process: " ++ message)%string
  | Thrown first rest => String first rest
  end.

(** The message of the error that [convertToMp3] or [readFile] rejects
    with. *)
Definition mp3Failed (f : Failure) : string :=
  match f with
  | Closed code stderr =>
      ("FFmpeg process failed with code " ++ showCode code ++ ". Stderr: " ++ stderr)%string
  | NotStarted message => ("Failed to start FFmpeg process: " ++ message)%string
  | Thrown first rest => String first rest
  end.

(** What can happen to the job of one conversion.  In [ConcatCloses] and
    [Mp3Read] the left injection is the failure behind a rejection, the
    right one the value: the concatenated file, the base64 text of the
    MP3. *)
Inductive JobEvent :=
| TaskStarts (i : nat) (proc : ChildProcess) (outputFile : string)
| PiperCloses (i : nat) (code : option Z) (stderr : string) (now : Z)
| PiperErrors (i : nat) (message : string)
| AllSettled (now : Z)
| ConcatCloses (r : Failure + string) (now : Z)
| Mp3Read (r : Failure + string) (now : Z).

Inductive Event :=
| Convert (conversionId : string) (sentences : list Js.str) (modelName : string) (now : Z)
| OnJob (conversionId : string) (e : JobEvent)
| Cancel (conversionId : string) (now : Z)
| Cleanup (now : Z).

Definition allSettled (tasks : list TaskState) : option (list (Settlement SentenceResult)) :=
  mapM (fun t => match t with Settled s => Some s | _ => None end) tasks.

Definition unchanged : Conversion -> Conversion := fun c => c.

(** What follows a value returned by [generateAudioParallel], up to the next
    [await], [return] or [throw]. *)
Definition afterParallel (audioFiles : list string) (now : Z) (entry : option Conversion)
  : Stage * (Conversion -> Conversion) :=
  if goneOrCancelled entry then (Finished, unchanged)
  else match audioFiles with
       | [] => (Finished, catchBlock "Failed to generate any audio" now)
       | [finalAudioPath] => (Encoding finalAudioPath, unchanged)
       | _ => (Concatenating audioFiles, unchanged)
       end.

(** The reaction of a job to an event, given the entry of its conversion in
    [activeConversions] ([None] when the sweep has removed it): the place
    the job moves to and what it assigns to the fields of the entry; no
    reaction when the event cannot happen at this place.  The first three
    events run the closure of [createSentenceTask] around [generateAudio],
    followed by [executeTask]; [AllSettled] runs [generateAudioParallel]
    from [Promise.allSettled] on and [processConversionInBackground] up to
    its next [await]; the last two run the rest of
    [processConversionInBackground]. *)
Definition react (e : JobEvent) (j : Job) (entry : option Conversion)
  : option (Stage * (Conversion -> Conversion)) :=
  match e, stage j with
  | TaskStarts i proc outputFile, Parallel tasks completedCount =>
      match tasks !! i with
      | Some Waiting =>
          if isCancelled entry
          then Some (Parallel (<[ i := Settled (settle (Threw cancelMessage)) ]> tasks)
                       completedCount, unchanged)
          else Some (Parallel (<[ i := Synthesising outputFile ]> tasks) completedCount,
                     fun conversion => setProcesses (processes conversion ++ [proc]) conversion)
      | _ => None
      end
  | PiperCloses i code stderr now, Parallel tasks completedCount =>
      match tasks !! i, validSentences j !! i with
      | Some (Synthesising outputFile), Some sentence0 =>
          if isCancelled entry
          then Some (Parallel (<[ i := Settled (settle (Threw cancelMessage)) ]> tasks)
                       completedCount, unchanged)
          else
            match code with
            | Some 0 =>
                let completedCount' := S completedCount in
                let total := length (validSentences j) in
                let p := {| p_completed := completedCount'; p_total := total;
                            p_percentage := percentage completedCount' total;
                            p_currentSentence := Some (S i) |} in
                let r := {| index := i; audioFile := outputFile; sentence := sentence0 |} in
                Some (Parallel (<[ i := Settled (settle (Returned (Some r))) ]> tasks)
                        completedCount', setProgress p now)
            | _ =>
                Some (Parallel
                        (<[ i := Settled (settle (Threw (piperFailed code stderr))) ]> tasks)
                        completedCount, unchanged)
            end
      | _, _ => None
      end
  | PiperErrors i message, Parallel tasks completedCount =>
      match tasks !! i with
      | Some (Synthesising _) =>
          Some (Parallel (<[ i := Settled (settle (Threw message)) ]> tasks) completedCount,
                unchanged)
      | _ => None
      end
  | AllSettled now, Parallel tasks _ =>
      match allSettled tasks with
      | Some results =>
          match generateAudioParallel results (isCancelled entry) with
          | inl message => Some (Finished, catchBlock message now)
          | inr audioFiles => Some (afterParallel audioFiles now entry)
          end
      | None => None
      end
  | ConcatCloses r now, Concatenating _ =>
      match r with
      | inl failure => Some (Finished, catchBlock (concatFailed failure) now)
      | inr finalAudioPath =>
          if goneOrCancelled entry then Some (Finished, unchanged)
          else Some (Encoding finalAudioPath, unchanged)
      end
  | Mp3Read r now, Encoding _ =>
      match r with
      | inl failure => Some (Finished, catchBlock (mp3Failed failure) now)
      | inr audioBase64 =>
          Some (Finished,
                fun conv =>
                  if cancelled conv then conv
                  else markCompleted {| audio := audioBase64; model := modelName j;
                                        sentenceCount := length (sentences j) |} now conv)
      end
  | _, _ => None
  end.

(** One step of the server; [None] when the event cannot happen in this
    state.  [/convert] draws an id that was not used before and refuses an
    empty list of sentences. *)
Definition step (sv : Server) (e : Event) : option Server :=
  let m := activeConversions sv in
  match e with
  | Convert conversionId sentences0 modelName0 now =>
      match jobs sv !! conversionId, m !! conversionId, sentences0 with
      | None, None, _ :: _ =>
          Some {| activeConversions :=
                    <[ conversionId := newConversion conversionId now (length sentences0) ]> m;
                  jobs := <[ conversionId := newJob sentences0 modelName0 ]> (jobs sv) |}
      | _, _, _ => None
      end
  | OnJob conversionId e' =>
      match jobs sv !! conversionId with
      | Some j =>
          match react e' j (m !! conversionId) with
          | Some (st, f) =>
              Some {| activeConversions := alter f conversionId m;
                      jobs := <[ conversionId := withStage st j ]> (jobs sv) |}
          | None => None
          end
      | None => None
      end
  | Cancel conversionId now =>
      Some {| activeConversions := (cancelConversion conversionId now m).1.2;
              jobs := jobs sv |}
  | Cleanup now =>
      Some {| activeConversions := cleanup now m; jobs := jobs sv |}
  end.

Fixpoint run (sv : Server) (tr : list Event) : option Server :=
  match tr with
  | [] => Some sv
  | e :: tr' => match step sv e with
                | Some sv' => run sv' tr'
                | None => None
                end
  end.

Definition boot : Server := {| activeConversions := ∅; jobs := ∅ |}.

End Session.

(* ===================================================================== *)
(** * The thread settings: [userSettings] and [settings.json]             *)
(* ===================================================================== *)

(** [loadUserSettings], [saveUserSettings], the handler of [POST /settings]
    and the first lines of [generateAudioParallel] keep three things in
    step: the object [userSettings], the ceiling of the queue and the file
    [settings.json].  A thread count is whatever number the file or the
    request holds: the settings panel sends integers, but the server
    takes fractions as well, and a file edited by hand can make the count
    [NaN]. *)

Module Settings.

Import Queue.

Section WithTasks.

Context {Task : Type}.

Record UserSettings := { maxThreads : Num.number; autoDetectThreads : bool }.

(** The [threads] object of the file, as [loadUserSettings] reads it:
    [autoDetectThreads] is whether the field is the boolean [true];
    [maxThreads] is [None] when the field is missing or falsy ([null],
    [false], [0], the empty string), and otherwise the number that
    [Math.min] makes of it: the number itself, 5 for the string ['5'],
    [NaN] for a string such as ['abc'] or for an object. *)
Record Threads := { t_autoDetectThreads : bool; t_maxThreads : option Num.number }.

(** What the server finds at [settingsPath]. *)
Inductive SettingsFile :=
| Missing                              (* [pathExists] answers false *)
| Unreadable                           (* [readJson] throws, or the file holds [null] *)
| Json (threads : option Threads).     (* the parsed file and its [threads], if truthy *)

(** How [writeJson] ends: the file holds what was written, or the error is
    caught and the file is left as the failed write left it. *)
Inductive WriteOutcome :=
| Written
| WriteFailed (leftover : SettingsFile).

Record State := {
  userSettings : UserSettings;
  processQueue : ProcessQueue Task;
  file : SettingsFile
}.

(** The state the module starts in:
    [userSettings = { maxThreads: processQueue.maxConcurrent,
                      autoDetectThreads: true }]. *)
Definition boot (CPU_CORES : Z) (file0 : SettingsFile) : State :=
  {| userSettings := {| maxThreads := maxConcurrent (constructor (Task:=Task) None CPU_CORES);
                        autoDetectThreads := true |};
     processQueue := constructor None CPU_CORES;
     file := file0 |}.

(** The lines shared by [loadUserSettings] and [POST /settings]: in
    automatic mode the queue is given twice the number of cores and
    [userSettings.maxThreads] takes that number, otherwise the queue is
    given [userSettings.maxThreads].  The second component lists the tasks
    [setMaxConcurrent] starts. *)
Definition applyThreads (CPU_CORES : Z) (us : UserSettings) (q : ProcessQueue Task)
  : UserSettings * ProcessQueue Task * list (QueueItem Task) :=
  if autoDetectThreads us then
    let autoThreads := Num.ofZ (CPU_CORES * 2) in
    let '(q', started) := setMaxConcurrent autoThreads q in
    ({| maxThreads := autoThreads; autoDetectThreads := true |}, q', started)
  else
    let '(q', started) := setMaxConcurrent (maxThreads us) q in
    (us, q', started).

(** A number as [writeJson] writes it and [readJson] reads it back: [NaN]
    and the infinities are written as [null], and [null] and zero are
    falsy when read. *)
Definition written (x : Num.number) : option Num.number :=
  if Num.isFinite x && Num.truthy x then Some x else None.

(** [saveUserSettings] *)
Definition saveUserSettings (o : WriteOutcome) (st : State) : State :=
  {| userSettings := userSettings st;
     processQueue := processQueue st;
     file := match o with
             | Written =>
                 Json (Some {| t_autoDetectThreads := autoDetectThreads (userSettings st);
                               t_maxThreads := written (maxThreads (userSettings st)) |})
             | WriteFailed leftover => leftover
             end |}.

(** [settings.threads.maxThreads || 1], as a number *)
Definition orOne (n : option Num.number) : Num.number :=
  match n with
  | Some n => n
  | None => 1
  end.

(** [loadUserSettings]; [o] is the outcome of the write it does when there
    is no file. *)
Definition loadUserSettings (CPU_CORES : Z) (o : WriteOutcome) (st : State)
  : State * list (QueueItem Task) :=
  match file st with
  | Json (Some threads) =>
      let us := {| maxThreads := clamp (orOne (t_maxThreads threads));
                   autoDetectThreads := t_autoDetectThreads threads |} in
      let '(us', q', started) := applyThreads CPU_CORES us (processQueue st) in
      ({| userSettings := us'; processQueue := q'; file := file st |}, started)
  | Json None => (st, [])
  | Unreadable => (st, [])
  | Missing =>
      let '(q', started) := setMaxConcurrent 1 (processQueue st) in
      (saveUserSettings o
         {| userSettings := {| maxThreads := 1; autoDetectThreads := false |};
            processQueue := q'; file := file st |},
       started)
  end.

(** The body of [POST /settings]: a field is [None] unless it has the type
    the handler asks for ([typeof maxThreads === 'number'],
    [typeof autoDetectThreads === 'boolean']). *)
Record SettingsRequest := {
  r_maxThreads : option Num.number;
  r_autoDetectThreads : option bool
}.

Definition postSettings (CPU_CORES : Z) (req : SettingsRequest) (o : WriteOutcome) (st : State)
  : State * list (QueueItem Task) :=
  let us := userSettings st in
  let us := match r_autoDetectThreads req with
            | Some b => {| maxThreads := maxThreads us; autoDetectThreads := b |}
            | None => us
            end in
  let us := match r_maxThreads req with
            | Some n => if Num.lt 0 n
                        then {| maxThreads := clamp n; autoDetectThreads := autoDetectThreads us |}
                        else us
            | None => us
            end in
  let '(us', q', started) := applyThreads CPU_CORES us (processQueue st) in
  (saveUserSettings o {| userSettings := us'; processQueue := q'; file := file st |}, started).

(** The first lines of [generateAudioParallel]: the settings are loaded
    and the ceiling is set once more, this time without touching
    [userSettings]. *)
Definition forceThreads (CPU_CORES : Z) (o : WriteOutcome) (st : State)
  : State * list (QueueItem Task) :=
  let '(st1, started1) := loadUserSettings CPU_CORES o st in
  let '(q', started2) :=
    setMaxConcurrent (if autoDetectThreads (userSettings st1)
                      then Num.ofZ (CPU_CORES * 2) else maxThreads (userSettings st1))
      (processQueue st1) in
  ({| userSettings := userSettings st1; processQueue := q'; file := file st1 |},
   started1 ++ started2).

(** What happens to the settings while the server runs: a request or a
    conversion loads them ([GET /settings], [/convert], [startServer]), the
    panel posts new ones, a conversion forces them on the queue, and the
    user edits or removes the file.  (Adding and finishing tasks leaves
    the ceiling of the queue as it is.) *)
Inductive Event :=
| Load (o : WriteOutcome)
| Post (req : SettingsRequest) (o : WriteOutcome)
| Force (o : WriteOutcome)
| Edit (f : SettingsFile).

Definition step (CPU_CORES : Z) (st : State) (e : Event) : State :=
  match e with
  | Load o => (loadUserSettings CPU_CORES o st).1
  | Post req o => (postSettings CPU_CORES req o st).1
  | Force o => (forceThreads CPU_CORES o st).1
  | Edit f => {| userSettings := userSettings st; processQueue := processQueue st; file := f |}
  end.

Definition run (CPU_CORES : Z) (st : State) (tr : list Event) : State :=
  fold_left (step CPU_CORES) tr st.

End WithTasks.

Arguments State : clear implicits.

End Settings.

(* ===================================================================== *)
(** * The port of the server: [findAvailablePort]                        *)
(* ===================================================================== *)

(** [startServer] looks for a port from 3000 on. *)

Module Ports.

(** How [server.listen(port)] ends for a port in 1..65535: the server
    listens (on that port), or its ['error'] event carries the code [EADDRINUSE] or
    another one. *)
Inductive ListenOutcome :=
| Listening
| AddrInUse
| OtherError (code : string).

(** How the promise of [findAvailablePort] is settled. *)
Inductive PortResult :=
| Resolved (port : Z)
| Rejected (code : string).

(** [findAvailablePort(port)] with [remaining] ports left up to 65535:
    when the port is in use the next one is tried; past the last port
    [listen] throws a range error, which rejects the promise. *)
Fixpoint findFrom (remaining : nat) (port : Z) (listen : Z -> ListenOutcome) : PortResult :=
  match remaining with
  | O => Rejected "ERR_SOCKET_BAD_PORT"
  | S remaining' =>
      match listen port with
      | Listening => Resolved port
      | AddrInUse => findFrom remaining' (port + 1) listen
      | OtherError code => Rejected code
      end
  end.

Definition findAvailablePort (startPort : Z) (listen : Z -> ListenOutcome) : PortResult :=
  findFrom (Z.to_nat (65536 - startPort)) startPort listen.

End Ports.


(* ===================================================================== *)
(** * The vocabulary of the properties                                    *)
(* ===================================================================== *)

(** The predicates in which the properties below are stated and proved,
    and the sample runs on which they are tried. *)

Section QueueVocabulary.

Import Queue.

Context {Task R : Type}.

(** The number of tasks recorded as running, as [getStatus] reports it. *)
Definition runningCount (rt : Runtime Task R) : Z := Z.of_nat (size (running (pq rt))).

(** A trace never lowers the ceiling under the tasks that are running: each
    [setMaxConcurrent(max)] in it is issued when [running.size] is at most
    the clamped [max] (which is then a number). *)
Fixpoint neverLoweredBelowRunning (rt : Runtime Task R) (tr : list (Event Task R)) : Prop :=
  match tr with
  | [] => True
  | e :: tr' =>
      match e with
      | ESetMax max => Num.le (runningCount rt) (clamp max) = true
      | _ => True
      end /\
      match step rt e with
      | Some rt' => neverLoweredBelowRunning rt' tr'
      | None => True
      end
  end.

(** The ceiling lets no task in at the hard cap: [n < ceiling] fails from
    32 on. *)
Definition capped (ceiling : Num.number) : Prop :=
  forall n : Z, Num.lt n ceiling = true -> n < 32.

(** The ids of a list of queue items. *)
Definition ids (l : list (QueueItem Task)) : list string := Queue.id <$> l.

(** The ids drawn for the tasks that a trace adds. *)
Definition addedIds (tr : list (Event Task R)) : list string :=
  omap (fun e => match e with EAdd item => Some (Queue.id item) | _ => None end) tr.

(** The ids of the tasks being executed and of those queued are pairwise
    different and different from the ids still to be drawn, and [running]
    holds exactly the ids of the tasks being executed. *)
Definition tidy (rt : Runtime Task R) (future : list string) : Prop :=
  NoDup (ids (executing rt) ++ ids (queue (pq rt)) ++ future) /\
  running (pq rt) = list_to_set (ids (executing rt)).

End QueueVocabulary.

(** A queue item with a given id. *)
Definition anItem (i : string) : Queue.QueueItem unit := {| Queue.task := tt; Queue.id := i |}.

(** A run on a machine with two cores: four tasks are added, then the
    ceiling is lowered to one. *)
Definition loweringTrace : list (Queue.Event unit unit) :=
  [ Queue.EAdd (anItem "a"); Queue.EAdd (anItem "b"); Queue.EAdd (anItem "c");
    Queue.EAdd (anItem "d"); Queue.ESetMax 1 ].

(** A run with a ceiling that is no integer: [setMaxConcurrent(2.5)], then
    three tasks are added. *)
Definition fractionalTrace : list (Queue.Event unit unit) :=
  [ Queue.ESetMax (Num.Fin (5 # 2)); Queue.EAdd (anItem "a"); Queue.EAdd (anItem "b");
    Queue.EAdd (anItem "c") ].

(** A run that raises the ceiling and lets tasks complete. *)
Definition raisingTrace : list (Queue.Event unit unit) :=
  [ Queue.ESetMax 1; Queue.EAdd (anItem "a"); Queue.EAdd (anItem "b");
    Queue.ESetMax 2; Queue.EAdd (anItem "c");
    Queue.ESettle 0 (Queue.Returned None); Queue.EImmediate ].

Section SessionVocabulary.

Import Queue Session.

(** The states a session is said to be in. *)
Definition isCompleted (c : Conversion) : Prop := completed c = true.
Definition isFailed (c : Conversion) : Prop := failed c = true.
Definition isCancelledState (c : Conversion) : Prop := cancelled c = true.
Definition isTerminal (c : Conversion) : Prop :=
  completed c = true \/ failed c = true \/ cancelled c = true.
Definition isRunning (c : Conversion) : Prop :=
  completed c = false /\ failed c = false /\ cancelled c = false.

(** What a reachable entry looks like: the result is there exactly when the
    session is completed, the error exactly when it is failed; a completed
    session is neither failed nor cancelled; and neither flag is set while
    the job has not returned. *)
Definition sessionInv (c : Conversion) (st : Stage) : Prop :=
  (completed c = true <-> is_Some (result c)) /\
  (failed c = true <-> is_Some (error c)) /\
  (completed c = true -> failed c = false /\ cancelled c = false) /\
  (st <> Finished -> completed c = false /\ failed c = false).

Definition registryInv (sv : Server) : Prop :=
  forall i c, activeConversions sv !! i = Some c ->
    exists j, jobs sv !! i = Some j /\ sessionInv c (stage j).

(** The error of an entry, when there is one, has a message. *)
Definition populated (c : Conversion) : Prop := error c <> Some EmptyString.

Definition messagesInv (sv : Server) : Prop :=
  forall i c, activeConversions sv !! i = Some c -> populated c.

(** The comparator of [generateAudioParallel], [(a, b) => a.index - b.index],
    and the order it sorts into. *)
Definition cmpIndex (a b : SentenceResult) : Z := Z.of_nat (index a) - Z.of_nat (index b).

Definition byIndex (a b : SentenceResult) : Prop := (index a < index b)%nat.

Definition upToIndex (a b : SentenceResult) : Prop := (index a <= index b)%nat.

(** The promise of the task at position [i] is fulfilled only with a result
    whose [index] is [i]. *)
Definition jobInv (j : Job) : Prop :=
  match stage j with
  | Parallel tasks _ =>
      forall i r, tasks !! i = Some (Settled (Fulfilled (Some r))) -> index r = i
  | _ => True
  end.

Definition jobsInv (sv : Server) : Prop :=
  forall i j, jobs sv !! i = Some j -> jobInv j.

End SessionVocabulary.

(** Two child processes. *)
Definition piper1 : Session.ChildProcess := {| Session.pid := 4711; Session.killed := false |}.

Definition piper2 : Session.ChildProcess := {| Session.pid := 4712; Session.killed := false |}.

(** A conversion of one sentence whose synthesis exits with code 1. *)
Definition failingTrace : list Session.Event :=
  [ Session.Convert "f00d" [Js.lit "Hola mundo."] "voz" 0;
    Session.OnJob "f00d" (Session.TaskStarts 0 piper1 "tts_01.wav");
    Session.OnJob "f00d" (Session.PiperCloses 0 (Some 1) "" 900);
    Session.OnJob "f00d" (Session.AllSettled 901) ].

(** A conversion of one sentence whose encoding fails: FFmpeg exits with
    code 1 and has written nothing to its error stream. *)
Definition encodingFailsTrace : list Session.Event :=
  [ Session.Convert "dead" [Js.lit "Hola mundo."] "voz" 0;
    Session.OnJob "dead" (Session.TaskStarts 0 piper1 "tts_01.wav");
    Session.OnJob "dead" (Session.PiperCloses 0 (Some 0) "" 900);
    Session.OnJob "dead" (Session.AllSettled 901);
    Session.OnJob "dead" (Session.Mp3Read (inl (Session.Closed (Some 1) "")) 950) ].

Definition encodingFailedServer : Session.Server :=
  Eval vm_compute in default Session.boot (Session.run Session.boot encodingFailsTrace).

Definition encodingFailedSnapshot : Session.Snapshot :=
  Eval vm_compute in
    default (Session.snapshot (Session.newConversion "" 0 0))
      (Session.conversionStatus "dead" (Session.activeConversions encodingFailedServer)).

(** A conversion of one sentence that runs to its end. *)
Definition completingTrace : list Session.Event :=
  [ Session.Convert "c0de" [Js.lit "Hola mundo."] "voz" 0;
    Session.OnJob "c0de" (Session.TaskStarts 0 piper1 "tts_01.wav");
    Session.OnJob "c0de" (Session.PiperCloses 0 (Some 0) "" 900);
    Session.OnJob "c0de" (Session.AllSettled 901);
    Session.OnJob "c0de" (Session.Mp3Read (inr "SUQz") 950) ].

(** The state the completing run ends in. *)
Definition completedServer : Session.Server :=
  Eval vm_compute in default Session.boot (Session.run Session.boot completingTrace).

(** A conversion that is cancelled while its sentence is being synthesised. *)
Definition cancellingTrace : list Session.Event :=
  [ Session.Convert "cafe" [Js.lit "Hola mundo."] "voz" 0;
    Session.OnJob "cafe" (Session.TaskStarts 0 piper1 "tts_01.wav");
    Session.Cancel "cafe" 500 ].

(** Two sentences; the second is synthesised first, and both succeed. *)
Definition outOfOrderTrace : list Session.Event :=
  [ Session.Convert "0b0e" [Js.lit "Hola mundo."; Js.lit "Hasta luego."] "voz" 0;
    Session.OnJob "0b0e" (Session.TaskStarts 0 piper1 "tts_01.wav");
    Session.OnJob "0b0e" (Session.TaskStarts 1 piper2 "tts_02.wav");
    Session.OnJob "0b0e" (Session.PiperCloses 1 (Some 0) "" 700);
    Session.OnJob "0b0e" (Session.PiperCloses 0 (Some 0) "" 900) ].

(** The state this run ends in, the job of the conversion, its tasks and
    their settled promises. *)
Definition outOfOrderServer : Session.Server :=
  Eval vm_compute in default Session.boot (Session.run Session.boot outOfOrderTrace).

Definition outOfOrderJob : Session.Job :=
  Eval vm_compute in
    default {| Session.sentences := []; Session.modelName := ""; Session.stage := Session.Finished |}
      (Session.jobs outOfOrderServer !! "0b0e").

Definition outOfOrderTasks : list Session.TaskState :=
  Eval vm_compute in
    match Session.stage outOfOrderJob with
    | Session.Parallel tasks _ => tasks
    | _ => []
    end.

Definition outOfOrderResults : list (Queue.Settlement Session.SentenceResult) :=
  Eval vm_compute in default [] (Session.allSettled outOfOrderTasks).

(** Two sentences; the synthesis of the second exits with code 1 while the
    session is not cancelled, the first succeeds, and the MP3 is produced. *)
Definition partialTrace : list Session.Event :=
  [ Session.Convert "beef" [Js.lit "Hola mundo."; Js.lit "Hasta luego."] "voz" 0;
    Session.OnJob "beef" (Session.TaskStarts 0 piper1 "tts_01.wav");
    Session.OnJob "beef" (Session.TaskStarts 1 piper2 "tts_02.wav");
    Session.OnJob "beef" (Session.PiperCloses 1 (Some 1) "boom" 700);
    Session.OnJob "beef" (Session.PiperCloses 0 (Some 0) "" 900);
    Session.OnJob "beef" (Session.AllSettled 901);
    Session.OnJob "beef" (Session.Mp3Read (inr "SUQz") 950) ].

(** The state of this run when all its tasks have ended, the job of the
    conversion, its tasks, their settled promises and the entry of the
    conversion. *)
Definition partialServer : Session.Server :=
  Eval vm_compute in default Session.boot (Session.run Session.boot (take 5 partialTrace)).

Definition partialJob : Session.Job :=
  Eval vm_compute in
    default {| Session.sentences := []; Session.modelName := ""; Session.stage := Session.Finished |}
      (Session.jobs partialServer !! "beef").

Definition partialTasks : list Session.TaskState :=
  Eval vm_compute in
    match Session.stage partialJob with
    | Session.Parallel tasks _ => tasks
    | _ => []
    end.

Definition partialResults : list (Queue.Settlement Session.SentenceResult) :=
  Eval vm_compute in default [] (Session.allSettled partialTasks).

Definition partialConversion : Session.Conversion :=
  Eval vm_compute in
    default (Session.newConversion "" 0 0) (Session.activeConversions partialServer !! "beef").

Section TextVocabulary.

Import Js Regex Text.

(** [needs P r]: every match of [r] consumes, or looks ahead at, a character
    that satisfies [P]. *)
Fixpoint needs (P : N -> bool) (r : re) : bool :=
  match r with
  | Chr c => P c
  | Cls negated items =>
      negb negated && forallb (fun it => match it with One c => P c | _ => false end) items
  | Seq a b => needs P a || needs P b
  | Alt a b => needs P a && needs P b
  | Repeat min max _ a =>
      (0 <? min)%nat && needs P a && match max with Some O => false | _ => true end
  | Group _ a | Ahead a => needs P a
  | _ => false
  end.

(** No character of [s] satisfies [P]. *)
Definition free (P : N -> bool) (s : str) : Prop := Forall (fun c => P c = false) s.

(** The continuation [k] fails on every state whose rest of the input has
    no character of [P]. *)
Definition failing (P : N -> bool) (k : K) : Prop :=
  forall st, free P (after st) -> k st = None.

(** [squeeze false s] puts one space in the place of every run of white
    space of [s]; [squeeze true s] leaves out the run [s] starts with. *)
Fixpoint squeeze (inRun : bool) (s : str) : str :=
  match s with
  | [] => []
  | c :: rest =>
      if isSpace c then (if inRun then squeeze true rest else 32%N :: squeeze true rest)
      else c :: squeeze false rest
  end.

(** A match state without captures. *)
Definition wsState (bef aft : str) : MState := {| before := bef; after := aft; caps := [] |}.

(** [Words s]: [s] is made of words, that is non-empty runs of characters
    other than white space, with a single space between two words. *)
Inductive Words : str -> Prop :=
| Words_one c : isSpace c = false -> Words [c]
| Words_more c s : isSpace c = false -> Words s -> Words (c :: s)
| Words_next c s : isSpace c = false -> Words s -> Words (c :: 32%N :: s).

(** The line feed and the marks on which the rules of
    [normalizeTextForTTS] act. *)
Definition rewritten (c : N) : bool :=
  existsb (N.eqb c) (10%N :: 34%N :: 39%N :: lit "–—…¿¡?!.:,;").

End TextVocabulary.

Section CanonicalVocabulary.

Import Js Regex Text.

(** [c] is one of the characters of [s]: the test of the class [[s]]. *)
Definition among (s : string) (c : N) : bool := inCls false false (map One (lit s)) c.

(** The test of [[A-ZÁÉÍÓÚÑÜ]]. *)
Definition isUpper (c : N) : bool :=
  inCls false false (Range 65 90 :: map One (lit "ÁÉÍÓÚÑÜ")) c.

(** The text starts with a character of [P]. *)
Definition headIs (P : N -> bool) (s : str) : bool :=
  match s with
  | c :: _ => P c
  | [] => false
  end.

(** No full stop comes before the first [q] of [s]. *)
Fixpoint untilMark (q : N) (s : str) : bool :=
  match s with
  | [] => true
  | c :: rest => if (c =? q)%N then true else negb (c =? 46)%N && untilMark q rest
  end.

(** The characters that the first rules replace: the line feed, the
    apostrophe, the dashes and the ellipsis sign. *)
Definition replaced (c : N) : bool := existsb (N.eqb c) [10; 39; 8211; 8212; 8230]%N.

(** What the rules leave alone at the start of [s], where [s] is the text
    from some position on:
    - the first character is none of those that are replaced;
    - white space is one space character, followed by a character that is
      neither white space nor one of [.!?,;:];
    - a space stands before [¿] or [¡] only after one of [.!?];
    - [¿] is followed neither by [¡] nor by white space, and no full stop
      comes before the next [?]; likewise for [¡] and [!];
    - [!] and [?] are not followed by [!] or [?], a full stop is not
      followed by a full stop;
    - [.], [!] and [?] are followed neither by a capital nor by [¿] or [¡];
    - [,], [:] and [;] are not followed by a capital;
    - a colon is not the last character, and not followed by a space and a
      capital. *)
Definition quietAt (s : str) : bool :=
  match s with
  | [] => true
  | c :: rest =>
      negb (replaced c)
      && (if isSpace c
          then (c =? 32)%N
               && negb (headIs isSpace rest) && negb (headIs (among ".!?,;:") rest)
               && negb (length rest =? 0)%nat
          else true)
      && match rest with
         | s0 :: o :: _ => if isSpace s0 && among "¿¡" o then among ".!?" c else true
         | _ => true
         end
      && (if (c =? 191)%N
          then negb (headIs (N.eqb 161) rest) && negb (headIs isSpace rest) && untilMark 63 rest
          else true)
      && (if (c =? 161)%N
          then negb (headIs (N.eqb 191) rest) && negb (headIs isSpace rest) && untilMark 33 rest
          else true)
      && (if among "!?" c then negb (headIs (among "!?") rest) else true)
      && (if (c =? 46)%N then negb (headIs (N.eqb 46) rest) else true)
      && (if among ".!?" c
          then negb (headIs isUpper rest) && negb (headIs (among "¿¡") rest)
          else true)
      && (if among ",:;" c then negb (headIs isUpper rest) else true)
      && (if (c =? 58)%N
          then negb (length rest =? 0)%nat && negb (headIs isUpper (trimStart rest))
          else true)
  end.

(** [check] holds of the text from every position on. *)
Fixpoint everywhere (check : str -> bool) (s : str) : bool :=
  match s with
  | [] => true
  | _ :: rest => check s && everywhere check rest
  end.

(** A text in canonical form: it does not start with white space, and the
    rules have nothing to do at any position. *)
Definition canonical (s : str) : bool :=
  negb (headIs isSpace s) && everywhere quietAt s.

(** The rules have nothing to do anywhere in the text. *)
Definition quiet (s : str) : Prop :=
  forall aft, aft `suffix_of` s -> quietAt aft = true.

(** The text without the spaces that stand before [¿] or [¡]. *)
Fixpoint closeUp (s : str) : str :=
  match s with
  | [] => []
  | c :: rest => if isSpace c && headIs (among "¿¡") rest then closeUp rest else c :: closeUp rest
  end.

End CanonicalVocabulary.

(** ** The vocabulary of the further properties *)

Section AccountingVocabulary.
Import Queue.
Context {Task R : Type}.

(** The tasks a trace adds, in the order of the calls of [add]. *)
Definition addedItems (tr : list (Event Task R)) : list (QueueItem Task) :=
  omap (fun e => match e with EAdd item => Some item | _ => None end) tr.

(** Every task handed to the queue up to now is in one place: the tasks
    [added] are those that left the queue, followed by the queue, and those
    that left are the ones settled and the ones being executed. *)
Definition accounted (added : list (QueueItem Task)) (rt : Runtime Task R) : Prop :=
  exists gone, added = gone ++ queue (pq rt) /\ gone ≡ₚ (settled rt).*1 ++ executing rt.

(** The admission loop has nothing left to do: the queue is empty or
    [running.size < maxConcurrent] fails. *)
Definition saturated (rt : Runtime Task R) : Prop :=
  queue (pq rt) = [] \/ Num.lt (runningCount rt) (maxConcurrent (pq rt)) = false.

End AccountingVocabulary.

Section CancellationVocabulary.
Import Queue Session.

(** The entry of a session after its cancellation was accepted: it is
    marked cancelled, holds no process handle, and has neither the flag
    nor the result of a completed session. *)
Definition cancelledForGood (c : Conversion) : Prop :=
  cancelled c = true /\ processes c = [] /\ completed c = false /\ result c = None.

End CancellationVocabulary.

Section ProgressVocabulary.
Import Queue Session.

(** A sentence task whose promise is not settled yet. *)
Definition pending (t : TaskState) : bool :=
  match t with
  | Settled _ => false
  | _ => true
  end.

Definition pendingCount (tasks : list TaskState) : nat := length (List.filter pending tasks).

(** While the sentence tasks of a job are under way there is one task for
    each valid sentence, and the sentences counted as completed and the
    tasks still pending are different tasks. *)
Definition countInv (j : Job) : Prop :=
  match stage j with
  | Parallel tasks completedCount =>
      length tasks = length (validSentences j) /\
      (completedCount + pendingCount tasks <= length tasks)%nat
  | _ => True
  end.

(** The number of sentences a session reports as completed: none before
    the first progress callback. *)
Definition completedOf (c : Conversion) : nat :=
  match progress c with
  | Some p => p_completed p
  | None => 0
  end.

(** What the progress of a session looks like, once there is one. *)
Definition progressOk (j : Job) (c : Conversion) : Prop :=
  forall p, progress c = Some p ->
    p_total p = length (validSentences j) /\
    (1 <= p_completed p <= p_total p)%nat /\
    p_percentage p = percentage (p_completed p) (p_total p) /\
    (exists k, p_currentSentence p = Some k /\ (1 <= k <= p_total p)%nat) /\
    match stage j with
    | Parallel _ completedCount => (p_completed p <= completedCount)%nat
    | _ => True
    end.

Definition progressInv (sv : Server) : Prop :=
  (forall i j, jobs sv !! i = Some j -> countInv j) /\
  (forall i c, activeConversions sv !! i = Some c ->
     exists j, jobs sv !! i = Some j /\ progressOk j c).

End ProgressVocabulary.

Section SettingsVocabulary.
Import Queue Settings.
Context {Task : Type}.

(** The queue and the settings agree: the ceiling is the configured number
    of threads, clamped, and in automatic mode that is twice the number of
    cores, clamped. *)
Definition inStep (CPU_CORES : Z) (st : State Task) : Prop :=
  maxConcurrent (processQueue st) = clamp (maxThreads (userSettings st)) /\
  (autoDetectThreads (userSettings st) = true ->
   clamp (maxThreads (userSettings st)) = clamp (CPU_CORES * 2)%Z).

(** The [maxThreads] of a file is a number, when there is one: nothing
    that [Math.min] turns into [NaN]. *)
Definition numericFile (f : SettingsFile) : Prop :=
  match f with
  | Json (Some threads) => t_maxThreads threads <> Some Num.NaN
  | _ => True
  end.

(** What a failed write leaves behind is such a file. *)
Definition numericOutcome (o : WriteOutcome) : Prop :=
  match o with
  | Written => True
  | WriteFailed leftover => numericFile leftover
  end.

(** An event brings no file whose [maxThreads] is no number. *)
Definition numericEvent (e : Event) : Prop :=
  match e with
  | Load o | Post _ o | Force o => numericOutcome o
  | Edit f => numericFile f
  end.

Definition numericState (st : State Task) : Prop :=
  maxThreads (userSettings st) <> Num.NaN /\ numericFile (file st).

End SettingsVocabulary.

Section MatcherVocabulary.
Import Js Regex Text.

(** [only C ic r]: every character a match of [r] consumes satisfies [C]. *)
Fixpoint only (C : N -> Prop) (ic : bool) (r : re) : Prop :=
  match r with
  | Chr c =>
      forall x, (if ic then (canonicalize x =? canonicalize c)%N else (x =? c)%N) = true -> C x
  | Cls negated items => forall x, inCls ic negated items x = true -> C x
  | Seq a b | Alt a b => only C ic a /\ only C ic b
  | Repeat _ _ _ a | Group _ a => only C ic a
  | _ => True
  end.

(** The rest of the input and the captures of a state have no character
    of [P]. *)
Definition clean (P : N -> bool) (st : MState) : Prop :=
  free P (after st) /\ Forall (fun p => free P p.2) (caps st).

(** [k] is entered from [st] with the result [e0]: it is handed a state
    [st'] further on in the input, what lies between consists of
    characters of [C], and [st'] is clean when [st] is. *)
Definition entered (C : N -> Prop) (P : N -> bool) (k : K) (st : MState) (e0 : MState)
  : Prop :=
  exists st' w, k st' = Some e0 /\ after st = w ++ after st' /\ Forall C w /\
                (clean P st -> clean P st').

End MatcherVocabulary.

Section RewritingVocabulary.
Import Js Regex Text.

(** [rewrites C G s t]: [t] is [s] with some stretches of characters of [C]
    replaced by texts that satisfy [G]. *)
Inductive rewrites (C : N -> Prop) (G : str -> Prop) : str -> str -> Prop :=
| rewrites_done s : rewrites C G s s
| rewrites_keep c s t : rewrites C G s t -> rewrites C G (c :: s) (c :: t)
| rewrites_put w out s t :
    Forall C w -> G out -> rewrites C G s t -> rewrites C G (w ++ s) (out ++ t).

(** The captures of a match have no character of [P]. *)
Definition cleanMatch (P : N -> bool) (mt : Match) : Prop :=
  free P (matched mt) /\ Forall (fun p => free P p.2) (captures mt).

End RewritingVocabulary.

Section FilterVocabulary.
Import Js Regex Text.

(** White space other than the space character: tabs, line breaks and the
    like. *)
Definition otherSpace (c : N) : bool := isSpace c && negb (c =? 32)%N.

(** [sentences.join(' ')] *)
Fixpoint joinSp (l : list str) : str :=
  match l with
  | [] => []
  | [s] => s
  | s :: l' => s ++ 32%N :: joinSp l'
  end.

(** The back quote. *)
Definition backquote (c : N) : bool := (c =? 96)%N.

End FilterVocabulary.

Section SentenceVocabulary.
Import Js Regex Text.

(** The marks a sentence ends with: [[.!?…]]. *)
Definition terminalMark (c : N) : bool := existsb (N.eqb c) (lit ".!?…").

Definition endsWithMark (s : str) : Prop :=
  exists pre x, s = pre ++ [x] /\ terminalMark x = true.

(** A text of white space only. *)
Definition blank (s : str) : Prop := Forall (fun c => isSpace c = true) s.

(** The characters of a text that are not white space. *)
Definition nonSpaces (s : list N) : list N := filter (fun c => isSpace c = false) s.

End SentenceVocabulary.

Section RuleVocabulary.
Import Js Regex Text.

(** [sign], or the other case of it, stands somewhere in [s] between two
    word characters; [prev] is the character before [s], if any. *)
Fixpoint enclosed (sign : N) (prev : option N) (s : str) : bool :=
  match s with
  | [] => false
  | x :: rest =>
      ((canonicalize x =? canonicalize sign)%N
       && match prev with Some p => isWord p | None => false end
       && match rest with y :: _ => isWord y | [] => false end)
      || enclosed sign (Some x) rest
  end.

End RuleVocabulary.

(** Three tasks on a machine with one core: the third has to wait. *)
Definition busyTrace : list (Queue.Event unit unit) :=
  [ Queue.EAdd (anItem "a"); Queue.EAdd (anItem "b"); Queue.EAdd (anItem "c") ].

(** The state of [cancellingTrace] just before the cancel request, what
    happens after the request, the state the whole run ends in and the
    entry of the conversion in it. *)
Definition synthesisingServer : Session.Server :=
  Eval vm_compute in default Session.boot (Session.run Session.boot (take 2 cancellingTrace)).

Definition afterCancel : list Session.Event :=
  [ Session.OnJob "cafe" (Session.PiperCloses 0 None "" 600);
    Session.OnJob "cafe" (Session.AllSettled 700);
    Session.Cancel "cafe" 800 ].

Definition cancelledServer : Session.Server :=
  Eval vm_compute in
    default Session.boot
      (Session.run synthesisingServer (Session.Cancel "cafe" 500 :: afterCancel)).

Definition cancelledConversion : Session.Conversion :=
  Eval vm_compute in
    default (Session.newConversion "" 0 0) (Session.activeConversions cancelledServer !! "cafe").

(** The run [outOfOrderTrace] when one of its two sentences is done, and
    the answers to a status request then and at its end. *)
Definition halfwayServer : Session.Server :=
  Eval vm_compute in default Session.boot (Session.run Session.boot (take 4 outOfOrderTrace)).

Definition halfwaySnapshot : Session.Snapshot :=
  Eval vm_compute in
    default (Session.snapshot (Session.newConversion "" 0 0))
      (Session.conversionStatus "0b0e" (Session.activeConversions halfwayServer)).

Definition finalSnapshot : Session.Snapshot :=
  Eval vm_compute in
    default (Session.snapshot (Session.newConversion "" 0 0))
      (Session.conversionStatus "0b0e" (Session.activeConversions outOfOrderServer)).

(** The entry of the completed conversion of [completingTrace], what is
    tried on it afterwards, and the state after that. *)
Definition completedConversion : Session.Conversion :=
  Eval vm_compute in
    default (Session.newConversion "" 0 0) (Session.activeConversions completedServer !! "c0de").

Definition afterCompletion : list Session.Event :=
  [ Session.Cancel "c0de" 960; Session.Cleanup 1000 ].

Definition frozenServer : Session.Server :=
  Eval vm_compute in default Session.boot (Session.run completedServer afterCompletion).

(** A first start without a settings file, a change of the settings in the
    panel, an edit of the file by hand and the start of a conversion whose
    write fails. *)
Definition settingsTrace : list Settings.Event :=
  [ Settings.Load Settings.Written;
    Settings.Post {| Settings.r_maxThreads := Some (Num.ofZ 8);
                     Settings.r_autoDetectThreads := Some false |}
      Settings.Written;
    Settings.Edit (Settings.Json (Some {| Settings.t_autoDetectThreads := true;
                                        Settings.t_maxThreads := Some (Num.ofZ 3) |}));
    Settings.Force (Settings.WriteFailed Settings.Unreadable) ].

(** The panel asks for twelve threads in manual mode. *)
Definition manualTwelve : Settings.SettingsRequest :=
  {| Settings.r_maxThreads := Some (Num.ofZ 12); Settings.r_autoDetectThreads := Some false |}.

(** A settings file in manual mode whose [maxThreads] is a string that is
    no number, such as ['abc']. *)
Definition nonNumericFile : Settings.SettingsFile :=
  Settings.Json (Some {| Settings.t_autoDetectThreads := false;
                         Settings.t_maxThreads := Some Num.NaN |}).

(** A text with white space before its marks and a colon before a
    capital. *)
Definition spacedText : Js.str := Js.lit "  ¿Qué tal ?  Nota: Uno , dos . ".

(** Ports 3000 and 3001 are taken. *)
Definition twoPortsTaken (port : Z) : Ports.ListenOutcome :=
  if port <? 3002 then Ports.AddrInUse else Ports.Listening.

(** A text with a code block in it. *)
Definition textWithCode : Js.str :=
  Js.lit "antes" ++ [10%N] ++ Js.lit "```js" ++ [10%N] ++ Js.lit "x = 1" ++ [10%N]
    ++ Js.lit "```" ++ [10%N] ++ Js.lit "luego".

(* ===================================================================== *)
(** * Properties of the task queue                                        *)
(* ===================================================================== *)

Section NumberFacts.

Import Num Queue.

Lemma lt_ofZ (a b : Z) : lt (ofZ a) (ofZ b) = (a <? b).
Proof.
  unfold lt, ofZ, Qcompare. simpl. rewrite !Z.mul_1_r.
  unfold Z.ltb. by destruct (a ?= b).
Qed.

Lemma le_ofZ (a b : Z) : le (ofZ a) (ofZ b) = (a <=? b).
Proof.
  unfold le. change (negb (lt (ofZ b) (ofZ a)) = (a <=? b)). rewrite lt_ofZ.
  destruct (Z.ltb_spec b a), (Z.leb_spec a b); simpl; try reflexivity; lia.
Qed.

Lemma lt_Fin (a : Z) (q : Q) : lt (ofZ a) (Fin q) = true <-> (inject_Z a < q)%Q.
Proof.
  unfold lt, ofZ. rewrite Qlt_alt. destruct (inject_Z a ?= q)%Q; split; congruence.
Qed.

Lemma lt_Fin_Fin (p q : Q) : lt (Fin p) (Fin q) = true <-> (p < q)%Q.
Proof.
  unfold lt. rewrite Qlt_alt. destruct (p ?= q)%Q; split; congruence.
Qed.

(** [n < x] for an integer [n] holds for every smaller integer too. *)
Lemma lt_mono_l (a b : Z) (x : number) :
  a <= b -> lt (ofZ b) x = true -> lt (ofZ a) x = true.
Proof.
  intros Hab. destruct x as [| neg | q]; try done.
  rewrite !lt_Fin. intros H. eapply Qle_lt_trans; [|exact H].
  by rewrite <- Zle_Qle.
Qed.

Lemma le_lt_pred (a : Z) (x : number) :
  le (ofZ a) x = true -> lt (ofZ (a - 1)) x = true.
Proof.
  destruct x as [| [|] | q]; try done.
  - unfold le. change (negb (lt (Fin q) (ofZ a)) = true -> lt (ofZ (a - 1)) (Fin q) = true).
    rewrite lt_Fin, negb_true_iff. unfold lt, ofZ. intros H.
    assert (Hq : (inject_Z a <= q)%Q).
    { apply Qnot_lt_le. rewrite Qlt_alt. by destruct (q ?= inject_Z a)%Q. }
    eapply Qlt_le_trans; [|exact Hq]. rewrite <- Zlt_Qlt. lia.
Qed.

(** When [x] is not [NaN], one of [n < x] and [x <= n] holds. *)
Lemma not_lt_le (a : Z) (x : number) :
  x <> NaN -> lt (ofZ a) x = false -> le x (ofZ a) = true.
Proof.
  intros Hx H. destruct x as [| neg | q]; [done | |].
  - unfold le. by rewrite H.
  - unfold le. by rewrite H.
Qed.

Lemma min_ofZ (a b : Z) : min (ofZ a) (ofZ b) = ofZ (Z.min a b).
Proof.
  change (min (ofZ a) (ofZ b)) with (if lt (ofZ b) (ofZ a) then ofZ b else ofZ a).
  rewrite lt_ofZ. destruct (Z.ltb_spec b a); f_equal; lia.
Qed.

Lemma max_ofZ (a b : Z) : max (ofZ a) (ofZ b) = ofZ (Z.max a b).
Proof.
  change (max (ofZ a) (ofZ b)) with (if lt (ofZ a) (ofZ b) then ofZ b else ofZ a).
  rewrite lt_ofZ. destruct (Z.ltb_spec a b); f_equal; lia.
Qed.

Lemma clamp_ofZ (n : Z) : clamp (ofZ n) = ofZ (Z.max 1 (Z.min 32 n)).
Proof. unfold clamp. by rewrite min_ofZ, max_ofZ. Qed.

(** What [Math.max(1, Math.min(32, x))] is: [NaN] for [NaN], 1 or 32 beyond
    them, and [x] itself in between. *)
Lemma clamp_cases (x : number) :
  (x = NaN /\ clamp x = NaN) \/
  (x <> NaN /\ lt 1 x = false /\ clamp x = ofZ 1) \/
  (lt 1 x = true /\ lt x 32 = true /\ clamp x = x) \/
  (x <> NaN /\ lt x 32 = false /\ clamp x = ofZ 32).
Proof.
  destruct x as [| [|] | q].
  - by left.
  - right; left. done.
  - right; right; right. done.
  - unfold clamp. unfold min.
    change (ofZ 32) with (Fin (inject_Z 32)). cbv iota beta.
    destruct (lt (Fin q) (Fin (inject_Z 32))) eqn:E32.
    + unfold max. change (ofZ 1) with (Fin (inject_Z 1)). cbv iota beta.
      destruct (lt (Fin (inject_Z 1)) (Fin q)) eqn:E1.
      * right; right; left. done.
      * right; left. done.
    + right; right; right. done.
Qed.

Lemma clamp_capped (x : number) : capped (clamp x).
Proof.
  intros n. destruct (clamp_cases x) as [[_ ->] | [(_ & _ & ->) | [(_ & H & ->) | (_ & _ & ->)]]].
  - done.
  - rewrite lt_ofZ. intros H%Z.ltb_lt. lia.
  - destruct x as [| neg | q]; [done | by destruct neg |].
    intros Hn. apply lt_Fin in Hn.
    assert (Hq : (q < inject_Z 32)%Q).
    { rewrite Qlt_alt. unfold lt, ofZ in H. by destruct (q ?= inject_Z 32)%Q. }
    rewrite Zlt_Qlt. by eapply Qlt_trans.
  - rewrite lt_ofZ. intros H%Z.ltb_lt. lia.
Qed.

Lemma clamp_clamp (x : number) : clamp (clamp x) = clamp x.
Proof.
  destruct (clamp_cases x) as [[_ ->] | [(_ & _ & ->) | [(H1 & H32 & E) | (_ & _ & ->)]]];
    try reflexivity.
  rewrite E. destruct (clamp_cases x) as [[-> _] | [(_ & H & _) | [(_ & _ & E') | (_ & H & _)]]];
    try done; congruence.
Qed.

(** The clamped value is [NaN] or lies between 1 and 32. *)
Lemma clamp_range (x : number) :
  (x = NaN /\ clamp x = NaN) \/
  (x <> NaN /\ le 1 (clamp x) = true /\ le (clamp x) 32 = true).
Proof.
  destruct (clamp_cases x) as [H | [(Hx & _ & ->) | [(H1 & H32 & ->) | (Hx & _ & ->)]]].
  - by left.
  - right. done.
  - right. destruct x as [| neg | q]; [done | by destruct neg |].
    split; [done|]. unfold le.
    change (negb (lt (Fin q) 1) = true /\ negb (lt 32 (Fin q)) = true).
    unfold lt, ofZ in *.
    destruct (Qcompare_spec (inject_Z 1) q) as [? | Ha | ?]; try done.
    destruct (Qcompare_spec q (inject_Z 32)) as [? | Hb | ?]; try done.
    destruct (Qcompare_spec q (inject_Z 1)) as [? | Hc | ?];
      [| exfalso; eapply Qlt_irrefl, Qlt_trans; eassumption |];
      (destruct (Qcompare_spec (inject_Z 32) q) as [? | Hd | ?];
       [| exfalso; eapply Qlt_irrefl, Qlt_trans; eassumption |]); done.
  - right. done.
Qed.

End NumberFacts.

Section QueueFacts.

Import Queue.

Context {Task R : Type}.

Local Abbreviation Item := (QueueItem Task).
Local Abbreviation PQ := (ProcessQueue Task).
Local Abbreviation RT := (Runtime Task R).
Local Abbreviation Ev := (Event Task R).

Lemma size_add_le (x : string) (X : gset string) :
  (size ({[ x ]} ∪ X) <= S (size X))%nat.
Proof.
  rewrite size_union_alt, size_singleton.
  assert (size (X ∖ {[ x ]}) <= size X)%nat by (apply subseteq_size; set_solver).
  lia.
Qed.

(** What one run of the admission loop does: it starts a prefix of the
    queue, in order, adds exactly their ids to [running]; it starts a task
    only when [running.size < maxConcurrent] holds, so that [running] has
    not grown or the test held at one less than its new size; and it stops
    only when the queue is empty or the test fails. *)
Lemma processQueue_loop_spec (mc : Num.number) (q : list Item) :
  forall (rn : gset string) (started : list Item) rn' q' started',
    processQueue_loop mc rn q started = (rn', q', started') ->
    exists new,
      started' = started ++ new /\ q = new ++ q' /\
      rn' = list_to_set (ids new) ∪ rn /\
      ((size rn' <= size rn)%nat \/ Num.lt (Z.of_nat (size rn') - 1) mc = true) /\
      (new = [] \/ Num.lt (Z.of_nat (size rn)) mc = true) /\
      (q' = [] \/ Num.lt (Z.of_nat (size rn')) mc = false).
Proof.
  induction q as [|x q IH]; intros rn started rn' q' started' H; simpl in H.
  - inversion H; subst. exists []. rewrite app_nil_r. simpl.
    repeat split; auto; try set_solver.
  - destruct (Num.lt (Z.of_nat (size rn)) mc) eqn:E.
    + apply IH in H as (new & -> & -> & -> & Hb & _ & Hstop).
      exists (x :: new). rewrite <- app_assoc. simpl.
      repeat split; auto.
      * set_solver.
      * right. destruct Hb as [Hb | Hb]; [|exact Hb].
        pose proof (size_add_le (Queue.id x) rn).
        eapply lt_mono_l; [|exact E]. lia.
    + inversion H; subst.
      exists []. rewrite app_nil_r. simpl.
      repeat split; auto; try set_solver.
Qed.

Lemma processQueue_spec (p p' : PQ) (started : list Item) :
  processQueue p = (p', started) ->
  maxConcurrent p' = maxConcurrent p /\
  queue p = started ++ queue p' /\
  running p' = list_to_set (ids started) ∪ running p /\
  ((size (running p') <= size (running p))%nat
   \/ Num.lt (Z.of_nat (size (running p')) - 1) (maxConcurrent p) = true) /\
  (started = [] \/ Num.lt (Z.of_nat (size (running p))) (maxConcurrent p) = true) /\
  (queue p' = [] \/ Num.lt (Z.of_nat (size (running p'))) (maxConcurrent p) = false).
Proof.
  unfold processQueue.
  destruct (processQueue_loop _ _ _ _) as [[rn q] st] eqn:E.
  intros H; inversion H; subst; simpl.
  apply processQueue_loop_spec in E as (new & -> & -> & -> & ? & ? & ?).
  simpl. auto 10.
Qed.

(** The effect of a step on the ceiling and on the count of running ids:
    the count has not grown, or a task was let in at one less. *)
Lemma step_bound (rt rt' : RT) (e : Ev) :
  step rt e = Some rt' ->
  (runningCount rt' <= runningCount rt
   \/ Num.lt (runningCount rt' - 1) (maxConcurrent (pq rt')) = true) /\
  (match e with
   | ESetMax max => maxConcurrent (pq rt') = clamp max
   | _ => maxConcurrent (pq rt') = maxConcurrent (pq rt)
   end).
Proof.
  unfold runningCount.
  destruct e as [item | i o | | max]; simpl.
  - unfold add. destruct (processQueue _) as [p' st] eqn:E.
    intros H; inversion H; subst; simpl.
    apply processQueue_spec in E as (Hm & _ & _ & Hb & _); simpl in *.
    rewrite Hm. split; [|done]. destruct Hb; [left; lia | by right].
  - destruct (executing rt !! i) as [item|]; [|done].
    intros H; inversion H; subst; simpl. split; [|done].
    assert (size (running (pq rt) ∖ {[ Queue.id item ]}) <= size (running (pq rt)))%nat
      by (apply subseteq_size; set_solver).
    left. lia.
  - destruct (immediates rt); [done|].
    destruct (processQueue _) as [p' st] eqn:E.
    intros H; inversion H; subst; simpl.
    apply processQueue_spec in E as (Hm & _ & _ & Hb & _).
    rewrite Hm. split; [|done]. destruct Hb; [left; lia | by right].
  - unfold setMaxConcurrent. destruct (processQueue _) as [p' st] eqn:E.
    intros H; inversion H; subst; simpl.
    apply processQueue_spec in E as (Hm & _ & _ & Hb & _); simpl in *.
    rewrite Hm. split; [|done]. destruct Hb; [left; lia | by right].
Qed.

(** While [running.size < maxConcurrent] fails, a step starts no task:
    [running] does not grow and the tasks being executed are among those
    that were. *)
Lemma step_admits_nothing (rt rt' : RT) (e : Ev) :
  step rt e = Some rt' ->
  Num.lt (runningCount rt) (maxConcurrent (pq rt')) = false ->
  running (pq rt') ⊆ running (pq rt) /\ sublist (executing rt') (executing rt).
Proof.
  unfold runningCount.
  assert (Hnone : forall (p p' : PQ) started,
             processQueue p = (p', started) ->
             Num.lt (Z.of_nat (size (running p))) (maxConcurrent p) = false ->
             started = [] /\ running p' = running p).
  { intros p p' started E Hlt.
    apply processQueue_spec in E as (_ & _ & Hr & _ & Hs & _).
    destruct Hs as [-> | Hs]; [|congruence]. split; [done|].
    rewrite Hr. simpl. set_solver. }
  destruct e as [item | i o | | max]; simpl.
  - unfold add. destruct (processQueue _) as [p' st] eqn:E.
    intros H; inversion H; subst; simpl. intros Hlt.
    pose proof (processQueue_spec _ _ _ E) as (Hm & _). simpl in Hm. rewrite Hm in Hlt.
    apply Hnone in E as [-> Hr]; [|exact Hlt]. simpl in Hr.
    rewrite Hr, app_nil_r. done.
  - destruct (executing rt !! i) as [item|]; [|done].
    intros H; inversion H; subst; simpl. intros _. split; [set_solver|].
    apply sublist_delete.
  - destruct (immediates rt); [done|].
    destruct (processQueue _) as [p' st] eqn:E.
    intros H; inversion H; subst; simpl. intros Hlt.
    pose proof (processQueue_spec _ _ _ E) as (Hm & _). rewrite Hm in Hlt.
    apply Hnone in E as [-> Hr]; [|exact Hlt].
    rewrite Hr, app_nil_r. done.
  - unfold setMaxConcurrent. destruct (processQueue _) as [p' st] eqn:E.
    intros H; inversion H; subst; simpl. intros Hlt.
    pose proof (processQueue_spec _ _ _ E) as (Hm & _). simpl in Hm. rewrite Hm in Hlt.
    apply Hnone in E as [-> Hr]; [|exact Hlt]. simpl in Hr.
    rewrite Hr, app_nil_r. done.
Qed.

Lemma boot_capped (cores : Z) :
  capped (maxConcurrent (pq (boot (Task:=Task) (R:=R) None cores))).
Proof.
  intros n. simpl. rewrite min_ofZ, lt_ofZ. intros H%Z.ltb_lt. lia.
Qed.

(** Whatever happens, the ceiling lets nothing in at the hard cap and the
    count stays under it. *)
Lemma run_hard_cap (tr : list Ev) :
  forall rt rt' : RT,
    run rt tr = Some rt' ->
    capped (maxConcurrent (pq rt)) -> runningCount rt <= 32 ->
    capped (maxConcurrent (pq rt')) /\ runningCount rt' <= 32.
Proof.
  induction tr as [|e tr IH]; intros rt rt' H Hm Hr; simpl in H.
  - inversion H; subst; auto.
  - destruct (step rt e) as [rt1|] eqn:E; [|done].
    apply step_bound in E as [Hb Hc].
    assert (Hm1 : capped (maxConcurrent (pq rt1))).
    { destruct e; try (by rewrite Hc). rewrite Hc. apply clamp_capped. }
    apply (IH rt1 rt' H Hm1).
    destruct Hb as [Hb | Hb]; [lia|]. apply Hm1 in Hb. lia.
Qed.

(** A run that never lowers the ceiling under the running tasks keeps the
    count within one task of the ceiling: [running.size - 1 < maxConcurrent]. *)
Lemma run_within_ceiling (tr : list Ev) :
  forall rt rt' : RT,
    run rt tr = Some rt' ->
    neverLoweredBelowRunning rt tr ->
    Num.lt (runningCount rt - 1) (maxConcurrent (pq rt)) = true ->
    Num.lt (runningCount rt' - 1) (maxConcurrent (pq rt')) = true.
Proof.
  induction tr as [|e tr IH]; intros rt rt' H Hn Hr; simpl in H, Hn.
  - inversion H; subst; auto.
  - destruct (step rt e) as [rt1|] eqn:E; [|done].
    destruct Hn as [He Hn].
    apply (IH rt1 rt' H Hn).
    apply step_bound in E as [Hb Hc].
    destruct Hb as [Hb | Hb]; [|exact Hb].
    destruct e as [item | i o | | max]; rewrite Hc;
      try (eapply lt_mono_l; [|exact Hr]; lia).
    apply le_lt_pred in He. eapply lt_mono_l; [|exact He]. lia.
Qed.

(** ** Running tasks and running ids

    When the ids drawn for the tasks are pairwise different, the ids in
    [running] are those of the suspended calls of [executeTask], one each. *)

Lemma admit_tidy (p p' : PQ) (ex started : list Item) (future : list string) :
  processQueue p = (p', started) ->
  NoDup (ids ex ++ ids (queue p) ++ future) ->
  running p = list_to_set (ids ex) ->
  NoDup (ids (ex ++ started) ++ ids (queue p') ++ future) /\
  running p' = list_to_set (ids (ex ++ started)).
Proof.
  intros E Hnd Hr.
  apply processQueue_spec in E as (_ & Hq & Hrun & _).
  rewrite Hq in Hnd. unfold ids in *.
  rewrite !fmap_app in *. rewrite <- !app_assoc in *.
  split; [exact Hnd|].
  rewrite Hrun, Hr, list_to_set_app_L. set_solver.
Qed.

Lemma step_tidy (rt rt' : RT) (e : Ev) (future : list string) :
  step rt e = Some rt' ->
  tidy rt (addedIds [e] ++ future) ->
  tidy rt' future.
Proof.
  unfold tidy. destruct e as [item | i o | | max]; simpl; intros H [Hnd Hr].
  - unfold add in H. destruct (processQueue _) as [p' st] eqn:E.
    inversion H; subst; simpl.
    eapply admit_tidy; [exact E | | exact Hr]. simpl.
    unfold ids in *. rewrite fmap_app, <- app_assoc. exact Hnd.
  - destruct (executing rt !! i) as [item|] eqn:Ei; [|done].
    inversion H; subst; simpl. clear H.
    rewrite delete_take_drop.
    rewrite <- (take_drop_middle _ _ _ Ei) in Hnd, Hr.
    unfold ids in *. rewrite !fmap_app in *. simpl in *.
    rewrite <- !app_assoc in Hnd. simpl in Hnd.
    apply list.NoDup_app in Hnd as (Hn1 & Hd1 & Hnd).
    apply list.NoDup_cons in Hnd as (Hx & Hn2).
    split.
    + rewrite <- app_assoc. apply list.NoDup_app. split; [done|]. split; [|done].
      intros y Hy. specialize (Hd1 y Hy). set_solver.
    + rewrite Hr, !list_to_set_app_L. simpl.
      assert (Queue.id item ∉ Queue.id <$> take i (executing rt))
        by (intros Hin; apply (Hd1 _ Hin); set_solver).
      assert (Queue.id item ∉ Queue.id <$> drop (S i) (executing rt)) by set_solver.
      set_solver.
  - destruct (immediates rt); [done|].
    destruct (processQueue _) as [p' st] eqn:E.
    inversion H; subst; simpl.
    eapply admit_tidy; [exact E | exact Hnd | exact Hr].
  - unfold setMaxConcurrent in H. destruct (processQueue _) as [p' st] eqn:E.
    inversion H; subst; simpl.
    eapply admit_tidy; [exact E | exact Hnd | exact Hr].
Qed.

Lemma run_tidy (tr : list Ev) :
  forall rt rt' : RT,
    run rt tr = Some rt' -> tidy rt (addedIds tr) -> tidy rt' [].
Proof.
  induction tr as [|e tr IH]; intros rt rt' H Ht; simpl in H.
  - inversion H; subst; auto.
  - destruct (step rt e) as [rt1|] eqn:E; [|done].
    apply (IH rt1 rt' H).
    eapply step_tidy; [exact E|].
    destruct e; simpl in *; exact Ht.
Qed.

Lemma tidy_count (rt : RT) :
  tidy rt [] -> length (executing rt) = size (running (pq rt)).
Proof.
  intros [Hnd Hr]. rewrite Hr.
  apply list.NoDup_app in Hnd as (Hnd & _).
  rewrite size_list_to_set by done. unfold ids. by rewrite length_fmap.
Qed.

End QueueFacts.

(** ** The claims about the queue *)

(** C2, refuted as stated: in the run [loweringTrace], with two cores, the
    ceiling starts at four; four tasks are admitted, and after
    [setMaxConcurrent(1)] all four are still running while the ceiling is
    one.  (And in [fractionalTrace], where the ceiling is set to 2.5 and
    never lowered, three tasks run.) *)
Lemma lowering_leaves_running_above_ceiling :
  (exists rt : Queue.Runtime unit unit,
    Queue.run (Queue.boot None 2) loweringTrace = Some rt /\
    Queue.maxConcurrent (Queue.pq rt) = 1 /\
    runningCount rt = 4 /\
    length (Queue.executing rt) = 4%nat /\
    Num.le (runningCount rt) (Queue.maxConcurrent (Queue.pq rt)) = false) /\
  (exists rt : Queue.Runtime unit unit,
    Queue.run (Queue.boot None 2) fractionalTrace = Some rt /\
    Queue.maxConcurrent (Queue.pq rt) = Num.Fin (5 # 2) /\
    runningCount rt = 3 /\
    Num.le (runningCount rt) (Queue.maxConcurrent (Queue.pq rt)) = false).
Proof.
  split; eexists; (split; [vm_compute; reflexivity|]); vm_compute; repeat split; reflexivity.
Qed.

(** C2, as the code has it.  From the queue of the server
    ([new ProcessQueue()] on a machine with [cores] cores), in every state
    [rt] reached by adding tasks, task completions, scheduled callbacks and
    calls of [setMaxConcurrent]:
    - the count of running ids is at most the hard cap 32;
    - a step lets a task in only while [running.size < maxConcurrent]
      holds: after it the count has not grown, or it is within one task of
      the ceiling ([running.size - 1 < maxConcurrent]); and while the test
      fails, as after a call that lowered the ceiling to the count or
      under it, the step starts nothing;
    - a call of [setMaxConcurrent] takes no id out of [running] and no
      task away from those being executed;
    - from a state in which the count is within one task of the ceiling,
      it stays so as long as no call of [setMaxConcurrent] lowers the
      ceiling under the count of the tasks running at that moment; and
      then, when the ceiling is an integer, the count is at most the
      ceiling;
    - when the ids drawn are pairwise different the count is the number of
      tasks being executed. *)
Theorem running_within_ceiling_unless_lowered {Task R : Type} (cores : Z)
    (tr tr' : list (Queue.Event Task R)) (rt rt' : Queue.Runtime Task R) :
  Queue.run (Queue.boot None cores) tr = Some rt ->
  Queue.run rt tr' = Some rt' ->
  runningCount rt <= 32 /\
  (forall e rt1,
     Queue.step rt e = Some rt1 ->
     (runningCount rt1 <= runningCount rt
      \/ Num.lt (runningCount rt1 - 1) (Queue.maxConcurrent (Queue.pq rt1)) = true) /\
     (Num.lt (runningCount rt) (Queue.maxConcurrent (Queue.pq rt1)) = false ->
      Queue.running (Queue.pq rt1) ⊆ Queue.running (Queue.pq rt) /\
      sublist (Queue.executing rt1) (Queue.executing rt))) /\
  (forall max rt1,
     Queue.step rt (Queue.ESetMax max) = Some rt1 ->
     Queue.running (Queue.pq rt) ⊆ Queue.running (Queue.pq rt1) /\
     Queue.executing rt `prefix_of` Queue.executing rt1) /\
  (Num.lt (runningCount rt - 1) (Queue.maxConcurrent (Queue.pq rt)) = true ->
   neverLoweredBelowRunning rt tr' ->
   Num.lt (runningCount rt' - 1) (Queue.maxConcurrent (Queue.pq rt')) = true /\
   forall k : Z, Queue.maxConcurrent (Queue.pq rt') = k -> runningCount rt' <= k) /\
  (NoDup (addedIds tr) ->
   Z.of_nat (length (Queue.executing rt)) = runningCount rt).
Proof.
  intros Hrun Hrun'.
  pose proof (boot_capped (Task:=Task) (R:=R) cores) as Hb.
  assert (H0 : runningCount (Queue.boot (Task:=Task) (R:=R) None cores) = 0)
    by reflexivity.
  split; [|split; [|split; [|split]]].
  - eapply run_hard_cap; [exact Hrun | exact Hb | lia].
  - intros e rt1 He. split.
    + by destruct (step_bound _ _ _ He).
    + by apply (step_admits_nothing rt rt1 e).
  - intros max rt1 He. simpl in He. unfold Queue.setMaxConcurrent in He.
    destruct (Queue.processQueue _) as [p' st] eqn:E.
    inversion He; subst; simpl.
    apply processQueue_spec in E as (_ & _ & Hr & _). simpl in Hr.
    split; [rewrite Hr; set_solver | by apply prefix_app_r].
  - intros Hlt Hn.
    pose proof (run_within_ceiling _ _ _ Hrun' Hn Hlt) as H. split; [exact H|].
    intros k Hk. rewrite Hk, lt_ofZ in H. apply Z.ltb_lt in H. lia.
  - intros Hnd. unfold runningCount. f_equal.
    apply tidy_count. eapply run_tidy; [exact Hrun|].
    split; [exact Hnd | reflexivity].
Qed.

(** The theorem at [raisingTrace], run from the start in two parts: the
    count stays at most the ceiling, which is an integer. *)
Lemma running_within_ceiling_witness :
  exists rt rt' : Queue.Runtime unit unit,
    Queue.run (Queue.boot None 2) (take 3 raisingTrace) = Some rt /\
    Queue.run rt (drop 3 raisingTrace) = Some rt' /\
    runningCount rt <= 32 /\
    Queue.maxConcurrent (Queue.pq rt') = 2 /\
    runningCount rt' <= 2 /\
    Z.of_nat (length (Queue.executing rt)) = runningCount rt.
Proof.
  eexists. eexists. split; [vm_compute; reflexivity|]. split; [vm_compute; reflexivity|].
  match goal with
  | |- runningCount ?rt <= _ /\ Queue.maxConcurrent (Queue.pq ?rt') = _ /\ _ =>
      destruct (running_within_ceiling_unless_lowered 2 (take 3 raisingTrace)
                  (drop 3 raisingTrace) rt rt')
        as (H1 & _ & _ & H4 & H5); [vm_compute; reflexivity | vm_compute; reflexivity |]
  end.
  split; [exact H1|]. split; [vm_compute; reflexivity|]. split.
  - apply H4; [vm_compute; reflexivity | | vm_compute; reflexivity].
    vm_compute. repeat split; reflexivity.
  - apply H5. apply (bool_decide_unpack _). vm_compute. exact I.
Defined.

(** C3: when the execution of a task raises the cancellation error,
    [executeTask] resolves its promise with [null] and does not reject it; a
    promise is rejected exactly when the task raised an error with another
    message; the id leaves [running] whatever the outcome; hence among
    tasks that returned or were cancelled no promise is rejected, and a wait
    on all of them does not fail. *)
Theorem cancelled_task_resolves_with_null {Task R : Type}
    (queueItem : Queue.QueueItem Task) (p : Queue.ProcessQueue Task)
    (outcomes : list (Queue.TaskOutcome R)) :
  Forall (fun o => o = Queue.Threw Queue.cancelMessage \/ exists v, o = Queue.Returned v)
         outcomes ->
  (Queue.executeTask queueItem (Queue.Threw (R:=R) Queue.cancelMessage) p).2
    = Queue.Fulfilled None /\
  (forall o message,
     (Queue.executeTask queueItem o p).2 = Queue.Rejected (R:=R) message <->
     o = Queue.Threw message /\ message <> Queue.cancelMessage) /\
  (forall o : Queue.TaskOutcome R,
     Queue.running (Queue.executeTask queueItem o p).1
       = Queue.running p ∖ {[ Queue.id queueItem ]}) /\
  Forall (fun o => exists v, (Queue.executeTask queueItem o p).2 = Queue.Fulfilled v)
         outcomes.
Proof.
  intros Hall. split; [reflexivity|]. split; [|split].
  - intros o message. simpl. destruct o as [v | msg]; simpl.
    + split; [discriminate | intros [H _]; discriminate H].
    + destruct (String.eqb msg Queue.cancelMessage) eqn:E.
      * apply String.eqb_eq in E. subst msg.
        split; [discriminate | intros [H Hne]; inversion H; subst; congruence].
      * apply String.eqb_neq in E.
        split; [intros H; inversion H; subst; auto | intros [H _]; inversion H; reflexivity].
  - reflexivity.
  - induction Hall as [|o l [-> | [v ->]] _ IH]; constructor; simpl; eauto.
Qed.

(** The theorem at a task that returned 7, a cancelled one, and one that
    returned [null]. *)
Lemma cancelled_task_resolves_with_null_witness :
  (Queue.executeTask (anItem "a") (Queue.Threw (R:=nat) Queue.cancelMessage)
     (Queue.constructor None 2)).2 = Queue.Fulfilled None /\
  Forall (fun o => exists v,
            (Queue.executeTask (anItem "a") o (Queue.constructor None 2)).2
              = Queue.Fulfilled v)
         [Queue.Returned (Some 7%nat); Queue.Threw Queue.cancelMessage; Queue.Returned None].
Proof.
  destruct (cancelled_task_resolves_with_null (anItem "a") (Queue.constructor None 2)
              [Queue.Returned (Some 7%nat); Queue.Threw Queue.cancelMessage;
               Queue.Returned None]) as (H1 & _ & _ & H4).
  - constructor; [right; eexists; reflexivity|].
    constructor; [left; reflexivity|].
    constructor; [right; eexists; reflexivity|]. constructor.
  - split; [exact H1 | exact H4].
Defined.

(** C7: [setMaxConcurrent(n)] sets the ceiling to [n] clamped into 1..32,
    runs the admission loop at once (so that a pending task is started
    whenever the new ceiling exceeds the count of running ids, the oldest
    first, until the queue is empty or the ceiling is reached), and removes
    nothing from [running] nor from the tasks being executed. *)
Theorem setMaxConcurrent_clamps_admits_keeps {Task R : Type} (n : Z)
    (rt : Queue.Runtime Task R) :
  let p := Queue.pq rt in
  let p' := (Queue.setMaxConcurrent n p).1 in
  let started := (Queue.setMaxConcurrent n p).2 in
  let ceiling := (if n <? 1 then 1 else if 32 <? n then 32 else n) in
  Queue.maxConcurrent p' = ceiling /\
  1 <= ceiling <= 32 /\
  Queue.queue p = started ++ Queue.queue p' /\
  Queue.running p' = list_to_set (ids started) ∪ Queue.running p /\
  Queue.running p ⊆ Queue.running p' /\
  (started = [] \/ Z.of_nat (size (Queue.running p)) < ceiling) /\
  (started <> [] \/ Queue.queue p = []
   \/ ceiling <= Z.of_nat (size (Queue.running p))) /\
  (Queue.queue p' = [] \/ ceiling <= Z.of_nat (size (Queue.running p'))) /\
  Queue.step rt (Queue.ESetMax n)
    = Some {| Queue.pq := p'; Queue.executing := Queue.executing rt ++ started;
              Queue.settled := Queue.settled rt; Queue.immediates := Queue.immediates rt |}.
Proof.
  intros p p' started ceiling. subst p' started.
  unfold Queue.step. unfold Queue.setMaxConcurrent.
  destruct (Queue.processQueue _) as [p' started] eqn:E. simpl.
  apply processQueue_spec in E as (Hm & Hq & Hr & Hb & Hlt & Hstop); simpl in *.
  assert (Hclamp : Queue.clamp n = ceiling).
  { rewrite clamp_ofZ. f_equal. subst ceiling.
    destruct (Z.ltb_spec n 1), (Z.ltb_spec 32 n); lia. }
  rewrite Hclamp in *. rewrite lt_ofZ in Hlt, Hstop.
  assert (1 <= ceiling <= 32).
  { subst ceiling. destruct (Z.ltb_spec n 1), (Z.ltb_spec 32 n); lia. }
  repeat split; try done; try lia.
  - rewrite Hr. set_solver.
  - destruct Hlt as [? | Hlt%Z.ltb_lt]; [by left | by right].
  - destruct started as [|x l]; [|left; done]. right.
    simpl in Hq.
    destruct Hstop as [Hs | Hs%Z.ltb_ge].
    + left. by rewrite Hq.
    + right. rewrite Hr in Hs. simpl in Hs.
      replace (∅ ∪ Queue.running p) with (Queue.running p) in Hs by set_solver. exact Hs.
  - destruct Hstop as [? | Hs%Z.ltb_ge]; [by left | by right].
Qed.

(* ===================================================================== *)
(** * Properties of the conversion sessions                               *)
(* ===================================================================== *)

Section SessionFacts.

Import Queue Session.

Lemma cleanup_lookup (now : Z) (m : gmap string Conversion) (i : string) (c : Conversion) :
  cleanup now m !! i = Some c <-> m !! i = Some c /\ swept now c = false.
Proof. unfold cleanup. by rewrite map_lookup_filter_Some. Qed.

Lemma running_not_swept (now : Z) (c : Conversion) : isRunning c -> swept now c = false.
Proof.
  intros (H1 & H2 & H3). unfold swept. rewrite H1, H2, H3. simpl.
  apply andb_false_r.
Qed.

Lemma cleanups_keep_running (nows : list Z) (m : gmap string Conversion)
    (i : string) (c : Conversion) :
  m !! i = Some c -> isRunning c -> foldr cleanup m nows !! i = Some c.
Proof.
  intros Hm Hr. induction nows as [|now nows IH]; simpl; [done|].
  apply cleanup_lookup. split; [exact IH | by apply running_not_swept].
Qed.

(** Any property of servers that holds at the start and is kept by every
    step holds in every state a run reaches. *)
Lemma run_invariant (P : Server -> Prop) :
  (forall sv e sv', P sv -> step sv e = Some sv' -> P sv') ->
  forall tr sv sv', P sv -> run sv tr = Some sv' -> P sv'.
Proof.
  intros Hstep. induction tr as [|e tr IH]; intros sv sv' HP H; simpl in H.
  - by inversion H; subst.
  - destruct (step sv e) as [sv1|] eqn:E; [|done].
    eapply IH; [|exact H]. eapply Hstep; eauto.
Qed.

(** ** What a reachable entry looks like *)

Lemma sessionInv_same_flags (c c' : Conversion) (st : Stage) :
  completed c' = completed c -> failed c' = failed c ->
  result c' = result c -> error c' = error c ->
  (completed c = true -> cancelled c' = cancelled c) ->
  sessionInv c st -> sessionInv c' st.
Proof.
  intros E1 E2 E3 E4 Hc (I1 & I2 & I3 & I4).
  unfold sessionInv. rewrite E1, E2, E3, E4.
  split; [exact I1|]. split; [exact I2|]. split; [|exact I4].
  intros H. rewrite (Hc H). by apply I3.
Qed.

Lemma sessionInv_catchBlock (message : string) (now : Z) (c : Conversion) (st : Stage) :
  st <> Finished -> sessionInv c st -> sessionInv (catchBlock message now c) Finished.
Proof.
  intros Hst (I1 & I2 & I3 & I4). destruct (I4 Hst) as [Hc Hf].
  unfold catchBlock. destruct (String.eqb _ _); unfold sessionInv; simpl.
  - split; [exact I1|]. split; [exact I2|].
    split; [intros H; congruence | intros H; congruence].
  - split; [exact I1|]. split; [split; eauto|].
    split; [intros H; congruence | intros H; congruence].
Qed.

Lemma react_not_finished (e : JobEvent) (j : Job) (entry : option Conversion)
    (r : Stage * (Conversion -> Conversion)) :
  react e j entry = Some r -> stage j <> Finished.
Proof. intros H Hf. unfold react in H. rewrite Hf in H. by destruct e. Qed.

Lemma react_keeps_sessionInv (e : JobEvent) (j : Job) (c : Conversion)
    (st : Stage) (f : Conversion -> Conversion) :
  react e j (Some c) = Some (st, f) ->
  sessionInv c (stage j) -> sessionInv (f c) st.
Proof.
  intros H Hinv.
  pose proof (react_not_finished _ _ _ _ H) as Hnf.
  assert (Hsame : forall st', sessionInv c st').
  { intros st'. destruct Hinv as (I1 & I2 & I3 & I4).
    split; [exact I1|]. split; [exact I2|]. split; [exact I3|].
    intros _. by apply I4. }
  destruct e; simpl in H; destruct (stage j) eqn:Est; try discriminate H.
  - destruct (tasks !! i) as [[]|]; try discriminate H.
    destruct (cancelled c); inversion H; subst; [apply Hsame|].
    apply (sessionInv_same_flags c); [..|apply Hsame]; simpl; auto.
  - destruct (tasks !! i) as [[]|]; try discriminate H.
    destruct (validSentences j !! i); try discriminate H.
    destruct (cancelled c); [inversion H; subst; apply Hsame|].
    destruct code as [[]|]; inversion H; subst; apply Hsame.
  - destruct (tasks !! i) as [[]|]; try discriminate H.
    inversion H; subst. apply Hsame.
  - destruct (allSettled tasks); try discriminate H.
    destruct (generateAudioParallel _ _) as [message | files].
    + inversion H; subst. eapply sessionInv_catchBlock; [|exact Hinv]. discriminate.
    + unfold afterParallel in H. simpl in H.
      destruct (cancelled c); [inversion H; subst; apply Hsame|].
      destruct files as [|? [|]]; inversion H; subst; try apply Hsame.
      eapply sessionInv_catchBlock; [|exact Hinv]. exact Hnf.
  - destruct r.
    + inversion H; subst. eapply sessionInv_catchBlock; [|exact Hinv]. discriminate.
    + simpl in H. destruct (cancelled c); inversion H; subst; apply Hsame.
  - destruct r.
    + inversion H; subst. eapply sessionInv_catchBlock; [|exact Hinv]. discriminate.
    + inversion H; subst. destruct (cancelled c) eqn:Ec; [apply Hsame|].
      destruct Hinv as (I1 & I2 & I3 & I4).
      destruct I4 as [Hc Hf]; [discriminate|].
      unfold sessionInv; simpl. rewrite Hf in *.
      repeat split; eauto; try tauto; try discriminate.
Qed.

Lemma registryInv_step (sv : Server) (e : Event) (sv' : Server) :
  registryInv sv -> step sv e = Some sv' -> registryInv sv'.
Proof.
  intros Hinv H. destruct e as [cid ss mn now | cid e' | cid now | now]; simpl in H.
  - destruct (jobs sv !! cid) eqn:Ej; [discriminate|].
    destruct (activeConversions sv !! cid) eqn:Em; [discriminate|].
    destruct ss as [|s0 ss]; [discriminate|].
    inversion H; subst; clear H. intros i c; simpl.
    destruct (decide (cid = i)) as [->|Hne].
    + rewrite !lookup_insert_eq. intros Hc; inversion Hc; subst.
      eexists; split; [reflexivity|]. unfold sessionInv; simpl.
      repeat split; try discriminate; intros [x Hx]; discriminate.
    + rewrite !lookup_insert_ne by done. apply Hinv.
  - destruct (jobs sv !! cid) as [j|] eqn:Ej; [|discriminate].
    destruct (react e' j _) as [[st f]|] eqn:Er; [|discriminate].
    inversion H; subst; clear H. intros i c; simpl.
    destruct (decide (cid = i)) as [->|Hne].
    + rewrite lookup_alter_eq, lookup_insert_eq.
      destruct (activeConversions sv !! i) as [c0|] eqn:Ec; [|discriminate].
      simpl. intros Hc; inversion Hc; subst.
      eexists; split; [reflexivity|]. simpl.
      destruct (Hinv _ _ Ec) as (j' & Hj' & Hs). rewrite Ej in Hj'. inversion Hj'; subst.
      eapply react_keeps_sessionInv; eauto.
    + rewrite lookup_alter_ne, lookup_insert_ne by done. apply Hinv.
  - inversion H; subst; clear H. intros i c; simpl.
    unfold cancelConversion.
    destruct (activeConversions sv !! cid) as [c0|] eqn:Ec; simpl; [|apply Hinv].
    destruct (completed c0) eqn:Ecomp; simpl; [apply Hinv|].
    destruct (decide (cid = i)) as [->|Hne].
    + rewrite lookup_insert_eq. intros Hc; inversion Hc; subst.
      destruct (Hinv _ _ Ec) as (j' & Hj' & Hs).
      exists j'. split; [done|].
      apply (sessionInv_same_flags c0); [..|exact Hs]; simpl; auto; congruence.
    + rewrite lookup_insert_ne by done. apply Hinv.
  - inversion H; subst; clear H. intros i c; simpl.
    rewrite cleanup_lookup. intros [Hc _]. by apply Hinv.
Qed.

(** ** The messages of the errors

    Every message that the [catch] block of
    [processConversionInBackground] stores has at least one character. *)

Lemma concatFailed_populated (f : Failure) : concatFailed f <> EmptyString.
Proof. destruct f as [code stderr | message | first rest]; discriminate. Qed.

Lemma mp3Failed_populated (f : Failure) : mp3Failed f <> EmptyString.
Proof. destruct f as [code stderr | message | first rest]; discriminate. Qed.

Lemma catchBlock_populated (message : string) (now : Z) (c : Conversion) :
  message <> EmptyString -> populated c -> populated (catchBlock message now c).
Proof.
  intros Hm Hc. unfold catchBlock, populated.
  destruct (String.eqb _ _); simpl; [exact Hc | congruence].
Qed.

Lemma react_keeps_populated (e : JobEvent) (j : Job) (c : Conversion)
    (st : Stage) (f : Conversion -> Conversion) :
  react e j (Some c) = Some (st, f) -> populated c -> populated (f c).
Proof.
  intros H Hc.
  destruct e; simpl in H; destruct (stage j) eqn:Est; try discriminate H.
  - destruct (tasks !! i) as [[]|]; try discriminate H.
    destruct (cancelled c); inversion H; subst; exact Hc.
  - destruct (tasks !! i) as [[]|]; try discriminate H.
    destruct (validSentences j !! i); try discriminate H.
    destruct (cancelled c); [inversion H; subst; exact Hc|].
    destruct code as [[]|]; inversion H; subst; exact Hc.
  - destruct (tasks !! i) as [[]|]; try discriminate H.
    inversion H; subst. exact Hc.
  - destruct (allSettled tasks); try discriminate H.
    destruct (generateAudioParallel _ _) as [message | files] eqn:Eg.
    + inversion H; subst. apply catchBlock_populated; [|exact Hc].
      unfold generateAudioParallel in Eg.
      destruct (cancelled c); [inversion Eg; discriminate|].
      destruct (_ =? _)%nat; inversion Eg; discriminate.
    + unfold afterParallel in H. simpl in H.
      destruct (cancelled c); [inversion H; subst; exact Hc|].
      destruct files as [|? [|]]; inversion H; subst; try exact Hc.
      by apply catchBlock_populated.
  - destruct r.
    + inversion H; subst. apply catchBlock_populated; [apply concatFailed_populated | exact Hc].
    + simpl in H. destruct (cancelled c); inversion H; subst; exact Hc.
  - destruct r.
    + inversion H; subst. apply catchBlock_populated; [apply mp3Failed_populated | exact Hc].
    + inversion H; subst. by destruct (cancelled c).
Qed.

Lemma messagesInv_step (sv : Server) (e : Event) (sv' : Server) :
  messagesInv sv -> step sv e = Some sv' -> messagesInv sv'.
Proof.
  intros Hinv H. destruct e as [cid ss mn now | cid e' | cid now | now]; simpl in H.
  - destruct (jobs sv !! cid) eqn:Ej; [discriminate|].
    destruct (activeConversions sv !! cid) eqn:Em; [discriminate|].
    destruct ss as [|s0 ss]; [discriminate|].
    inversion H; subst; clear H. intros i c; simpl.
    destruct (decide (cid = i)) as [->|Hne].
    + rewrite lookup_insert_eq. intros Hc; inversion Hc; subst. discriminate.
    + rewrite lookup_insert_ne by done. apply Hinv.
  - destruct (jobs sv !! cid) as [j|] eqn:Ej; [|discriminate].
    destruct (react e' j _) as [[st f]|] eqn:Er; [|discriminate].
    inversion H; subst; clear H. intros i c; simpl.
    destruct (decide (cid = i)) as [->|Hne].
    + rewrite lookup_alter_eq.
      destruct (activeConversions sv !! i) as [c0|] eqn:Ec; [|discriminate].
      simpl. intros Hc; inversion Hc; subst.
      eapply react_keeps_populated; [exact Er | by eapply Hinv].
    + rewrite lookup_alter_ne by done. apply Hinv.
  - inversion H; subst; clear H. intros i c; simpl.
    unfold cancelConversion.
    destruct (activeConversions sv !! cid) as [c0|] eqn:Ec; simpl; [|apply Hinv].
    destruct (completed c0) eqn:Ecomp; simpl; [apply Hinv|].
    destruct (decide (cid = i)) as [->|Hne].
    + rewrite lookup_insert_eq. intros Hc; inversion Hc; subst.
      unfold populated; simpl. by eapply Hinv.
    + rewrite lookup_insert_ne by done. apply Hinv.
  - inversion H; subst; clear H. intros i c; simpl.
    rewrite cleanup_lookup. intros [Hc _]. by eapply Hinv.
Qed.

Lemma messagesInv_boot : messagesInv boot.
Proof. intros i c H. simpl in H. by rewrite lookup_empty in H. Qed.

Lemma registryInv_boot : registryInv boot.
Proof. intros i c H. simpl in H. by rewrite lookup_empty in H. Qed.

(** ** The results of the sentence tasks *)

Lemma settle_threw_no_value (message : string) (r : SentenceResult) :
  settle (Threw message) <> Fulfilled (Some r).
Proof. simpl. destruct (String.eqb _ _); discriminate. Qed.

Lemma insert_keeps_positions (tasks : list TaskState) (k : nat) (t : TaskState) :
  (forall i r, tasks !! i = Some (Settled (Fulfilled (Some r))) -> index r = i) ->
  (forall r, t = Settled (Fulfilled (Some r)) -> index r = k) ->
  forall i r, <[ k := t ]> tasks !! i = Some (Settled (Fulfilled (Some r))) -> index r = i.
Proof.
  intros Hpos Ht i r H.
  destruct (decide (k = i)) as [->|Hne].
  - destruct (decide (i < length tasks)%nat) as [Hlt|Hge].
    + rewrite list_lookup_insert_eq in H by done. inversion H. by apply Ht.
    + rewrite list_insert_ge in H by lia. by apply Hpos.
  - rewrite list_lookup_insert_ne in H by done. by apply Hpos.
Qed.

Lemma react_keeps_jobInv (e : JobEvent) (j : Job) (entry : option Conversion)
    (st : Stage) (f : Conversion -> Conversion) :
  react e j entry = Some (st, f) -> jobInv j -> jobInv (withStage st j).
Proof.
  unfold jobInv. intros H Hinv.
  destruct e; simpl in H; destruct (stage j) eqn:Est; try discriminate H; simpl.
  - destruct (tasks !! i) as [[]|]; try discriminate H.
    destruct (isCancelled entry); inversion H; subst;
      apply insert_keeps_positions; auto; intros r Hr; discriminate Hr.
  - destruct (tasks !! i) as [[]|]; try discriminate H.
    destruct (validSentences j !! i); try discriminate H.
    destruct (isCancelled entry).
    { inversion H; subst. apply insert_keeps_positions; auto. intros r Hr; discriminate Hr. }
    destruct code as [[]|]; inversion H; subst; apply insert_keeps_positions; auto;
      intros r Hr; try (inversion Hr; subst; reflexivity);
      try (exfalso; inversion Hr as [Hs]; eapply settle_threw_no_value; exact Hs).
  - destruct (tasks !! i) as [[]|]; try discriminate H.
    inversion H; subst. apply insert_keeps_positions; auto.
    intros r Hr. exfalso. inversion Hr as [Hs]. eapply settle_threw_no_value; exact Hs.
  - destruct (allSettled tasks); try discriminate H.
    destruct (generateAudioParallel _ _) as [message | files].
    + by inversion H; subst.
    + unfold afterParallel in H. destruct (goneOrCancelled entry); [by inversion H; subst|].
      destruct files as [|? [|]]; by inversion H; subst.
  - destruct r; [by inversion H; subst|].
    destruct (goneOrCancelled entry); by inversion H; subst.
  - destruct r; by inversion H; subst.
Qed.

Lemma jobsInv_step (sv : Server) (e : Event) (sv' : Server) :
  jobsInv sv -> step sv e = Some sv' -> jobsInv sv'.
Proof.
  intros Hinv H. destruct e as [cid ss mn now | cid e' | cid now | now]; simpl in H.
  - destruct (jobs sv !! cid) eqn:Ej; [discriminate|].
    destruct (activeConversions sv !! cid) eqn:Em; [discriminate|].
    destruct ss as [|s0 ss]; [discriminate|].
    inversion H; subst; clear H. intros i j; simpl.
    destruct (decide (cid = i)) as [->|Hne].
    + rewrite lookup_insert_eq. intros Hj; inversion Hj; subst.
      unfold jobInv; simpl. intros k r Hk.
      apply lookup_replicate in Hk as [Hk _]. discriminate Hk.
    + rewrite lookup_insert_ne by done. apply Hinv.
  - destruct (jobs sv !! cid) as [j|] eqn:Ej; [|discriminate].
    destruct (react e' j _) as [[st f]|] eqn:Er; [|discriminate].
    inversion H; subst; clear H. intros i j'; simpl.
    destruct (decide (cid = i)) as [->|Hne].
    + rewrite lookup_insert_eq. intros Hj; inversion Hj; subst.
      eapply react_keeps_jobInv; eauto.
    + rewrite lookup_insert_ne by done. apply Hinv.
  - inversion H; subst; clear H. exact Hinv.
  - inversion H; subst; clear H. exact Hinv.
Qed.

Lemma jobsInv_boot : jobsInv boot.
Proof. intros i j H. simpl in H. by rewrite lookup_empty in H. Qed.

Lemma allSettled_lookup (tasks : list TaskState) (results : list (Settlement SentenceResult))
    (i : nat) (s : Settlement SentenceResult) :
  allSettled tasks = Some results ->
  results !! i = Some s -> tasks !! i = Some (Settled s).
Proof.
  unfold allSettled. intros H Hi. apply mapM_Some in H.
  destruct (Forall2_lookup_r _ _ _ _ _ H Hi) as (t & Ht & Hs).
  destruct t; try discriminate Hs. by inversion Hs; subst.
Qed.

(** The successful results, read off in the order of the task promises,
    have increasing indices. *)
Lemma successfulResults_sorted (results : list (Settlement SentenceResult)) :
  forall n,
    (forall i r, results !! i = Some (Fulfilled (Some r)) -> index r = (n + i)%nat) ->
    StronglySorted byIndex (successfulResults results) /\
    Forall (fun r => (n <= index r)%nat) (successfulResults results).
Proof.
  induction results as [|s results IH]; intros n Hpos; simpl.
  - split; constructor.
  - destruct (IH (S n)) as [Hs Hf].
    { intros i r Hi. rewrite (Hpos (S i) r Hi). lia. }
    assert (Hf' : Forall (fun r => (n <= index r)%nat) (successfulResults results)).
    { eapply Forall_impl; [exact Hf|]. simpl. intros; lia. }
    unfold successfulResults in *. simpl.
    destruct s as [[r|]|]; simpl; auto.
    pose proof (Hpos 0%nat r eq_refl) as Hr.
    split; constructor; auto; try lia.
    eapply Forall_impl; [exact Hf|]. unfold byIndex. simpl. intros; lia.
Qed.

Lemma successfulResults_elem (results : list (Settlement SentenceResult)) (r : SentenceResult) :
  r ∈ successfulResults results <-> exists i, results !! i = Some (Fulfilled (Some r)).
Proof.
  unfold successfulResults. rewrite list_elem_of_omap. split.
  - intros (s & Hs & Hr). apply list_elem_of_lookup in Hs as [i Hi].
    exists i. destruct s as [[v|]|]; inversion Hr; by subst.
  - intros [i Hi]. exists (Fulfilled (Some r)). split; [|done].
    apply list_elem_of_lookup. eauto.
Qed.

(** Sorting a list that is already in increasing order leaves it as it is,
    and sorting never changes the length. *)
Lemma sortBy_sorted_id (l : list SentenceResult) :
  StronglySorted byIndex l -> sortBy cmpIndex l = l.
Proof.
  induction 1 as [|x l Hs IH Hx]; [reflexivity|].
  unfold sortBy in *. simpl. rewrite IH.
  destruct l as [|y l']; [reflexivity|]. simpl.
  inversion Hx as [|? ? Hxy _]; subst. unfold byIndex in Hxy. unfold cmpIndex.
  destruct (Z.leb_spec (Z.of_nat (index x) - Z.of_nat (index y)) 0); [reflexivity | lia].
Qed.

(** The sort is a sort: its result is a rearrangement of its argument in
    which no index is followed by a smaller one. *)
Lemma insertBy_perm {A} (cmp : A -> A -> Z) (x : A) (l : list A) :
  insertBy cmp x l ≡ₚ x :: l.
Proof.
  induction l as [|y l IH]; simpl; [reflexivity|].
  destruct (cmp x y <=? 0); [reflexivity|].
  rewrite IH. apply Permutation_swap.
Qed.

Lemma sortBy_perm {A} (cmp : A -> A -> Z) (l : list A) : sortBy cmp l ≡ₚ l.
Proof.
  induction l as [|x l IH]; [reflexivity|].
  unfold sortBy in *. simpl. by rewrite insertBy_perm, IH.
Qed.

Lemma insertBy_sorted (x : SentenceResult) (l : list SentenceResult) :
  StronglySorted upToIndex l -> StronglySorted upToIndex (insertBy cmpIndex x l).
Proof.
  induction 1 as [|y l Hs IH Hy]; simpl.
  - repeat constructor.
  - unfold cmpIndex at 1.
    destruct (Z.leb_spec (Z.of_nat (index x) - Z.of_nat (index y)) 0) as [Hle | Hgt].
    + constructor; [by constructor|].
      constructor; [unfold upToIndex; lia|].
      eapply Forall_impl; [exact Hy|]. unfold upToIndex. simpl. intros; lia.
    + constructor; [exact IH|].
      rewrite insertBy_perm. constructor; [unfold upToIndex; lia | exact Hy].
Qed.

Lemma sortBy_sorted (l : list SentenceResult) :
  StronglySorted upToIndex (sortBy cmpIndex l).
Proof.
  induction l as [|x l IH]; [constructor|].
  unfold sortBy in *. simpl. by apply insertBy_sorted.
Qed.

Lemma byIndex_upToIndex (l : list SentenceResult) :
  StronglySorted byIndex l -> StronglySorted upToIndex l.
Proof.
  induction 1 as [|x l Hs IH Hx]; constructor; [exact IH|].
  eapply Forall_impl; [exact Hx|]. unfold byIndex, upToIndex. simpl. intros; lia.
Qed.

Lemma insertBy_length {A} (cmp : A -> A -> Z) (x : A) (l : list A) :
  length (insertBy cmp x l) = S (length l).
Proof.
  induction l as [|y l IH]; simpl; [reflexivity|].
  destruct (cmp x y <=? 0); simpl; [reflexivity | by rewrite IH].
Qed.

Lemma sortBy_length {A} (cmp : A -> A -> Z) (l : list A) :
  length (sortBy cmp l) = length l.
Proof.
  induction l as [|x l IH]; [reflexivity|].
  unfold sortBy in *. simpl. by rewrite insertBy_length, IH.
Qed.

End SessionFacts.

(** ** The claims about the registry of sessions *)

(** C10: the sweep removes no session that is still running: whatever the
    clock readings of the sweeps that have run, a session that is neither
    completed, failed nor cancelled is still in the registry, unchanged, and
    the status request for its id is answered with its snapshot. *)
Theorem cleanup_keeps_running_sessions (nows : list Z)
    (m : gmap string Session.Conversion) (conversionId : string)
    (c : Session.Conversion) :
  m !! conversionId = Some c ->
  isRunning c ->
  foldr Session.cleanup m nows !! conversionId = Some c /\
  Session.conversionStatus conversionId (foldr Session.cleanup m nows)
    = Some (Session.snapshot c).
Proof.
  intros Hm Hr.
  pose proof (cleanups_keep_running nows m conversionId c Hm Hr) as H.
  split; [exact H|]. unfold Session.conversionStatus. by rewrite H.
Qed.

(** A session started at time 0 and still running is looked up after two
    sweeps, the second more than eleven days later. *)
Lemma cleanup_keeps_running_sessions_witness :
  foldr Session.cleanup {[ "ab12" := Session.newConversion "ab12" 0 3 ]}
    [1000000000; 60000] !! "ab12"
    = Some (Session.newConversion "ab12" 0 3) /\
  Session.conversionStatus "ab12"
    (foldr Session.cleanup {[ "ab12" := Session.newConversion "ab12" 0 3 ]}
       [1000000000; 60000])
    = Some (Session.snapshot (Session.newConversion "ab12" 0 3)).
Proof.
  apply (cleanup_keeps_running_sessions [1000000000; 60000]
           {[ "ab12" := Session.newConversion "ab12" 0 3 ]} "ab12"
           (Session.newConversion "ab12" 0 3)).
  - vm_compute. reflexivity.
  - unfold isRunning. simpl. auto.
Defined.

(** C6, refuted as stated: the session of [failingTrace] is failed, yet a
    cancellation request for it is accepted, marks it cancelled as well,
    and calls [kill] on the handle of the process that has long exited. *)
Lemma cancel_of_failed_session_is_accepted :
  exists sv c,
    Session.run Session.boot failingTrace = Some sv /\
    Session.activeConversions sv !! "f00d" = Some c /\
    isFailed c /\ isTerminal c /\
    Session.cancelled c = false /\ Session.completed c = false /\
    let '(answer, m', signalled) :=
      Session.cancelConversion "f00d" 1000 (Session.activeConversions sv) in
    Session.success answer = true /\
    (Session.cancelled <$> m' !! "f00d") = Some true /\
    m' !! "f00d" <> Some c /\
    signalled = [piper1].
Proof.
  eexists. eexists.
  split; [vm_compute; reflexivity|].
  split; [vm_compute; reflexivity|].
  split; [reflexivity|]. split; [right; left; reflexivity|].
  vm_compute. repeat split; try reflexivity. intros H; discriminate H.
Qed.

(** C6, as the code has it: a cancellation request for a session that has
    completed is refused: the answer reports no success, the registry and
    with it the state, result and error of the session are unchanged, and
    no process is signalled. *)
Theorem cancel_of_completed_session_is_refused (conversionId : string) (now : Z)
    (m : gmap string Session.Conversion) (c : Session.Conversion) :
  m !! conversionId = Some c ->
  isCompleted c ->
  Session.cancelConversion conversionId now m = (Session.AlreadyCompleted, m, []) /\
  Session.success (Session.cancelConversion conversionId now m).1.1 = false /\
  Session.conversionStatus conversionId (Session.cancelConversion conversionId now m).1.2
    = Some (Session.snapshot c).
Proof.
  intros Hm Hc. unfold isCompleted in Hc.
  unfold Session.cancelConversion, Session.conversionStatus.
  rewrite Hm, Hc. simpl. by rewrite Hm.
Qed.

(** The theorem at the session of [completingTrace]. *)
Lemma cancel_of_completed_session_witness :
  exists sv c,
    Session.run Session.boot completingTrace = Some sv /\
    Session.activeConversions sv !! "c0de" = Some c /\
    Session.completed c = true /\
    Session.cancelConversion "c0de" 1000 (Session.activeConversions sv)
      = (Session.AlreadyCompleted, Session.activeConversions sv, []).
Proof.
  eexists. eexists.
  split; [vm_compute; reflexivity|].
  split; [vm_compute; reflexivity|].
  split; [reflexivity|].
  eapply cancel_of_completed_session_is_refused.
  - vm_compute. reflexivity.
  - reflexivity.
Defined.

(** C9, refuted as stated: the session of [cancellingTrace] is cancelled,
    a terminal state, and its snapshot has neither a result nor an error. *)
Lemma cancelled_snapshot_has_neither :
  exists sv c snap,
    Session.run Session.boot cancellingTrace = Some sv /\
    Session.activeConversions sv !! "cafe" = Some c /\
    isCancelledState c /\ isTerminal c /\
    Session.conversionStatus "cafe" (Session.activeConversions sv) = Some snap /\
    Session.s_cancelled snap = true /\
    Session.s_result snap = None /\
    Session.s_error snap = None.
Proof.
  eexists. eexists. eexists.
  split; [vm_compute; reflexivity|].
  split; [vm_compute; reflexivity|].
  split; [reflexivity|]. split; [right; right; reflexivity|].
  split; [vm_compute; reflexivity|].
  repeat split.
Qed.

(** C9, as the code has it: in every state the server reaches, a snapshot
    never carries both a result and an error; it carries a result exactly
    when the session is completed, and then no error; it carries an error,
    with a message of at least one character, exactly when the session is
    failed, and then no result; so a session that is neither completed nor
    failed, as one that was only cancelled, shows neither. *)
Theorem snapshot_never_result_and_error (tr : list Session.Event) (sv : Session.Server)
    (conversionId : string) (snap : Session.Snapshot) :
  Session.run Session.boot tr = Some sv ->
  Session.conversionStatus conversionId (Session.activeConversions sv) = Some snap ->
  ~ (is_Some (Session.s_result snap) /\ is_Some (Session.s_error snap)) /\
  (Session.s_completed snap = true <-> is_Some (Session.s_result snap)) /\
  (Session.s_completed snap = true -> Session.s_error snap = None) /\
  (Session.s_failed snap = true <->
   exists message, Session.s_error snap = Some message /\ message <> EmptyString) /\
  (Session.s_failed snap = true -> Session.s_result snap = None) /\
  (Session.s_completed snap = false -> Session.s_failed snap = false ->
   Session.s_result snap = None /\ Session.s_error snap = None).
Proof.
  intros Hrun Hsnap.
  pose proof (run_invariant registryInv registryInv_step tr _ _ registryInv_boot Hrun) as Hinv.
  pose proof (run_invariant messagesInv messagesInv_step tr _ _ messagesInv_boot Hrun) as Hmsg.
  unfold Session.conversionStatus in Hsnap.
  destruct (Session.activeConversions sv !! conversionId) as [c|] eqn:Ec; [|discriminate].
  simpl in Hsnap. inversion Hsnap; subst; clear Hsnap. simpl.
  destruct (Hinv _ _ Ec) as (j & _ & I1 & I2 & I3 & _).
  pose proof (Hmsg _ _ Ec) as Hpop. unfold populated in Hpop.
  assert (Herr : Session.orNull (Session.error c) = Session.error c).
  { by destruct (Session.error c) as [[|]|]. }
  rewrite Herr.
  assert (Hnone : forall A (o : option A), ~ is_Some o -> o = None).
  { intros A [x|] H; [exfalso; eauto | reflexivity]. }
  split; [|split; [|split; [|split; [|split]]]].
  - intros [Hr He]. apply I2 in He. apply I1, I3 in Hr. destruct Hr; congruence.
  - exact I1.
  - intros Hc. apply Hnone. intros He. apply I2 in He.
    apply I3 in Hc. destruct Hc; congruence.
  - split.
    + intros Hf. apply I2 in Hf as [message Hm]. exists message.
      split; [exact Hm | congruence].
    + intros (message & Hm & _). apply I2. by eexists.
  - intros Hf. apply Hnone. intros Hr. apply I1, I3 in Hr. destruct Hr; congruence.
  - intros Hc Hf. split; apply Hnone.
    + intros Hr. apply I1 in Hr. congruence.
    + intros He. apply I2 in He. congruence.
Qed.

(** The theorem at the snapshot of the session of [completingTrace], and
    at that of [encodingFailsTrace], which is failed. *)
Lemma snapshot_never_result_and_error_witness :
  Session.run Session.boot completingTrace = Some completedServer /\
  ~ (is_Some (Session.s_result (Session.snapshot
        (default (Session.newConversion "" 0 0)
           (Session.activeConversions completedServer !! "c0de")))) /\
     is_Some (Session.s_error (Session.snapshot
        (default (Session.newConversion "" 0 0)
           (Session.activeConversions completedServer !! "c0de"))))) /\
  Session.s_error (Session.snapshot
        (default (Session.newConversion "" 0 0)
           (Session.activeConversions completedServer !! "c0de"))) = None /\
  Session.run Session.boot encodingFailsTrace = Some encodingFailedServer /\
  Session.s_failed encodingFailedSnapshot = true /\
  (exists message,
     Session.s_error encodingFailedSnapshot = Some message /\ message <> EmptyString) /\
  Session.s_result encodingFailedSnapshot = None.
Proof.
  split; [vm_compute; reflexivity|].
  destruct (snapshot_never_result_and_error completingTrace completedServer "c0de"
              (Session.snapshot
                 (default (Session.newConversion "" 0 0)
                    (Session.activeConversions completedServer !! "c0de"))))
    as (H1 & _ & H3 & _); [vm_compute; reflexivity | vm_compute; reflexivity |].
  destruct (snapshot_never_result_and_error encodingFailsTrace encodingFailedServer "dead"
              encodingFailedSnapshot)
    as (_ & _ & _ & [H4 _] & H5 & _); [vm_compute; reflexivity | vm_compute; reflexivity |].
  split; [exact H1|]. split; [apply H3; vm_compute; reflexivity|].
  split; [vm_compute; reflexivity|]. split; [reflexivity|].
  split; [apply H4; reflexivity | apply H5; reflexivity].
Defined.

(** ** The claims about the results of a conversion *)

(** C5: whatever the order in which the sentence tasks of a conversion
    ended, the results that [generateAudioParallel] sorts are in strictly
    increasing order of their indices, each is the result of the task at its
    index, and the list of files it returns, the one handed to
    [concatenateAudio] (or the single file handed to [convertToMp3]), is the
    list of their audio files in that order; the sort would put the
    successful results in this same order from whatever order they came
    in. *)
Theorem artifacts_in_index_order (tr : list Session.Event) (sv : Session.Server)
    (conversionId : string) (j : Session.Job) (tasks : list Session.TaskState)
    (completedCount : nat) (results : list (Queue.Settlement Session.SentenceResult)) :
  Session.run Session.boot tr = Some sv ->
  Session.jobs sv !! conversionId = Some j ->
  Session.stage j = Session.Parallel tasks completedCount ->
  Session.allSettled tasks = Some results ->
  let ordered := Session.sortBy cmpIndex (Session.successfulResults results) in
  StronglySorted byIndex ordered /\
  (forall r, r ∈ ordered <->
             tasks !! Session.index r = Some (Session.Settled (Queue.Fulfilled (Some r)))) /\
  (forall cancelledNow audioFiles,
     Session.generateAudioParallel results cancelledNow = inr audioFiles ->
     audioFiles = Session.audioFile <$> ordered) /\
  (forall now entry st f,
     Session.react (Session.AllSettled now) j entry = Some (st, f) ->
     match st with
     | Session.Concatenating audioFiles => audioFiles = Session.audioFile <$> ordered
     | Session.Encoding finalAudioPath => [finalAudioPath] = Session.audioFile <$> ordered
     | _ => True
     end) /\
  (forall arrived, arrived ≡ₚ Session.successfulResults results ->
                   Session.sortBy cmpIndex arrived = ordered).
Proof.
  intros Hrun Hj Hst Hall ordered.
  pose proof (run_invariant jobsInv jobsInv_step tr _ _ jobsInv_boot Hrun _ _ Hj) as Hinv.
  unfold jobInv in Hinv. rewrite Hst in Hinv.
  assert (Hpos : forall i r, results !! i = Some (Queue.Fulfilled (Some r)) ->
                             Session.index r = i).
  { intros i r Hi. apply Hinv. eapply allSettled_lookup; eauto. }
  destruct (successfulResults_sorted results 0 Hpos) as [Hsorted _].
  assert (Hid : ordered = Session.successfulResults results)
    by (apply sortBy_sorted_id; exact Hsorted).
  assert (Hfiles : forall cancelledNow audioFiles,
             Session.generateAudioParallel results cancelledNow = inr audioFiles ->
             audioFiles = Session.audioFile <$> ordered).
  { intros cn files H. unfold Session.generateAudioParallel in H.
    destruct cn; [discriminate|].
    destruct (_ =? _)%nat; [discriminate|]. by inversion H. }
  split; [by rewrite Hid|]. split; [|split; [exact Hfiles|split]].
  - intros r. rewrite Hid, successfulResults_elem. split.
    + intros [i Hi]. rewrite (Hpos _ _ Hi). eapply allSettled_lookup; eauto.
    + intros Hr. exists (Session.index r).
      unfold Session.allSettled in Hall. apply mapM_Some in Hall.
      destruct (Forall2_lookup_l _ _ _ _ _ Hall Hr) as (s & Hs & Hrs).
      by inversion Hrs; subst.
  - intros now entry st f H. simpl in H. rewrite Hst, Hall in H.
    destruct (Session.generateAudioParallel results _) as [message | files] eqn:Eg.
    + by inversion H.
    + apply Hfiles in Eg. unfold Session.afterParallel in H.
      destruct (Session.goneOrCancelled entry); [by inversion H|].
      destruct files as [|f0 [|f1 files]]; inversion H; subst; auto.
  - intros arrived Harr. rewrite Hid.
    apply (StronglySorted_unique_strong upToIndex).
    + intros x1 x2 H1 H2 H12 H21.
      rewrite sortBy_perm, Harr in H1.
      apply successfulResults_elem in H1 as [i1 H1].
      apply successfulResults_elem in H2 as [i2 H2].
      pose proof (Hpos _ _ H1). pose proof (Hpos _ _ H2).
      unfold upToIndex in *.
      assert (i1 = i2) by lia. subst i2. congruence.
    + apply sortBy_sorted.
    + by apply byIndex_upToIndex.
    + by rewrite sortBy_perm.
Qed.

(** The theorem at [outOfOrderTrace]. *)
Lemma artifacts_in_index_order_witness :
  Session.run Session.boot outOfOrderTrace = Some outOfOrderServer /\
  StronglySorted byIndex
    (Session.sortBy cmpIndex (Session.successfulResults outOfOrderResults)) /\
  Session.generateAudioParallel outOfOrderResults false = inr ["tts_01.wav"; "tts_02.wav"] /\
  ["tts_01.wav"; "tts_02.wav"]
    = Session.audioFile
        <$> Session.sortBy cmpIndex (Session.successfulResults outOfOrderResults).
Proof.
  split; [vm_compute; reflexivity|].
  destruct (artifacts_in_index_order outOfOrderTrace outOfOrderServer "0b0e" outOfOrderJob
              outOfOrderTasks 2 outOfOrderResults) as (H1 & _ & H3 & _).
  - vm_compute. reflexivity.
  - vm_compute. reflexivity.
  - vm_compute. reflexivity.
  - vm_compute. reflexivity.
  - split; [exact H1|]. split; [vm_compute; reflexivity|].
    apply (H3 false). vm_compute. reflexivity.
Defined.

(** C1, refuted as stated: in the run [partialTrace] the promise of the
    second task is rejected with the failure of the synthesis, yet the
    session ends completed, not failed, with a result assembled from the
    output of the sibling task and no error. *)
Lemma failed_task_beside_successful_sibling_completes :
  exists mid j sv c,
    Session.run Session.boot (take 5 partialTrace) = Some mid /\
    Session.jobs mid !! "beef" = Some j /\
    Session.stage j
      = Session.Parallel
          [ Session.Settled (Queue.Fulfilled
              (Some {| Session.index := 0; Session.audioFile := "tts_01.wav";
                       Session.sentence := Js.lit "Hola mundo." |}));
            Session.Settled (Queue.Rejected "Piper failed with code 1: boom") ] 1 /\
    Session.run Session.boot partialTrace = Some sv /\
    Session.activeConversions sv !! "beef" = Some c /\
    Session.completed c = true /\ Session.failed c = false /\
    Session.cancelled c = false /\ Session.error c = None /\
    Session.result c
      = Some {| Session.audio := "SUQz"; Session.model := "voz"; Session.sentenceCount := 2 |}.
Proof.
  eexists. eexists. eexists. eexists.
  split; [vm_compute; reflexivity|].
  split; [vm_compute; reflexivity|].
  split; [vm_compute; reflexivity|].
  split; [vm_compute; reflexivity|].
  split; [vm_compute; reflexivity|].
  repeat split.
Qed.

(** C1, as the code has it: when the sentence tasks of a session that is
    not cancelled have all ended and some of them failed with an error that
    is not the cancellation, the session is marked failed only if no task
    succeeded, and then with the message 'No sentences were processed
    successfully'; if at least one task succeeded the session is not marked
    failed, the failed sentences are left out, and the audio files of the
    successful tasks go on, in index order, to [convertToMp3] when there is
    one and to [concatenateAudio] when there are more. *)
Theorem task_failure_fails_session_only_when_none_succeeded (sv : Session.Server)
    (conversionId : string) (j : Session.Job) (tasks : list Session.TaskState)
    (completedCount : nat) (results : list (Queue.Settlement Session.SentenceResult))
    (c : Session.Conversion) (now : Z) :
  Session.jobs sv !! conversionId = Some j ->
  Session.stage j = Session.Parallel tasks completedCount ->
  Session.allSettled tasks = Some results ->
  Session.activeConversions sv !! conversionId = Some c ->
  Session.cancelled c = false ->
  (exists i message, results !! i = Some (Queue.Rejected message)) ->
  exists sv' j',
    Session.step sv (Session.OnJob conversionId (Session.AllSettled now)) = Some sv' /\
    Session.jobs sv' !! conversionId = Some j' /\
    match Session.successfulResults results with
    | [] =>
        Session.stage j' = Session.Finished /\
        Session.activeConversions sv' !! conversionId
          = Some (Session.markFailed "No sentences were processed successfully" c)
    | [r] =>
        Session.stage j' = Session.Encoding (Session.audioFile r) /\
        Session.activeConversions sv' !! conversionId = Some c
    | _ =>
        Session.stage j'
          = Session.Concatenating
              (Session.audioFile
                 <$> Session.sortBy cmpIndex (Session.successfulResults results)) /\
        Session.activeConversions sv' !! conversionId = Some c
    end.
Proof.
  intros Hj Hst Hall Hc Hnc _.
  assert (Hreact :
    Session.react (Session.AllSettled now) j (Some c)
    = Some (match Session.successfulResults results with
            | [] => (Session.Finished,
                     Session.catchBlock "No sentences were processed successfully" now)
            | [r] => (Session.Encoding (Session.audioFile r), Session.unchanged)
            | _ => (Session.Concatenating
                      (Session.audioFile
                         <$> Session.sortBy cmpIndex (Session.successfulResults results)),
                    Session.unchanged)
            end)).
  { unfold Session.react. rewrite Hst, Hall.
    unfold Session.isCancelled. rewrite Hnc.
    unfold Session.generateAudioParallel.
    change (fun a b => Z.of_nat (Session.index a) - Z.of_nat (Session.index b)) with cmpIndex.
    pose proof (sortBy_length cmpIndex (Session.successfulResults results)) as Hlen.
    destruct (Session.successfulResults results) as [|r [|r' rs]] eqn:Es.
    - reflexivity.
    - cbn. unfold Session.afterParallel, Session.goneOrCancelled. rewrite Hnc. reflexivity.
    - remember (Session.sortBy cmpIndex (r :: r' :: rs)) as sorted eqn:Esort.
      cbn [length Nat.eqb].
      unfold Session.afterParallel, Session.goneOrCancelled. rewrite Hnc.
      destruct sorted as [|f0 [|f1 fs]]; simpl in Hlen; try discriminate Hlen.
      reflexivity. }
  unfold Session.step. rewrite Hj, Hc, Hreact.
  destruct (Session.successfulResults results) as [|r [|r' rs]];
    (eexists; eexists; split; [reflexivity|]; simpl;
     rewrite lookup_insert_eq, lookup_alter_eq, Hc; simpl;
     split; [reflexivity|]; split; reflexivity).
Qed.

(** The theorem at the first five events of [partialTrace]. *)
Lemma task_failure_witness :
  Session.run Session.boot (take 5 partialTrace) = Some partialServer /\
  partialResults !! 1%nat = Some (Queue.Rejected "Piper failed with code 1: boom") /\
  exists sv' j',
    Session.step partialServer (Session.OnJob "beef" (Session.AllSettled 901)) = Some sv' /\
    Session.jobs sv' !! "beef" = Some j' /\
    Session.stage j' = Session.Encoding "tts_01.wav" /\
    Session.activeConversions sv' !! "beef" = Some partialConversion.
Proof.
  split; [vm_compute; reflexivity|]. split; [reflexivity|].
  destruct (task_failure_fails_session_only_when_none_succeeded partialServer "beef"
              partialJob partialTasks 1 partialResults partialConversion 901)
    as (sv' & j' & H1 & H2 & H3).
  - vm_compute. reflexivity.
  - vm_compute. reflexivity.
  - vm_compute. reflexivity.
  - vm_compute. reflexivity.
  - reflexivity.
  - exists 1%nat. eexists. reflexivity.
  - exists sv', j'. split; [exact H1|]. split; [exact H2|]. exact H3.
Defined.

(* ===================================================================== *)
(** * Properties of the normaliser and the segmenter                      *)
(* ===================================================================== *)

(** C8: on "Hola Dr. Gómez. ¿Cómo estás" the segmenter returns the two
    sentences "Hola Dr. Gómez." and "¿Cómo estás?", in this order.  (The
    pattern for sentence ends also cuts after "Dr.", the abbreviation being
    protected without its dot; the piece "Hola Dr." is then merged with the
    next as a short fragment.  The closing question mark is added by
    [enhanceSentenceForTTS].) *)
Theorem splitSentences_hola_dr_gomez :
  Text.splitSentences (Js.lit "Hola Dr. Gómez. ¿Cómo estás")
  = [Js.lit "Hola Dr. Gómez."; Js.lit "¿Cómo estás?"].
Proof. vm_compute. reflexivity. Qed.

Section TextFacts.

Import Js Regex Text.

(** ** Patterns that cannot match *)

Lemma free_advance (P : N -> bool) (st : MState) :
  free P (after st) -> free P (after (advance st)).
Proof.
  unfold advance, free. destruct (after st) as [|c rest] eqn:E; simpl.
  - by rewrite E.
  - intros H. by inversion H.
Qed.

Lemma rep_failing (P : N -> bool) (ma : K -> K) (gs : list nat) :
  (forall k, failing P k -> failing P (ma k)) ->
  forall fuel min max greedy k, failing P k -> failing P (rep ma gs fuel min max greedy k).
Proof.
  intros Hma. induction fuel as [|fuel IH]; intros min max greedy k Hk st Hst; simpl.
  { reflexivity. }
  assert (Hd : failing P (fun st' =>
            if (min =? 0)%nat && (length (after st') =? length (after st))%nat then None
            else rep ma gs fuel (Nat.pred min) (Nat.pred <$> max) greedy k st')).
  { intros st' Hst'. destruct (_ && _); [reflexivity|]. by apply IH. }
  assert (Hbody : ma (fun st' =>
            if (min =? 0)%nat && (length (after st') =? length (after st))%nat then None
            else rep ma gs fuel (Nat.pred min) (Nat.pred <$> max) greedy k st')
            (clearCaps gs st) = None).
  { apply Hma; [exact Hd | exact Hst]. }
  destruct max as [[|mx]|].
  - by apply Hk.
  - destruct (0 <? min)%nat; [exact Hbody|].
    destruct greedy; rewrite Hbody, (Hk st Hst); reflexivity.
  - destruct (0 <? min)%nat; [exact Hbody|].
    destruct greedy; rewrite Hbody, (Hk st Hst); reflexivity.
Qed.

(** A continuation that fails on the rest of the input makes the match
    fail. *)
Lemma m_failing (P : N -> bool) (r : re) :
  forall k, failing P k -> failing P (m false r k).
Proof.
  induction r as [ | c | negated items | a IHa b IHb | a IHa b IHb
                 | min max greedy a IHa | n a IHa | a IHa | a IHa
                 | negated items | | | ];
    intros k Hk st Hst; cbn [m]; pose proof (free_advance P st Hst) as Hadv.
  - by apply Hk.
  - destruct (after st) as [|x rest] eqn:E; [reflexivity|].
    destruct (x =? c)%N; [|reflexivity].
    by apply Hk.
  - destruct (after st) as [|x rest] eqn:E; [reflexivity|].
    destruct (inCls _ _ _ _); [|reflexivity].
    by apply Hk.
  - apply IHa; [|exact Hst]. by apply IHb.
  - rewrite (IHa k Hk st Hst). by apply IHb.
  - apply (rep_failing P (m false a) (groups a) IHa); assumption.
  - apply IHa; [|exact Hst]. intros st' Hst'. by apply Hk.
  - destruct (m false a Some st); [|reflexivity]. by apply Hk.
  - destruct (m false a Some st); [reflexivity|]. by apply Hk.
  - destruct (before st); [reflexivity|].
    destruct (inCls _ _ _ _); [|reflexivity]. by apply Hk.
  - destruct (before st); [|reflexivity]. by apply Hk.
  - destruct (after st) eqn:E; [|reflexivity]. apply Hk. rewrite E. constructor.
  - destruct (xorb _ _); [|reflexivity]. by apply Hk.
Qed.

(** A pattern that needs a character of [P] does not match in an input
    without one. *)
Lemma m_needs (P : N -> bool) (r : re) :
  needs P r = true -> forall k st, free P (after st) -> m false r k st = None.
Proof.
  induction r as [ | c | negated items | a IHa b IHb | a IHa b IHb
                 | min max greedy a IHa | n a IHa | a IHa | a IHa
                 | negated items | | | ];
    cbn [needs m]; intros Hn k st Hst; try discriminate Hn.
  - destruct (after st) as [|x rest] eqn:E; [reflexivity|].
    destruct (N.eqb_spec x c) as [->|]; [|reflexivity].
    inversion Hst; congruence.
  - destruct (after st) as [|x rest] eqn:E; [reflexivity|].
    apply andb_true_iff in Hn as [Hneg Hall].
    destruct negated; [discriminate|]. unfold inCls. simpl.
    destruct (existsb (inItem false x) items) eqn:Ex; [|reflexivity].
    apply existsb_exists in Ex as (it & Hin & Hit).
    rewrite forallb_forall in Hall. specialize (Hall it Hin).
    destruct it; try discriminate Hall. simpl in Hit.
    apply N.eqb_eq in Hit. subst. inversion Hst; congruence.
  - apply orb_true_iff in Hn as [Hn | Hn].
    + by apply IHa.
    + apply m_failing with (P := P); [|exact Hst]. intros st' Hst'. by apply IHb.
  - apply andb_true_iff in Hn as [Ha Hb].
    rewrite (IHa Ha k st Hst). by apply IHb.
  - apply andb_true_iff in Hn as [Hn Hmax]. apply andb_true_iff in Hn as [Hmin Ha].
    cbn [rep]. rewrite Hmin. destruct max as [[|mx]|]; try discriminate Hmax; by apply IHa.
  - by apply IHa.
  - by rewrite (IHa Hn Some st Hst).
Qed.

Lemma search_needs (P : N -> bool) (p : RegExp) :
  ignoreCase p = false -> needs P (source p) = true ->
  forall aft bef, free P aft -> search p bef aft = None.
Proof.
  intros Hic Hn. induction aft as [|c rest IH]; intros bef Hf; simpl;
    unfold matchAt; rewrite Hic, (m_needs P _ Hn) by exact Hf.
  - reflexivity.
  - rewrite IH; [reflexivity|]. by inversion Hf.
Qed.

Lemma replaceAll_needs (P : N -> bool) (r : re) (f : Match -> str) (s : str) :
  needs P r = true -> free P s -> replaceAll (rx r) f s = s.
Proof.
  intros Hn Hf. unfold replaceAll. simpl.
  by rewrite (search_needs P (rx r) eq_refl Hn s [] Hf).
Qed.

(** ** Collapsing white space *)

Lemma trimStart_length (s : str) : (length (trimStart s) <= length s)%nat.
Proof. induction s as [|c s IH]; simpl; [lia|]. destruct (isSpace c); simpl; lia. Qed.

Lemma m_ws (k : K) (st : MState) :
  m false ws k st
  = match after st with
    | c :: _ => if isSpace c then k (advance st) else None
    | [] => None
    end.
Proof.
  unfold ws. cbn [m]. destruct (after st) as [|c rest]; [reflexivity|].
  unfold inCls. cbn. by rewrite orb_false_r.
Qed.

Lemma rep_star_step (ma : K -> K) (fuel : nat) (k : K) (st : MState) :
  rep ma [] (S fuel) 0 None true k st
  = match ma (fun st' =>
                if (length (after st') =? length (after st))%nat then None
                else rep ma [] fuel 0 None true k st')
             (clearCaps [] st)
    with
    | Some e => Some e
    | None => k st
    end.
Proof. reflexivity. Qed.

Lemma rep_plus_step (ma : K -> K) (fuel : nat) (k : K) (st : MState) :
  rep ma [] (S fuel) 1 None true k st
  = ma (fun st' => rep ma [] fuel 0 None true k st') (clearCaps [] st).
Proof. reflexivity. Qed.

(** The greedy loop of [\s*] stops after the white space the input starts
    with. *)
Lemma rep_ws (aft : str) :
  forall bef fuel, (length aft < fuel)%nat ->
    exists bef', rep (m false ws) [] fuel 0 None true Some (wsState bef aft)
                 = Some (wsState bef' (trimStart aft)).
Proof.
  induction aft as [|c rest IH]; intros bef fuel Hfuel;
    (destruct fuel as [|fuel]; [simpl in Hfuel; lia|]);
    rewrite rep_star_step, m_ws.
  - exists bef. reflexivity.
  - cbn [after clearCaps wsState trimStart]. destruct (isSpace c) eqn:Ec.
    + change (advance (clearCaps [] (wsState bef (c :: rest))))
        with (wsState (c :: bef) rest).
      destruct (IH (c :: bef) fuel) as [bef' Hb]; [simpl in Hfuel; lia|].
      rewrite Hb. cbn [after wsState length].
      destruct (Nat.eqb_spec (length rest) (S (length rest))); [lia|]. eauto.
    + exists bef. reflexivity.
Qed.

Lemma matchAt_ws (bef aft : str) :
  match matchAt (rx (plus ws)) bef aft with
  | Some (mt, e) =>
      exists c rest, aft = c :: rest /\ isSpace c = true /\
                     after e = trimStart rest /\ matched mt <> []
  | None => match aft with
            | c :: _ => isSpace c = false
            | [] => True
            end
  end.
Proof.
  unfold matchAt, rx, plus. cbn [source ignoreCase m].
  change (groups ws) with (@nil nat).
  cbn [Nat.add after]. rewrite rep_plus_step, m_ws.
  destruct aft as [|c rest]; [reflexivity|].
  cbn [after clearCaps]. destruct (isSpace c) eqn:Ec; [|reflexivity].
  change (advance (clearCaps [] {| before := bef; after := c :: rest; caps := [] |}))
    with (wsState (c :: bef) rest).
  destruct (rep_ws rest (c :: bef) (S (length (c :: rest)))) as [bef' Hb]; [simpl; lia|].
  rewrite Hb.
  exists c, rest. split; [reflexivity|]. split; [exact Ec|]. split; [reflexivity|].
  unfold consumed. cbn [after length wsState matched].
  pose proof (trimStart_length rest).
  replace (S (length rest) - length (trimStart rest))%nat
    with (S (length rest - length (trimStart rest))) by lia.
  discriminate.
Qed.

Lemma search_ws (aft : str) :
  forall bef,
    match search (rx (plus ws)) bef aft with
    | Some fd =>
        exists c rest, aft = skipped fd ++ c :: rest /\
                       Forall (fun x => isSpace x = false) (skipped fd) /\
                       isSpace c = true /\ restAfter fd = trimStart rest /\
                       matched (found fd) <> []
    | None => Forall (fun x => isSpace x = false) aft
    end.
Proof.
  induction aft as [|c rest IH]; intros bef; cbn [search];
    pose proof (matchAt_ws bef) as Hm.
  - specialize (Hm []). destruct (matchAt _ _ _) as [[mt e]|].
    + destruct Hm as (c & rest & H & _). discriminate H.
    + constructor.
  - specialize (Hm (c :: rest)). destruct (matchAt _ _ _) as [[mt e]|].
    + destruct Hm as (c' & rest' & H & Hc & He & Hne). inversion H; subst.
      exists c', rest'. cbn. auto using Forall_nil.
    + specialize (IH (c :: bef)).
      destruct (search _ _ _) as [fd|].
      * destruct IH as (c' & rest' & H & Hsk & Hc & He & Hne).
        exists c', rest'. cbn. rewrite H at 1. auto.
      * by constructor.
Qed.

Lemma squeeze_true_trimStart (s : str) : squeeze true s = squeeze false (trimStart s).
Proof.
  induction s as [|c s IH]; [reflexivity|]. simpl.
  destruct (isSpace c) eqn:Ec; [exact IH|]. simpl. by rewrite Ec.
Qed.

Lemma squeeze_no_space (s : str) :
  Forall (fun x => isSpace x = false) s -> squeeze false s = s.
Proof. induction 1 as [|c s Hc _ IH]; simpl; [reflexivity|]. by rewrite Hc, IH. Qed.

Lemma squeeze_to_space (pre : str) (c : N) (rest : str) :
  Forall (fun x => isSpace x = false) pre -> isSpace c = true ->
  squeeze false (pre ++ c :: rest) = pre ++ 32%N :: squeeze true rest.
Proof.
  intros Hpre Hc. induction Hpre as [|x pre Hx _ IH]; simpl.
  - by rewrite Hc.
  - by rewrite Hx, IH.
Qed.

Lemma replaceFold_ws (fuel : nat) :
  forall bef aft, (length aft < fuel)%nat ->
    (replaceFold fuel (rx (plus ws)) (fun _ mt => (tt, const " " mt)) tt bef aft).2
    = squeeze false aft.
Proof.
  induction fuel as [|fuel IH]; intros bef aft Hfuel; [lia|].
  cbn [replaceFold]. pose proof (search_ws aft bef) as Hs.
  destruct (search _ _ _) as [fd|].
  - destruct Hs as (c & rest & Haft & Hsk & Hc & He & Hne).
    assert (Hlen : (length (restAfter fd) < fuel)%nat).
    { rewrite He. pose proof (trimStart_length rest).
      rewrite Haft in Hfuel. rewrite length_app in Hfuel. simpl in Hfuel. lia. }
    specialize (IH (restBefore fd) (restAfter fd) Hlen).
    destruct (matched (found fd)) as [|x xs] eqn:Em; [contradiction|].
    destruct (replaceFold fuel _ _ _ _ _) as [a t]. cbn [snd] in IH |- *.
    change (const " " (found fd)) with [32%N].
    rewrite IH, He, <- squeeze_true_trimStart, Haft.
    rewrite squeeze_to_space by assumption. reflexivity.
  - simpl. by rewrite squeeze_no_space.
Qed.

Lemma whitespace_squeeze (s : str) : whitespace s = squeeze false s.
Proof. unfold whitespace, replaceAll. apply replaceFold_ws. lia. Qed.

(** ** Trimmed, collapsed text *)

Lemma trimStart_snoc (l : str) (c : N) :
  trimStart (l ++ [c])
  = match trimStart l with
    | [] => if isSpace c then [] else [c]
    | t => t ++ [c]
    end.
Proof.
  induction l as [|x l IH]; simpl.
  - by destruct (isSpace c).
  - destruct (isSpace x); [exact IH | reflexivity].
Qed.

Lemma trimEnd_cons (c : N) (s : str) :
  trimEnd (c :: s)
  = match trimEnd s with
    | [] => if isSpace c then [] else [c]
    | t => c :: t
    end.
Proof.
  unfold trimEnd. simpl. rewrite trimStart_snoc.
  destruct (trimStart (rev s)) as [|x t]; simpl.
  - by destruct (isSpace c).
  - rewrite rev_app_distr. simpl.
    destruct (rev t ++ [x]) eqn:E; [|reflexivity].
    by destruct (rev t).
Qed.

Lemma Words_fixed (s : str) :
  Words s ->
  s <> [] /\ squeeze true s = s /\ squeeze false s = s /\ trimStart s = s /\ trimEnd s = s.
Proof.
  induction 1 as [c Hc | c s Hc Hs IH | c s Hc Hs IH].
  - simpl. rewrite trimEnd_cons. simpl. rewrite Hc. auto.
  - destruct IH as (Hne & _ & Hf & _ & He). simpl.
    rewrite trimEnd_cons, He, Hc, Hf.
    repeat split; try done. by destruct s.
  - destruct IH as (Hne & Ht & _ & _ & He). simpl.
    rewrite !trimEnd_cons, He, Hc. simpl. rewrite Ht.
    repeat split; try done. by destruct s.
Qed.

Lemma trimStart_squeeze_true (s : str) : trimStart (squeeze true s) = squeeze true s.
Proof.
  induction s as [|x s IH]; [reflexivity|]. simpl.
  destruct (isSpace x) eqn:Ex; [exact IH|]. simpl. by rewrite Ex.
Qed.

Lemma trimStart_squeeze (s : str) : trimStart (squeeze false s) = squeeze true s.
Proof.
  destruct s as [|c s]; [reflexivity|]. simpl.
  destruct (isSpace c) eqn:Ec.
  - change (trimStart (32%N :: squeeze true s)) with (trimStart (squeeze true s)).
    apply trimStart_squeeze_true.
  - simpl. by rewrite Ec.
Qed.

(** What is left of a collapsed text when the white space at its end is
    cut: nothing, or words, or a space and words. *)
Lemma trimEnd_squeeze (s : str) :
  (trimEnd (squeeze true s) = [] \/ Words (trimEnd (squeeze true s))) /\
  (trimEnd (squeeze false s) = [] \/ Words (trimEnd (squeeze false s)) \/
   exists w, trimEnd (squeeze false s) = 32%N :: w /\ Words w).
Proof.
  induction s as [|c s [IHt IHf]]; [simpl; auto|].
  assert (Hword : isSpace c = false ->
            Words (trimEnd (c :: squeeze false s))).
  { intros Hc. rewrite trimEnd_cons, Hc.
    destruct IHf as [-> | [Hw | (w & -> & Hw)]].
    - by constructor.
    - destruct (trimEnd (squeeze false s)); [by constructor|]. by constructor.
    - by constructor. }
  simpl. destruct (isSpace c) eqn:Ec.
  - split; [exact IHt|].
    rewrite trimEnd_cons. destruct IHt as [-> | Hw]; [by left|].
    destruct (trimEnd (squeeze true s)) eqn:E.
    + by left.
    + right. right. eauto.
  - split; right; [|left]; by apply Hword.
Qed.

Lemma free_squeeze (P : N -> bool) (b : bool) (s : str) :
  P 32%N = false -> free P s -> free P (squeeze b s).
Proof.
  intros H32 Hs. revert b. induction Hs as [|c s Hc _ IH]; intros b; simpl.
  - constructor.
  - destruct (isSpace c), b; try constructor; auto; apply IH.
Qed.

Lemma free_trimStart (P : N -> bool) (s : str) : free P s -> free P (trimStart s).
Proof.
  induction 1 as [|c s Hc Hs IH]; simpl; [constructor|].
  destruct (isSpace c); [exact IH | by constructor].
Qed.

Lemma free_trim (P : N -> bool) (s : str) : free P s -> free P (trim s).
Proof.
  intros H. unfold trim, trimEnd, free.
  apply Forall_rev. apply free_trimStart. apply Forall_rev. by apply free_trimStart.
Qed.

(** ** The normaliser on text without the characters it rewrites *)

Lemma normalizeSteps_plain :
  Forall (fun step : str -> str => forall t, free rewritten t -> step t = t) normalizeSteps.
Proof.
  unfold normalizeSteps.
  repeat (constructor;
          [intros t Ht; apply (replaceAll_needs rewritten); [vm_compute; reflexivity | exact Ht]|]).
  constructor.
Qed.

Lemma normalize_plain (t : str) :
  free rewritten t -> normalizeTextForTTS t = trim (squeeze false t).
Proof.
  intros Ht. unfold normalizeTextForTTS.
  assert (Hsteps : forall steps,
            Forall (fun step : str -> str => forall t, free rewritten t -> step t = t) steps ->
            fold_left (fun t step => step t) steps t = t).
  { intros steps Hs. induction Hs as [|step steps Hstep _ IH]; [reflexivity|].
    simpl. by rewrite (Hstep t Ht). }
  by rewrite (Hsteps _ normalizeSteps_plain), whitespace_squeeze.
Qed.

Lemma trim_squeeze_fixed (t : str) :
  trim (squeeze false (trim (squeeze false t))) = trim (squeeze false t).
Proof.
  unfold trim at 2 3. rewrite trimStart_squeeze.
  destruct (trimEnd_squeeze t) as [[-> | Hw] _]; [reflexivity|].
  destruct (Words_fixed _ Hw) as (_ & _ & Hf & Hs & He).
  unfold trim. by rewrite Hf, Hs, He.
Qed.

End TextFacts.

(* ===================================================================== *)
(** * Further properties of the task queue                               *)
(* ===================================================================== *)

Section AccountingFacts.
Import Queue.
Context {Task R : Type}.

Lemma admission_accounted (p p' : ProcessQueue Task) (started gone ex : list (QueueItem Task))
    (done : list (QueueItem Task)) (added : list (QueueItem Task)) :
  processQueue p = (p', started) ->
  added = gone ++ queue p -> gone ≡ₚ done ++ ex ->
  exists gone', added = gone' ++ queue p' /\ gone' ≡ₚ done ++ (ex ++ started).
Proof.
  intros E Ha Hg. apply processQueue_spec in E as (_ & Hq & _).
  exists (gone ++ started). split.
  - by rewrite Ha, Hq, app_assoc.
  - by rewrite Hg, app_assoc.
Qed.

Lemma step_accounted (rt rt' : Runtime Task R) (e : Event Task R) (added : list (QueueItem Task)) :
  step rt e = Some rt' -> accounted added rt -> accounted (added ++ addedItems [e]) rt'.
Proof.
  unfold accounted. destruct e as [item | i o | | max]; simpl; intros H (gone & Ha & Hg).
  - unfold add in H. destruct (processQueue _) as [p' st] eqn:E.
    inversion H; subst; simpl.
    eapply admission_accounted; [exact E | | exact Hg]. simpl. by rewrite app_assoc.
  - destruct (executing rt !! i) as [item|] eqn:Ei; [|done].
    inversion H; subst; simpl. clear H. rewrite app_nil_r.
    exists gone. split; [done|]. rewrite Hg, fmap_app. simpl.
    rewrite (delete_Permutation _ _ _ Ei) at 1.
    by rewrite <- app_assoc.
  - destruct (immediates rt); [done|].
    destruct (processQueue _) as [p' st] eqn:E.
    inversion H; subst; simpl. rewrite app_nil_r.
    eapply admission_accounted; [exact E | reflexivity | exact Hg].
  - unfold setMaxConcurrent in H. destruct (processQueue _) as [p' st] eqn:E.
    inversion H; subst; simpl. rewrite app_nil_r.
    eapply admission_accounted; [exact E | reflexivity | exact Hg].
Qed.

Lemma run_accounted (tr : list (Event Task R)) :
  forall (rt rt' : Runtime Task R) added,
    run rt tr = Some rt' -> accounted added rt -> accounted (added ++ addedItems tr) rt'.
Proof.
  induction tr as [|e tr IH]; intros rt rt' added H Ha; simpl in H.
  - inversion H; subst. by rewrite app_nil_r.
  - destruct (step rt e) as [rt1|] eqn:E; [|done].
    pose proof (step_accounted _ _ _ _ E Ha) as H1.
    specialize (IH _ _ _ H H1).
    replace (added ++ addedItems (e :: tr)) with ((added ++ addedItems [e]) ++ addedItems tr); [done|].
    rewrite <- app_assoc. f_equal. unfold addedItems. simpl. by destruct e.
Qed.

Lemma step_saturated (rt rt' : Runtime Task R) (e : Event Task R) :
  step rt e = Some rt' -> immediates rt' = 0%nat -> saturated rt'.
Proof.
  unfold saturated, runningCount. destruct e as [item | i o | | max]; simpl; intros H.
  - unfold add in H. destruct (processQueue _) as [p' st] eqn:E.
    inversion H; subst; simpl. intros _.
    apply processQueue_spec in E as (Hm & _ & _ & _ & _ & Hs). rewrite Hm. exact Hs.
  - destruct (executing rt !! i) as [item|] eqn:Ei; [|done].
    inversion H; subst; simpl. discriminate.
  - destruct (immediates rt); [done|].
    destruct (processQueue _) as [p' st] eqn:E.
    inversion H; subst; simpl. intros _.
    apply processQueue_spec in E as (Hm & _ & _ & _ & _ & Hs). rewrite Hm. exact Hs.
  - unfold setMaxConcurrent in H. destruct (processQueue _) as [p' st] eqn:E.
    inversion H; subst; simpl. intros _.
    apply processQueue_spec in E as (Hm & _ & _ & _ & _ & Hs). rewrite Hm. exact Hs.
Qed.

Lemma run_saturated (tr : list (Event Task R)) :
  forall rt rt' : Runtime Task R,
    run rt tr = Some rt' -> (immediates rt = 0%nat -> saturated rt) ->
    immediates rt' = 0%nat -> saturated rt'.
Proof.
  induction tr as [|e tr IH]; intros rt rt' H H0; simpl in H.
  - by inversion H; subst.
  - destruct (step rt e) as [rt1|] eqn:E; [|done].
    apply (IH rt1 rt' H). by apply (step_saturated rt rt1 e).
Qed.

End AccountingFacts.

(** X1.  The tasks are started in the order in which they were added, and none is
    lost or started twice: in every state the queue of the server reaches,
    the tasks added so far are, in this order, those that have left the
    queue and then those still in it; and those that have left are exactly
    the tasks whose promise is settled and the tasks being executed. *)
Theorem tasks_leave_the_queue_in_order {Task R : Type} (cores : Z)
    (tr : list (Queue.Event Task R)) (rt : Queue.Runtime Task R) :
  Queue.run (Queue.boot None cores) tr = Some rt ->
  exists gone,
    addedItems tr = gone ++ Queue.queue (Queue.pq rt) /\
    gone ≡ₚ (Queue.settled rt).*1 ++ Queue.executing rt.
Proof.
  intros H. apply (run_accounted tr _ _ []) in H; [exact H|].
  exists []. split; reflexivity.
Qed.

(** The theorem at [raisingTrace], on a machine with two cores. *)
Lemma tasks_leave_the_queue_in_order_witness :
  exists rt : Queue.Runtime unit unit,
    Queue.run (Queue.boot None 2) raisingTrace = Some rt /\
    exists gone,
      addedItems raisingTrace = gone ++ Queue.queue (Queue.pq rt) /\
      gone ≡ₚ (Queue.settled rt).*1 ++ Queue.executing rt.
Proof.
  eexists. split; [vm_compute; reflexivity|].
  apply (tasks_leave_the_queue_in_order 2 raisingTrace). vm_compute. reflexivity.
Defined.

(** X2.  Whenever no callback of [setImmediate] is outstanding and the
    ceiling is a number, the queue is empty or the count of running ids has
    reached the ceiling: a task waits only while the queue is full or
    until the callback scheduled by the task that ended has run.  (Under
    the ceiling [NaN], which [setMaxConcurrent] keeps when it is handed
    one, the test [running.size < maxConcurrent] fails and every task
    waits.) *)
Theorem no_task_waits_beside_a_free_slot {Task R : Type} (cores : Z)
    (tr : list (Queue.Event Task R)) (rt : Queue.Runtime Task R) :
  Queue.run (Queue.boot None cores) tr = Some rt ->
  Queue.immediates rt = 0%nat ->
  Queue.maxConcurrent (Queue.pq rt) <> Num.NaN ->
  Queue.queue (Queue.pq rt) = []
  \/ Num.le (Queue.maxConcurrent (Queue.pq rt)) (runningCount rt) = true.
Proof.
  intros H H0 Hn.
  destruct (run_saturated tr _ _ H (fun _ => or_introl eq_refl) H0) as [Hq | Hlt];
    [by left | right].
  by apply not_lt_le.
Qed.

(** The theorem at [busyTrace], where the third task waits while two run. *)
Lemma no_task_waits_beside_a_free_slot_witness :
  exists rt : Queue.Runtime unit unit,
    Queue.run (Queue.boot None 1) busyTrace = Some rt /\
    Queue.queue (Queue.pq rt) = [anItem "c"] /\
    (Queue.queue (Queue.pq rt) = []
     \/ Num.le (Queue.maxConcurrent (Queue.pq rt)) (runningCount rt) = true).
Proof.
  eexists. split; [vm_compute; reflexivity|]. split; [reflexivity|].
  apply (no_task_waits_beside_a_free_slot 1 busyTrace);
    [vm_compute; reflexivity | vm_compute; reflexivity | vm_compute; discriminate].
Defined.

(* ===================================================================== *)
(** * Properties of the floats                                            *)
(* ===================================================================== *)

(** The percentage of the progress is computed on floats; what follows
    bounds the quotient of two integers, its product with one hundred and
    the rounding of that. *)

Section DoubleFacts.
Import Num.

(** The number of binary digits of a positive number. *)
Lemma digits2_bounds (m : positive) :
  2 ^ (Z.pos (digits2_pos m) - 1) <= Z.pos m < 2 ^ Z.pos (digits2_pos m).
Proof.
  induction m as [m IH | m IH |]; cbn [digits2_pos].
  - rewrite Pos2Z.inj_succ. replace (Z.succ (Z.pos (digits2_pos m)) - 1)
      with (Z.succ (Z.pos (digits2_pos m) - 1)) by lia.
    rewrite !Z.pow_succ_r by lia. lia.
  - rewrite Pos2Z.inj_succ. replace (Z.succ (Z.pos (digits2_pos m)) - 1)
      with (Z.succ (Z.pos (digits2_pos m) - 1)) by lia.
    rewrite !Z.pow_succ_r by lia. lia.
  - simpl. lia.
Qed.

Lemma Zdigits2_bounds (m : Z) :
  0 < m -> 2 ^ (Zdigits2 m - 1) <= m < 2 ^ Zdigits2 m.
Proof. destruct m as [|m|m]; try lia. intros _. apply digits2_bounds. Qed.

Lemma Zdigits2_unique (m k : Z) :
  2 ^ (k - 1) <= m < 2 ^ k -> 1 <= k -> Zdigits2 m = k.
Proof.
  intros [Hlo Hhi] Hk.
  assert (Hm : 0 < m). { assert (0 < 2 ^ (k - 1)) by (apply Z.pow_pos_nonneg; lia). lia. }
  destruct (Zdigits2_bounds m Hm) as [Hlo' Hhi'].
  assert (Hd : 1 <= Zdigits2 m) by (destruct m; simpl; lia).
  destruct (Z.lt_trichotomy (Zdigits2 m) k) as [H | [H | H]]; [| exact H |].
  - assert (2 ^ Zdigits2 m <= 2 ^ (k - 1)) by (apply Z.pow_le_mono_r; lia). lia.
  - assert (2 ^ k <= 2 ^ (Zdigits2 m - 1)) by (apply Z.pow_le_mono_r; lia). lia.
Qed.

(** One shift to the right halves the number and remembers the bit that
    went. *)
Lemma shr_1_spec (mrs : shr_record) :
  0 <= shr_m mrs ->
  shr_m (shr_1 mrs) = shr_m mrs / 2 /\
  (shr_r (shr_1 mrs) = true -> shr_m mrs mod 2 <> 0).
Proof.
  destruct mrs as [m r s]. cbn [shr_m]. intros Hm.
  destruct m as [|[p|p|]|p]; cbn [shr_1 shr_m shr_r]; try lia.
  - split; [reflexivity | discriminate].
  - split; [|intros _].
    + apply Z.div_unique with 1; lia.
    + rewrite Pos2Z.inj_xI, Z.add_comm, Z.mul_comm, Z.mod_add; [done | lia].
  - split; [|discriminate].
    apply Z.div_unique with 0; lia.
  - split; [reflexivity | done].
Qed.

Lemma mod_mul_nonzero (m a b : Z) :
  0 < a -> 0 < b -> (m / a) mod b <> 0 -> m mod (a * b) <> 0.
Proof.
  intros Ha Hb H. rewrite Z.rem_mul_r by lia.
  pose proof (Z.mod_pos_bound m a Ha). pose proof (Z.mod_pos_bound (m / a) b Hb). nia.
Qed.

Lemma mod_nonzero_mul (m a b : Z) :
  0 < a -> 0 < b -> m mod a <> 0 -> m mod (a * b) <> 0.
Proof.
  intros Ha Hb H. rewrite Z.rem_mul_r by lia.
  pose proof (Z.mod_pos_bound m a Ha). pose proof (Z.mod_pos_bound (m / a) b Hb). nia.
Qed.

(** Shifting [p] times divides by two to the [p] and remembers the last
    bit that went. *)
Lemma shr_iter_spec (p : positive) :
  forall mrs, 0 <= shr_m mrs ->
    shr_m (SpecFloat.iter_pos shr_1 p mrs) = shr_m mrs / 2 ^ Z.pos p /\
    (shr_r (SpecFloat.iter_pos shr_1 p mrs) = true -> shr_m mrs mod 2 ^ Z.pos p <> 0).
Proof.
  assert (Hpow : forall q, 0 < 2 ^ Z.pos q) by (intros; apply Z.pow_pos_nonneg; lia).
  induction p as [p IH | p IH |]; intros mrs Hm; cbn [SpecFloat.iter_pos].
  - destruct (shr_1_spec mrs Hm) as [E1 N1].
    assert (H1 : 0 <= shr_m (shr_1 mrs)) by (rewrite E1; apply Z.div_pos; lia).
    destruct (IH _ H1) as [E2 N2].
    assert (H2 : 0 <= shr_m (SpecFloat.iter_pos shr_1 p (shr_1 mrs)))
      by (rewrite E2; apply Z.div_pos; [lia | apply Hpow]).
    destruct (IH _ H2) as [E3 N3].
    assert (Hx : 2 ^ Z.pos p~1 = 2 * 2 ^ Z.pos p * 2 ^ Z.pos p).
    { rewrite <- (Z.pow_1_r 2) at 2. rewrite <- !Z.pow_add_r by lia. f_equal. lia. }
    rewrite Hx. pose proof (Hpow p). split.
    + rewrite E3, E2, E1. rewrite !Z.div_div by lia. f_equal. lia.
    + intros Hr. specialize (N3 Hr). rewrite E2, E1 in N3.
      apply mod_mul_nonzero; [lia | lia |]. rewrite <- Z.div_div by lia. exact N3.
  - destruct (IH _ Hm) as [E2 N2].
    assert (H2 : 0 <= shr_m (SpecFloat.iter_pos shr_1 p mrs))
      by (rewrite E2; apply Z.div_pos; [lia | apply Hpow]).
    destruct (IH _ H2) as [E3 N3].
    assert (Hx : 2 ^ Z.pos p~0 = 2 ^ Z.pos p * 2 ^ Z.pos p).
    { rewrite <- Z.pow_add_r by lia. f_equal. lia. }
    rewrite Hx. pose proof (Hpow p). split.
    + rewrite E3, E2. rewrite !Z.div_div by lia. reflexivity.
    + intros Hr. specialize (N3 Hr). rewrite E2 in N3.
      apply mod_mul_nonzero; [lia | lia | exact N3].
  - rewrite Z.pow_1_r. by apply shr_1_spec.
Qed.


Lemma fexp_normal (x : Z) : -1021 <= x -> fexp 53 1024 x = x - 53.
Proof. unfold fexp, emin. lia. Qed.

Lemma loc_of_record_of_loc (m : Z) (l : location) :
  loc_of_shr_record (shr_record_of_loc m l) = l.
Proof. by destruct l as [|[| |]]. Qed.

(** Rounding to nearest goes to the number below or to the one above, and
    up only when the round bit is set. *)
Lemma round_nearest_even_spec (m : Z) (mrs : shr_record) :
  shr_m mrs = m ->
  round_nearest_even m (loc_of_shr_record mrs) = m \/
  (round_nearest_even m (loc_of_shr_record mrs) = m + 1 /\ shr_r mrs = true).
Proof.
  intros _. destruct mrs as [m0 [|] [|]]; simpl; auto.
  destruct (Z.even m); auto.
Qed.

(** What [binary_round_aux] returns for a positive number of at least 53
    digits whose exponent is in the normal range: the 53 leading digits,
    or one more, and one more only when something was cut off or left
    over. *)
Lemma round_aux_spec (mx ex : Z) (l : location) :
  0 < mx -> 53 <= Zdigits2 mx -> -1021 <= Zdigits2 mx + ex <= 1023 ->
  exists M : Z,
    2 ^ 52 <= M <= 2 ^ 53 /\
    (M = mx / 2 ^ (Zdigits2 mx - 53) \/
     (M = mx / 2 ^ (Zdigits2 mx - 53) + 1 /\
      (mx mod 2 ^ (Zdigits2 mx - 53) <> 0 \/ l <> loc_Exact))) /\
    binary_round_aux 53 1024 false mx ex l =
      if M =? 2 ^ 53
      then S754_finite false (Z.to_pos (2 ^ 52)) (ex + (Zdigits2 mx - 53) + 1)
      else S754_finite false (Z.to_pos M) (ex + (Zdigits2 mx - 53)).
Proof.
  intros Hmx Hd Hrange.
  set (d := Zdigits2 mx) in *. set (n := d - 53).
  destruct (Zdigits2_bounds mx Hmx) as [Hlo Hhi]. fold d in Hlo, Hhi.
  assert (Hn : 0 <= n) by (unfold n; lia).
  assert (Hpow : 0 < 2 ^ n) by (apply Z.pow_pos_nonneg; lia).
  assert (Hd1 : 2 ^ (d - 1) = 2 ^ n * 2 ^ 52)
    by (rewrite <- Z.pow_add_r by lia; f_equal; unfold n; lia).
  assert (Hd2 : 2 ^ d = 2 ^ n * 2 ^ 53)
    by (rewrite <- Z.pow_add_r by lia; f_equal; unfold n; lia).
  assert (Hm' : 2 ^ 52 <= mx / 2 ^ n < 2 ^ 53).
  { split; [apply Z.div_le_lower_bound | apply Z.div_lt_upper_bound]; lia. }
  (* the first shift *)
  assert (H1 : exists mrs,
             shr_fexp 53 1024 mx ex l = (mrs, ex + n) /\
             shr_m mrs = mx / 2 ^ n /\
             (shr_r mrs = true -> mx mod 2 ^ n <> 0 \/ l <> loc_Exact)).
  { unfold shr_fexp. fold d. rewrite fexp_normal by lia.
    replace (d + ex - 53 - ex) with n by (unfold n; lia).
    destruct n as [|p|p] eqn:En; [| |lia].
    - exists (shr_record_of_loc mx l). cbn [shr]. rewrite Z.add_0_r, Z.pow_0_r, Z.div_1_r.
      split; [reflexivity|]. split; [by destruct l as [|[| |]]|].
      intros Hr. right. intros ->. discriminate Hr.
    - exists (SpecFloat.iter_pos shr_1 p (shr_record_of_loc mx l)). cbn [shr].
      split; [reflexivity|].
      assert (Hm0 : shr_m (shr_record_of_loc mx l) = mx) by (by destruct l as [|[| |]]).
      destruct (shr_iter_spec p (shr_record_of_loc mx l)) as [E N]; [rewrite Hm0; lia|].
      rewrite Hm0 in E, N. split; [exact E | intros Hr; left; by apply N]. }
  destruct H1 as (mrs & E1 & Em & Hup).
  set (M := round_nearest_even (shr_m mrs) (loc_of_shr_record mrs)).
  assert (HM : M = mx / 2 ^ n \/ (M = mx / 2 ^ n + 1 /\ shr_r mrs = true)).
  { unfold M. destruct (round_nearest_even_spec (shr_m mrs) mrs eq_refl) as [H | [H Hr]];
      rewrite H, Em; auto. }
  exists M. split; [lia|]. split.
  { destruct HM as [H | [H Hr]]; [by left | right; split; [exact H | by apply Hup]]. }
  unfold binary_round_aux. rewrite E1. fold M.
  destruct (Z.eqb_spec M (2 ^ 53)) as [EM | NM].
  - (* the carry *)
    rewrite EM. unfold shr_fexp.
    change (Zdigits2 (2 ^ 53)) with 54. rewrite fexp_normal by lia.
    replace (54 + (ex + n) - 53 - (ex + n)) with 1 by lia.
    cbn [shr shr_record_of_loc SpecFloat.iter_pos]. simpl shr_m.
    change (shr_m (shr_1 {| shr_m := 2 ^ 53; shr_r := false; shr_s := false |}))
      with (Z.pos (Z.to_pos (2 ^ 52))).
    cbv iota beta.
    destruct (Z.leb_spec (ex + n + 1) (1024 - 53)); [reflexivity | lia].
  - assert (HdM : Zdigits2 M = 53) by (apply Zdigits2_unique; lia).
    unfold shr_fexp. rewrite HdM, fexp_normal by lia.
    replace (53 + (ex + n) - 53 - (ex + n)) with 0 by lia.
    cbn [shr shr_record_of_loc shr_m].
    destruct M as [|M'|M'] eqn:EqM; [lia | | lia].
    destruct (Z.leb_spec (ex + n) (1024 - 53)); [reflexivity | lia].
Qed.


Lemma iter_xO (m d : positive) : Z.pos (Pos.iter xO m d) = Z.pos m * 2 ^ Z.pos d.
Proof.
  apply (Pos.iter_ind positive xO m (fun d a => Z.pos a = Z.pos m * 2 ^ Z.pos d)).
  - rewrite Z.pow_1_r. lia.
  - intros p a IH. rewrite Pos2Z.inj_xO, IH, Pos2Z.inj_succ, Z.pow_succ_r by lia. lia.
Qed.

(** An integer below two to the 53 is a float: itself. *)
Lemma ofInt_spec (c : Z) :
  0 < c < 2 ^ 53 ->
  exists m e,
    ofInt c = S754_finite false m e /\
    2 ^ 52 <= Z.pos m < 2 ^ 53 /\ -52 <= e <= 0 /\ Z.pos m = c * 2 ^ (- e).
Proof.
  intros [Hc0 Hc]. destruct c as [|c|c]; try lia.
  unfold ofInt, binary_normalize, binary_round.
  destruct (digits2_bounds c) as [Hlo Hhi].
  set (d := Z.pos (digits2_pos c)) in *.
  assert (Hd : 1 <= d <= 53).
  { split; [unfold d; lia|].
    destruct (Z.le_gt_cases d 53) as [H | H]; [exact H|].
    assert (2 ^ 53 <= 2 ^ (d - 1)) by (apply Z.pow_le_mono_r; lia). lia. }
  rewrite Z.add_0_r, fexp_normal by lia.
  assert (Hal : exists mz,
             shl_align c 0 (d - 53) = (mz, d - 53) /\ Z.pos mz = Z.pos c * 2 ^ (53 - d)).
  { unfold shl_align. rewrite Z.sub_0_r.
    destruct (d - 53) as [|p|p] eqn:E; [| lia |].
    - exists c. split; [reflexivity|].
      replace (53 - d) with 0 by lia. rewrite Z.pow_0_r. lia.
    - exists (Pos.iter xO c p). split; [reflexivity|].
      rewrite iter_xO. f_equal. f_equal. lia. }
  destruct Hal as (mz & -> & Hmz).
  assert (Hb : 2 ^ 52 <= Z.pos mz < 2 ^ 53).
  { rewrite Hmz.
    replace (2 ^ 52) with (2 ^ (d - 1) * 2 ^ (53 - d))
      by (rewrite <- Z.pow_add_r by lia; f_equal; lia).
    replace (2 ^ 53) with (2 ^ d * 2 ^ (53 - d))
      by (rewrite <- Z.pow_add_r by lia; f_equal; lia).
    assert (0 < 2 ^ (53 - d)) by (apply Z.pow_pos_nonneg; lia). nia. }
  assert (Hdz : Zdigits2 (Z.pos mz) = 53) by (apply Zdigits2_unique; lia).
  destruct (round_aux_spec (Z.pos mz) (d - 53) loc_Exact) as (M & HM & Hcase & ->);
    [lia | lia | lia |].
  rewrite Hdz, Z.sub_diag, Z.pow_0_r, Z.div_1_r, Z.mod_1_r in Hcase.
  assert (M = Z.pos mz) as -> by (destruct Hcase as [-> | [_ [? | ?]]]; done).
  destruct (Z.eqb_spec (Z.pos mz) (2 ^ 53)); [lia|].
  exists mz, (d - 53). rewrite Hdz, Z.sub_diag, Z.add_0_r. simpl Z.to_pos.
  split; [reflexivity|]. split; [exact Hb|]. split; [lia|].
  rewrite Hmz. f_equal. f_equal. lia.
Qed.

(** The quotient of two such floats, the first at most the second, is at
    most one. *)
Lemma div_le_one (m1 m2 : positive) (e1 e2 : Z) :
  2 ^ 52 <= Z.pos m1 < 2 ^ 53 -> 2 ^ 52 <= Z.pos m2 < 2 ^ 53 ->
  -52 <= e1 <= 0 -> -52 <= e2 <= 0 ->
  Z.pos m1 * 2 ^ (- e2) <= Z.pos m2 * 2 ^ (- e1) ->
  exists m e,
    div (S754_finite false m1 e1) (S754_finite false m2 e2) = S754_finite false m e /\
    2 ^ 52 <= Z.pos m < 2 ^ 53 /\ -160 <= e <= -52 /\ Z.pos m <= 2 ^ (- e).
Proof.
  intros H1 H2 He1 He2 Hle.
  unfold div, SFdiv, SFdiv_core_binary. cbn [xorb].
  rewrite (Zdigits2_unique (Z.pos m1) 53), (Zdigits2_unique (Z.pos m2) 53) by lia.
  rewrite fexp_normal by lia.
  replace (Z.min (53 + e1 - (53 + e2) - 53) (e1 - e2)) with (e1 - e2 - 53) by lia.
  replace (e1 - e2 - (e1 - e2 - 53)) with 53 by lia.
  cbv iota beta. rewrite Z.shiftl_mul_pow2 by lia.
  pose proof (Z_div_mod (Z.pos m1 * 2 ^ 53) (Z.pos m2) ltac:(lia)) as Hdm.
  destruct (Z.div_eucl (Z.pos m1 * 2 ^ 53) (Z.pos m2)) as [q r]. destruct Hdm as [Hq Hr].
  set (E := 53 - (e1 - e2)).
  assert (HE : 1 <= E <= 105) by (unfold E; lia).
  assert (H53 : 2 ^ 53 = 2 ^ (- e2) * 2 ^ (53 + e2))
    by (rewrite <- Z.pow_add_r by lia; f_equal; lia).
  assert (HE2 : 2 ^ E = 2 ^ (- e1) * 2 ^ (53 + e2))
    by (rewrite <- Z.pow_add_r by lia; f_equal; unfold E; lia).
  assert (Hw : 0 < 2 ^ (53 + e2)) by (apply Z.pow_pos_nonneg; lia).
  assert (Hp1 : 0 < 2 ^ (- e1)) by (apply Z.pow_pos_nonneg; lia).
  assert (Hp2 : 0 < 2 ^ (- e2)) by (apply Z.pow_pos_nonneg; lia).
  assert (HpE : 0 < 2 ^ E) by (apply Z.pow_pos_nonneg; lia).
  assert (Hmid : Z.pos m1 * 2 ^ 53 <= Z.pos m2 * 2 ^ E).
  { rewrite H53, HE2, !Z.mul_assoc. apply Z.mul_le_mono_nonneg_r; lia. }
  assert (Hq52 : 2 ^ 52 <= q) by nia.
  assert (Hq54 : q < 2 ^ 54) by nia.
  assert (HqE : q <= 2 ^ E) by nia.
  assert (Hexact : q = 2 ^ E -> r = 0) by nia.
  assert (Hloc : r = 0 -> new_location (Z.pos m2) r = loc_Exact).
  { intros ->. unfold new_location, new_location_even, new_location_odd.
    by destruct (Z.even (Z.pos m2)). }
  assert (Hdq : Zdigits2 q = 53 \/ Zdigits2 q = 54).
  { destruct (Z.lt_ge_cases q (2 ^ 53)).
    - left. apply Zdigits2_unique; lia.
    - right. apply Zdigits2_unique; lia. }
  destruct (round_aux_spec q (e1 - e2 - 53) (new_location (Z.pos m2) r))
    as (M & HM & Hcase & ->); [lia | lia | lia |].
  set (n := Zdigits2 q - 53) in *.
  assert (Hn : 0 <= n <= 1) by (unfold n; lia).
  assert (Hpn : 0 < 2 ^ n) by (apply Z.pow_pos_nonneg; lia).
  assert (HEn : 2 ^ E = 2 ^ (E - n) * 2 ^ n)
    by (rewrite <- Z.pow_add_r by lia; f_equal; lia).
  assert (HK : M <= 2 ^ (E - n)).
  { assert (Hdiv : q / 2 ^ n <= 2 ^ (E - n)).
    { apply Z.div_le_upper_bound; lia. }
    destruct Hcase as [-> | [-> Hup]]; [exact Hdiv|].
    destruct (Z.eq_dec (q / 2 ^ n) (2 ^ (E - n))) as [Heq | Hne]; [|lia].
    exfalso.
    assert (q = 2 ^ E).
    { pose proof (Z.mul_div_le q (2 ^ n) Hpn). rewrite Heq in *. nia. }
    destruct Hup as [Hup | Hup].
    - apply Hup. subst q. rewrite HEn. apply Z.mod_mul. lia.
    - apply Hup. apply Hloc. by apply Hexact. }
  destruct (Z.eqb_spec M (2 ^ 53)) as [EM | NM].
  - exists (Z.to_pos (2 ^ 52)), (e1 - e2 - 53 + n + 1).
    split; [reflexivity|]. split; [simpl; lia|].
    assert (53 <= E - n).
    { apply (Z.pow_le_mono_r_iff 2); lia. }
    split; [unfold E in *; lia|].
    change (Z.pos (Z.to_pos (2 ^ 52))) with (2 ^ 52).
    apply Z.pow_le_mono_r; unfold E in *; lia.
  - exists (Z.to_pos M), (e1 - e2 - 53 + n).
    split; [reflexivity|].
    rewrite Z2Pos.id by lia. split; [lia|].
    assert (52 <= E - n).
    { apply (Z.pow_le_mono_r_iff 2); lia. }
    split; [unfold E in *; lia|].
    replace (- (e1 - e2 - 53 + n)) with (E - n) by (unfold E; lia). exact HK.
Qed.

(** Such a quotient times one hundred is at most one hundred. *)
Lemma mul_hundred_le (m : positive) (e : Z) :
  2 ^ 52 <= Z.pos m < 2 ^ 53 -> -160 <= e <= -52 -> Z.pos m <= 2 ^ (- e) ->
  exists m' e',
    mul (S754_finite false m e) (ofInt 100) = S754_finite false m' e' /\
    e' < 0 /\ Z.pos m' <= 100 * 2 ^ (- e').
Proof.
  intros Hm He Hle.
  change (ofInt 100) with (S754_finite false 7036874417766400 (-46)).
  unfold mul, SFmul. cbn [xorb].
  set (P := Z.pos (m * 7036874417766400)).
  assert (HP : P = Z.pos m * (100 * 2 ^ 46)) by (unfold P; lia).
  assert (Hpe : 0 < 2 ^ (- e)) by (apply Z.pow_pos_nonneg; lia).
  assert (HP104 : 2 ^ 104 <= P) by lia.
  assert (HP106 : P < 2 ^ 106) by lia.
  destruct (Zdigits2_bounds P ltac:(lia)) as [Hlo Hhi].
  assert (Hd : 105 <= Zdigits2 P <= 106).
  { split.
    - destruct (Z.lt_ge_cases (Zdigits2 P) 105) as [H | H]; [|exact H].
      assert (2 ^ Zdigits2 P <= 2 ^ 104) by (apply Z.pow_le_mono_r; lia). lia.
    - destruct (Z.le_gt_cases (Zdigits2 P) 106) as [H | H]; [exact H|].
      assert (2 ^ 106 <= 2 ^ (Zdigits2 P - 1)) by (apply Z.pow_le_mono_r; lia). lia. }
  destruct (round_aux_spec P (e + -46) loc_Exact) as (M & HM & Hcase & ->);
    [lia | lia | lia |].
  set (n := Zdigits2 P - 53) in *.
  assert (Hn : 52 <= n <= 53) by (unfold n; lia).
  assert (Hpn : 0 < 2 ^ n) by (apply Z.pow_pos_nonneg; lia).
  set (x := 46 - e - n).
  assert (Hx : 45 <= x) by (unfold x; lia).
  assert (HKn : 100 * 2 ^ x * 2 ^ n = 100 * 2 ^ 46 * 2 ^ (- e)).
  { rewrite <- !Z.mul_assoc, <- !Z.pow_add_r by lia. do 2 f_equal. unfold x. lia. }
  assert (HPK : P <= 100 * 2 ^ x * 2 ^ n) by (rewrite HKn, HP; nia).
  assert (HK : M <= 100 * 2 ^ x).
  { assert (Hdiv : P / 2 ^ n <= 100 * 2 ^ x) by (apply Z.div_le_upper_bound; lia).
    destruct Hcase as [-> | [-> Hup]]; [exact Hdiv|].
    destruct (Z.eq_dec (P / 2 ^ n) (100 * 2 ^ x)) as [Heq | Hne]; [|lia].
    exfalso.
    assert (HPe : P = 100 * 2 ^ x * 2 ^ n).
    { pose proof (Z.mul_div_le P (2 ^ n) Hpn). rewrite Heq in *. nia. }
    destruct Hup as [Hup | Hup]; [|done].
    apply Hup. rewrite HPe. apply Z.mod_mul. lia. }
  destruct (Z.eqb_spec M (2 ^ 53)) as [EM | NM].
  - exists (Z.to_pos (2 ^ 52)), (e + -46 + n + 1).
    split; [reflexivity|]. split; [lia|].
    change (Z.pos (Z.to_pos (2 ^ 52))) with (2 ^ 52).
    replace (- (e + -46 + n + 1)) with (x - 1) by (unfold x; lia).
    assert (2 ^ x = 2 * 2 ^ (x - 1)).
    { rewrite <- Z.pow_succ_r by lia. f_equal. lia. }
    lia.
  - exists (Z.to_pos M), (e + -46 + n).
    split; [reflexivity|]. split; [lia|].
    rewrite Z2Pos.id by lia.
    replace (- (e + -46 + n)) with x by (unfold x; lia). exact HK.
Qed.

(** Rounding a float that is at most one hundred gives an integer from 0
    to 100. *)
Lemma round_le_hundred (m : positive) (e : Z) :
  e < 0 -> Z.pos m <= 100 * 2 ^ (- e) ->
  exists k : Z, round (S754_finite false m e) = ofZ k /\ 0 <= k <= 100.
Proof.
  intros He Hm. destruct e as [|p|p]; try lia.
  change (- Z.neg p) with (Z.pos p) in Hm. cbn [round].
  assert (Hp : 0 < 2 ^ Z.pos p) by (apply Z.pow_pos_nonneg; lia).
  assert (Hp1 : 2 ^ (Z.pos p + 1) = 2 * 2 ^ Z.pos p)
    by (rewrite Z.pow_add_r, Z.pow_1_r by lia; lia).
  eexists. split; [reflexivity|]. rewrite Hp1. split.
  - apply Z.div_pos; lia.
  - assert ((2 * Z.pos m + 2 ^ Z.pos p) / (2 * 2 ^ Z.pos p) < 101); [|lia].
    apply Z.div_lt_upper_bound; lia.
Qed.

(** The percentage of [a] sentences out of [t], for counts that a float
    holds exactly, is an integer from 0 to 100. *)
Lemma percentage_bounds (a t : nat) :
  (1 <= a <= t)%nat -> Z.of_nat t < 2 ^ 53 ->
  exists k : Z, Session.percentage a t = ofZ k /\ 0 <= k <= 100.
Proof.
  intros Hat Ht. unfold Session.percentage.
  destruct (ofInt_spec (Z.of_nat a)) as (m1 & e1 & -> & Hm1 & He1 & Hv1); [lia|].
  destruct (ofInt_spec (Z.of_nat t)) as (m2 & e2 & -> & Hm2 & He2 & Hv2); [lia|].
  assert (Hp1 : 0 < 2 ^ (- e1)) by (apply Z.pow_pos_nonneg; lia).
  assert (Hp2 : 0 < 2 ^ (- e2)) by (apply Z.pow_pos_nonneg; lia).
  destruct (div_le_one m1 m2 e1 e2) as (m & e & -> & Hm & He & Hv); try lia.
  { rewrite Hv1, Hv2. nia. }
  destruct (mul_hundred_le m e) as (m' & e' & -> & He' & Hv'); try lia.
  by apply round_le_hundred.
Qed.

(** The percentage is that of the floats, not of the exact quotient: 23
    sentences out of 40 are 57 per cent and 29 out of 200 are 14, where
    the exact quotients, 57.5 and 14.5, would round to 58 and 15. *)
Lemma percentage_of_floats :
  Session.percentage 23 40 = ofZ 57 /\ Session.percentage 29 200 = ofZ 14 /\
  Session.percentage 1 3 = ofZ 33 /\ Session.percentage 1 2 = ofZ 50.
Proof. repeat split; vm_compute; reflexivity. Qed.

End DoubleFacts.

(* ===================================================================== *)
(** * Further properties of the conversion sessions                      *)
(* ===================================================================== *)

Section CancellationFacts.
Import Queue Session.

Lemma react_after_cancel (e : JobEvent) (j : Job) (c : Conversion)
    (st : Stage) (f : Conversion -> Conversion) :
  react e j (Some c) = Some (st, f) -> cancelledForGood c -> cancelledForGood (f c).
Proof.
  intros H (Hc & Hp & Hd & Hr).
  assert (Hcatch : forall message now, cancelledForGood (catchBlock message now c)).
  { intros message now. unfold catchBlock, cancelledForGood.
    destruct (String.eqb _ _); simpl; auto. }
  destruct e; simpl in H; destruct (stage j) eqn:Est; try discriminate H.
  - destruct (tasks !! i) as [[]|]; try discriminate H.
    rewrite Hc in H. inversion H; subst. by repeat split.
  - destruct (tasks !! i) as [[]|]; try discriminate H.
    destruct (validSentences j !! i); try discriminate H.
    rewrite Hc in H. inversion H; subst. by repeat split.
  - destruct (tasks !! i) as [[]|]; try discriminate H.
    inversion H; subst. by repeat split.
  - destruct (allSettled tasks); try discriminate H.
    destruct (generateAudioParallel _ _) as [message | files].
    + inversion H; subst. apply Hcatch.
    + unfold afterParallel in H. simpl in H. rewrite Hc in H.
      inversion H; subst. by repeat split.
  - destruct r.
    + inversion H; subst. apply Hcatch.
    + simpl in H. rewrite Hc in H. inversion H; subst. by repeat split.
  - destruct r.
    + inversion H; subst. apply Hcatch.
    + inversion H; subst. rewrite Hc. by repeat split.
Qed.

(** Once the cancellation of a session is accepted, no step changes that. *)
Lemma step_after_cancel (i : string) (sv : Server) (e : Event) (sv' : Server) :
  (is_Some (jobs sv !! i) /\
   forall c, activeConversions sv !! i = Some c -> cancelledForGood c) ->
  step sv e = Some sv' ->
  is_Some (jobs sv' !! i) /\
  forall c, activeConversions sv' !! i = Some c -> cancelledForGood c.
Proof.
  intros [Hj Hinv] H. destruct e as [cid ss mn now | cid e' | cid now | now]; simpl in H.
  - destruct (jobs sv !! cid) eqn:Ej; [discriminate|].
    destruct (activeConversions sv !! cid) eqn:Em; [discriminate|].
    destruct ss as [|s0 ss]; [discriminate|].
    inversion H; subst; clear H. simpl.
    destruct (decide (cid = i)) as [->|Hne].
    + rewrite Ej in Hj. by destruct Hj.
    + rewrite !lookup_insert_ne by done. by split.
  - destruct (jobs sv !! cid) as [j|] eqn:Ej; [|discriminate].
    destruct (react e' j _) as [[st f]|] eqn:Er; [|discriminate].
    inversion H; subst; clear H. simpl.
    destruct (decide (cid = i)) as [->|Hne].
    + rewrite lookup_insert_eq. split; [by eexists|].
      intros c. rewrite lookup_alter_eq.
      destruct (activeConversions sv !! i) as [c0|] eqn:Ec; [|discriminate].
      simpl. intros Hc; inversion Hc; subst.
      eapply react_after_cancel; [exact Er | by apply Hinv].
    + rewrite lookup_alter_ne, lookup_insert_ne by done. by split.
  - inversion H; subst; clear H. simpl. split; [exact Hj|].
    intros c. unfold cancelConversion.
    destruct (activeConversions sv !! cid) as [c0|] eqn:Ec; simpl; [|apply Hinv].
    destruct (completed c0) eqn:Ecomp; simpl; [apply Hinv|].
    destruct (decide (cid = i)) as [->|Hne].
    + rewrite lookup_insert_eq. intros Hc; inversion Hc; subst.
      destruct (Hinv _ Ec) as (H1 & H2 & H3 & H4). by repeat split.
    + rewrite lookup_insert_ne by done. apply Hinv.
  - inversion H; subst; clear H. simpl. split; [exact Hj|].
    intros c. rewrite cleanup_lookup. intros [Hc _]. by apply Hinv.
Qed.

Lemma accepted_cancel (i : string) (now : Z) (sv : Server) :
  registryInv sv ->
  (cancelConversion i now (activeConversions sv)).1.1 = Accepted ->
  is_Some (jobs sv !! i) /\
  forall c, (cancelConversion i now (activeConversions sv)).1.2 !! i = Some c ->
            cancelledForGood c.
Proof.
  intros Hreg. unfold cancelConversion.
  destruct (activeConversions sv !! i) as [c0|] eqn:Ec; simpl; [|discriminate].
  destruct (completed c0) eqn:Ecomp; simpl; [discriminate|]. intros _.
  destruct (Hreg _ _ Ec) as (j & Hj & (I1 & _)).
  split; [by eexists|].
  intros c. rewrite lookup_insert_eq. intros Hc; inversion Hc; subst.
  unfold cancelledForGood; simpl. repeat split; auto.
  destruct (result c0) eqn:Er; [|done].
  assert (completed c0 = true) by (apply I1; by eexists). congruence.
Qed.

End CancellationFacts.

(** X3.  Cancellation is final: from the moment a cancel request is accepted for
    a session of the running server, whatever happens next (tasks of the
    session that start, end or fail, the concatenation and the encoding
    that end, further requests, sweeps), the entry of the session, as long
    as it is in the registry, is marked cancelled, is not completed, has no
    result and holds no process handle, so that a further cancel request
    kills no process. *)
Theorem cancellation_is_final (before after : list Session.Event) (sv sv' : Session.Server)
    (conversionId : string) (now : Z) (c : Session.Conversion) :
  Session.run Session.boot before = Some sv ->
  (Session.cancelConversion conversionId now (Session.activeConversions sv)).1.1
    = Session.Accepted ->
  Session.run sv (Session.Cancel conversionId now :: after) = Some sv' ->
  Session.activeConversions sv' !! conversionId = Some c ->
  isCancelledState c /\ ~ isCompleted c /\ Session.result c = None /\
  Session.processes c = [] /\
  forall now',
    (Session.cancelConversion conversionId now' (Session.activeConversions sv')).2 = [].
Proof.
  intros Hbefore Hacc Hrun Hc.
  assert (Hreg : registryInv sv).
  { eapply (run_invariant registryInv); [|exact registryInv_boot | exact Hbefore].
    intros s e s' Hs He. eapply registryInv_step; eauto. }
  simpl in Hrun.
  pose proof (accepted_cancel conversionId now sv Hreg Hacc) as H1.
  pose proof (run_invariant
                (fun s => is_Some (Session.jobs s !! conversionId) /\
                          forall c, Session.activeConversions s !! conversionId = Some c ->
                                    cancelledForGood c)
                (step_after_cancel conversionId) after
                {| Session.activeConversions :=
                     (Session.cancelConversion conversionId now
                        (Session.activeConversions sv)).1.2;
                   Session.jobs := Session.jobs sv |} sv' H1 Hrun) as [_ H2].
  destruct (H2 c Hc) as (Hcanc & Hproc & Hcomp & Hres).
  unfold isCancelledState, isCompleted.
  repeat split; auto; try congruence.
  intros now'. unfold Session.cancelConversion. rewrite Hc, Hcomp. simpl.
  by rewrite Hproc.
Qed.

(** The theorem at [cancellingTrace], followed by the end of the process
    that was killed, the end of the job and a second cancel request. *)
Lemma cancellation_is_final_witness :
  isCancelledState cancelledConversion /\ ~ isCompleted cancelledConversion /\
  Session.result cancelledConversion = None /\
  Session.processes cancelledConversion = [] /\
  forall now',
    (Session.cancelConversion "cafe" now' (Session.activeConversions cancelledServer)).2 = [].
Proof.
  apply (cancellation_is_final (take 2 cancellingTrace) afterCancel synthesisingServer
           cancelledServer "cafe" 500 cancelledConversion); vm_compute; reflexivity.
Defined.

Section ProgressFacts.
Import Queue Session.

Lemma pendingCount_insert (tasks : list TaskState) :
  forall (i : nat) (t t' : TaskState),
    tasks !! i = Some t ->
    (pendingCount (<[ i := t' ]> tasks) + (if pending t then 1 else 0)
     = pendingCount tasks + (if pending t' then 1 else 0))%nat.
Proof.
  unfold pendingCount.
  induction tasks as [|x tasks IH]; intros i t t' H; [discriminate|].
  destruct i as [|i]; simpl in *.
  - inversion H; subst. destruct (pending t), (pending t'); simpl; lia.
  - specialize (IH i t t' H). destruct (pending x); simpl; lia.
Qed.

Lemma react_keeps_countInv (e : JobEvent) (j : Job) (entry : option Conversion)
    (st : Stage) (f : Conversion -> Conversion) :
  react e j entry = Some (st, f) -> countInv j -> countInv (withStage st j).
Proof.
  unfold countInv. intros H Hinv.
  destruct e; simpl in H; destruct (stage j) eqn:Est; try discriminate H; simpl.
  - destruct (tasks !! i) as [[]|] eqn:Ei; try discriminate H.
    destruct Hinv as [Hl Hc].
    destruct (isCancelled entry); inversion H; subst; rewrite length_insert;
      (split; [exact Hl|]);
      match goal with
      | |- context [ <[ i := ?t' ]> tasks ] =>
          pose proof (pendingCount_insert tasks i _ t' Ei) as Hp
      end; simpl in Hp; try (destruct (settle _)); simpl in Hp; lia.
  - destruct (tasks !! i) as [[]|] eqn:Ei; try discriminate H.
    destruct (validSentences j !! i); try discriminate H.
    destruct Hinv as [Hl Hc].
    assert (Hins : forall x, (pendingCount (<[ i := Settled x ]> tasks) + 1
                              = pendingCount tasks)%nat).
    { intros x. pose proof (pendingCount_insert tasks i _ (Settled x) Ei) as Hp.
      simpl in Hp. lia. }
    destruct (isCancelled entry).
    { inversion H; subst. rewrite length_insert. split; [exact Hl|].
      match goal with
      | |- context [ <[ i := Settled ?x ]> tasks ] => specialize (Hins x)
      end. lia. }
    destruct code as [[]|]; inversion H; subst; rewrite length_insert;
      (split; [exact Hl|]);
      match goal with
      | |- context [ <[ i := Settled ?x ]> tasks ] => specialize (Hins x)
      end; lia.
  - destruct (tasks !! i) as [[]|] eqn:Ei; try discriminate H.
    destruct Hinv as [Hl Hc].
    inversion H; subst. rewrite length_insert. split; [exact Hl|].
    match goal with
    | |- context [ <[ i := Settled ?x ]> tasks ] =>
        pose proof (pendingCount_insert tasks i _ (Settled x) Ei) as Hp
    end.
    simpl in Hp. lia.
  - destruct (allSettled tasks); try discriminate H.
    destruct (generateAudioParallel _ _) as [message | files].
    + by inversion H; subst.
    + unfold afterParallel in H. destruct (goneOrCancelled entry); [by inversion H; subst|].
      destruct files as [|? [|]]; by inversion H; subst.
  - destruct r; [by inversion H; subst|].
    destruct (goneOrCancelled entry); by inversion H; subst.
  - destruct r; by inversion H; subst.
Qed.

(** The progress of a session after a reaction of its job, and how far it
    has moved. *)
Lemma react_keeps_progressOk (e : JobEvent) (j : Job) (c : Conversion)
    (st : Stage) (f : Conversion -> Conversion) :
  react e j (Some c) = Some (st, f) -> countInv j -> progressOk j c ->
  progressOk (withStage st j) (f c) /\ (completedOf c <= completedOf (f c))%nat.
Proof.
  unfold countInv, progressOk, completedOf. intros H Hcount Hinv.
  assert (Hsame : forall c' st',
            progress c' = progress c ->
            match st' with
            | Parallel _ cc' =>
                match stage j with Parallel _ cc => (cc <= cc')%nat | _ => False end
            | _ => True
            end ->
            (forall p, progress c' = Some p ->
               p_total p = length (validSentences (withStage st' j)) /\
               (1 <= p_completed p <= p_total p)%nat /\
               p_percentage p = percentage (p_completed p) (p_total p) /\
               (exists k, p_currentSentence p = Some k /\ (1 <= k <= p_total p)%nat) /\
               match stage (withStage st' j) with
               | Parallel _ completedCount => (p_completed p <= completedCount)%nat
               | _ => True
               end) /\
            (match progress c with Some p => p_completed p | None => 0 end
             <= match progress c' with Some p => p_completed p | None => 0 end)%nat).
  { intros c' st' Hp Hst. rewrite Hp. split; [|lia].
    intros p Hpp. destruct (Hinv p Hpp) as (H1 & H2 & H3 & H4 & H5).
    repeat split; auto; try lia. simpl.
    destruct st'; auto. destruct (stage j); [lia | done..]. }
  assert (Hcatch : forall message now, progress (catchBlock message now c) = progress c).
  { intros. unfold catchBlock. by destruct (String.eqb _ _). }
  destruct e; simpl in H; destruct (stage j) eqn:Est; try discriminate H.
  - destruct (tasks !! i) as [[]|]; try discriminate H.
    destruct (cancelled c); inversion H; subst; apply Hsame; auto.
  - destruct (tasks !! i) as [[]|] eqn:Ei; try discriminate H.
    destruct (validSentences j !! i) eqn:Ev; try discriminate H.
    destruct (cancelled c); [inversion H; subst; apply Hsame; auto|].
    destruct code as [[]|]; inversion H; subst;
      try solve [apply Hsame; auto].
    simpl. destruct Hcount as [Hl Hc].
    pose proof (pendingCount_insert tasks i _ (Settled (Fulfilled None)) Ei) as Hp.
    simpl in Hp. apply lookup_lt_Some in Ev.
    split.
    + intros p Hp'. inversion Hp'; subst; simpl.
      repeat split; auto; try lia. exists (S i). split; [done | lia].
    + destruct (progress c) as [p|] eqn:Epc; [|lia].
      destruct (Hinv p eq_refl) as (_ & _ & _ & _ & H5). lia.
  - destruct (tasks !! i) as [[]|]; try discriminate H.
    inversion H; subst. apply Hsame; auto.
  - destruct (allSettled tasks); try discriminate H.
    destruct (generateAudioParallel _ _) as [message | files].
    + inversion H; subst. by apply Hsame.
    + unfold afterParallel in H. simpl in H.
      destruct (cancelled c); [inversion H; subst; by apply Hsame|].
      destruct files as [|? [|]]; inversion H; subst; by apply Hsame.
  - destruct r.
    + inversion H; subst. by apply Hsame.
    + simpl in H. destruct (cancelled c); inversion H; subst; by apply Hsame.
  - destruct r.
    + inversion H; subst. by apply Hsame.
    + inversion H; subst. apply Hsame; [|done]. by destruct (cancelled c).
Qed.

Lemma progressInv_step (sv : Server) (e : Event) (sv' : Server) :
  progressInv sv -> step sv e = Some sv' -> progressInv sv'.
Proof.
  intros [Hjobs Hinv] H.
  destruct e as [cid ss mn now | cid e' | cid now | now]; simpl in H.
  - destruct (jobs sv !! cid) eqn:Ej; [discriminate|].
    destruct (activeConversions sv !! cid) eqn:Em; [discriminate|].
    destruct ss as [|s0 ss]; [discriminate|].
    inversion H; subst; clear H. split; simpl.
    + intros i j. destruct (decide (cid = i)) as [->|Hne].
      * rewrite lookup_insert_eq. intros Hj; inversion Hj; subst.
        unfold countInv, newJob, validSentences; simpl.
        rewrite length_replicate. split; [done|].
        unfold pendingCount.
        pose proof (List.filter_length_le pending
                      (replicate (length (filter (fun s => Js.trim s <> []) (s0 :: ss))) Waiting)).
        rewrite length_replicate in *. lia.
      * rewrite lookup_insert_ne by done. apply Hjobs.
    + intros i c. destruct (decide (cid = i)) as [->|Hne].
      * rewrite !lookup_insert_eq. intros Hc; inversion Hc; subst.
        eexists; split; [reflexivity|]. intros p Hp. discriminate Hp.
      * rewrite !lookup_insert_ne by done. apply Hinv.
  - destruct (jobs sv !! cid) as [j|] eqn:Ej; [|discriminate].
    destruct (react e' j _) as [[st f]|] eqn:Er; [|discriminate].
    inversion H; subst; clear H. split; simpl.
    + intros i j'. destruct (decide (cid = i)) as [->|Hne].
      * rewrite lookup_insert_eq. intros Hj; inversion Hj; subst.
        eapply react_keeps_countInv; eauto.
      * rewrite lookup_insert_ne by done. apply Hjobs.
    + intros i c. destruct (decide (cid = i)) as [->|Hne].
      * rewrite lookup_alter_eq, lookup_insert_eq.
        destruct (activeConversions sv !! i) as [c0|] eqn:Ec; [|discriminate].
        simpl. intros Hc; inversion Hc; subst.
        eexists; split; [reflexivity|].
        destruct (Hinv _ _ Ec) as (j' & Hj' & Hok). rewrite Ej in Hj'. inversion Hj'; subst.
        eapply react_keeps_progressOk; eauto.
      * rewrite lookup_alter_ne, lookup_insert_ne by done. apply Hinv.
  - inversion H; subst; clear H. split; [exact Hjobs|]. intros i c; simpl.
    unfold cancelConversion.
    destruct (activeConversions sv !! cid) as [c0|] eqn:Ec; simpl; [|apply Hinv].
    destruct (completed c0) eqn:Ecomp; simpl; [apply Hinv|].
    destruct (decide (cid = i)) as [->|Hne].
    + rewrite lookup_insert_eq. intros Hc; inversion Hc; subst.
      destruct (Hinv _ _ Ec) as (j' & Hj' & Hs).
      exists j'. split; [done|]. exact Hs.
    + rewrite lookup_insert_ne by done. apply Hinv.
  - inversion H; subst; clear H. split; [exact Hjobs|]. intros i c; simpl.
    rewrite cleanup_lookup. intros [Hc _]. by apply Hinv.
Qed.

Lemma progressInv_boot : progressInv boot.
Proof.
  split; intros i x H; simpl in H; by rewrite lookup_empty in H.
Qed.

Lemma progressInv_run (tr : list Event) (sv : Server) :
  run boot tr = Some sv -> progressInv sv.
Proof.
  intros H. eapply (run_invariant progressInv); [|exact progressInv_boot | exact H].
  intros s e s' Hs He. eapply progressInv_step; eauto.
Qed.

End ProgressFacts.

(** X4.  The progress a status request reports is within bounds in every state
    of the running server: the sentences completed are at most the total,
    and the percentage, which the code computes on floats, is an integer
    from 0 to 100 (the total being a count that a float holds exactly, as
    the length of an array is). *)
Theorem reported_progress_is_within_bounds (tr : list Session.Event) (sv : Session.Server)
    (conversionId : string) (s : Session.Snapshot) :
  Session.run Session.boot tr = Some sv ->
  Session.conversionStatus conversionId (Session.activeConversions sv) = Some s ->
  Z.of_nat (Session.p_total (Session.s_progress s)) < 2 ^ 53 ->
  (Session.p_completed (Session.s_progress s) <= Session.p_total (Session.s_progress s))%nat /\
  exists k : Z, Session.p_percentage (Session.s_progress s) = k /\ 0 <= k <= 100.
Proof.
  intros Hrun Hs. apply progressInv_run in Hrun as [_ Hinv].
  unfold Session.conversionStatus in Hs.
  destruct (Session.activeConversions sv !! conversionId) as [c|] eqn:Ec; [|discriminate].
  inversion Hs; subst; clear Hs. simpl.
  destruct (Hinv _ _ Ec) as (j & _ & Hok).
  destruct (Session.progress c) as [p|] eqn:Ep; simpl;
    [|intros _; split; [lia | exists 0; split; [reflexivity | lia]]].
  destruct (Hok p Ep) as (_ & H2 & H3 & _). intros Ht.
  split; [lia|]. rewrite H3. by apply percentage_bounds.
Qed.

(** The theorem at the end of [outOfOrderTrace], and the percentage after
    the first of its two sentences. *)
Lemma reported_progress_is_within_bounds_witness :
  Session.p_percentage (Session.s_progress halfwaySnapshot) = 50 /\
  (Session.p_completed (Session.s_progress finalSnapshot)
   <= Session.p_total (Session.s_progress finalSnapshot))%nat /\
  exists k : Z, Session.p_percentage (Session.s_progress finalSnapshot) = k /\ 0 <= k <= 100.
Proof.
  split; [vm_compute; reflexivity|].
  apply (reported_progress_is_within_bounds outOfOrderTrace outOfOrderServer "0b0e");
    vm_compute; reflexivity.
Defined.

Section RegistryFacts.
Import Queue Session.

(** The job of a conversion stays in place, and an entry that has left the
    registry does not come back. *)
Lemma step_keeps_job (i : string) (sv : Server) (e : Event) (sv' : Server) :
  is_Some (jobs sv !! i) -> step sv e = Some sv' -> is_Some (jobs sv' !! i).
Proof.
  intros Hj H. destruct e as [cid ss mn now | cid e' | cid now | now]; simpl in H.
  - destruct (jobs sv !! cid) eqn:Ej; [discriminate|].
    destruct (activeConversions sv !! cid) eqn:Em; [discriminate|].
    destruct ss as [|s0 ss]; [discriminate|].
    inversion H; subst; clear H. simpl.
    destruct (decide (cid = i)) as [->|Hne]; [by rewrite lookup_insert_eq|].
    by rewrite lookup_insert_ne.
  - destruct (jobs sv !! cid) as [j|] eqn:Ej; [|discriminate].
    destruct (react e' j _) as [[st f]|] eqn:Er; [|discriminate].
    inversion H; subst; clear H. simpl.
    destruct (decide (cid = i)) as [->|Hne]; [by rewrite lookup_insert_eq|].
    by rewrite lookup_insert_ne.
  - by inversion H; subst.
  - by inversion H; subst.
Qed.

Lemma step_keeps_absent (i : string) (sv : Server) (e : Event) (sv' : Server) :
  is_Some (jobs sv !! i) /\ activeConversions sv !! i = None ->
  step sv e = Some sv' ->
  is_Some (jobs sv' !! i) /\ activeConversions sv' !! i = None.
Proof.
  intros [Hj Hm] H. split; [by eapply step_keeps_job|].
  destruct e as [cid ss mn now | cid e' | cid now | now]; simpl in H.
  - destruct (jobs sv !! cid) eqn:Ej; [discriminate|].
    destruct (activeConversions sv !! cid) eqn:Em; [discriminate|].
    destruct ss as [|s0 ss]; [discriminate|].
    inversion H; subst; clear H. simpl.
    destruct (decide (cid = i)) as [->|Hne].
    + rewrite Ej in Hj. by destruct Hj.
    + by rewrite lookup_insert_ne.
  - destruct (jobs sv !! cid) as [j|] eqn:Ej; [|discriminate].
    destruct (react e' j _) as [[st f]|] eqn:Er; [|discriminate].
    inversion H; subst; clear H. simpl.
    destruct (decide (cid = i)) as [->|Hne].
    + by rewrite lookup_alter_eq, Hm.
    + by rewrite lookup_alter_ne.
  - inversion H; subst; clear H. simpl. unfold cancelConversion.
    destruct (activeConversions sv !! cid) as [c0|] eqn:Ec; simpl; [|done].
    destruct (completed c0); simpl; [done|].
    destruct (decide (cid = i)) as [->|Hne]; [congruence|].
    by rewrite lookup_insert_ne.
  - inversion H; subst; clear H. simpl.
    destruct (cleanup now (activeConversions sv) !! i) as [c|] eqn:Ec; [|done].
    apply cleanup_lookup in Ec as [Ec _]. congruence.
Qed.

Lemma step_progress (i : string) (sv : Server) (e : Event) (sv' : Server)
    (c c' : Conversion) :
  progressInv sv -> step sv e = Some sv' ->
  activeConversions sv !! i = Some c -> activeConversions sv' !! i = Some c' ->
  (completedOf c <= completedOf c')%nat.
Proof.
  intros [Hjobs Hinv] H Hc Hc'.
  destruct e as [cid ss mn now | cid e' | cid now | now]; simpl in H.
  - destruct (jobs sv !! cid) eqn:Ej; [discriminate|].
    destruct (activeConversions sv !! cid) eqn:Em; [discriminate|].
    destruct ss as [|s0 ss]; [discriminate|].
    inversion H; subst; clear H. simpl in Hc'.
    destruct (decide (cid = i)) as [->|Hne]; [congruence|].
    rewrite lookup_insert_ne in Hc' by done.
    assert (c' = c) by congruence. subst. lia.
  - destruct (jobs sv !! cid) as [j|] eqn:Ej; [|discriminate].
    destruct (react e' j _) as [[st f]|] eqn:Er; [|discriminate].
    inversion H; subst; clear H. simpl in Hc'.
    destruct (decide (cid = i)) as [->|Hne].
    + rewrite lookup_alter_eq, Hc in Hc'. simpl in Hc'. inversion Hc'; subst.
      rewrite Hc in Er.
      destruct (Hinv _ _ Hc) as (j' & Hj' & Hok). rewrite Ej in Hj'. inversion Hj'; subst.
      eapply react_keeps_progressOk; eauto.
    + rewrite lookup_alter_ne in Hc' by done.
      assert (c' = c) by congruence. subst. lia.
  - inversion H; subst; clear H. simpl in Hc'. unfold cancelConversion in Hc'.
    destruct (activeConversions sv !! cid) as [c0|] eqn:Ec; simpl in Hc';
      [|assert (c' = c) by congruence; subst; lia].
    destruct (completed c0); simpl in Hc'; [assert (c' = c) by congruence; subst; lia|].
    destruct (decide (cid = i)) as [->|Hne].
    + rewrite lookup_insert_eq in Hc'. inversion Hc'; subst.
      assert (c0 = c) by congruence. subst. unfold completedOf. simpl. lia.
    + rewrite lookup_insert_ne in Hc' by done.
      assert (c' = c) by congruence. subst. lia.
  - inversion H; subst; clear H. simpl in Hc'.
    apply cleanup_lookup in Hc' as [Hc' _].
    assert (c' = c) by congruence. subst. lia.
Qed.

Lemma run_progress (i : string) (tr : list Event) :
  forall (sv sv' : Server) (c c' : Conversion),
    progressInv sv -> is_Some (jobs sv !! i) -> run sv tr = Some sv' ->
    activeConversions sv !! i = Some c -> activeConversions sv' !! i = Some c' ->
    (completedOf c <= completedOf c')%nat.
Proof.
  induction tr as [|e tr IH]; intros sv sv' c c' Hinv Hj H Hc Hc'; simpl in H.
  - inversion H; subst. assert (c' = c) by congruence. subst. lia.
  - destruct (step sv e) as [sv1|] eqn:E; [|done].
    pose proof (progressInv_step _ _ _ Hinv E) as Hinv1.
    pose proof (step_keeps_job _ _ _ _ Hj E) as Hj1.
    destruct (activeConversions sv1 !! i) as [c1|] eqn:Ec1.
    + pose proof (step_progress i _ _ _ _ _ Hinv E Hc Ec1).
      pose proof (IH _ _ _ _ Hinv1 Hj1 H Ec1 Hc'). lia.
    + pose proof (run_invariant
                    (fun s => is_Some (jobs s !! i) /\ activeConversions s !! i = None)
                    (step_keeps_absent i) tr sv1 sv' (conj Hj1 Ec1) H) as [_ Hn].
      congruence.
Qed.

(** A completed session is not touched again. *)
Lemma step_after_completion (i : string) (c : Conversion) (sv : Server) (e : Event)
    (sv' : Server) :
  completed c = true ->
  ((exists j, jobs sv !! i = Some j /\ stage j = Finished) /\
   (activeConversions sv !! i = Some c \/ activeConversions sv !! i = None)) ->
  step sv e = Some sv' ->
  (exists j, jobs sv' !! i = Some j /\ stage j = Finished) /\
  (activeConversions sv' !! i = Some c \/ activeConversions sv' !! i = None).
Proof.
  intros Hcomp [(j0 & Hj0 & Hst) Hm] H.
  destruct e as [cid ss mn now | cid e' | cid now | now]; simpl in H.
  - destruct (jobs sv !! cid) eqn:Ej; [discriminate|].
    destruct (activeConversions sv !! cid) eqn:Em; [discriminate|].
    destruct ss as [|s0 ss]; [discriminate|].
    inversion H; subst; clear H. simpl.
    destruct (decide (cid = i)) as [->|Hne]; [congruence|].
    rewrite !lookup_insert_ne by done. eauto.
  - destruct (jobs sv !! cid) as [j|] eqn:Ej; [|discriminate].
    destruct (react e' j _) as [[st f]|] eqn:Er; [|discriminate].
    inversion H; subst; clear H. simpl.
    destruct (decide (cid = i)) as [->|Hne].
    + apply react_not_finished in Er. congruence.
    + rewrite lookup_alter_ne, lookup_insert_ne by done. eauto.
  - inversion H; subst; clear H. simpl. split; [eauto|].
    unfold cancelConversion.
    destruct (activeConversions sv !! cid) as [c0|] eqn:Ec; simpl; [|exact Hm].
    destruct (completed c0) eqn:Ec0; simpl; [exact Hm|].
    destruct (decide (cid = i)) as [->|Hne].
    + destruct Hm as [Hm | Hm]; congruence.
    + by rewrite lookup_insert_ne.
  - inversion H; subst; clear H. simpl. split; [eauto|].
    destruct (cleanup now (activeConversions sv) !! i) as [c1|] eqn:Ec; [|by right].
    apply cleanup_lookup in Ec as [Ec _]. destruct Hm as [Hm | Hm]; [left|]; congruence.
Qed.

Lemma reachable_registryInv (tr : list Event) (sv : Server) :
  run boot tr = Some sv -> registryInv sv.
Proof.
  intros H. eapply (run_invariant registryInv); [|exact registryInv_boot | exact H].
  intros s e s' Hs He. eapply registryInv_step; eauto.
Qed.

(** A sweep at a later time does what the two sweeps do. *)
Lemma swept_later (now now' : Z) (c : Conversion) :
  now <= now' -> swept now c = true -> swept now' c = true.
Proof.
  unfold swept. intros Hle H. apply andb_true_iff in H as [H1 H2].
  rewrite H2, andb_true_r. apply Z.ltb_lt in H1. apply Z.ltb_lt. lia.
Qed.

Lemma cleanup_cleanup (now now' : Z) (m : gmap string Conversion) :
  now <= now' -> cleanup now' (cleanup now m) = cleanup now' m.
Proof.
  intros Hle. apply map_eq. intros i.
  destruct (cleanup now' m !! i) as [c|] eqn:E.
  - apply cleanup_lookup in E as [E1 E2].
    apply cleanup_lookup. split; [|done]. apply cleanup_lookup. split; [done|].
    destruct (swept now c) eqn:Es; [|done].
    by rewrite (swept_later now now' c Hle Es) in E2.
  - destruct (cleanup now' (cleanup now m) !! i) as [c|] eqn:E'; [|done].
    apply cleanup_lookup in E' as [E1 E2]. apply cleanup_lookup in E1 as [E1 _].
    assert (cleanup now' m !! i = Some c) by (by apply cleanup_lookup). congruence.
Qed.

End RegistryFacts.

(** X5.  Progress never goes back: between two states of the running server in
    which the status of a session can be asked, the number of completed
    sentences reported by the second answer is at least the one reported by
    the first. *)
Theorem reported_progress_never_goes_back (before after : list Session.Event)
    (sv sv' : Session.Server) (conversionId : string) (s s' : Session.Snapshot) :
  Session.run Session.boot before = Some sv ->
  Session.run sv after = Some sv' ->
  Session.conversionStatus conversionId (Session.activeConversions sv) = Some s ->
  Session.conversionStatus conversionId (Session.activeConversions sv') = Some s' ->
  (Session.p_completed (Session.s_progress s)
   <= Session.p_completed (Session.s_progress s'))%nat.
Proof.
  intros Hbefore Hafter Hs Hs'. unfold Session.conversionStatus in *.
  destruct (Session.activeConversions sv !! conversionId) as [c|] eqn:Ec; [|discriminate].
  destruct (Session.activeConversions sv' !! conversionId) as [c'|] eqn:Ec'; [|discriminate].
  inversion Hs; subst. inversion Hs'; subst. clear Hs Hs'.
  pose proof (progressInv_run _ _ Hbefore) as Hinv.
  assert (Hj : is_Some (Session.jobs sv !! conversionId)).
  { destruct Hinv as [_ Hinv]. destruct (Hinv _ _ Ec) as (j & Hj & _). by eexists. }
  pose proof (run_progress conversionId after sv sv' c c' Hinv Hj Hafter Ec Ec') as H.
  unfold completedOf in H. simpl.
  destruct (Session.progress c), (Session.progress c'); simpl; lia.
Qed.

(** The theorem at [outOfOrderTrace], between its first and its second
    completed sentence. *)
Lemma reported_progress_never_goes_back_witness :
  (Session.p_completed (Session.s_progress halfwaySnapshot)
   <= Session.p_completed (Session.s_progress finalSnapshot))%nat.
Proof.
  apply (reported_progress_never_goes_back (take 4 outOfOrderTrace) (drop 4 outOfOrderTrace)
           halfwayServer outOfOrderServer "0b0e"); vm_compute; reflexivity.
Defined.

(** X6.  A completed session is frozen: in every later state of the running
    server its entry is the one it had when it completed, with the same
    result, or the sweep has removed it; no cancel request, no event of its
    job and no other conversion changes it. *)
Theorem completed_session_is_frozen (before after : list Session.Event)
    (sv sv' : Session.Server) (conversionId : string) (c : Session.Conversion) :
  Session.run Session.boot before = Some sv ->
  Session.activeConversions sv !! conversionId = Some c ->
  isCompleted c ->
  Session.run sv after = Some sv' ->
  Session.activeConversions sv' !! conversionId = Some c \/
  Session.activeConversions sv' !! conversionId = None.
Proof.
  intros Hbefore Hc Hcomp Hafter.
  destruct (reachable_registryInv _ _ Hbefore _ _ Hc) as (j & Hj & (_ & _ & _ & I4)).
  assert (Hst : Session.stage j = Session.Finished).
  { destruct (Session.stage j) eqn:E; try reflexivity;
      (destruct I4 as [I4 _]; [discriminate | unfold isCompleted in Hcomp; congruence]). }
  apply (run_invariant
           (fun s => (exists j, Session.jobs s !! conversionId = Some j /\
                                Session.stage j = Session.Finished) /\
                     (Session.activeConversions s !! conversionId = Some c \/
                      Session.activeConversions s !! conversionId = None))
           (fun s e s' => step_after_completion conversionId c s e s' Hcomp) after sv sv');
    [|exact Hafter].
  split; [eauto | by left].
Qed.

(** The theorem at [completingTrace], followed by a cancel request and a
    sweep. *)
Lemma completed_session_is_frozen_witness :
  Session.activeConversions frozenServer !! "c0de" = Some completedConversion \/
  Session.activeConversions frozenServer !! "c0de" = None.
Proof.
  apply (completed_session_is_frozen completingTrace afterCompletion completedServer);
    vm_compute; reflexivity.
Defined.

(** X7.  Sweeps compose: after a sweep, a sweep at the same or a later time
    leaves what it would have left without the first. *)
Theorem later_sweep_subsumes_earlier (now now' : Z)
    (m : gmap string Session.Conversion) :
  now <= now' ->
  Session.cleanup now' (Session.cleanup now m) = Session.cleanup now' m.
Proof. apply cleanup_cleanup. Qed.

(** The theorem at the registry of [completedServer]. *)
Lemma later_sweep_subsumes_earlier_witness :
  Session.cleanup 500000 (Session.cleanup 400000 (Session.activeConversions completedServer))
  = Session.cleanup 500000 (Session.activeConversions completedServer).
Proof. apply later_sweep_subsumes_earlier. lia. Defined.

(* ===================================================================== *)
(** * Properties of the thread settings                                  *)
(* ===================================================================== *)

Section SettingsFacts.
Import Queue Settings.
Context {Task : Type}.

Local Abbreviation PQ := (ProcessQueue Task).

(** The admission loop has nothing left to do after it has run. *)
Lemma processQueue_again (p : PQ) :
  Queue.processQueue (Queue.processQueue p).1 = ((Queue.processQueue p).1, []).
Proof.
  destruct (Queue.processQueue p) as [p' started] eqn:E. simpl.
  apply processQueue_spec in E as (Hm & _ & _ & _ & _ & Hstop). rewrite <- Hm in Hstop.
  unfold Queue.processQueue. destruct p' as [mc rn q]. simpl in *.
  destruct q as [|x q]; [reflexivity|]. simpl.
  destruct Hstop as [Hstop | Hstop]; [discriminate|].
  by rewrite Hstop.
Qed.

Lemma setMaxConcurrent_ceiling (n : Num.number) (p : PQ) :
  maxConcurrent (setMaxConcurrent n p).1 = clamp n.
Proof.
  unfold setMaxConcurrent. destruct (Queue.processQueue _) as [p' started] eqn:E. simpl.
  by apply processQueue_spec in E as (-> & _).
Qed.

(** Setting again the ceiling the queue already has changes nothing and
    starts nothing. *)
Lemma setMaxConcurrent_again (n n' : Num.number) (p : PQ) :
  clamp n' = clamp n ->
  setMaxConcurrent n' (setMaxConcurrent n p).1 = ((setMaxConcurrent n p).1, []).
Proof.
  intros Hn. unfold setMaxConcurrent at 1.
  replace {| maxConcurrent := clamp n';
             running := running (setMaxConcurrent n p).1;
             queue := queue (setMaxConcurrent n p).1 |}
    with (setMaxConcurrent n p).1.
  - unfold setMaxConcurrent. apply processQueue_again.
  - pose proof (setMaxConcurrent_ceiling n p) as Hc.
    destruct (setMaxConcurrent n p).1 as [mc rn q]. simpl in *. by rewrite Hn, Hc.
Qed.

(** Under the ceiling [NaN] the admission loop starts nothing. *)
Lemma processQueue_NaN (p : PQ) :
  maxConcurrent p = Num.NaN -> Queue.processQueue p = (p, []).
Proof.
  destruct p as [mc rn q]. simpl. intros ->. unfold Queue.processQueue. simpl.
  by destruct q.
Qed.

Lemma applyThreads_spec (cores : Z) (us : UserSettings) (q : PQ) :
  let r := applyThreads cores us q in
  let n := if autoDetectThreads us then Num.ofZ (cores * 2) else maxThreads us in
  r.1.2 = (setMaxConcurrent n q).1 /\ r.2 = (setMaxConcurrent n q).2 /\
  autoDetectThreads r.1.1 = autoDetectThreads us /\ maxThreads r.1.1 = n.
Proof.
  unfold applyThreads. destruct (autoDetectThreads us) eqn:Ea.
  - destruct (setMaxConcurrent _ _) as [q' started]. simpl. auto.
  - destruct (setMaxConcurrent _ _) as [q' started]. simpl. auto.
Qed.

Lemma applyThreads_inStep (cores : Z) (us : UserSettings) (q : PQ) (f : SettingsFile) :
  inStep cores {| userSettings := (applyThreads cores us q).1.1;
                  processQueue := (applyThreads cores us q).1.2; file := f |}.
Proof.
  destruct (applyThreads_spec cores us q) as (Hq & _ & Ha & Hm).
  unfold inStep. simpl. rewrite Hq, Hm, Ha, setMaxConcurrent_ceiling.
  split; [reflexivity|]. by intros ->.
Qed.

Lemma load_inStep (cores : Z) (o : WriteOutcome) (st : State Task) :
  inStep cores st -> inStep cores (loadUserSettings cores o st).1.
Proof.
  intros Hst. unfold loadUserSettings.
  destruct (file st) as [| |[threads|]]; simpl; try exact Hst.
  - destruct (setMaxConcurrent 1 (processQueue st)) as [q' started] eqn:E.
    unfold inStep; simpl.
    pose proof (setMaxConcurrent_ceiling 1 (processQueue st)) as Hc. rewrite E in Hc.
    simpl in Hc. rewrite Hc. split; [reflexivity | discriminate].
  - pose proof (applyThreads_inStep cores
                  {| maxThreads := clamp (orOne (t_maxThreads threads));
                     autoDetectThreads := t_autoDetectThreads threads |}
                  (processQueue st) (Json (Some threads))) as H.
    destruct (applyThreads _ _ _) as [[us' q'] started]. exact H.
Qed.

Lemma step_inStep (cores : Z) (st : State Task) (e : Event) :
  inStep cores st -> inStep cores (step cores st e).
Proof.
  intros Hst. destruct e as [o | req o | o | f]; simpl.
  - by apply load_inStep.
  - unfold postSettings.
    match goal with
    | |- context [ applyThreads cores ?us ?q ] =>
        pose proof (applyThreads_inStep cores us q (file st)) as H;
        destruct (applyThreads cores us q) as [[us' q'] started]
    end.
    destruct o; exact H.
  - unfold forceThreads.
    pose proof (load_inStep cores o st Hst) as H1.
    destruct (loadUserSettings cores o st) as [st1 started1]. simpl in H1.
    destruct (setMaxConcurrent _ _) as [q' started2] eqn:E.
    unfold inStep; simpl. destruct H1 as [H1 H2]. split; [|exact H2].
    match type of E with
    | setMaxConcurrent ?n ?q = _ => pose proof (setMaxConcurrent_ceiling n q) as Hc
    end.
    rewrite E in Hc. simpl in Hc. rewrite Hc.
    destruct (autoDetectThreads (userSettings st1)); [symmetry; by apply H2 | reflexivity].
  - exact Hst.
Qed.

Lemma run_inStep (cores : Z) (tr : list Event) :
  forall st : State Task, inStep cores st -> inStep cores (run cores st tr).
Proof.
  induction tr as [|e tr IH]; intros st Hst; [exact Hst|].
  apply IH. by apply step_inStep.
Qed.

Lemma boot_inStep (cores : Z) (f : SettingsFile) :
  1 <= cores -> inStep cores (boot (Task:=Task) cores f).
Proof.
  intros H. unfold inStep, boot. simpl. rewrite min_ofZ, !clamp_ofZ.
  split; [|intros _]; f_equal; lia.
Qed.

(** ** Settings that are numbers *)

Lemma clamp_NaN (x : Num.number) : clamp x = Num.NaN -> x = Num.NaN.
Proof.
  destruct (clamp_cases x) as [[? _] | [(_ & _ & E) | [(_ & _ & E) | (_ & _ & E)]]];
    [done | | |]; rewrite E; done.
Qed.

Lemma written_numeric (x : Num.number) : written x <> Some Num.NaN.
Proof.
  unfold written. destruct x as [| neg | q]; simpl; try done.
  by destruct (Qeq_bool q 0).
Qed.

Lemma applyThreads_numeric (cores : Z) (us : UserSettings) (q : PQ) :
  maxThreads us <> Num.NaN -> maxThreads (applyThreads cores us q).1.1 <> Num.NaN.
Proof.
  intros H. destruct (applyThreads_spec cores us q) as (_ & _ & _ & ->).
  by destruct (autoDetectThreads us).
Qed.

Lemma load_numeric (cores : Z) (o : WriteOutcome) (st : State Task) :
  numericState st -> numericOutcome o -> numericState (loadUserSettings cores o st).1.
Proof.
  intros [Hm Hf] Ho. unfold loadUserSettings.
  destruct (file st) as [| |[threads|]] eqn:Ef; simpl; try (by split; [|rewrite Ef]).
  - destruct (setMaxConcurrent 1 (processQueue st)) as [q' started] eqn:E.
    split; simpl; [done|]. destruct o; simpl; [apply written_numeric | exact Ho].
  - pose proof (applyThreads_numeric cores
                  {| maxThreads := clamp (orOne (t_maxThreads threads));
                     autoDetectThreads := t_autoDetectThreads threads |}
                  (processQueue st)) as H.
    destruct (applyThreads _ _ _) as [[us' q'] started]. simpl in *.
    split; simpl; [|exact Hf]. apply H. intros Hc%clamp_NaN.
    destruct (t_maxThreads threads) as [x|]; simpl in Hc;
      [by subst | discriminate].
Qed.

Lemma step_numeric (cores : Z) (st : State Task) (e : Event) :
  numericState st -> numericEvent e -> numericState (step cores st e).
Proof.
  intros Hst He. destruct e as [o | req o | o | f]; simpl in *.
  - by apply load_numeric.
  - unfold postSettings. destruct Hst as [Hm Hf].
    match goal with
    | |- context [ applyThreads cores ?us ?q ] =>
        pose proof (applyThreads_numeric cores us q) as H;
        destruct (applyThreads cores us q) as [[us' q'] started]
    end.
    simpl in *. split; simpl.
    + apply H. destruct (r_autoDetectThreads req), (r_maxThreads req) as [n|]; simpl;
        try exact Hm;
        (destruct (Num.lt 0 n) eqn:En; simpl; [|exact Hm]);
        (intros Hc%clamp_NaN; by subst n).
    + destruct o; simpl; [apply written_numeric | exact He].
  - unfold forceThreads.
    pose proof (load_numeric cores o st Hst He) as H1.
    destruct (loadUserSettings cores o st) as [st1 started1]. simpl in H1.
    destruct (setMaxConcurrent _ _) as [q' started2]. exact H1.
  - destruct Hst as [Hm _]. by split.
Qed.

Lemma run_numeric (cores : Z) (tr : list Event) :
  forall st : State Task,
    numericState st -> Forall numericEvent tr -> numericState (run cores st tr).
Proof.
  induction tr as [|e tr IH]; intros st Hst Htr; [exact Hst|].
  inversion Htr; subst. apply IH; [by apply step_numeric | done].
Qed.

(** ** What is written is read back *)

Lemma written_back (x : Num.number) :
  Num.isFinite x = true -> clamp (orOne (written x)) = clamp x.
Proof.
  destruct x as [| neg | q]; try done. intros _.
  unfold written. simpl. destruct (Qeq_bool q 0) eqn:E; [|reflexivity].
  simpl. apply Qeq_bool_iff in E.
  destruct (clamp_cases (Num.Fin q)) as [[? _] | [(_ & _ & ->) | [(H & _) | (_ & H & _)]]];
    [done | reflexivity | |].
  - exfalso. apply lt_Fin in H. rewrite E in H. by apply Qlt_alt in H.
  - exfalso.
    assert (Hl : Num.lt (Num.Fin q) (Num.ofZ 32) = true); [|congruence].
    apply (lt_Fin_Fin q (inject_Z 32)). by rewrite E.
Qed.

Lemma clamp_finite (x : Num.number) : x <> Num.NaN -> Num.isFinite (clamp x) = true.
Proof.
  intros Hx.
  destruct (clamp_cases x) as [[? _] | [(_ & _ & ->) | [(H1 & H2 & ->) | (_ & _ & ->)]]];
    try done.
  destruct x as [| [|] | q]; done.
Qed.

End SettingsFacts.

(** X8.  The queue follows the settings: on a machine with at least one
    core, in every state reached by loading the settings, posting new ones,
    forcing them on the queue at the start of a conversion and editing or
    removing the file, the ceiling of the queue is [userSettings.maxThreads]
    clamped.  It is [NaN] when [userSettings.maxThreads] is, and otherwise
    lies between 1 and 32; it is between 1 and 32 whenever no file the
    server comes to read holds a [maxThreads] that is no number; and in
    automatic mode it is twice the number of cores, at most 32. *)
Theorem ceiling_follows_settings {Task : Type} (cores : Z) (file0 : Settings.SettingsFile)
    (tr : list Settings.Event) :
  1 <= cores ->
  let st := Settings.run cores (Settings.boot (Task:=Task) cores file0) tr in
  let ceiling := Queue.maxConcurrent (Settings.processQueue st) in
  ceiling = Queue.clamp (Settings.maxThreads (Settings.userSettings st)) /\
  ((Settings.maxThreads (Settings.userSettings st) = Num.NaN /\ ceiling = Num.NaN)
   \/ (Num.le 1 ceiling = true /\ Num.le ceiling 32 = true)) /\
  (numericFile file0 -> Forall numericEvent tr ->
   Num.le 1 ceiling = true /\ Num.le ceiling 32 = true) /\
  (Settings.autoDetectThreads (Settings.userSettings st) = true ->
   ceiling = Z.min 32 (cores * 2)).
Proof.
  intros Hc st ceiling.
  destruct (run_inStep cores tr _ (boot_inStep (Task:=Task) cores file0 Hc)) as [H1 H2].
  fold st in H1, H2. fold ceiling in H1.
  split; [exact H1|]. split; [|split].
  - rewrite H1.
    destruct (clamp_range (Settings.maxThreads (Settings.userSettings st)))
      as [[? ?] | (_ & ? & ?)]; [by left | by right].
  - intros Hf Htr.
    assert (Hn : numericState st).
    { apply run_numeric; [|exact Htr]. split; [|exact Hf]. simpl. by rewrite min_ofZ. }
    rewrite H1.
    destruct (clamp_range (Settings.maxThreads (Settings.userSettings st)))
      as [[? ?] | (_ & ? & ?)]; [by destruct Hn | done].
  - intros Ha. rewrite H1, (H2 Ha), clamp_ofZ. f_equal. lia.
Qed.

(** The theorem at [settingsTrace], on a machine with four cores. *)
Lemma ceiling_follows_settings_witness :
  let st := Settings.run 4 (Settings.boot (Task:=unit) 4 Settings.Missing) settingsTrace in
  let ceiling := Queue.maxConcurrent (Settings.processQueue st) in
  ceiling = 8 /\
  ceiling = Queue.clamp (Settings.maxThreads (Settings.userSettings st)) /\
  Num.le 1 ceiling = true /\ Num.le ceiling 32 = true.
Proof.
  destruct (ceiling_follows_settings (Task:=unit) 4 Settings.Missing settingsTrace)
    as (H1 & _ & H3 & _); [lia|].
  split; [vm_compute; reflexivity|]. split; [exact H1|].
  apply H3; [exact I|]. unfold settingsTrace. repeat constructor; discriminate.
Defined.

(** X9.  What [POST /settings] saves is what a later load applies: when
    [userSettings.maxThreads] was a finite number and the file was
    written, loading it leaves the queue as it is and starts no task,
    keeps the mode and the file, and keeps [maxThreads] in automatic mode;
    in manual mode [maxThreads] becomes its clamped value.  ([NaN] is
    written as [null] and read back as 1.) *)
Theorem saved_settings_load_back {Task : Type} (cores : Z) (req : Settings.SettingsRequest)
    (o : Settings.WriteOutcome) (st : Settings.State Task) :
  Num.isFinite (Settings.maxThreads (Settings.userSettings st)) = true ->
  let st1 := (Settings.postSettings cores req Settings.Written st).1 in
  let st2 := (Settings.loadUserSettings cores o st1).1 in
  Settings.processQueue st2 = Settings.processQueue st1 /\
  (Settings.loadUserSettings cores o st1).2 = [] /\
  Settings.file st2 = Settings.file st1 /\
  Settings.autoDetectThreads (Settings.userSettings st2)
    = Settings.autoDetectThreads (Settings.userSettings st1) /\
  Settings.maxThreads (Settings.userSettings st2)
    = (if Settings.autoDetectThreads (Settings.userSettings st1)
       then Settings.maxThreads (Settings.userSettings st1)
       else Queue.clamp (Settings.maxThreads (Settings.userSettings st1))).
Proof.
  intros Hfin st1 st2. subst st2 st1. unfold Settings.postSettings.
  match goal with
  | |- context [ Settings.applyThreads cores ?us ?q ] =>
      assert (Hfin0 : Num.isFinite (Settings.maxThreads us) = true);
      [| destruct (applyThreads_spec cores us q) as (Hq & _ & Ha & Hm);
         destruct (Settings.applyThreads cores us q) as [[us1 q1] started1] eqn:E1;
         set (us0 := us) in * ]
  end.
  { destruct (Settings.r_autoDetectThreads req), (Settings.r_maxThreads req) as [n|]; simpl;
      try exact Hfin;
      (destruct (Num.lt 0 n) eqn:En; simpl; [|exact Hfin]);
      (apply clamp_finite; intros ->; discriminate En). }
  simpl in Hq, Ha, Hm. simpl.
  unfold Settings.loadUserSettings. simpl.
  assert (Hor : Settings.autoDetectThreads us0 = false ->
                Queue.clamp (Settings.orOne (Settings.written (Settings.maxThreads us1)))
                = Queue.clamp (Settings.maxThreads us1)).
  { intros Hman. apply written_back. rewrite Hm, Hman. exact Hfin0. }
  match goal with
  | |- context [ Settings.applyThreads cores ?us ?q ] =>
      destruct (applyThreads_spec cores us q) as (Hq' & Hs' & Ha' & Hm');
      destruct (Settings.applyThreads cores us q) as [[us2 q2] started2] eqn:E2
  end.
  simpl in Hq', Hs', Ha', Hm'. simpl.
  assert (Hn : Queue.clamp (if Settings.autoDetectThreads us1 then Num.ofZ (cores * 2)
                            else Queue.clamp (Settings.orOne
                                                (Settings.written (Settings.maxThreads us1))))
               = Queue.clamp (if Settings.autoDetectThreads us0 then Num.ofZ (cores * 2)
                              else Settings.maxThreads us0)).
  { rewrite Ha. destruct (Settings.autoDetectThreads us0) eqn:Ea; [reflexivity|].
    rewrite (Hor eq_refl), clamp_clamp. by rewrite Hm. }
  rewrite Hq in Hq', Hs'.
  rewrite (setMaxConcurrent_again _ _ _ Hn) in Hq', Hs'. simpl in Hq', Hs'.
  rewrite Hq', Hs', Ha', Hm', Hq.
  repeat split; try reflexivity.
  rewrite Ha. destruct (Settings.autoDetectThreads us0) eqn:Ea; [by rewrite Hm | by apply Hor].
Qed.

(** The theorem at the start of the server on a machine with four cores,
    when the panel posts twelve threads in manual mode. *)
Lemma saved_settings_load_back_witness :
  let st := Settings.boot (Task:=unit) 4 Settings.Missing in
  let st1 := (Settings.postSettings 4 manualTwelve Settings.Written st).1 in
  let st2 := (Settings.loadUserSettings 4 Settings.Written st1).1 in
  Queue.maxConcurrent (Settings.processQueue st1) = 12 /\
  Settings.processQueue st2 = Settings.processQueue st1 /\
  Settings.maxThreads (Settings.userSettings st2) = 12.
Proof.
  destruct (saved_settings_load_back (Task:=unit) 4 manualTwelve Settings.Written
              (Settings.boot 4 Settings.Missing)) as (H1 & _ & _ & _ & H5);
    [reflexivity|].
  split; [vm_compute; reflexivity|]. split; [exact H1|].
  rewrite H5. vm_compute. reflexivity.
Defined.

(** X10.  The first start: when there is no settings file, loading the settings
    puts the server in manual mode with one thread, whatever the number of
    cores, sets the ceiling of the queue to one and writes just that to
    the file; loading the settings again changes nothing. *)
Theorem first_start_is_single_threaded {Task : Type} (cores : Z)
    (o : Settings.WriteOutcome) (st : Settings.State Task) :
  Settings.file st = Settings.Missing ->
  let st1 := (Settings.loadUserSettings cores Settings.Written st).1 in
  Settings.userSettings st1
    = {| Settings.maxThreads := 1; Settings.autoDetectThreads := false |} /\
  Queue.maxConcurrent (Settings.processQueue st1) = 1 /\
  Settings.file st1
    = Settings.Json (Some {| Settings.t_autoDetectThreads := false;
                             Settings.t_maxThreads := Some (Num.ofZ 1) |}) /\
  Settings.loadUserSettings cores o st1 = (st1, []).
Proof.
  intros Hf.
  assert (E1 : Settings.loadUserSettings cores Settings.Written st
               = ({| Settings.userSettings :=
                       {| Settings.maxThreads := 1; Settings.autoDetectThreads := false |};
                     Settings.processQueue :=
                       (Queue.setMaxConcurrent 1 (Settings.processQueue st)).1;
                     Settings.file :=
                       Settings.Json (Some {| Settings.t_autoDetectThreads := false;
                                              Settings.t_maxThreads := Some (Num.ofZ 1) |}) |},
                  (Queue.setMaxConcurrent 1 (Settings.processQueue st)).2)).
  { unfold Settings.loadUserSettings. rewrite Hf.
    by destruct (Queue.setMaxConcurrent 1 (Settings.processQueue st)). }
  intros st1. subst st1. rewrite E1. simpl.
  split; [reflexivity|]. split; [apply setMaxConcurrent_ceiling|]. split; [reflexivity|].
  unfold Settings.loadUserSettings. simpl. unfold Settings.applyThreads. simpl.
  change (Queue.clamp 1) with (Num.ofZ 1).
  by rewrite (setMaxConcurrent_again 1 1 (Settings.processQueue st) eq_refl).
Qed.

(** The theorem at the start of the server on a machine with four cores. *)
Lemma first_start_is_single_threaded_witness :
  let st1 := (Settings.loadUserSettings 4 Settings.Written
                (Settings.boot (Task:=unit) 4 Settings.Missing)).1 in
  Settings.userSettings st1
    = {| Settings.maxThreads := 1; Settings.autoDetectThreads := false |} /\
  Queue.maxConcurrent (Settings.processQueue st1) = 1 /\
  Settings.file st1
    = Settings.Json (Some {| Settings.t_autoDetectThreads := false;
                             Settings.t_maxThreads := Some (Num.ofZ 1) |}) /\
  Settings.loadUserSettings 4 Settings.Written st1 = (st1, []).
Proof.
  apply (first_start_is_single_threaded 4 Settings.Written
           (Settings.boot (Task:=unit) 4 Settings.Missing)).
  reflexivity.
Defined.

(** X21.  A settings file in manual mode whose [maxThreads] is no number
    stops the queue: loading it makes [userSettings.maxThreads] and the
    ceiling of the queue [NaN] and starts nothing, whatever is queued;
    under that ceiling a task that is added only joins the queue; and
    forcing the settings on the queue, as the start of a conversion does,
    changes nothing. *)
Theorem non_numeric_threads_stop_the_queue {Task : Type} (cores : Z)
    (o : Settings.WriteOutcome) (st : Settings.State Task) (item : Queue.QueueItem Task) :
  Settings.file st
    = Settings.Json (Some {| Settings.t_autoDetectThreads := false;
                             Settings.t_maxThreads := Some Num.NaN |}) ->
  let st1 := (Settings.loadUserSettings cores o st).1 in
  let q1 := Settings.processQueue st1 in
  Settings.maxThreads (Settings.userSettings st1) = Num.NaN /\
  Queue.maxConcurrent q1 = Num.NaN /\
  Queue.running q1 = Queue.running (Settings.processQueue st) /\
  Queue.queue q1 = Queue.queue (Settings.processQueue st) /\
  (Settings.loadUserSettings cores o st).2 = [] /\
  Queue.add item q1
    = ({| Queue.maxConcurrent := Num.NaN; Queue.running := Queue.running q1;
          Queue.queue := Queue.queue q1 ++ [item] |}, []) /\
  Settings.forceThreads cores o st1 = (st1, []).
Proof.
  intros Hf. destruct st as [us q f]. simpl in Hf. subst f.
  assert (Hs : forall p : Queue.ProcessQueue Task,
            Queue.setMaxConcurrent Num.NaN p
            = ({| Queue.maxConcurrent := Num.NaN; Queue.running := Queue.running p;
                  Queue.queue := Queue.queue p |}, [])).
  { intros p. unfold Queue.setMaxConcurrent.
    change (Queue.clamp Num.NaN) with Num.NaN. by rewrite processQueue_NaN. }
  assert (E1 : forall us0 (p : Queue.ProcessQueue Task),
            Settings.loadUserSettings cores o
              {| Settings.userSettings := us0; Settings.processQueue := p;
                 Settings.file := Settings.Json
                   (Some {| Settings.t_autoDetectThreads := false;
                            Settings.t_maxThreads := Some Num.NaN |}) |}
            = ({| Settings.userSettings :=
                    {| Settings.maxThreads := Num.NaN; Settings.autoDetectThreads := false |};
                  Settings.processQueue :=
                    {| Queue.maxConcurrent := Num.NaN; Queue.running := Queue.running p;
                       Queue.queue := Queue.queue p |};
                  Settings.file := Settings.Json
                    (Some {| Settings.t_autoDetectThreads := false;
                             Settings.t_maxThreads := Some Num.NaN |}) |}, [])).
  { intros us0 p. unfold Settings.loadUserSettings, Settings.applyThreads. simpl.
    change (Queue.clamp Num.NaN) with Num.NaN. by rewrite Hs. }
  intros st1 q1. subst q1 st1. rewrite E1. simpl.
  repeat (split; [reflexivity|]). split.
  - unfold Queue.add. by rewrite processQueue_NaN.
  - unfold Settings.forceThreads.
    rewrite (surjective_pairing (Settings.loadUserSettings (Task:=Task) _ _ _)), E1. simpl.
    rewrite (surjective_pairing (Queue.setMaxConcurrent _ _)), Hs. reflexivity.
Qed.

(** The theorem on a machine with four cores whose settings file holds
    [maxThreads: 'abc'], while two tasks are queued. *)
Lemma non_numeric_threads_stop_the_queue_witness :
  let st := {| Settings.userSettings :=
                 Settings.userSettings (Settings.boot (Task:=unit) 4 nonNumericFile);
               Settings.processQueue :=
                 {| Queue.maxConcurrent := 8; Queue.running := ∅;
                    Queue.queue := [anItem "a"; anItem "b"] |};
               Settings.file := nonNumericFile |} in
  let st1 := (Settings.loadUserSettings 4 Settings.Written st).1 in
  Queue.maxConcurrent (Settings.processQueue st1) = Num.NaN /\
  Queue.queue (Settings.processQueue st1) = [anItem "a"; anItem "b"] /\
  (Settings.loadUserSettings 4 Settings.Written st).2 = [] /\
  Settings.forceThreads 4 Settings.Written st1 = (st1, []).
Proof.
  intros st st1.
  destruct (non_numeric_threads_stop_the_queue 4 Settings.Written st (anItem "c"))
    as (_ & H2 & _ & H4 & H5 & _ & H7); [reflexivity|].
  split; [exact H2|]. split; [exact H4|]. split; [exact H5 | exact H7].
Defined.

(* ===================================================================== *)
(** * The port the server listens on                                     *)
(* ===================================================================== *)

Section PortFacts.
Import Ports.

Lemma findFrom_resolved (listen : Z -> ListenOutcome) (remaining : nat) :
  forall port p,
    findFrom remaining port listen = Resolved p <->
    port <= p < port + Z.of_nat remaining /\ listen p = Listening /\
    forall q, port <= q < p -> listen q = AddrInUse.
Proof.
  induction remaining as [|r IH]; intros port p; cbn [findFrom].
  - split; [discriminate | lia].
  - destruct (listen port) eqn:E.
    + split.
      * intros H; inversion H; subst.
        split; [lia|]. split; [exact E|]. intros q Hq; lia.
      * intros (Hp & Hl & Hq). f_equal.
        destruct (decide (port = p)) as [|Hne]; [done|].
        assert (listen port = AddrInUse) by (apply Hq; lia). congruence.
    + rewrite IH. split.
      * intros (Hp & Hl & Hq). split; [lia|]. split; [exact Hl|].
        intros q Hq'. destruct (decide (q = port)) as [->|]; [exact E | apply Hq; lia].
      * intros (Hp & Hl & Hq).
        assert (port <> p) by (intros ->; congruence).
        split; [lia|]. split; [exact Hl|]. intros q Hq'. apply Hq. lia.
    + split; [discriminate|].
      intros (Hp & Hl & Hq).
      destruct (decide (port = p)) as [->|Hne]; [congruence|].
      assert (listen port = AddrInUse) by (apply Hq; lia). congruence.
Qed.

End PortFacts.

(** X11.  [findAvailablePort] finds the first free port: started at a port in
    1..65535, it resolves with [p] exactly when the server could listen on
    [p], [p] is at or after the start and at most 65535, and every port
    from the start up to [p] was in use. *)
Theorem findAvailablePort_finds_the_first_free_port (startPort p : Z)
    (listen : Z -> Ports.ListenOutcome) :
  1 <= startPort <= 65535 ->
  Ports.findAvailablePort startPort listen = Ports.Resolved p <->
  startPort <= p <= 65535 /\ listen p = Ports.Listening /\
  forall q, startPort <= q < p -> listen q = Ports.AddrInUse.
Proof.
  intros Hs. unfold Ports.findAvailablePort. rewrite findFrom_resolved.
  rewrite Z2Nat.id by lia.
  split; intros (H1 & H2 & H3); (split; [lia|]); (split; [exact H2 | exact H3]).
Qed.

(** The theorem when ports 3000 and 3001 are taken. *)
Lemma findAvailablePort_finds_the_first_free_port_witness :
  Ports.findAvailablePort 3000 twoPortsTaken = Ports.Resolved 3002.
Proof.
  apply (findAvailablePort_finds_the_first_free_port 3000 3002 twoPortsTaken); [lia|].
  split; [lia|]. split; [reflexivity|].
  intros q Hq. unfold twoPortsTaken. destruct (Z.ltb_spec q 3002); [reflexivity | lia].
Defined.

(* ===================================================================== *)
(** * What matches and replacements are made of                          *)
(* ===================================================================== *)

Section MatcherFacts.
Import Js Regex Text.

Context (P : N -> bool).

Lemma only_True (ic : bool) (r : re) : only (fun _ => True) ic r.
Proof. induction r; simpl; auto. Qed.

Section WithC.

Context (C : N -> Prop).

Lemma entered_here (k : K) (st e0 : MState) : k st = Some e0 -> entered C P k st e0.
Proof. intros H. exists st, []. auto. Qed.

Lemma entered_advance (k : K) (st e0 : MState) (x : N) (rest : str) :
  after st = x :: rest -> C x -> k (advance st) = Some e0 -> entered C P k st e0.
Proof.
  intros E Hx H. exists (advance st), [x].
  unfold advance in *. rewrite E in *. simpl.
  split; [exact H|]. split; [reflexivity|]. split; [by constructor|].
  intros [H1 H2]. rewrite E in H1. split; [by inversion H1 | exact H2].
Qed.

(** Entering a continuation that enters another one. *)
Lemma entered_trans (k k' : K) (st e0 : MState) :
  entered C P k' st e0 ->
  (forall st', k' st' = Some e0 -> entered C P k st' e0) ->
  entered C P k st e0.
Proof.
  intros (st1 & w1 & H1 & E1 & Hw1 & Hc1) Hk.
  destruct (Hk st1 H1) as (st2 & w2 & H2 & E2 & Hw2 & Hc2).
  exists st2, (w1 ++ w2). split; [exact H2|]. split.
  - by rewrite E1, E2, app_assoc.
  - split; [by apply Forall_app | auto].
Qed.

Lemma clean_clearCaps (gs : list nat) (st : MState) : clean P st -> clean P (clearCaps gs st).
Proof.
  intros [H1 H2]. split; [exact H1|]. simpl.
  induction H2 as [|p l Hp _ IH]; simpl; [constructor|].
  rewrite filter_cons. destruct (decide _); [by constructor | exact IH].
Qed.

Lemma entered_clearCaps (gs : list nat) (k : K) (st e0 : MState) :
  entered C P k (clearCaps gs st) e0 -> entered C P k st e0.
Proof.
  intros (st' & w & H & E & Hw & Hc). exists st', w.
  repeat split; auto; apply Hc; by apply clean_clearCaps.
Qed.

Lemma rep_entered (ma : K -> K) (gs : list nat) :
  (forall k st e0, ma k st = Some e0 -> entered C P k st e0) ->
  forall fuel min max greedy k st e0,
    rep ma gs fuel min max greedy k st = Some e0 -> entered C P k st e0.
Proof.
  intros Hma. induction fuel as [|fuel IH]; intros min max greedy k st e0 H; simpl in H.
  { discriminate. }
  assert (Hbody : forall d : K,
            (forall st', d st' = Some e0 -> entered C P k st' e0) ->
            ma d (clearCaps gs st) = Some e0 -> entered C P k st e0).
  { intros d Hd Hm. apply entered_clearCaps with (gs := gs).
    eapply entered_trans; [by apply Hma|]. exact Hd. }
  assert (Hd : forall st',
            (if (min =? 0)%nat && (length (after st') =? length (after st))%nat then None
             else rep ma gs fuel (Nat.pred min) (Nat.pred <$> max) greedy k st') = Some e0 ->
            entered C P k st' e0).
  { intros st' H'. destruct (_ && _); [discriminate|]. by apply IH in H'. }
  destruct max as [[|mx]|].
  - by apply entered_here.
  - destruct (0 <? min)%nat; [eapply Hbody; [|exact H]; exact Hd|].
    destruct greedy.
    + destruct (ma _ _) as [e1|] eqn:E1.
      * inversion H; subst. eapply Hbody; [|exact E1]; exact Hd.
      * by apply entered_here.
    + destruct (k st) as [e1|] eqn:E1.
      * inversion H; subst. by apply entered_here.
      * eapply Hbody; [|exact H]; exact Hd.
  - destruct (0 <? min)%nat; [eapply Hbody; [|exact H]; exact Hd|].
    destruct greedy.
    + destruct (ma _ _) as [e1|] eqn:E1.
      * inversion H; subst. eapply Hbody; [|exact E1]; exact Hd.
      * by apply entered_here.
    + destruct (k st) as [e1|] eqn:E1.
      * inversion H; subst. by apply entered_here.
      * eapply Hbody; [|exact H]; exact Hd.
Qed.

End WithC.

(** A match succeeds only through its continuation. *)
Lemma m_entered (ic : bool) (r : re) :
  forall C, only C ic r ->
  forall k st e0, m ic r k st = Some e0 -> entered C P k st e0.
Proof.
  induction r as [ | c | negated items | a IHa b IHb | a IHa b IHb
                 | min max greedy a IHa | n a IHa | a IHa | a IHa
                 | negated items | | | ];
    cbn [only m]; intros C Ho k st e0 H.
  - by apply entered_here.
  - destruct (after st) as [|x rest] eqn:E; [discriminate|].
    destruct (if ic then _ else _) eqn:Ex; [|discriminate].
    eapply entered_advance; eauto.
  - destruct (after st) as [|x rest] eqn:E; [discriminate|].
    destruct (inCls _ _ _ _) eqn:Ex; [|discriminate].
    eapply entered_advance; eauto.
  - destruct Ho as [Ha Hb].
    eapply entered_trans; [by apply (IHa C Ha) in H|].
    intros st' H'. by apply (IHb C Hb).
  - destruct Ho as [Ha Hb].
    destruct (m ic a k st) as [e1|] eqn:E1.
    + inversion H; subst. by apply (IHa C Ha).
    + by apply (IHb C Hb).
  - eapply rep_entered; [|exact H]. intros k' st' e1. by apply IHa.
  - apply (IHa C Ho) in H as (st' & w & H & E & Hw & Hc).
    exists (setCap n (consumed st st') st'), w.
    split; [exact H|]. split; [exact E|]. split; [exact Hw|].
    intros Hst. destruct (Hc Hst) as [H1 H2]. split; [exact H1|].
    simpl. constructor; [|exact H2]. simpl.
    unfold consumed. apply Forall_take. by destruct Hst.
  - destruct (m ic a Some st) as [e1|] eqn:E1; [|discriminate].
    exists {| before := before st; after := after st; caps := caps e1 |}, [].
    split; [exact H|]. split; [reflexivity|]. split; [constructor|].
    intros Hst. split; [by destruct Hst|]. simpl.
    destruct (IHa (fun _ => True) (only_True ic a) Some st e1 E1)
      as (st' & w & H' & _ & _ & Hc).
    inversion H'; subst. by destruct (Hc Hst).
  - destruct (m ic a Some st); [discriminate|]. by apply entered_here.
  - destruct (before st); [discriminate|].
    destruct (inCls _ _ _ _); [|discriminate]. by apply entered_here.
  - destruct (before st); [|discriminate]. by apply entered_here.
  - destruct (after st); [|discriminate]. by apply entered_here.
  - destruct (xorb _ _); [|discriminate]. by apply entered_here.
Qed.

End MatcherFacts.

Section ReplaceFacts.
Import Js Regex Text.

Lemma rewrites_keeps (C : N -> Prop) (G : str -> Prop) (pre s t : str) :
  rewrites C G s t -> rewrites C G (pre ++ s) (pre ++ t).
Proof. intros H. induction pre as [|c pre IH]; [exact H|]. simpl. by constructor. Qed.

(** What a match at a position is made of. *)
Lemma matchAt_spec (C : N -> Prop) (P : N -> bool) (p : RegExp) (bef aft : str)
    (mt : Match) (e : MState) :
  only C (ignoreCase p) (source p) ->
  matchAt p bef aft = Some (mt, e) ->
  aft = matched mt ++ after e /\ Forall C (matched mt) /\
  index mt = length bef /\ endIndex mt = (length bef + length (matched mt))%nat /\
  (free P aft -> cleanMatch P mt /\ free P (after e)).
Proof.
  intros Ho H. unfold matchAt in H.
  destruct (m _ _ _ _) as [e1|] eqn:E; [|discriminate].
  inversion H; subst; clear H.
  apply (m_entered P _ _ C Ho) in E as (st' & w & H' & Ew & Hw & Hc).
  inversion H'; subst; clear H'. simpl in Ew.
  assert (Hm : consumed {| before := bef; after := aft; caps := [] |} e = w).
  { unfold consumed. simpl. rewrite Ew, length_app.
    replace (length w + length (after e) - length (after e))%nat with (length w) by lia.
    by rewrite take_app_length. }
  simpl. rewrite Hm.
  split; [exact Ew|]. split; [exact Hw|]. split; [reflexivity|]. split.
  - rewrite Ew at 1. rewrite length_app. lia.
  - intros Hf. destruct Hc as [H1 H2]; [split; [exact Hf | constructor]|].
    split; [|exact H1]. split; [|exact H2].
    rewrite Ew in Hf. by apply Forall_app in Hf as [Hf _].
Qed.

(** What the leftmost match is made of. *)
Lemma search_spec (C : N -> Prop) (P : N -> bool) (p : RegExp) :
  only C (ignoreCase p) (source p) ->
  forall aft bef fd,
    search p bef aft = Some fd ->
    aft = skipped fd ++ matched (found fd) ++ restAfter fd /\
    Forall C (matched (found fd)) /\
    index (found fd) = (length bef + length (skipped fd))%nat /\
    endIndex (found fd) = (index (found fd) + length (matched (found fd)))%nat /\
    (free P aft -> cleanMatch P (found fd) /\ free P (restAfter fd)).
Proof.
  intros Ho. induction aft as [|c rest IH]; intros bef fd H; cbn [search] in H.
  - destruct (matchAt p bef []) as [[mt e]|] eqn:E; [|discriminate].
    inversion H; subst; clear H. simpl.
    apply (matchAt_spec C P) in E as (H1 & H2 & H3 & H4 & H5); [|exact Ho].
    repeat split; auto; try lia; by apply H5.
  - destruct (matchAt p bef (c :: rest)) as [[mt e]|] eqn:E.
    + inversion H; subst; clear H. simpl.
      apply (matchAt_spec C P) in E as (H1 & H2 & H3 & H4 & H5); [|exact Ho].
      repeat split; auto; try lia; by apply H5.
    + destruct (search p (c :: bef) rest) as [fd1|] eqn:E1; [|discriminate].
      inversion H; subst; clear H. simpl.
      apply IH in E1 as (H1 & H2 & H3 & H4 & H5).
      split; [by rewrite H1 at 1|]. split; [exact H2|].
      split; [simpl in H3; lia|]. split; [exact H4|].
      intros Hf. apply H5. by inversion Hf.
Qed.

(** A replacement with the [g] flag rewrites what the pattern matches. *)
Lemma replaceFold_rewrites {A} (C : N -> Prop) (G : str -> Prop) (p : RegExp)
    (f : A -> Match -> A * str) :
  only C (ignoreCase p) (source p) ->
  (forall acc mt, Forall C (matched mt) -> G (f acc mt).2) ->
  forall fuel acc bef aft, rewrites C G aft (replaceFold fuel p f acc bef aft).2.
Proof.
  intros Ho Hf. induction fuel as [|fuel IH]; intros acc bef aft; cbn [replaceFold].
  { constructor. }
  destruct (search p bef aft) as [fd|] eqn:E; [|constructor].
  apply (search_spec C (fun _ => false) p Ho) in E as (H1 & H2 & _).
  pose proof (Hf acc (found fd) H2) as Hout.
  destruct (f acc (found fd)) as [acc1 out]. simpl in Hout.
  rewrite H1 at 1. 
  destruct (matched (found fd)) as [|x xs] eqn:Em.
  - destruct (restAfter fd) as [|c rest] eqn:Er.
    + apply rewrites_keeps.
      exact (rewrites_put C G [] out [] [] H2 Hout (rewrites_done C G [])).
    + specialize (IH acc1 (c :: restBefore fd) rest).
      destruct (replaceFold fuel p f acc1 (c :: restBefore fd) rest) as [a t].
      simpl in *. apply rewrites_keeps.
      exact (rewrites_put C G [] out (c :: rest) (c :: t) H2 Hout
               (rewrites_keep C G c rest t IH)).
  - specialize (IH acc1 (restBefore fd) (restAfter fd)).
    destruct (replaceFold fuel p f acc1 (restBefore fd) (restAfter fd)) as [a t].
    simpl in *. apply rewrites_keeps.
    apply (rewrites_put C G (x :: xs)); [exact H2 | exact Hout | exact IH].
Qed.

(** A replacement brings no character of [P] into a text that has none,
    when what it puts in is made of the match, of its captures and of
    text without one. *)
Lemma replaceFold_free {A} (P : N -> bool) (p : RegExp) (f : A -> Match -> A * str) :
  (forall acc mt, cleanMatch P mt -> free P (f acc mt).2) ->
  forall fuel acc bef aft,
    free P aft -> free P (replaceFold fuel p f acc bef aft).2.
Proof.
  intros Hf. induction fuel as [|fuel IH]; intros acc bef aft Haft; cbn [replaceFold].
  { exact Haft. }
  destruct (search p bef aft) as [fd|] eqn:E; [|exact Haft].
  apply (search_spec (fun _ => True) P p (only_True _ _)) in E as (H1 & _ & _ & _ & H5).
  destruct (H5 Haft) as [Hm Hr].
  pose proof (Hf acc (found fd) Hm) as Hout.
  destruct (f acc (found fd)) as [acc1 out]. simpl in Hout.
  assert (Hsk : free P (skipped fd)).
  { rewrite H1 in Haft. by apply Forall_app in Haft as [Haft _]. }
  destruct (matched (found fd)) as [|x xs] eqn:Em.
  - destruct (restAfter fd) as [|c rest] eqn:Er.
    + simpl. unfold free. rewrite !Forall_app. auto.
    + specialize (IH acc1 (c :: restBefore fd) rest).
      destruct (replaceFold fuel p f acc1 (c :: restBefore fd) rest) as [a t].
      simpl in *. unfold free in *. rewrite !Forall_app. split; [exact Hsk|].
      split; [exact Hout|]. inversion Hr; subst. constructor; [done | by apply IH].
  - specialize (IH acc1 (restBefore fd) (restAfter fd) Hr).
    destruct (replaceFold fuel p f acc1 (restBefore fd) (restAfter fd)) as [a t].
    simpl in *. unfold free in *. rewrite !Forall_app. auto.
Qed.

Lemma capture_free (P : N -> bool) (n : nat) (mt : Match) :
  cleanMatch P mt -> free P (capture n mt).
Proof.
  intros [_ H]. unfold capture.
  destruct (list_find _ _) as [[i [k s]]|] eqn:E; [|constructor].
  apply list_find_Some in E as (E & _).
  apply list_elem_of_lookup_2 in E.
  rewrite Forall_forall in H. by apply (H _ E).
Qed.

Lemma replaceAll_free (P : N -> bool) (p : RegExp) (f : Match -> str) (s : str) :
  (forall mt, cleanMatch P mt -> free P (f mt)) ->
  free P s -> free P (replaceAll p f s).
Proof.
  intros Hf Hs. unfold replaceAll.
  apply (replaceFold_free P p (fun _ mt => (tt, f mt))); [|exact Hs].
  intros acc mt. apply Hf.
Qed.

Lemma replaceAll_rewrites (C : N -> Prop) (G : str -> Prop) (p : RegExp)
    (f : Match -> str) (s : str) :
  only C (ignoreCase p) (source p) ->
  (forall mt, Forall C (matched mt) -> G (f mt)) ->
  rewrites C G s (replaceAll p f s).
Proof.
  intros Ho Hf. unfold replaceAll.
  apply (replaceFold_rewrites C G p (fun _ mt => (tt, f mt)) Ho). intros _ mt. apply Hf.
Qed.

(** Rewriting to nothing only removes text. *)
Lemma rewrites_sublist (C : N -> Prop) (s t : str) :
  rewrites C (fun out => out = []) s t -> sublist t s.
Proof.
  induction 1 as [s | c s t _ IH | w out s t _ -> _ IH].
  - reflexivity.
  - by apply sublist_skip.
  - simpl. by apply sublist_inserts_l.
Qed.

(** Rewriting white space to white space keeps the other characters. *)
Lemma rewrites_nonspace (s t : str) :
  rewrites (fun c => isSpace c = true) (Forall (fun c => isSpace c = true)) s t ->
  filter (fun c => isSpace c = false) t = filter (fun c => isSpace c = false) s.
Proof.
  assert (Hnone : forall w, Forall (fun c => isSpace c = true) w ->
                            filter (fun c => isSpace c = false) w = []).
  { induction 1 as [|c w Hc _ IH]; [reflexivity|].
    rewrite filter_cons. destruct (decide _); [congruence | exact IH]. }
  induction 1 as [s | c s t _ IH | w out s t Hw Hout _ IH].
  - reflexivity.
  - unfold str in *. rewrite !filter_cons. destruct (decide _); by rewrite IH.
  - unfold str in *. by rewrite !filter_app, IH, (Hnone _ Hw), (Hnone _ Hout).
Qed.

End ReplaceFacts.

(* ===================================================================== *)
(** * The normaliser on canonical text                                   *)
(* ===================================================================== *)

(** A text on which no rule of [normalizeTextForTTS] has anything to do is
    returned as it is.  The rules are taken one by one; only the rule that
    removes white space before a mark changes such a text, where a space
    stands between a closing mark and [¿] or [¡], and the next rule puts
    that space back. *)

Section CanonicalFacts.
Import Js Regex Text.

(** ** Replacements that change nothing *)

(** The leftmost match is a match at the position it is found at. *)
Lemma search_found (p : RegExp) :
  forall aft bef fd,
    search p bef aft = Some fd ->
    exists bef' e,
      matchAt p bef' (matched (found fd) ++ restAfter fd) = Some (found fd, e) /\
      aft = skipped fd ++ matched (found fd) ++ restAfter fd.
Proof.
  induction aft as [|c rest IH]; intros bef fd H; cbn [search] in H.
  - destruct (matchAt p bef []) as [[mt e]|] eqn:E; [|discriminate].
    inversion H; subst; clear H. cbn [found skipped restAfter].
    destruct (matchAt_spec (fun _ => True) (fun _ => false) p _ _ _ _ (only_True _ _) E)
      as (H1 & _).
    exists bef, e. rewrite <- H1. by split.
  - destruct (matchAt p bef (c :: rest)) as [[mt e]|] eqn:E.
    + inversion H; subst; clear H. cbn [found skipped restAfter].
      destruct (matchAt_spec (fun _ => True) (fun _ => false) p _ _ _ _ (only_True _ _) E)
        as (H1 & _).
      exists bef, e. rewrite <- H1. by split.
    + destruct (search p (c :: bef) rest) as [fd1|] eqn:E1; [|discriminate].
      inversion H; subst; clear H. cbn [found skipped restAfter].
      destruct (IH _ _ E1) as (bef' & e & H1 & H2).
      exists bef', e. split; [exact H1|]. by rewrite H2 at 1.
Qed.

(** A replacement that puts every match back as it found it changes
    nothing. *)
Lemma replaceFold_fixed (p : RegExp) (f : Match -> str) :
  forall fuel bef aft,
    (forall bef' aft' mt e,
       aft' `suffix_of` aft -> matchAt p bef' aft' = Some (mt, e) -> f mt = matched mt) ->
    (replaceFold fuel p (fun _ mt => (tt, f mt)) tt bef aft).2 = aft.
Proof.
  induction fuel as [|fuel IH]; intros bef aft Hf; cbn [replaceFold]; [reflexivity|].
  destruct (search p bef aft) as [fd|] eqn:E; [|reflexivity].
  destruct (search_found p _ _ _ E) as (bef' & e & Hm & Haft).
  assert (Hsuf : (matched (found fd) ++ restAfter fd) `suffix_of` aft).
  { exists (skipped fd). exact Haft. }
  pose proof (Hf _ _ _ _ Hsuf Hm) as Hout.
  assert (Hrest : forall bef1 rest1, rest1 `suffix_of` restAfter fd ->
            (replaceFold fuel p (fun _ mt => (tt, f mt)) tt bef1 rest1).2 = rest1).
  { intros bef1 rest1 Hs. apply IH. intros bef2 aft2 mt2 e2 Hs2. apply Hf.
    etrans; [exact Hs2|]. etrans; [exact Hs|].
    exists (skipped fd ++ matched (found fd)). by rewrite <- app_assoc. }
  destruct (matched (found fd)) as [|x xs] eqn:Em.
  - destruct (restAfter fd) as [|c rest] eqn:Er.
    + cbn. rewrite Hout, Haft. reflexivity.
    + pose proof (Hrest (c :: restBefore fd) rest (suffix_cons_r _ _ _ (reflexivity _))) as Ht.
      destruct (replaceFold fuel _ _ _ _ _) as [a t]. cbn in Ht |- *.
      by rewrite Hout, Ht, Haft.
  - pose proof (Hrest (restBefore fd) (restAfter fd) (reflexivity _)) as Ht.
    destruct (replaceFold fuel _ _ _ _ _) as [a t]. cbn in Ht |- *.
    by rewrite Hout, Ht, Haft.
Qed.

Lemma replaceAll_fixed (p : RegExp) (f : Match -> str) (s : str) :
  (forall bef aft mt e,
     aft `suffix_of` s -> matchAt p bef aft = Some (mt, e) -> f mt = matched mt) ->
  replaceAll p f s = s.
Proof. intros H. unfold replaceAll. by apply replaceFold_fixed. Qed.

(** A pattern that matches nowhere in the text. *)
Lemma replaceAll_nowhere (p : RegExp) (f : Match -> str) (s : str) :
  (forall bef aft, aft `suffix_of` s -> matchAt p bef aft = None) ->
  replaceAll p f s = s.
Proof.
  intros H. apply replaceAll_fixed. intros bef aft mt e Hs Hm.
  rewrite (H bef aft Hs) in Hm. discriminate.
Qed.

(** ** What a canonical text is made of *)

Lemma everywhere_quiet (s : str) : everywhere quietAt s = true -> quiet s.
Proof.
  induction s as [|c s IH]; intros H aft Hs.
  - apply suffix_nil_inv in Hs as ->. reflexivity.
  - cbn [everywhere] in H. apply andb_true_iff in H as [H1 H2].
    destruct aft as [|x aft]; [reflexivity|].
    apply suffix_cons_inv in Hs as [Hs | Hs]; [by rewrite Hs | by apply IH].
Qed.

Lemma canonical_quiet (s : str) :
  canonical s = true -> headIs isSpace s = false /\ quiet s.
Proof.
  unfold canonical. intros H. apply andb_true_iff in H as [H1 H2].
  split; [by apply negb_true_iff | by apply everywhere_quiet].
Qed.

Lemma quiet_suffix (s aft : str) : quiet s -> aft `suffix_of` s -> quiet aft.
Proof. intros H Hs aft' Hs'. apply H. by etrans. Qed.

Lemma quiet_tail (c : N) (s : str) : quiet (c :: s) -> quiet s.
Proof. intros H. apply (quiet_suffix _ _ H). by apply suffix_cons_r. Qed.

Lemma quiet_here (s : str) : quiet s -> quietAt s = true.
Proof. intros H. by apply H. Qed.

(** The clauses of [quietAt], one by one. *)
Lemma quietAt_cons (c : N) (rest : str) :
  quietAt (c :: rest) = true ->
  replaced c = false /\
  (isSpace c = true ->
   c = 32%N /\ headIs isSpace rest = false /\ headIs (among ".!?,;:") rest = false /\
   rest <> []) /\
  (forall s0 o r, rest = s0 :: o :: r -> isSpace s0 = true -> among "¿¡" o = true ->
                  among ".!?" c = true) /\
  (c = 191%N ->
   headIs (N.eqb 161) rest = false /\ headIs isSpace rest = false /\ untilMark 63 rest = true) /\
  (c = 161%N ->
   headIs (N.eqb 191) rest = false /\ headIs isSpace rest = false /\ untilMark 33 rest = true) /\
  (among "!?" c = true -> headIs (among "!?") rest = false) /\
  (c = 46%N -> headIs (N.eqb 46) rest = false) /\
  (among ".!?" c = true -> headIs isUpper rest = false /\ headIs (among "¿¡") rest = false) /\
  (among ",:;" c = true -> headIs isUpper rest = false) /\
  (c = 58%N -> rest <> [] /\ headIs isUpper (trimStart rest) = false).
Proof.
  intros H. cbn [quietAt] in H.
  repeat (apply andb_true_iff in H as [H ?]).
  apply negb_true_iff in H.
  split; [exact H|].
  split.
  { intros Hc. rewrite Hc in *.
    repeat match goal with
           | H : _ && _ = true |- _ => apply andb_true_iff in H as [? ?]
           end.
    repeat match goal with
           | H : negb _ = true |- _ => apply negb_true_iff in H
           end.
    split; [by apply N.eqb_eq|]. split; [done|]. split; [done|].
    intros ->. discriminate. }
  split.
  { intros s0 o r -> Hs Ho.
    match goal with
    | H : (if isSpace s0 && among "¿¡" o then _ else _) = true |- _ =>
        by rewrite Hs, Ho in H
    end. }
  split.
  { intros ->.
    match goal with
    | H : (if (191 =? 191)%N then _ else _) = true |- _ =>
        cbn [N.eqb Pos.eqb] in H;
        apply andb_true_iff in H as [H' ?]; apply andb_true_iff in H' as [? ?]
    end.
    repeat match goal with
           | H : negb _ = true |- _ => apply negb_true_iff in H
           end.
    done. }
  split.
  { intros ->.
    match goal with
    | H : (if (161 =? 161)%N then _ else _) = true |- _ =>
        cbn [N.eqb Pos.eqb] in H;
        apply andb_true_iff in H as [H' ?]; apply andb_true_iff in H' as [? ?]
    end.
    repeat match goal with
           | H : negb _ = true |- _ => apply negb_true_iff in H
           end.
    done. }
  split.
  { intros Hc.
    match goal with
    | H : (if among "!?" c then _ else _) = true |- _ =>
        rewrite Hc in H; by apply negb_true_iff in H
    end. }
  split.
  { intros ->.
    match goal with
    | H : (if (46 =? 46)%N then _ else _) = true |- _ =>
        cbn [N.eqb Pos.eqb] in H; by apply negb_true_iff in H
    end. }
  split.
  { intros Hc.
    match goal with
    | H : (if among ".!?" c then _ else _) = true |- _ =>
        rewrite Hc in H; apply andb_true_iff in H as [? ?]
    end.
    repeat match goal with
           | H : negb _ = true |- _ => apply negb_true_iff in H
           end.
    done. }
  split.
  { intros Hc.
    match goal with
    | H : (if among ",:;" c then _ else _) = true |- _ =>
        rewrite Hc in H; by apply negb_true_iff in H
    end. }
  intros ->.
  match goal with
  | H : (if (58 =? 58)%N then _ else _) = true |- _ =>
      cbn [N.eqb Pos.eqb] in H; apply andb_true_iff in H as [? ?]
  end.
  repeat match goal with
         | H : negb _ = true |- _ => apply negb_true_iff in H
         end.
  split; [intros ->; discriminate | done].
Qed.

Lemma quiet_free (s : str) : quiet s -> free replaced s.
Proof.
  induction s as [|c s IH]; intros H; [constructor|].
  constructor; [|apply IH; by apply quiet_tail with c].
  by destruct (quietAt_cons c s (quiet_here _ H)) as (H1 & _).
Qed.

(** ** The rules on a text where they have nothing to do *)

Lemma needed_quiet (r : re) (f : Match -> str) (s : str) :
  needs replaced r = true -> quiet s -> replaceAll (rx r) f s = s.
Proof. intros Hn Hs. apply (replaceAll_needs replaced); [exact Hn | by apply quiet_free]. Qed.

Lemma consumed_one (bef : str) (c : N) (rest : str) (cs : list (nat * str)) (e : MState) :
  after e = rest ->
  consumed {| before := bef; after := c :: rest; caps := cs |} e = [c].
Proof.
  intros He. unfold consumed. rewrite He. cbn [after length].
  replace (S (length rest) - length rest)%nat with 1%nat by lia. reflexivity.
Qed.

Lemma quotes_quiet (s : str) : quiet s -> quotes s = s.
Proof.
  intros Hy. unfold quotes. apply replaceAll_fixed. intros bef aft mt e Hs Hm.
  unfold matchAt in Hm. cbn [rx source ignoreCase m after] in Hm.
  destruct aft as [|c rest]; [discriminate|].
  destruct (inCls _ _ _ c) eqn:Ec; [|discriminate].
  inversion Hm; subst; clear Hm. cbn [matched].
  rewrite consumed_one by reflexivity.
  destruct (quietAt_cons c rest (Hy _ Hs)) as (Hr & _).
  unfold inCls in Ec. cbn [existsb inItem xorb] in Ec.
  destruct (N.eqb_spec 34 c) as [<-|_]; [reflexivity|].
  destruct (N.eqb_spec 39 c) as [<-|_]; [discriminate Hr | discriminate Ec].
Qed.

(** A pattern of two characters matches where they stand. *)
Lemma matchAt_two (a b : N) (bef aft : str) (mt : Match) (e : MState) :
  matchAt (rx (Seq (Chr a) (Seq (Chr b) Empty))) bef aft = Some (mt, e) ->
  exists r, aft = a :: b :: r.
Proof.
  unfold matchAt. cbn [rx source ignoreCase m after advance]. intros H.
  destruct aft as [|x aft]; [discriminate|].
  destruct (N.eqb_spec x a) as [->|]; [|discriminate].
  cbn [after] in H.
  destruct aft as [|z aft]; [discriminate|]. cbn [m after advance] in H.
  destruct (N.eqb_spec z b) as [->|]; [|discriminate].
  by eexists.
Qed.

Lemma open_quiet (s : str) :
  quiet s -> openQE s = s /\ openEQ s = s /\ closeQE s = s /\ closeEQ s = s.
Proof.
  intros Hy.
  repeat split; apply replaceAll_nowhere; intros bef aft Hs;
    (destruct (matchAt _ bef aft) as [[mt e]|] eqn:E; [exfalso|reflexivity]);
    apply (matchAt_two _ _ bef aft mt e) in E as [r ->];
    destruct (quietAt_cons _ _ (Hy _ Hs)) as (_ & _ & _ & H4 & H5 & H6 & _).
  - by destruct (H4 eq_refl) as (H & _).
  - by destruct (H5 eq_refl) as (H & _).
  - by specialize (H6 eq_refl).
  - by specialize (H6 eq_refl).
Qed.

Lemma m_Seq (ic : bool) (a b : re) (k : K) (st : MState) :
  m ic (Seq a b) k st = m ic a (m ic b k) st.
Proof. reflexivity. Qed.

Lemma m_Repeat (ic : bool) (min : nat) (max : option nat) (greedy : bool) (a : re)
    (k : K) (st : MState) :
  m ic (Repeat min max greedy a) k st
  = rep (m ic a) (groups a) (S (min + length (after st))) min max greedy k st.
Proof. reflexivity. Qed.

(** One round of a loop that still has rounds to make. *)
Lemma rep_min_step (ma : K -> K) (gs : list nat) (fuel min : nat) (max : option nat)
    (greedy : bool) (k : K) (st : MState) :
  max <> Some 0%nat ->
  rep ma gs (S fuel) (S min) max greedy k st
  = ma (fun st' => rep ma gs fuel min (Nat.pred <$> max) greedy k st') (clearCaps gs st).
Proof. intros Hmax. cbn [rep]. by destruct max as [[|n]|]. Qed.

(** A loop that must go round twice, on an atom that takes one character
    of [A], fails unless two such characters come first. *)
Lemma rep_twice (ma : K -> K) (gs : list nat) (A : N -> bool) :
  (forall k st, headIs A (after st) = false -> ma k st = None) ->
  (forall k st, (forall st', after st' = tail (after st) -> k st' = None) -> ma k st = None) ->
  forall fuel min max k st,
    (max = None \/ exists n, max = Some (S (S n))) ->
    headIs A (tail (after st)) = false ->
    rep ma gs fuel (S (S min)) max true k st = None.
Proof.
  intros H1 H2 fuel min max k st Hmax Hst.
  destruct fuel as [|fuel]; [reflexivity|].
  rewrite rep_min_step by (destruct Hmax as [-> | [n ->]]; discriminate).
  apply H2. intros st' Hst'.
  destruct fuel as [|fuel]; [reflexivity|].
  rewrite rep_min_step by (destruct Hmax as [-> | [n ->]]; discriminate).
  apply H1. cbn [clearCaps after]. by rewrite Hst'.
Qed.

Lemma chr_head (c : N) (k : K) (st : MState) :
  headIs (fun x => (x =? c)%N) (after st) = false -> m false (Chr c) k st = None.
Proof. cbn [m]. destruct (after st) as [|x rest]; [reflexivity|]. cbn. by intros ->. Qed.

Lemma chr_tail (c : N) (k : K) (st : MState) :
  (forall st', after st' = tail (after st) -> k st' = None) -> m false (Chr c) k st = None.
Proof.
  intros Hk. cbn [m]. destruct (after st) as [|x rest] eqn:E; [reflexivity|].
  destruct (x =? c)%N; [|reflexivity]. apply Hk. unfold advance. by rewrite E.
Qed.

Lemma group_cls_head (n : nat) (items : list item) (k : K) (st : MState) :
  headIs (inCls false false items) (after st) = false ->
  m false (Group n (Cls false items)) k st = None.
Proof. cbn [m]. destruct (after st) as [|x rest]; [reflexivity|]. cbn [headIs]. by intros ->. Qed.

Lemma group_cls_tail (n : nat) (items : list item) (k : K) (st : MState) :
  (forall st', after st' = tail (after st) -> k st' = None) ->
  m false (Group n (Cls false items)) k st = None.
Proof.
  intros Hk. cbn [m]. destruct (after st) as [|x rest] eqn:E; [reflexivity|].
  destruct (inCls _ _ _ _); [|reflexivity]. apply Hk. cbn [setCap after].
  unfold advance. by rewrite E.
Qed.

Lemma dots_quiet (s : str) :
  quiet s -> manyDots s = s /\ twoDots s = s /\ repeatedMarks s = s.
Proof.
  intros Hy.
  assert (Hdot : forall aft, aft `suffix_of` s ->
            headIs (fun x => (x =? 46)%N) aft = false
            \/ headIs (fun x => (x =? 46)%N) (tail aft) = false).
  { intros [|c rest] Hs; [by left|].
    destruct (quietAt_cons c rest (Hy _ Hs)) as (_ & _ & _ & _ & _ & _ & H7 & _).
    cbn [headIs tail]. destruct (N.eqb_spec c 46) as [->|]; [right | by left].
    specialize (H7 eq_refl). destruct rest as [|d rest]; [reflexivity|].
    cbn [headIs] in *. by rewrite N.eqb_sym. }
  assert (Hmark : forall aft, aft `suffix_of` s ->
            headIs (among "!?") aft = false \/ headIs (among "!?") (tail aft) = false).
  { intros [|c rest] Hs; [by left|].
    destruct (quietAt_cons c rest (Hy _ Hs)) as (_ & _ & _ & _ & _ & H6 & _).
    cbn [headIs tail]. destruct (among "!?" c) eqn:Ec; [right | by left].
    by apply H6. }
  split; [|split]; apply replaceAll_nowhere; intros bef aft Hs;
    unfold matchAt; cbn [rx source ignoreCase]; rewrite ?m_Seq, m_Repeat.
  - destruct (Hdot aft Hs) as [H | H].
    + rewrite rep_min_step by discriminate. by rewrite chr_head.
    + rewrite (rep_twice _ _ _ (chr_head 46) (chr_tail 46)); [reflexivity | by left | exact H].
  - destruct (Hdot aft Hs) as [H | H].
    + rewrite rep_min_step by discriminate. by rewrite chr_head.
    + rewrite (rep_twice _ _ _ (chr_head 46) (chr_tail 46));
        [reflexivity | right; by exists 0%nat | exact H].
  - unfold oneOf.
    destruct (Hmark aft Hs) as [H | H].
    + rewrite rep_min_step by discriminate. by rewrite group_cls_head.
    + rewrite (rep_twice _ _ _ (group_cls_head 1 _) (group_cls_tail 1 _));
        [reflexivity | by left | exact H].
Qed.

(** ** Patterns with a run of white space in them *)

Lemma text_inv (c : N) (k : K) (st : MState) (e : MState) :
  m false (Seq (Chr c) Empty) k st = Some e ->
  exists rest, after st = c :: rest /\ k (advance st) = Some e.
Proof.
  cbn [m]. destruct (after st) as [|x rest]; [discriminate|].
  destruct (N.eqb_spec x c) as [->|]; [|discriminate]. eauto.
Qed.

Lemma cls_inv (items : list item) (k : K) (st : MState) (e : MState) :
  m false (Cls false items) k st = Some e ->
  exists x rest, after st = x :: rest /\ inCls false false items x = true /\
                 k (advance st) = Some e.
Proof.
  cbn [m]. destruct (after st) as [|x rest]; [discriminate|].
  destruct (inCls _ _ _ x) eqn:E; [|discriminate]. eauto.
Qed.

Lemma ahead_inv (items : list item) (k : K) (st : MState) (e : MState) :
  m false (Seq (Ahead (Cls false items)) Empty) k st = Some e ->
  headIs (inCls false false items) (after st) = true.
Proof.
  cbn [m]. destruct (after st) as [|x rest]; [discriminate|]. cbn [headIs].
  by destruct (inCls _ _ _ x).
Qed.

(** What the pattern [\s*] passes over before it hands over. *)
Lemma star_ws_inv (k : K) (st e : MState) :
  m false (star ws) k st = Some e ->
  exists st' w, k st' = Some e /\ after st = w ++ after st' /\
                Forall (fun x => isSpace x = true) w.
Proof.
  intros H.
  apply (m_entered (fun _ => false) false (star ws) (fun x => isSpace x = true)) in H
    as (st' & w & H & E & Hw & _); [eauto|].
  intros x Hx. unfold inCls in Hx. cbn in Hx. by rewrite orb_false_r in Hx.
Qed.

(** In a canonical text white space is one space, with something other
    than white space and [.!?,;:] behind it. *)
Lemma run_quiet (w rest : str) :
  quiet (w ++ rest) -> Forall (fun x => isSpace x = true) w ->
  w = [] \/
  (w = [32%N] /\ rest <> [] /\ headIs isSpace rest = false /\
   headIs (among ".!?,;:") rest = false).
Proof.
  intros Hy Hw. destruct w as [|x w]; [by left|]. right.
  inversion Hw as [|? ? Hx Hw']; subst.
  destruct (quietAt_cons x (w ++ rest) (quiet_here _ Hy)) as (_ & H2 & _).
  destruct (H2 Hx) as (-> & Hsp & Hm & Hne).
  destruct w as [|y w].
  - done.
  - inversion Hw' as [|? ? Hy' _]; subst. cbn in Hsp. congruence.
Qed.

Lemma upper_not_space (c : N) : isUpper c = true -> isSpace c = false.
Proof.
  unfold isUpper, inCls. cbn [xorb existsb inItem].
  intros H. apply orb_true_iff in H as [H | H].
  - apply andb_true_iff in H as [H1 H2].
    apply N.leb_le in H1, H2. unfold isSpace. cbn [existsb].
    repeat match goal with
           | |- context [(c =? ?n)%N] => destruct (N.eqb_spec c n); [lia|]
           end.
    destruct (N.leb_spec 8192 c); [lia | reflexivity].
  - change (map One (lit "ÁÉÍÓÚÑÜ")) with (map One [193; 201; 205; 211; 218; 209; 220]%N) in H.
    cbn [map existsb inItem] in H.
    repeat match goal with
           | H : (?n =? c)%N || _ = true |- _ =>
               apply orb_true_iff in H as [H | H]; [apply N.eqb_eq in H; by subst|]
           end.
    discriminate.
Qed.

Lemma trimStart_run (w rest : str) :
  Forall (fun x => isSpace x = true) w -> headIs isSpace rest = false ->
  trimStart (w ++ rest) = rest.
Proof.
  intros Hw Hr. induction Hw as [|x w Hx _ IH]; cbn [app trimStart].
  - destruct rest as [|c rest]; [reflexivity|]. cbn [headIs trimStart] in *. by rewrite Hr.
  - by rewrite Hx.
Qed.

Lemma colon_quiet (s : str) : quiet s -> finalColon s = s /\ colonBeforeCapital s = s.
Proof.
  intros Hy.
  split; apply replaceAll_nowhere; intros bef aft Hs;
    (destruct (matchAt _ bef aft) as [[mt e]|] eqn:E; [exfalso|reflexivity]);
    unfold matchAt in E; cbn [rx source ignoreCase seqs foldr] in E;
    (destruct (m _ _ _ _) as [e1|] eqn:E1; [clear E|discriminate]);
    rewrite m_Seq in E1;
    apply text_inv in E1 as (rest & Haft & E1); cbn [after] in Haft; subst aft;
    rewrite m_Seq in E1;
    apply star_ws_inv in E1 as (st' & w & E1 & Hw & Hsp); cbn [advance after] in Hw;
    destruct (quietAt_cons _ _ (Hy _ Hs)) as (_ & _ & _ & _ & _ & _ & _ & _ & _ & H10);
    destruct (H10 eq_refl) as [Hne Hup].
  - cbn [m] in E1. destruct (after st') eqn:Est; [|discriminate].
    rewrite app_nil_r in Hw. subst rest.
    assert (Hw : quiet (w ++ [])).
    { rewrite app_nil_r. apply (quiet_suffix _ _ Hy). etrans; [|exact Hs]. by apply suffix_cons_r. }
    destruct (run_quiet w [] Hw Hsp) as [-> | (_ & H & _)]; done.
  - apply ahead_inv in E1.
    assert (Hst : headIs isSpace (after st') = false).
    { destruct (after st') as [|u r]; [reflexivity|]. cbn in E1 |- *. by apply upper_not_space. }
    rewrite Hw, trimStart_run in Hup by done.
    change (headIs isUpper (after st') = true) in E1. congruence.
Qed.

Lemma untilMark_dot (q : N) (w r : str) :
  Forall (fun x => x <> q) w -> q <> 46%N -> untilMark q (w ++ 46%N :: r) = false.
Proof.
  intros Hw Hq. induction Hw as [|x w Hx _ IH]; cbn [app untilMark].
  - destruct (N.eqb_spec 46 q); [congruence | reflexivity].
  - destruct (N.eqb_spec x q); [congruence|]. rewrite IH. apply andb_false_r.
Qed.

(** The patterns [¿\s*([^?]*?)(?:\s*[.])(?!\?)] and its like for [¡] and
    [!] match where a full stop comes before the closing mark. *)
Lemma incomplete_inv (o q : N) (bef aft : str) (mt : Match) (e : MState) :
  isSpace q = false -> q <> 46%N ->
  matchAt (rx (seqs [Seq (Chr o) Empty; star ws; Group 1 (lazyStar (Cls true [One q]));
                     Seq (star ws) (Cls false [One 46]);
                     NotAhead (Seq (Chr q) Empty)])) bef aft = Some (mt, e) ->
  exists rest, aft = o :: rest /\ untilMark q rest = false.
Proof.
  intros Hq Hq' E.
  unfold matchAt in E; cbn [rx source ignoreCase seqs foldr] in E;
    (destruct (m _ _ _ _) as [e1|] eqn:E1; [clear E|discriminate]).
  rewrite m_Seq in E1.
  apply text_inv in E1 as (rest & Haft & E1); cbn [after] in Haft; subst aft.
  exists rest. split; [reflexivity|].
  assert (Hws : forall w, Forall (fun x => isSpace x = true) w -> Forall (fun x => x <> q) w).
  { intros w Hw. eapply Forall_impl; [exact Hw|]. intros x Hx ->. congruence. }
  rewrite m_Seq in E1.
  apply star_ws_inv in E1 as (st2 & w2 & E1 & Hw2 & Hsp2); cbn [advance after] in Hw2.
  rewrite m_Seq in E1.
  apply (m_entered (fun _ => false) false _ (fun x => x <> q)) in E1
    as (st3 & w3 & E1 & Hw3 & Hc3 & _).
  2:{ cbn [only lazyStar]. intros x Hx ->. unfold inCls in Hx.
      cbn [existsb inItem] in Hx. rewrite N.eqb_refl in Hx. discriminate. }
  rewrite !m_Seq in E1.
  apply star_ws_inv in E1 as (st4 & w4 & E1 & Hw4 & Hsp4).
  apply cls_inv in E1 as (x & r & Hx & Hin & _).
  unfold inCls in Hin. cbn [existsb inItem xorb] in Hin.
  rewrite orb_false_r in Hin. apply N.eqb_eq in Hin. subst x.
  rewrite Hw2, Hw3, Hw4, Hx, !app_assoc.
  apply untilMark_dot; [|exact Hq'].
  rewrite !Forall_app. auto.
Qed.

Lemma incomplete_quiet (s : str) :
  quiet s -> incompleteQuestion s = s /\ incompleteExclamation s = s.
Proof.
  intros Hy.
  split; apply replaceAll_nowhere; intros bef aft Hs;
    (destruct (matchAt _ bef aft) as [[mt e]|] eqn:E; [exfalso|reflexivity]).
  - apply (incomplete_inv 191 63) in E as (rest & -> & Hu); [|reflexivity|discriminate].
    destruct (quietAt_cons _ _ (Hy _ Hs)) as (_ & _ & _ & H4 & _).
    destruct (H4 eq_refl) as (_ & _ & H). congruence.
  - apply (incomplete_inv 161 33) in E as (rest & -> & Hu); [|reflexivity|discriminate].
    destruct (quietAt_cons _ _ (Hy _ Hs)) as (_ & _ & _ & _ & H5 & _).
    destruct (H5 eq_refl) as (_ & _ & H). congruence.
Qed.

(** ** Rules that put back what they match *)

Lemma clearCaps_nil (st : MState) : clearCaps [] st = st.
Proof.
  destruct st as [bef aft cs]. unfold clearCaps. cbn [before after caps]. f_equal.
  induction cs as [|p cs IH]; [reflexivity|].
  rewrite filter_cons. destruct (decide (p.1 ∉ [])) as [_|Hn].
  - by rewrite IH.
  - exfalso. apply Hn. apply not_elem_of_nil.
Qed.

(** The lazy loop of [[^q]*?] hands over after a stretch without [q], with
    the captures it was given. *)
Lemma lazy_inv (q : N) (k : K) :
  forall fuel st e,
    rep (m false (Cls true [One q])) [] fuel 0 None false k st = Some e ->
    exists st' w, k st' = Some e /\ after st = w ++ after st' /\
                  Forall (fun x => x <> q) w /\ caps st' = caps st.
Proof.
  induction fuel as [|fuel IH]; intros st e H; [discriminate|].
  cbn [rep Nat.ltb Nat.leb Nat.eqb andb] in H. rewrite clearCaps_nil in H.
  destruct (k st) as [e1|] eqn:Ek.
  - inversion H; subst. exists st, []. by repeat split.
  - cbn [m] in H. destruct (after st) as [|x rest] eqn:Est; [discriminate|].
    destruct (inCls false true [One q] x) eqn:Ex; [|discriminate].
    destruct (_ =? _)%nat; [discriminate|].
    apply IH in H as (st' & w & Hk & Ha & Hw & Hc).
    exists st', (x :: w). split; [exact Hk|].
    unfold advance in Ha, Hc. rewrite Est in Ha, Hc. cbn [after caps] in Ha, Hc.
    split; [by rewrite Ha|]. split; [|exact Hc].
    constructor; [|exact Hw]. intros ->.
    unfold inCls in Ex. cbn [existsb inItem] in Ex. rewrite N.eqb_refl in Ex. discriminate.
Qed.

Lemma consumed_app (st e : MState) (w : str) :
  after st = w ++ after e -> consumed st e = w.
Proof.
  intros H. unfold consumed. rewrite H, length_app.
  replace (length w + length (after e) - length (after e))%nat with (length w) by lia.
  by rewrite take_app_length.
Qed.

(** The patterns [¿([^?]*?)\?] and [¡([^!]*?)!]: what is matched and what
    is captured. *)
Lemma format_inv (o q : N) (bef aft : str) (mt : Match) (e : MState) :
  matchAt (rx (seqs [Seq (Chr o) Empty; Group 1 (lazyStar (Cls true [One q]));
                     Seq (Chr q) Empty])) bef aft = Some (mt, e) ->
  exists content tail,
    aft = o :: content ++ q :: tail /\ matched mt = o :: content ++ [q] /\
    capture 1 mt = content.
Proof.
  intros E.
  unfold matchAt in E; cbn [rx source ignoreCase seqs foldr] in E;
    (destruct (m _ _ _ _) as [e1|] eqn:E1; [|discriminate]).
  inversion E; subst; clear E. cbn [matched captures].
  rewrite m_Seq in E1.
  apply text_inv in E1 as (rest & Haft & E1); cbn [after] in Haft; subst aft.
  rewrite m_Seq in E1. cbn [m lazyStar groups] in E1.
  apply lazy_inv in E1 as (st' & w & E1 & Hw & _ & Hc).
  cbn [advance after caps] in Hw, Hc.
  destruct (after (setCap 1 _ st')) as [|x tail] eqn:Ea; [discriminate|].
  destruct (N.eqb_spec x q) as [->|]; [|discriminate].
  inversion E1; subst; clear E1. cbn [setCap after] in Ea.
  exists w, tail.
  assert (He : after (advance (setCap 1
                 (consumed (advance {| before := bef; after := o :: w ++ after st'; caps := [] |})
                    st') st')) = tail).
  { unfold advance. cbn [setCap after]. rewrite Ea. reflexivity. }
  assert (Hcap : consumed (advance {| before := bef; after := o :: w ++ after st'; caps := [] |})
                   st' = w).
  { by apply consumed_app. }
  split; [by rewrite Ea|]. split.
  - apply consumed_app. rewrite He. cbn [after app]. by rewrite Ea, <- app_assoc.
  - unfold capture. cbn [captures]. rewrite Hcap.
    unfold advance. cbn [setCap after]. rewrite Ea. cbn [caps setCap]. reflexivity.
Qed.

Lemma trim_fixed (w : str) :
  headIs isSpace w = false -> headIs isSpace (rev w) = false -> trim w = w.
Proof.
  intros H1 H2. unfold trim, trimEnd.
  assert (Hs : forall l, headIs isSpace l = false -> trimStart l = l).
  { intros [|c l] H; [reflexivity|]. cbn [headIs trimStart] in *. by rewrite H. }
  by rewrite (Hs w H1), (Hs _ H2), rev_involutive.
Qed.

Lemma format_quiet (s : str) :
  quiet s -> questionFormat s = s /\ exclamationFormat s = s.
Proof.
  intros Hy.
  assert (Hlast : forall pre x c tail, (pre ++ x :: c :: tail) `suffix_of` s ->
            among ".!?,;:" c = true -> isSpace x = false).
  { intros pre x c tail Hs Hc.
    assert (Hx : quietAt (x :: c :: tail) = true).
    { apply Hy. etrans; [|exact Hs]. by exists pre. }
    destruct (quietAt_cons _ _ Hx) as (_ & H2 & _).
    destruct (isSpace x); [|reflexivity].
    destruct (H2 eq_refl) as (_ & _ & H & _). cbn [headIs] in H. congruence. }
  assert (Hcontent : forall o q content tail,
            (o :: content ++ q :: tail) `suffix_of` s ->
            among ".!?,;:" q = true -> headIs isSpace content = false ->
            trim content = content).
  { intros o q content tail Hs Hq Hh. apply trim_fixed; [exact Hh|].
    destruct (rev content) as [|x l] eqn:Er; [reflexivity|]. cbn [headIs].
    assert (Hc : content = rev l ++ [x]).
    { rewrite <- (rev_involutive content), Er. reflexivity. }
    apply (Hlast (o :: rev l) x q tail); [|exact Hq].
    rewrite Hc in Hs. rewrite <- app_assoc in Hs. exact Hs. }
  split; apply replaceAll_fixed; intros bef aft mt e Hs E.
  - apply (format_inv 191 63) in E as (content & tail & -> & -> & ->).
    destruct (quietAt_cons _ _ (Hy _ Hs)) as (_ & _ & _ & H4 & _).
    destruct (H4 eq_refl) as (_ & Hsp & _).
    rewrite (Hcontent 191%N 63%N content tail Hs); [reflexivity | reflexivity |].
    destruct content; [reflexivity | exact Hsp].
  - apply (format_inv 161 33) in E as (content & tail & -> & -> & ->).
    destruct (quietAt_cons _ _ (Hy _ Hs)) as (_ & _ & _ & _ & H5 & _).
    destruct (H5 eq_refl) as (_ & Hsp & _).
    rewrite (Hcontent 161%N 33%N content tail Hs); [reflexivity | reflexivity |].
    destruct content; [reflexivity | exact Hsp].
Qed.

(** ** The loops [\s*] and [\s+] where white space is one character *)

Lemma m_ws_none (k : K) (st : MState) :
  headIs isSpace (after st) = false -> m false ws k st = None.
Proof.
  intros H. rewrite m_ws. destruct (after st) as [|c rest]; [reflexivity|].
  cbn [headIs] in H. by rewrite H.
Qed.

Lemma star_ws_nonspace (k : K) (st : MState) :
  headIs isSpace (after st) = false -> m false (star ws) k st = k st.
Proof.
  intros H. unfold star. rewrite m_Repeat. change (groups ws) with (@nil nat).
  rewrite rep_star_step, clearCaps_nil. by rewrite m_ws_none.
Qed.

Lemma star_ws_one (k : K) (st : MState) (c : N) (rest : str) :
  after st = c :: rest -> isSpace c = true -> headIs isSpace rest = false ->
  m false (star ws) k st
  = match k (advance st) with
    | Some e => Some e
    | None => k st
    end.
Proof.
  intros Ha Hc Hr. unfold star. rewrite m_Repeat. change (groups ws) with (@nil nat).
  rewrite rep_star_step, clearCaps_nil, m_ws, Ha, Hc.
  assert (Hadv : after (advance st) = rest).
  { unfold advance. by rewrite Ha. }
  rewrite Hadv. cbn [length Nat.add].
  destruct (Nat.eqb_spec (length rest) (S (length rest))) as [|_]; [lia|].
  rewrite rep_star_step, clearCaps_nil.
  rewrite m_ws_none by (by rewrite Hadv). reflexivity.
Qed.

Lemma plus_ws_nonspace (k : K) (st : MState) :
  headIs isSpace (after st) = false -> m false (plus ws) k st = None.
Proof.
  intros H. unfold plus. rewrite m_Repeat. change (groups ws) with (@nil nat).
  rewrite rep_min_step, clearCaps_nil by discriminate. by rewrite m_ws_none.
Qed.

Lemma plus_ws_one (k : K) (st : MState) (c : N) (rest : str) :
  after st = c :: rest -> isSpace c = true -> headIs isSpace rest = false ->
  m false (plus ws) k st = k (advance st).
Proof.
  intros Ha Hc Hr. unfold plus. rewrite m_Repeat. change (groups ws) with (@nil nat).
  rewrite rep_min_step, clearCaps_nil, m_ws, Ha, Hc by discriminate.
  assert (Hadv : after (advance st) = rest).
  { unfold advance. by rewrite Ha. }
  cbn [length Nat.add Nat.pred fmap option_fmap option_map].
  rewrite rep_star_step, clearCaps_nil.
  rewrite m_ws_none by (by rewrite Hadv). reflexivity.
Qed.

Lemma m_Group (ic : bool) (n : nat) (a : re) (k : K) (st : MState) :
  m ic (Group n a) k st = m ic a (fun st' => k (setCap n (consumed st st') st')) st.
Proof. reflexivity. Qed.

Lemma m_Cls (negated : bool) (items : list item) (k : K) (st : MState) :
  m false (Cls negated items) k st
  = match after st with
    | x :: _ => if inCls false negated items x then k (advance st) else None
    | [] => None
    end.
Proof. reflexivity. Qed.

Lemma ahead_exact (items : list item) (st e : MState) :
  m false (Seq (Ahead (Cls false items)) Empty) Some st = Some e ->
  headIs (inCls false false items) (after st) = true /\
  after e = after st /\ caps e = caps st.
Proof.
  cbn [m]. destruct (after st) as [|x rest] eqn:Est; [discriminate|].
  cbn [headIs]. destruct (inCls _ _ _ x); [|discriminate].
  intros H. inversion H; subst; clear H. cbn [after caps].
  unfold advance. by rewrite Est.
Qed.

(** The rules [([.!?])\s*(?=[A-Z...])] and [([,:;])\s*(?=[A-Z...])] put one
    space where there is one. *)
Lemma spaceAfter_fixed (items : list item) (s : str) :
  quiet s ->
  (forall c rest, (c :: rest) `suffix_of` s -> inCls false false items c = true ->
                  headIs isUpper rest = false) ->
  replaceAll (rx (seqs [Group 1 (Cls false items); star ws; Ahead upper]))
    (fun mt => capture 1 mt ++ lit " ") s = s.
Proof.
  intros Hy Hup. apply replaceAll_fixed. intros bef aft mt e Hs E.
  unfold matchAt in E; cbn [rx source ignoreCase seqs foldr] in E;
    (destruct (m _ _ _ _) as [e1|] eqn:E1; [|discriminate]).
  inversion E; subst; clear E. cbn [matched captures].
  rewrite m_Seq, m_Group, m_Cls in E1.
  destruct aft as [|t rest]; [discriminate|]. cbn [after] in E1.
  destruct (inCls false false items t) eqn:Et; [|discriminate].
  specialize (Hup t rest Hs Et).
  rewrite consumed_one in E1 by (unfold advance; reflexivity).
  rewrite m_Seq in E1.
  destruct (headIs isSpace rest) eqn:Hsp.
  - destruct rest as [|c rest]; [discriminate|]. cbn [headIs] in Hsp.
    assert (Hc : quietAt (c :: rest) = true).
    { apply Hy. etrans; [|exact Hs]. by apply suffix_cons_r. }
    destruct (quietAt_cons _ _ Hc) as (_ & H2 & _).
    destruct (H2 Hsp) as (-> & Hr & _).
    rewrite (star_ws_one _ _ 32%N rest) in E1; [|reflexivity|reflexivity|exact Hr].
    destruct (m false (Seq (Ahead upper) Empty) Some (advance _)) as [e2|] eqn:E2.
    + inversion E1; subst; clear E1.
      apply ahead_exact in E2 as (_ & Ha & Hc2).
      cbn [advance setCap after caps] in Ha, Hc2.
      rewrite (consumed_app _ _ [t; 32%N]) by (by rewrite Ha).
      unfold capture. rewrite Hc2. reflexivity.
    + apply ahead_exact in E1 as (E1 & _). cbn [setCap advance after headIs] in E1.
      discriminate E1.
  - rewrite star_ws_nonspace in E1 by exact Hsp.
    apply ahead_exact in E1 as (E1 & _). cbn [setCap advance after] in E1.
    change (headIs isUpper rest = true) in E1. congruence.
Qed.

Lemma spaceAfter_quiet (s : str) :
  quiet s -> spaceAfterEnd s = s /\ spaceAfterClause s = s.
Proof.
  intros Hy. split; apply spaceAfter_fixed; try exact Hy; intros c rest Hs Hc.
  - destruct (quietAt_cons _ _ (Hy _ Hs)) as (_ & _ & _ & _ & _ & _ & _ & H8 & _).
    by destruct (H8 Hc).
  - destruct (quietAt_cons _ _ (Hy _ Hs)) as (_ & _ & _ & _ & _ & _ & _ & _ & H9 & _).
    by apply H9.
Qed.

(** ** Replacements step by step *)

Lemma replaceFold_skip (p : RegExp) (f : Match -> str) (fuel : nat) (bef : str) (c : N)
    (rest : str) :
  matchAt p bef (c :: rest) = None ->
  (replaceFold (S fuel) p (fun _ mt => (tt, f mt)) tt bef (c :: rest)).2
  = c :: (replaceFold (S fuel) p (fun _ mt => (tt, f mt)) tt (c :: bef) rest).2.
Proof.
  intros H. cbn [replaceFold search]. rewrite H.
  destruct (search p (c :: bef) rest) as [fd|]; [|reflexivity].
  cbn [found skipped restBefore restAfter].
  destruct (matched (found fd)) as [|x xs].
  - destruct (restAfter fd) as [|y ys]; [reflexivity|].
    by destruct (replaceFold fuel _ _ _ _ _).
  - by destruct (replaceFold fuel _ _ _ _ _).
Qed.

Lemma replaceFold_hit (p : RegExp) (f : Match -> str) (fuel : nat) (bef aft : str)
    (mt : Match) (e : MState) :
  matchAt p bef aft = Some (mt, e) -> matched mt <> [] ->
  (replaceFold (S fuel) p (fun _ mt => (tt, f mt)) tt bef aft).2
  = f mt ++ (replaceFold fuel p (fun _ mt => (tt, f mt)) tt (before e) (after e)).2.
Proof.
  intros H Hne. cbn [replaceFold].
  assert (Hs : search p bef aft
               = Some {| skipped := []; found := mt; restBefore := before e;
                         restAfter := after e |}).
  { destruct aft; cbn [search]; by rewrite H. }
  rewrite Hs. cbn [found skipped restBefore restAfter].
  destruct (matched mt) as [|x xs]; [done|].
  by destruct (replaceFold fuel _ _ _ _ _).
Qed.

Lemma replaceFold_end (p : RegExp) (f : Match -> str) (fuel : nat) (bef : str) :
  matchAt p bef [] = None ->
  (replaceFold fuel p (fun _ mt => (tt, f mt)) tt bef []).2 = [].
Proof. intros H. destruct fuel; [reflexivity|]. cbn [replaceFold search]. by rewrite H. Qed.

(** ** The marks *)

Lemma among_opening (d : N) : among "¿¡" d = true -> d = 191%N \/ d = 161%N.
Proof.
  unfold among, inCls. change (lit "¿¡") with [191; 161]%N.
  cbn [map existsb inItem xorb]. rewrite orb_false_r.
  intros H. apply orb_true_iff in H as [H | H]; apply N.eqb_eq in H; auto.
Qed.

Lemma among_marks (d : N) :
  among ".!?¿¡,;:" d = among ".!?,;:" d || among "¿¡" d.
Proof.
  unfold among, inCls.
  change (lit ".!?¿¡,;:") with [46; 33; 63; 191; 161; 44; 59; 58]%N.
  change (lit ".!?,;:") with [46; 33; 63; 44; 59; 58]%N.
  change (lit "¿¡") with [191; 161]%N.
  cbn [map existsb inItem xorb].
  destruct (46 =? d)%N, (33 =? d)%N, (63 =? d)%N, (191 =? d)%N, (161 =? d)%N,
    (44 =? d)%N, (59 =? d)%N, (58 =? d)%N; reflexivity.
Qed.

Lemma opening_not_space (d : N) : among "¿¡" d = true -> isSpace d = false.
Proof. intros H. by destruct (among_opening d H) as [-> | ->]. Qed.

(** ** The pattern [\s+([.!?¿¡,;:])] *)

Lemma beforeMark_miss (bef aft : str) :
  headIs isSpace aft = false ->
  matchAt (rx (seqs [plus ws; Group 1 (oneOf ".!?¿¡,;:")])) bef aft = None.
Proof.
  intros H. unfold matchAt. cbn [rx source ignoreCase seqs foldr].
  rewrite m_Seq, plus_ws_nonspace; [reflexivity | exact H].
Qed.

Lemma beforeMark_space (bef : str) (c d : N) (z : str) :
  isSpace c = true -> isSpace d = false ->
  matchAt (rx (seqs [plus ws; Group 1 (oneOf ".!?¿¡,;:")])) bef (c :: d :: z)
  = if among ".!?¿¡,;:" d
    then Some ({| index := length bef; matched := [c; d]; captures := [(1%nat, [d])];
                  endIndex := length bef + 2 |},
               {| before := d :: c :: bef; after := z; caps := [(1%nat, [d])] |})
    else None.
Proof.
  intros Hc Hd. unfold matchAt. cbn [rx source ignoreCase seqs foldr].
  rewrite m_Seq, (plus_ws_one _ _ c (d :: z)); [|reflexivity|exact Hc|exact Hd].
  rewrite m_Seq, m_Group. unfold oneOf. rewrite m_Cls.
  cbn [advance after before caps].
  change (inCls false false (map One (lit ".!?¿¡,;:")) d) with (among ".!?¿¡,;:" d).
  destruct (among ".!?¿¡,;:" d); [|reflexivity].
  cbn [m setCap after before caps].
  unfold setCap, consumed. cbn [after before caps length Nat.sub].
  rewrite !Nat.sub_succ_l, Nat.sub_diag by lia. reflexivity.

Qed.

(** ** The pattern [([.!?])\s*([¿¡])] *)

Lemma beforeOpening_nil (bef : str) :
  matchAt (rx (seqs [Group 1 (oneOf ".!?"); star ws; Group 2 (oneOf "¿¡")])) bef [] = None.
Proof. reflexivity. Qed.

Lemma beforeOpening_head (bef : str) (c : N) (z : str) :
  among ".!?" c = false ->
  matchAt (rx (seqs [Group 1 (oneOf ".!?"); star ws; Group 2 (oneOf "¿¡")])) bef (c :: z)
  = None.
Proof.
  intros H. unfold matchAt. cbn [rx source ignoreCase seqs foldr].
  rewrite m_Seq, m_Group. unfold oneOf at 1. rewrite m_Cls. cbn [after].
  change (inCls false false (map One (lit ".!?")) c) with (among ".!?" c).
  by rewrite H.
Qed.

Lemma opening_here (k : K) (st : MState) :
  headIs (among "¿¡") (after st) = false ->
  m false (Seq (Group 2 (oneOf "¿¡")) Empty) k st = None.
Proof.
  intros H. rewrite m_Seq, m_Group. unfold oneOf. rewrite m_Cls.
  destruct (after st) as [|d z]; [reflexivity|]. cbn [headIs] in H.
  change (inCls false false (map One (lit "¿¡")) d) with (among "¿¡" d).
  by rewrite H.
Qed.

Lemma beforeOpening_next (bef : str) (t : N) (z : str) :
  headIs isSpace z = false -> headIs (among "¿¡") z = false ->
  matchAt (rx (seqs [Group 1 (oneOf ".!?"); star ws; Group 2 (oneOf "¿¡")])) bef (t :: z)
  = None.
Proof.
  intros Hs Ho. unfold matchAt. cbn [rx source ignoreCase seqs foldr].
  rewrite m_Seq, m_Group. unfold oneOf at 1. rewrite m_Cls. cbn [after].
  destruct (inCls _ _ _ t); [|reflexivity].
  rewrite m_Seq, star_ws_nonspace by exact Hs.
  by rewrite opening_here.
Qed.

Lemma beforeOpening_space (bef : str) (t c d : N) (z : str) :
  isSpace c = true -> among "¿¡" c = false -> isSpace d = false -> among "¿¡" d = false ->
  matchAt (rx (seqs [Group 1 (oneOf ".!?"); star ws; Group 2 (oneOf "¿¡")]))
    bef (t :: c :: d :: z) = None.
Proof.
  intros Hc Hc' Hd Hd'. unfold matchAt. cbn [rx source ignoreCase seqs foldr].
  rewrite m_Seq, m_Group. unfold oneOf at 1. rewrite m_Cls. cbn [after].
  destruct (inCls _ _ _ t); [|reflexivity].
  rewrite m_Seq, (star_ws_one _ _ c (d :: z)); [|reflexivity|exact Hc|exact Hd].
  rewrite !opening_here; [reflexivity | exact Hc' | exact Hd'].
Qed.

Lemma beforeOpening_hit (bef : str) (t d : N) (z : str) :
  among ".!?" t = true -> among "¿¡" d = true ->
  matchAt (rx (seqs [Group 1 (oneOf ".!?"); star ws; Group 2 (oneOf "¿¡")])) bef (t :: d :: z)
  = Some ({| index := length bef; matched := [t; d];
             captures := [(2%nat, [d]); (1%nat, [t])];
             endIndex := length bef + 2 |},
          {| before := d :: t :: bef; after := z; caps := [(2%nat, [d]); (1%nat, [t])] |}).
Proof.
  intros Ht Hd. unfold matchAt. cbn [rx source ignoreCase seqs foldr].
  rewrite m_Seq, m_Group. unfold oneOf at 1. rewrite m_Cls. cbn [after].
  change (inCls false false (map One (lit ".!?")) t) with (among ".!?" t). rewrite Ht.
  rewrite m_Seq, star_ws_nonspace by (by apply opening_not_space).
  rewrite m_Seq, m_Group. unfold oneOf. rewrite m_Cls.
  cbn [setCap advance after before caps].
  change (inCls false false (map One (lit "¿¡")) d) with (among "¿¡" d). rewrite Hd.
  cbn [m setCap after before caps].
  unfold setCap, consumed. cbn [after before caps length Nat.sub].
  rewrite !Nat.sub_succ_l, Nat.sub_diag by lia. reflexivity.
Qed.

(** ** The two spacing rules, one after the other *)

(** On a canonical text the first rule takes out the spaces before [¿]
    and [¡]. *)
Lemma spaceBeforeMark_run (n : nat) :
  forall s, (length s <= n)%nat -> quiet s ->
  forall fuel bef, (length s < fuel)%nat ->
    (replaceFold fuel (rx (seqs [plus ws; Group 1 (oneOf ".!?¿¡,;:")]))
       (fun _ mt => (tt, capture 1 mt)) tt bef s).2 = closeUp s.
Proof.
  induction n as [|n IH]; intros s Hn Hy fuel bef Hf.
  { destruct s; [|cbn in Hn; lia]. apply replaceFold_end. by apply beforeMark_miss. }
  destruct s as [|c rest].
  { apply replaceFold_end. by apply beforeMark_miss. }
  destruct fuel as [|fuel]; [lia|]. cbn [length] in Hn, Hf.
  pose proof (quiet_tail _ _ Hy) as Hrest.
  destruct (quietAt_cons _ _ (quiet_here _ Hy)) as (_ & H2 & _).
  cbn [closeUp]. destruct (isSpace c) eqn:Hc.
  - destruct (H2 eq_refl) as (-> & Hsp & Hm & Hne).
    destruct rest as [|d r]; [done|]. cbn [headIs] in Hsp, Hm |- *.
    pose proof (beforeMark_space bef 32 d r eq_refl Hsp) as E.
    pose proof (among_marks d) as Ha. rewrite Hm in Ha. cbn [orb] in Ha.
    rewrite Ha in E. destruct (among "¿¡" d) eqn:Hd.
    + rewrite (replaceFold_hit _ _ _ _ _ _ _ E) by discriminate.
      cbn [before after andb closeUp]. rewrite Hsp. cbn [andb].
      rewrite IH; [reflexivity | cbn [length] in Hn; lia | by apply quiet_tail with d
                  | cbn [length] in Hf; lia].
    + rewrite (replaceFold_skip _ _ _ _ _ _ E). cbn [andb].
      rewrite IH; [reflexivity | lia | exact Hrest | cbn [length] in Hf |- *; lia].
  - rewrite replaceFold_skip by (apply beforeMark_miss; cbn [headIs]; exact Hc).
    cbn [andb]. rewrite IH; [reflexivity | lia | exact Hrest | lia].
Qed.

Lemma closeUp_nonspace (c : N) (rest : str) :
  isSpace c = false -> closeUp (c :: rest) = c :: closeUp rest.
Proof. intros H. cbn [closeUp]. by rewrite H. Qed.

Lemma closeUp_head (P : N -> bool) (s : str) :
  headIs isSpace s = false -> headIs P (closeUp s) = headIs P s.
Proof.
  destruct s as [|c rest]; [reflexivity|]. cbn [headIs]. intros H.
  by rewrite closeUp_nonspace.
Qed.

(** The second rule puts them back. *)
Lemma spaceBeforeOpening_run (n : nat) :
  forall s, (length s <= n)%nat -> quiet s ->
  (headIs isSpace s = true -> headIs (among "¿¡") (tail s) = false) ->
  forall fuel bef, (length (closeUp s) < fuel)%nat ->
    (replaceFold fuel (rx (seqs [Group 1 (oneOf ".!?"); star ws; Group 2 (oneOf "¿¡")]))
       (fun _ mt => (tt, capture 1 mt ++ lit " " ++ capture 2 mt)) tt bef (closeUp s)).2 = s.
Proof.
  induction n as [|n IH]; intros s Hn Hy Hstart fuel bef Hf.
  { destruct s; [|cbn in Hn; lia]. apply replaceFold_end. apply beforeOpening_nil. }
  destruct s as [|c rest].
  { apply replaceFold_end. apply beforeOpening_nil. }
  cbn [length] in Hn.
  pose proof (quiet_tail _ _ Hy) as Hrest.
  destruct (quietAt_cons _ _ (quiet_here _ Hy))
    as (_ & H2 & H3 & _ & _ & _ & _ & H8 & _).
  destruct (isSpace c) eqn:Hc.
  - (* a space that does not stand before an opening mark *)
    destruct (H2 eq_refl) as (-> & Hsp & _ & Hne).
    specialize (Hstart eq_refl). cbn [tail] in Hstart.
    assert (Hcl : closeUp (32%N :: rest) = 32%N :: closeUp rest).
    { cbn [closeUp]. rewrite Hstart. reflexivity. }
    rewrite Hcl in Hf |- *. cbn [length] in Hf.
    destruct fuel as [|fuel]; [lia|].
    rewrite replaceFold_skip by (by apply beforeOpening_head).
    rewrite IH; [reflexivity | lia | exact Hrest | congruence | lia].
  - rewrite closeUp_nonspace in Hf |- * by exact Hc. cbn [length] in Hf.
    destruct fuel as [|fuel]; [lia|].
    destruct (among ".!?" c) eqn:Ht.
    + destruct (H8 eq_refl) as (_ & Hop).
      destruct (headIs isSpace rest) eqn:Hsp.
      * destruct rest as [|c1 rest1]; [discriminate|]. cbn [headIs] in Hsp.
        destruct (quietAt_cons _ _ (quiet_here _ Hrest)) as (_ & H2' & _).
        destruct (H2' Hsp) as (-> & Hsp1 & _ & Hne1).
        destruct rest1 as [|d r]; [done|]. cbn [headIs] in Hsp1.
        destruct (among "¿¡" d) eqn:Hd.
        -- (* the rule puts the space back *)
           assert (Hcl : closeUp (32%N :: d :: r) = d :: closeUp r).
           { cbn [closeUp headIs]. rewrite Hd, Hsp1. reflexivity. }
           rewrite Hcl in Hf |- *. cbn [length] in Hf.
           rewrite (replaceFold_hit _ _ _ _ _ _ _ (beforeOpening_hit bef c d _ Ht Hd))
             by discriminate.
           cbn [before after].
           assert (Hr : quiet r) by (by apply quiet_tail with d; apply quiet_tail with 32%N).
           assert (Hd' : headIs isSpace r = false).
           { destruct (quietAt_cons d r) as (_ & _ & _ & H4 & H5 & _).
             { apply quiet_here. by apply quiet_tail with 32%N. }
             destruct (among_opening d Hd) as [-> | ->].
             - by destruct (H4 eq_refl) as (_ & H & _).
             - by destruct (H5 eq_refl) as (_ & H & _). }
           rewrite IH; [reflexivity | cbn [length] in Hn; lia | exact Hr | congruence | lia].
        -- assert (Hcl : closeUp (32%N :: d :: r) = 32%N :: d :: closeUp r).
           { cbn [closeUp headIs]. rewrite Hd, Hsp1. reflexivity. }
           assert (Hm : matchAt (rx (seqs [Group 1 (oneOf ".!?"); star ws;
                                           Group 2 (oneOf "¿¡")]))
                          bef (c :: closeUp (32%N :: d :: r)) = None).
           { rewrite Hcl. by apply beforeOpening_space. }
           rewrite (replaceFold_skip _ _ _ _ _ _ Hm).
           rewrite IH; [reflexivity | lia | exact Hrest | by intros _ | lia].
      * assert (Hm : matchAt (rx (seqs [Group 1 (oneOf ".!?"); star ws;
                                        Group 2 (oneOf "¿¡")]))
                       bef (c :: closeUp rest) = None).
        { apply beforeOpening_next; rewrite closeUp_head by exact Hsp; [exact Hsp | exact Hop]. }
        rewrite (replaceFold_skip _ _ _ _ _ _ Hm).
        rewrite IH; [reflexivity | lia | exact Hrest | congruence | lia].
    + rewrite replaceFold_skip by (by apply beforeOpening_head).
      rewrite IH; [reflexivity | lia | exact Hrest | | lia].
      intros Hsp. destruct rest as [|s0 [|o r]]; try reflexivity.
      cbn [headIs tail] in Hsp |- *.
      destruct (among "¿¡" o) eqn:Ho; [|reflexivity].
      discriminate (H3 s0 o r eq_refl Hsp Ho).
Qed.

Lemma spacing_quiet (s : str) :
  quiet s -> headIs isSpace s = false -> spaceBeforeOpening (spaceBeforeMark s) = s.
Proof.
  intros Hy Hs.
  assert (H1 : spaceBeforeMark s = closeUp s).
  { unfold spaceBeforeMark, replaceAll. apply (spaceBeforeMark_run (length s)); [lia | exact Hy | lia]. }
  rewrite H1. unfold spaceBeforeOpening, replaceAll.
  apply (spaceBeforeOpening_run (length s)); [lia | exact Hy | congruence | lia].
Qed.

(** ** White space *)

Lemma squeeze_quiet (s : str) :
  quiet s -> squeeze false s = s /\ (headIs isSpace s = false -> squeeze true s = s).
Proof.
  induction s as [|c s IH]; intros Hy; [by split|].
  destruct (IH (quiet_tail _ _ Hy)) as [IH1 IH2].
  destruct (quietAt_cons _ _ (quiet_here _ Hy)) as (_ & H2 & _).
  cbn [squeeze headIs]. destruct (isSpace c) eqn:Hc.
  - destruct (H2 eq_refl) as (-> & Hsp & _).
    split; [|discriminate]. by rewrite (IH2 Hsp).
  - by rewrite IH1.
Qed.

Lemma quiet_last (pre : str) (x : N) : quiet (pre ++ [x]) -> isSpace x = false.
Proof.
  intros Hy.
  assert (H : quietAt [x] = true) by (apply Hy; by exists pre).
  destruct (quietAt_cons _ _ H) as (_ & H2 & _).
  destruct (isSpace x); [|reflexivity]. by destruct (H2 eq_refl) as (_ & _ & _ & Hne).
Qed.

Lemma trim_quiet (s : str) : quiet s -> headIs isSpace s = false -> trim s = s.
Proof.
  intros Hy Hs. apply trim_fixed; [exact Hs|].
  destruct (rev s) as [|x l] eqn:Er; [reflexivity|]. cbn [headIs].
  apply (quiet_last (rev l)).
  replace (rev l ++ [x]) with s; [exact Hy|].
  rewrite <- (rev_involutive s), Er. reflexivity.
Qed.

(** ** The normaliser on a canonical text *)

Lemma canonical_fixed (s : str) : canonical s = true -> normalizeTextForTTS s = s.
Proof.
  intros H. destruct (canonical_quiet s H) as [Hs Hy].
  destruct (open_quiet s Hy) as (E1 & E2 & E3 & E4).
  destruct (format_quiet s Hy) as (E5 & E6).
  destruct (incomplete_quiet s Hy) as (E7 & E8).
  destruct (colon_quiet s Hy) as (E9 & E10).
  destruct (spaceAfter_quiet s Hy) as (E11 & E12).
  destruct (dots_quiet s Hy) as (E13 & E14 & E15).
  unfold normalizeTextForTTS, normalizeSteps. cbn [fold_left].
  assert (P1 : paragraphBreaks s = s) by (by apply needed_quiet).
  assert (P2 : lineBreaks s = s) by (by apply needed_quiet).
  assert (P3 : dashes s = s) by (by apply needed_quiet).
  assert (P4 : ellipsis s = s) by (by apply needed_quiet).
  rewrite P1, P2, (quotes_quiet s Hy), P3, P4, E1, E2, E3, E4, E5, E6, E7, E8, E9, E10.
  rewrite (spacing_quiet s Hy Hs), E11, E12, E13, E14, E15.
  rewrite whitespace_squeeze.
  destruct (squeeze_quiet s Hy) as [-> _].
  by apply trim_quiet.
Qed.

End CanonicalFacts.

(** ** The claim about the normaliser *)

(** C4, refuted as stated: the rule for two dots, [/\.{2}(?!\.)/g -> '.'],
    matches the last two of three dots, so that an ellipsis loses a dot at
    each pass (and the ellipsis sign with it, which an earlier rule writes
    as three dots); and the rules that turn a colon into a full stop come
    after the rule that closes an open question, so that a question with a
    colon gets its question mark only at the second pass. *)
Lemma normalize_not_idempotent :
  Text.normalizeTextForTTS (Js.lit "Bueno... vamos") = Js.lit "Bueno.. vamos" /\
  Text.normalizeTextForTTS (Js.lit "Bueno.. vamos") = Js.lit "Bueno. vamos" /\
  Text.normalizeTextForTTS (Text.normalizeTextForTTS (Js.lit "Bueno... vamos"))
    <> Text.normalizeTextForTTS (Js.lit "Bueno... vamos") /\
  Text.normalizeTextForTTS (Js.lit "Bueno… vamos") = Js.lit "Bueno.. vamos" /\
  Text.normalizeTextForTTS (Js.lit "¿x: A") = Js.lit "¿x. A" /\
  Text.normalizeTextForTTS (Js.lit "¿x. A") = Js.lit "¿x? A" /\
  Text.normalizeTextForTTS (Text.normalizeTextForTTS (Js.lit "¿x: A"))
    <> Text.normalizeTextForTTS (Js.lit "¿x: A").
Proof.
  repeat split; vm_compute; try reflexivity; intros H; discriminate H.
Qed.

(** C4, as the code has it.  The normaliser returns a canonical text as it
    is, and so normalising twice gives what normalising once gives for
    every input that the first pass brings to canonical form.  A text is
    canonical when it does not start with white space and, from every
    position on, [quietAt] holds: none of the characters that are replaced;
    white space that is one space, before something other than white space
    and [.!?,;:]; a space before [¿] or [¡] only after [.!?]; after [¿]
    neither [¡] nor white space, and no full stop before the next [?], and
    likewise for [¡] and [!]; no two of [!?] and no two full stops in a
    row; no capital and no [¿] or [¡] straight after [.!?]; no capital
    straight after [,:;]; no colon at the end or before a space and a
    capital.  Besides, on an input without a line feed and without any of
    the marks the rules look for, the normaliser only collapses the white
    space and trims, whatever the white space was. *)
Theorem normalize_idempotent_on_canonical (x : Js.str) :
  (canonical x = true -> Text.normalizeTextForTTS x = x) /\
  (canonical (Text.normalizeTextForTTS x) = true ->
   Text.normalizeTextForTTS (Text.normalizeTextForTTS x) = Text.normalizeTextForTTS x) /\
  (free rewritten x ->
   Text.normalizeTextForTTS x = Js.trim (squeeze false x) /\
   Text.normalizeTextForTTS (Text.normalizeTextForTTS x) = Text.normalizeTextForTTS x).
Proof.
  split; [apply canonical_fixed|]. split; [apply canonical_fixed|].
  intros Hx. split; [by apply normalize_plain|].
  rewrite (normalize_plain x Hx).
  rewrite normalize_plain.
  - apply trim_squeeze_fixed.
  - apply free_trim, free_squeeze; [reflexivity | exact Hx].
Qed.

(** The theorem at a canonical text, and at a text that the first pass
    brings to canonical form. *)
Lemma normalize_idempotent_witness :
  Text.normalizeTextForTTS (Js.lit "Hola. ¿Cómo estás? Bien, gracias: adiós!")
    = Js.lit "Hola. ¿Cómo estás? Bien, gracias: adiós!" /\
  Text.normalizeTextForTTS spacedText = Js.lit "¿Qué tal? Nota. Uno, dos." /\
  Text.normalizeTextForTTS (Text.normalizeTextForTTS spacedText)
    = Text.normalizeTextForTTS spacedText.
Proof.
  split; [|split].
  - apply (proj1 (normalize_idempotent_on_canonical
                    (Js.lit "Hola. ¿Cómo estás? Bien, gracias: adiós!"))).
    vm_compute. reflexivity.
  - vm_compute. reflexivity.
  - apply (proj1 (proj2 (normalize_idempotent_on_canonical spacedText))).
    vm_compute. reflexivity.
Defined.

(* ===================================================================== *)
(** * Further properties of the text pipeline                            *)
(* ===================================================================== *)

Section FilterFacts.
Import Js Regex Text.

Lemma trim_squeeze_Words (y : str) :
  trim (squeeze false y) = [] \/ Words (trim (squeeze false y)).
Proof.
  unfold trim. rewrite trimStart_squeeze. by destruct (trimEnd_squeeze y) as [H _].
Qed.

Lemma squeeze_otherSpace (b : bool) (y : str) : free otherSpace (squeeze b y).
Proof.
  revert b. induction y as [|c y IH]; intros b; simpl; [constructor|].
  destruct (isSpace c) eqn:Ec.
  - destruct b; [apply IH|]. constructor; [reflexivity | apply IH].
  - constructor; [|apply IH]. unfold otherSpace. by rewrite Ec.
Qed.

Lemma processLineBreaks_otherSpace (t : str) : free otherSpace (processLineBreaks t).
Proof.
  unfold processLineBreaks, twoDots, manyDots, colons.
  apply replaceAll_free; [intros mt _; vm_compute; repeat constructor|].
  apply replaceAll_free; [intros mt _; vm_compute; repeat constructor|].
  apply replaceAll_free.
  - intros mt Hmt. unfold free. apply Forall_app. split; [by apply capture_free|].
    vm_compute. repeat constructor.
  - rewrite whitespace_squeeze. apply free_trim, squeeze_otherSpace.
Qed.

Lemma joinSp_cons (s : str) (l : list str) :
  l <> [] -> joinSp (s :: l) = s ++ 32%N :: joinSp l.
Proof. by destruct l. Qed.

Lemma joinSp_app (a b : list str) :
  a <> [] -> b <> [] -> joinSp (a ++ b) = joinSp a ++ 32%N :: joinSp b.
Proof.
  intros Ha Hb. induction a as [|s a IH]; [congruence|].
  destruct a as [|s' a].
  - simpl. by destruct b.
  - change ((s :: s' :: a) ++ b) with (s :: ((s' :: a) ++ b)).
    rewrite joinSp_cons by done. rewrite IH by done.
    rewrite (joinSp_cons s (s' :: a)) by done. by rewrite <- app_assoc.
Qed.

(** Joining two sentences into one does not change the text. *)
Lemma joinSp_glue (a b : list str) (x y : str) :
  joinSp (a ++ (x ++ 32%N :: y) :: b) = joinSp (a ++ x :: y :: b).
Proof.
  assert (H : joinSp ((x ++ 32%N :: y) :: b) = joinSp (x :: y :: b)).
  { destruct b as [|z b]; simpl; by rewrite <- ?app_assoc. }
  destruct a as [|s a]; [exact H|].
  rewrite !joinSp_app by done. by rewrite H.
Qed.

Lemma mergeLoop_joinSp (n : nat) :
  forall sentences merged,
    (length sentences <= n)%nat ->
    joinSp (mergeLoop sentences merged) = joinSp (merged ++ sentences).
Proof.
  induction n as [|n IH]; intros sentences merged Hn.
  { destruct sentences; [|simpl in Hn; lia]. simpl. by rewrite app_nil_r. }
  destruct sentences as [|sentence rest]; [simpl; by rewrite app_nil_r|].
  simpl in Hn. cbn [mergeLoop].
  assert (Hplain : joinSp (mergeLoop rest (merged ++ [sentence]))
                   = joinSp (merged ++ sentence :: rest)).
  { rewrite IH by lia. by rewrite <- app_assoc. }
  destruct (isShort sentence); [|exact Hplain].
  destruct (rev merged) as [|lastOne others] eqn:Er.
  - destruct rest as [|nextSentence rest']; [exact Hplain|].
    rewrite IH by (simpl in Hn; lia).
    rewrite <- app_assoc. simpl.
    change (sentence ++ lit " " ++ nextSentence) with (sentence ++ 32%N :: nextSentence).
    apply joinSp_glue.
  - assert (Hm : merged = rev others ++ [lastOne]).
    { rewrite <- (rev_involutive merged), Er. reflexivity. }
    rewrite IH by lia. rewrite Hm, <- !app_assoc. simpl.
    change (lastOne ++ lit " " ++ sentence) with (lastOne ++ 32%N :: sentence).
    apply joinSp_glue.
Qed.

Lemma mergeLoop_length (n : nat) :
  forall sentences merged,
    (length sentences <= n)%nat ->
    (length (mergeLoop sentences merged) <= length merged + length sentences)%nat /\
    (merged ++ sentences <> [] -> mergeLoop sentences merged <> []).
Proof.
  induction n as [|n IH]; intros sentences merged Hn.
  { destruct sentences; [|simpl in Hn; lia]. simpl. rewrite app_nil_r. split; [lia | done]. }
  destruct sentences as [|sentence rest]; [simpl; rewrite app_nil_r; split; [lia | done]|].
  simpl in Hn. cbn [mergeLoop].
  assert (Hplain : (length (mergeLoop rest (merged ++ [sentence]))
                    <= length merged + length (sentence :: rest))%nat /\
                   (merged ++ sentence :: rest <> [] ->
                    mergeLoop rest (merged ++ [sentence]) <> [])).
  { destruct (IH rest (merged ++ [sentence])) as [H1 H2]; [lia|].
    rewrite length_app in H1. simpl in *. split; [lia|].
    intros _. apply H2. by destruct merged. }
  destruct (isShort sentence); [|exact Hplain].
  destruct (rev merged) as [|lastOne others] eqn:Er.
  - destruct rest as [|nextSentence rest']; [exact Hplain|].
    destruct (IH rest' (merged ++ [sentence ++ lit " " ++ nextSentence])) as [H1 H2];
      [simpl in Hn; lia|].
    rewrite length_app in H1. simpl in *. split; [lia|].
    intros _. apply H2. by destruct merged.
  - assert (Hm : merged = rev others ++ [lastOne]).
    { rewrite <- (rev_involutive merged), Er. reflexivity. }
    destruct (IH rest (rev others ++ [lastOne ++ lit " " ++ sentence])) as [H1 H2]; [lia|].
    rewrite Hm. rewrite !length_app in *. simpl in *. split; [lia|].
    intros _. apply H2. by destruct (rev others).
Qed.

End FilterFacts.

(** X12.  The normalised text is tidy: it is empty, or it is made of words with
    one space between two of them; it has no white space at either end, no
    two white-space characters in a row, and no tab or line break. *)
Theorem normalized_text_is_tidy (text0 : Js.str) :
  Text.normalizeTextForTTS text0 = [] \/ Words (Text.normalizeTextForTTS text0).
Proof.
  unfold Text.normalizeTextForTTS. cbv zeta. rewrite whitespace_squeeze.
  apply trim_squeeze_Words.
Qed.

(** X13.  The text [/convert] hands to the sentence splitter is tidy, whatever
    the text of the request and the rules of the model: it is empty, or
    made of words with one space between two of them. *)
Theorem filtered_text_is_tidy (textSegment : Js.str) (modelReplacements : list (Js.str * Js.str)) :
  Text.filterTextSegment textSegment modelReplacements = [] \/
  Words (Text.filterTextSegment textSegment modelReplacements).
Proof.
  unfold Text.filterTextSegment. cbv zeta. rewrite whitespace_squeeze.
  apply trim_squeeze_Words.
Qed.

(** X14.  [processLineBreaks] leaves no line break: the only white space in its
    result is the space character. *)
Theorem processLineBreaks_leaves_only_spaces (text0 : Js.str) :
  Forall (fun c => Js.isSpace c = true -> c = 32%N) (Text.processLineBreaks text0).
Proof.
  pose proof (processLineBreaks_otherSpace text0) as H.
  eapply Forall_impl; [exact H|]. simpl. intros c Hc Hs.
  unfold otherSpace in Hc. rewrite Hs in Hc. simpl in Hc.
  apply negb_false_iff, N.eqb_eq in Hc. exact Hc.
Qed.

(** X15.  [filterCodeBlocks] only removes text: its result is the text with some
    stretches left out; and a text without a back quote is left as it is. *)
Theorem filterCodeBlocks_only_removes (text0 : Js.str) :
  sublist (Text.filterCodeBlocks text0) text0 /\
  (free backquote text0 -> Text.filterCodeBlocks text0 = text0).
Proof.
  split.
  - apply (rewrites_sublist (fun _ => True)).
    apply replaceAll_rewrites; [apply only_True | reflexivity].
  - intros H. unfold Text.filterCodeBlocks, Text.codeBlock.
    apply (replaceAll_needs backquote); [vm_compute; reflexivity | exact H].
Qed.

(** The theorem at a text with a code block and at a text without one. *)
Lemma filterCodeBlocks_only_removes_witness :
  Text.filterCodeBlocks textWithCode = Js.lit "antes" ++ [10%N; 10%N] ++ Js.lit "luego" /\
  sublist (Text.filterCodeBlocks textWithCode) textWithCode /\
  Text.filterCodeBlocks (Js.lit "Hola mundo") = Js.lit "Hola mundo".
Proof.
  split; [vm_compute; reflexivity|].
  split; [apply (filterCodeBlocks_only_removes textWithCode)|].
  apply (filterCodeBlocks_only_removes (Js.lit "Hola mundo")).
  vm_compute. repeat constructor.
Defined.

(** X16.  Merging short fragments regroups the sentences and changes nothing
    else: joined with spaces, the merged sentences read as the sentences
    did; there are no more of them than before, and at least one if there
    was one. *)
Theorem mergeShortFragments_keeps_the_text (sentences : list Js.str) :
  joinSp (Text.mergeShortFragments sentences) = joinSp sentences /\
  (length (Text.mergeShortFragments sentences) <= length sentences)%nat /\
  (sentences <> [] -> Text.mergeShortFragments sentences <> []).
Proof.
  unfold Text.mergeShortFragments. split; [|split].
  - by rewrite (mergeLoop_joinSp (length sentences)).
  - by destruct (mergeLoop_length (length sentences) sentences []) as [H _].
  - by destruct (mergeLoop_length (length sentences) sentences []) as [_ H].
Qed.

(** The theorem at three sentences of which the first two are short. *)
Lemma mergeShortFragments_keeps_the_text_witness :
  Text.mergeShortFragments [Js.lit "Hola Dr."; Js.lit "Gómez."; Js.lit "¿Cómo estás?"]
    = [Js.lit "Hola Dr. Gómez."; Js.lit "¿Cómo estás?"] /\
  joinSp (Text.mergeShortFragments [Js.lit "Hola Dr."; Js.lit "Gómez."; Js.lit "¿Cómo estás?"])
    = Js.lit "Hola Dr. Gómez. ¿Cómo estás?" /\
  Text.mergeShortFragments [Js.lit "Hola Dr."; Js.lit "Gómez."; Js.lit "¿Cómo estás?"] <> [].
Proof.
  split; [vm_compute; reflexivity|].
  destruct (mergeShortFragments_keeps_the_text
              [Js.lit "Hola Dr."; Js.lit "Gómez."; Js.lit "¿Cómo estás?"]) as (H1 & _ & H3).
  split; [rewrite H1; vm_compute; reflexivity|].
  apply H3. discriminate.
Defined.

Section EnhanceFacts.
Import Js Regex Text.

(** ** Tests at the end of a text *)

Lemma search_ends (items : list item) :
  forall aft bef fd,
    search (rx (Seq (Cls false items) Eol)) bef aft = Some fd ->
    exists pre x, aft = pre ++ [x] /\ inCls false false items x = true.
Proof.
  induction aft as [|c rest IH]; intros bef fd H; cbn [search] in H.
  - unfold matchAt in H. cbn [m source ignoreCase rx after] in H. discriminate.
  - destruct (matchAt (rx (Seq (Cls false items) Eol)) bef (c :: rest)) as [[mt e]|] eqn:Em.
    + unfold matchAt in Em. cbn [m source ignoreCase rx after] in Em.
      destruct (inCls false false items c) eqn:Ec; [|discriminate].
      unfold advance in Em. cbn [after before caps] in Em.
      destruct rest as [|c' rest']; [|discriminate].
      exists [], c. by split.
    + destruct (search _ (c :: bef) rest) as [fd1|] eqn:E1; [|discriminate].
      destruct (IH _ _ E1) as (pre & x & Hp & Hx).
      exists (c :: pre), x. split; [|exact Hx]. simpl. by rewrite Hp.
Qed.

Lemma test_ends (items : list item) (s : str) :
  test (rx (Seq (Cls false items) Eol)) s = true ->
  exists pre x, s = pre ++ [x] /\ inCls false false items x = true.
Proof.
  unfold test. destruct (search _ [] s) as [fd|] eqn:E; [|discriminate].
  intros _. by eapply search_ends.
Qed.

(** ** White space and the rest *)

Lemma nonSpaces_trimStart (s : str) : nonSpaces (trimStart s) = nonSpaces s.
Proof.
  unfold nonSpaces. induction s as [|c s IH]; [reflexivity|]. simpl.
  destruct (isSpace c) eqn:Ec; [|reflexivity].
  rewrite IH, filter_cons. destruct (decide _); [congruence | reflexivity].
Qed.

Lemma nonSpaces_rev (s : str) : nonSpaces (rev s) = rev (nonSpaces s).
Proof.
  unfold nonSpaces. induction s as [|c s IH]; [reflexivity|]. simpl.
  rewrite filter_app, IH, !filter_cons, filter_nil.
  destruct (decide _); simpl; [reflexivity | by rewrite app_nil_r].
Qed.

Lemma nonSpaces_trim (s : str) : nonSpaces (trim s) = nonSpaces s.
Proof.
  unfold trim, trimEnd.
  by rewrite nonSpaces_rev, nonSpaces_trimStart, nonSpaces_rev, rev_involutive,
    nonSpaces_trimStart.
Qed.

Lemma nonSpaces_blank (s : str) : nonSpaces s = [] <-> blank s.
Proof.
  unfold nonSpaces, blank. induction s as [|c s IH]; [by split; [constructor|]|].
  rewrite filter_cons. destruct (decide _) as [Hc | Hc].
  - split; [discriminate | intros H; inversion H; congruence].
  - rewrite IH. split.
    + intros H. constructor; [by destruct (isSpace c) | exact H].
    + intros H. by inversion H.
Qed.

Lemma only_spaces_ws : only (fun c => isSpace c = true) false (plus ws).
Proof. simpl. intros x. unfold inCls. simpl. by rewrite orb_false_r. Qed.

(** A text cut at both ends is empty or starts with a character that is
    not white space. *)
Lemma trim_not_blank (s : str) : trim s <> [] -> ~ blank (trim s).
Proof.
  intros Hne Hb. apply nonSpaces_blank in Hb. rewrite nonSpaces_trim in Hb.
  apply nonSpaces_blank in Hb. apply Hne. clear Hne.
  assert (Hs : trimStart s = []).
  { induction Hb as [|c s Hc _ IH]; [reflexivity|]. simpl. by rewrite Hc. }
  unfold trim. by rewrite Hs.
Qed.

(** The text [enhanceSentenceForTTS] starts from has the characters of the
    sentence that are not white space. *)
Lemma flattened_nonSpaces (sentence : str) :
  nonSpaces (trim (whitespace
     (replaceAll (rx (plus (Cls false [One 13; One 10; One 9]))) (const " ") sentence)))
  = nonSpaces sentence.
Proof.
  rewrite nonSpaces_trim. unfold nonSpaces.
  set (flat := replaceAll _ _ sentence).
  transitivity (filter (fun c => isSpace c = false) (flat : list N)).
  - apply rewrites_nonspace. apply replaceAll_rewrites; [apply only_spaces_ws|].
    intros mt _. vm_compute. repeat constructor.
  - apply rewrites_nonspace. apply replaceAll_rewrites.
    + cbn [only plus]. intros x Hx. unfold inCls in Hx.
      cbn [existsb inItem xorb] in Hx. rewrite orb_false_r in Hx.
      repeat (apply orb_true_iff in Hx as [Hx | Hx]); apply N.eqb_eq in Hx; by subst.
    + intros mt _. vm_compute. repeat constructor.
Qed.

Lemma endsWithMark_app (pre s : str) : endsWithMark s -> endsWithMark (pre ++ s).
Proof.
  intros (p & x & -> & Hx). exists (pre ++ p), x. by rewrite app_assoc.
Qed.

Lemma endsWithMark_if (b : bool) (pre s : str) :
  endsWithMark s -> endsWithMark (if b then pre ++ s else s).
Proof. intros H. destruct b; [by apply endsWithMark_app | exact H]. Qed.

Lemma endsWithMark_snoc (s : str) (x : N) : terminalMark x = true -> endsWithMark (s ++ [x]).
Proof. intros Hx. by exists s, x. Qed.

Lemma endsWithMark_not_blank (s : str) : endsWithMark s -> trim s <> [].
Proof.
  intros (p & x & -> & Hx) Ht.
  assert (Hb : blank (p ++ [x])).
  { apply nonSpaces_blank. rewrite <- nonSpaces_trim, Ht. reflexivity. }
  apply Forall_app in Hb as [_ Hb]. inversion Hb as [|? ? Hs _]; subst.
  unfold terminalMark in Hx.
  change (lit ".!?…") with [46; 33; 63; 8230]%N in Hx.
  cbn [existsb] in Hx. rewrite orb_false_r in Hx.
  repeat (apply orb_true_iff in Hx as [Hx | Hx]);
    apply N.eqb_eq in Hx; subst x; vm_compute in Hs; discriminate.
Qed.

(** What [enhanceSentenceForTTS] returns. *)
Lemma enhance_spec (sentence : str) :
  (blank sentence /\ enhanceSentenceForTTS sentence = []) \/
  (~ blank sentence /\ endsWithMark (enhanceSentenceForTTS sentence)).
Proof.
  pose proof (flattened_nonSpaces sentence) as Hflat.
  unfold enhanceSentenceForTTS.
  remember (trim (whitespace (replaceAll _ _ sentence))) as e0 eqn:E0.
  cbv zeta. destruct e0 as [|x l].
  { left. split; [|reflexivity]. apply nonSpaces_blank. by rewrite <- Hflat. }
  right. split.
  { intros Hb. apply nonSpaces_blank in Hb. rewrite <- Hflat in Hb.
    apply nonSpaces_blank in Hb. revert Hb. rewrite E0. apply trim_not_blank.
    by rewrite <- E0. }
  remember (x :: l) as e eqn:Ee. clear Hflat E0.
  assert (H1 : endsWithMark
            (if negb (test (rx (Seq (oneOf ".!?…") Eol)) e)
             then if startsWith "¿" e || test questionWords e then e ++ lit "?"
                  else if startsWith "¡" e || test exclamationWords e then e ++ lit "!"
                       else e ++ lit "."
             else e)).
  { destruct (test (rx (Seq (oneOf ".!?…") Eol)) e) eqn:Et; simpl.
    - apply test_ends in Et as (pre & y & -> & Hy). exists pre, y. split; [reflexivity|].
      clear -Hy. unfold terminalMark. unfold inCls, oneOf in Hy. rewrite xorb_false_l in Hy.
      revert Hy. generalize (lit ".!?…"). intros marks.
      induction marks as [|mk marks IH]; cbn [map existsb inItem]; [intros H; exact H|].
      rewrite (N.eqb_sym mk y). destruct (y =? mk)%N; simpl; [reflexivity | exact IH].
    - destruct (_ || _); [by apply endsWithMark_snoc|].
      destruct (_ || _); by apply endsWithMark_snoc. }
  do 2 apply endsWithMark_if. exact H1.
Qed.

End EnhanceFacts.

Section SplitFacts.
Import Js Regex Text.

Lemma endsWithMark_glue (a b : str) : endsWithMark b -> endsWithMark (a ++ lit " " ++ b).
Proof. intros H. by do 2 apply endsWithMark_app. Qed.

Lemma mergeLoop_marks (n : nat) :
  forall sentences merged,
    (length sentences <= n)%nat ->
    Forall endsWithMark merged -> Forall endsWithMark sentences ->
    Forall endsWithMark (mergeLoop sentences merged).
Proof.
  induction n as [|n IH]; intros sentences merged Hn Hm Hs.
  { destruct sentences; [exact Hm | simpl in Hn; lia]. }
  destruct sentences as [|sentence rest]; [exact Hm|].
  simpl in Hn. cbn [mergeLoop]. inversion Hs as [|? ? Hsentence Hrest]; subst.
  assert (Hplain : Forall endsWithMark (mergeLoop rest (merged ++ [sentence]))).
  { apply IH; [lia | | exact Hrest]. apply Forall_app. split; [exact Hm | by constructor]. }
  destruct (isShort sentence); [|exact Hplain].
  destruct (rev merged) as [|lastOne others] eqn:Er.
  - destruct rest as [|nextSentence rest']; [exact Hplain|].
    inversion Hrest; subst.
    apply IH; [simpl in Hn; lia | | done].
    apply Forall_app. split; [exact Hm|]. constructor; [|constructor].
    by apply endsWithMark_glue.
  - assert (Hmerged : merged = rev others ++ [lastOne]).
    { rewrite <- (rev_involutive merged), Er. reflexivity. }
    rewrite Hmerged in Hm. apply Forall_app in Hm as [Ho _].
    apply IH; [lia | | exact Hrest].
    apply Forall_app. split; [exact Ho|]. constructor; [|constructor].
    by apply endsWithMark_glue.
Qed.

(** A chunk that is pushed is a sentence with its mark. *)
Lemma pushed_chunk_marks (chunks : list str) (t : str) :
  (t <> [] -> ~ blank t) ->
  Forall endsWithMark chunks ->
  Forall endsWithMark (match t with
                       | [] => chunks
                       | x :: l => chunks ++ [enhanceSentenceForTTS (x :: l)]
                       end).
Proof.
  intros Ht Hc. destruct t as [|x l]; [exact Hc|].
  apply Forall_app. split; [exact Hc|]. constructor; [|constructor].
  destruct (enhance_spec (x :: l)) as [[Hb _] | [_ He]]; [|exact He].
  exfalso. by apply Ht.
Qed.

Lemma splitLongSentence_marks (sentence : str) :
  endsWithMark sentence -> Forall endsWithMark (splitLongSentence sentence).
Proof.
  intros Hs. unfold splitLongSentence.
  match goal with
  | |- context [ fold_left ?F ?parts ?init ] =>
      assert (Hfold : forall ps chunks cc li,
                Forall endsWithMark chunks ->
                Forall endsWithMark (fold_left F ps (chunks, cc, li)).1.1);
      [|specialize (Hfold parts [] [] 0%nat (Forall_nil_2 _));
        destruct (fold_left F parts init) as [[chunks cc] li]]
  end.
  { induction ps as [|part ps IH]; intros chunks cc li Hc; [exact Hc|].
    cbn [fold_left]. destruct (testGlobal naturalBreaks part li) as [isBreak li'].
    destruct isBreak; [by apply IH|].
    destruct (_ && _); [|by apply IH].
    apply IH. apply pushed_chunk_marks; [apply trim_not_blank | exact Hc]. }
  simpl in Hfold.
  pose proof (pushed_chunk_marks chunks (trim cc) (trim_not_blank cc) Hfold) as Hlast.
  destruct (match trim cc with [] => chunks | _ => _ end); [|exact Hlast].
  by constructor.
Qed.

Lemma processed_marks (protectionMap : list (str * str)) (sentences : list str) :
  forall processedSentences,
    Forall endsWithMark processedSentences ->
    Forall endsWithMark
      (fold_left
         (fun processedSentences sentence =>
            let sentence := enhanceSentenceForTTS (restore protectionMap sentence) in
            if (3 <? length sentence)%nat then
              if (400 <? length sentence)%nat
              then processedSentences ++ splitLongSentence sentence
              else processedSentences ++ [sentence]
            else processedSentences)
         sentences processedSentences).
Proof.
  induction sentences as [|s sentences IH]; intros acc Hacc; [exact Hacc|].
  cbn [fold_left]. apply IH. cbv zeta.
  destruct (3 <? _)%nat eqn:E3; [|exact Hacc].
  assert (Hs : endsWithMark (enhanceSentenceForTTS (restore protectionMap s))).
  { destruct (enhance_spec (restore protectionMap s)) as [[_ He] | [_ He]]; [|exact He].
    rewrite He in E3. discriminate E3. }
  destruct (400 <? _)%nat; apply Forall_app; (split; [exact Hacc|]).
  - by apply splitLongSentence_marks.
  - by constructor.
Qed.

Lemma splitSentences_marks (text0 : str) : Forall endsWithMark (splitSentences text0).
Proof.
  unfold splitSentences. destruct (trim text0); [constructor|]. cbv zeta.
  destruct (protect _) as [[protectedText protectionMap] protectionCounter].
  destruct (execLoop _ _ _ _ _) as [sentences lastIndex].
  unfold mergeShortFragments.
  match goal with
  | |- Forall _ (mergeLoop ?l []) => apply (mergeLoop_marks (length l)); [lia | constructor |]
  end.
  apply processed_marks. constructor.
Qed.

End SplitFacts.

(** X17.  [enhanceSentenceForTTS] gives a sentence its mark: the result is empty
    exactly when the sentence is white space only, and otherwise it ends
    with a full stop, an exclamation mark, a question mark or the ellipsis
    sign. *)
Theorem enhanced_sentence_ends_with_a_mark (sentence : Js.str) :
  (Text.enhanceSentenceForTTS sentence = [] <-> blank sentence) /\
  (~ blank sentence -> endsWithMark (Text.enhanceSentenceForTTS sentence)).
Proof.
  destruct (enhance_spec sentence) as [[Hb He] | [Hb He]].
  - split; [by split | by intros H].
  - split; [|by intros _]. split; [|by intros H].
    intros H. rewrite H in He. destruct He as (pre & x & He & _). by destruct pre.
Qed.

(** The theorem at a question without its marks and at a blank text. *)
Lemma enhanced_sentence_ends_with_a_mark_witness :
  Text.enhanceSentenceForTTS (Js.lit "Cómo estás") = Js.lit "¿Cómo estás?" /\
  endsWithMark (Text.enhanceSentenceForTTS (Js.lit "Cómo estás")) /\
  Text.enhanceSentenceForTTS (Js.lit "   ") = [].
Proof.
  split; [vm_compute; reflexivity|].
  destruct (enhanced_sentence_ends_with_a_mark (Js.lit "Cómo estás")) as [_ H1].
  destruct (enhanced_sentence_ends_with_a_mark (Js.lit "   ")) as [[_ H2] _].
  split.
  - apply H1. intros Hb. inversion Hb as [|? ? Hc _]. vm_compute in Hc. discriminate Hc.
  - apply H2. vm_compute. repeat constructor.
Defined.

(** X18.  Every sentence [splitSentences] returns ends with a full stop, an
    exclamation mark, a question mark or the ellipsis sign, and so none is
    empty or blank: the job of a conversion has a task for every sentence
    counted by [/convert], and the total of the progress is the number of
    sentences the answer of [/convert] announces. *)
Theorem split_sentences_end_with_a_mark (text0 : Js.str) (modelName : string) :
  Forall endsWithMark (Text.splitSentences text0) /\
  Session.validSentences (Session.newJob (Text.splitSentences text0) modelName)
    = Text.splitSentences text0.
Proof.
  pose proof (splitSentences_marks text0) as H. split; [exact H|].
  unfold Session.validSentences, Session.newJob. simpl.
  induction H as [|s l Hs _ IH]; [reflexivity|].
  rewrite filter_cons. destruct (decide _) as [_ | Hn]; [by rewrite IH|].
  exfalso. apply Hn. by apply endsWithMark_not_blank.
Qed.

Section RuleFacts.
Import Js Regex Text.

Lemma isWord_spec (x : N) :
  isWord x = true <->
  ((97 <= x <= 122) \/ (65 <= x <= 90) \/ (48 <= x <= 57) \/ x = 95)%N.
Proof.
  unfold isWord, isDigit.
  rewrite !orb_true_iff, !andb_true_iff, !N.leb_le, N.eqb_eq. tauto.
Qed.

Lemma canonicalize_cases (x : N) :
  ((97 <= x <= 122)%N /\ canonicalize x = (x - 32)%N) \/
  ((224 <= x <= 254)%N /\ canonicalize x = (x - 32)%N) \/
  (x = 255%N /\ canonicalize x = 376%N) \/
  (x = 181%N /\ canonicalize x = 924%N) \/
  (~ (97 <= x <= 122)%N /\ canonicalize x = x).
Proof.
  unfold canonicalize.
  destruct (N.leb_spec 97 x), (N.leb_spec x 122); simpl; try (left; split; [lia | reflexivity]);
    destruct (N.leb_spec 224 x), (N.leb_spec x 254), (N.eqb_spec x 247); simpl;
    try (right; left; split; [lia | reflexivity]);
    destruct (N.eqb_spec x 255); try (right; right; left; split; [lia | reflexivity]);
    destruct (N.eqb_spec x 181); try (right; right; right; left; split; [lia | reflexivity]);
    right; right; right; right; split; try lia; reflexivity.
Qed.

(** The two cases of a letter are both word characters or both not. *)
Lemma canonicalize_word (x c : N) :
  canonicalize x = canonicalize c -> isWord x = isWord c.
Proof.
  intros H.
  destruct (isWord x) eqn:Ex, (isWord c) eqn:Ec; try reflexivity; exfalso.
  - apply isWord_spec in Ex. apply not_true_iff_false in Ec. apply Ec, isWord_spec.
    destruct (canonicalize_cases x) as [[? Hx]|[[? Hx]|[[? Hx]|[[? Hx]|[? Hx]]]]],
             (canonicalize_cases c) as [[? Hc]|[[? Hc]|[[? Hc]|[[? Hc]|[? Hc]]]]];
      rewrite Hx, Hc in H; lia.
  - apply isWord_spec in Ec. apply not_true_iff_false in Ex. apply Ex, isWord_spec.
    destruct (canonicalize_cases x) as [[? Hx]|[[? Hx]|[[? Hx]|[[? Hx]|[? Hx]]]]],
             (canonicalize_cases c) as [[? Hx']|[[? Hx']|[[? Hx']|[[? Hx']|[? Hx']]]]];
      rewrite Hx, Hx' in H; lia.
Qed.

(** The pattern of a rule for a single sign that is no word character, no
    full stop and no space. *)
Lemma rulePattern_sign (sign : N) :
  isWord sign = false -> sign <> 46%N -> sign <> 32%N ->
  rulePattern [sign] = rxi (seqs [WordB; literally [sign]; WordB]).
Proof.
  intros Hw H46 H32. unfold rulePattern.
  rewrite bool_decide_eq_false_2 by (simpl; congruence).
  rewrite bool_decide_eq_false_2 by (rewrite list_elem_of_singleton; congruence).
  assert (Hd : isDigit sign = false).
  { unfold isWord in Hw. apply orb_false_iff in Hw as [Hw _].
    by apply orb_false_iff in Hw as [_ Hw]. }
  assert (Ht : test onlyDigits [sign] = false); [|by rewrite Ht].
  unfold test, onlyDigits. cbn [search]. unfold matchAt.
  cbn [m source ignoreCase rx seqs foldr before after plus rep groups Nat.add length].
  unfold inCls. cbn [existsb inItem xorb after clearCaps]. by rewrite Hd.
Qed.

Lemma search_sign (sign : N) :
  isWord sign = false ->
  forall aft bef,
    enclosed sign (head bef) aft = false ->
    search (rxi (seqs [WordB; literally [sign]; WordB])) bef aft = None.
Proof.
  intros Hw. induction aft as [|x rest IH]; intros bef He; cbn [search].
  - unfold matchAt. cbn [m source ignoreCase rxi seqs literally foldr before after].
    by destruct (xorb _ _).
  - cbn [enclosed] in He. apply orb_false_iff in He as [Hhere Hrest].
    rewrite (IH (x :: bef) Hrest).
    assert (Hm : matchAt (rxi (seqs [WordB; literally [sign]; WordB])) bef (x :: rest) = None);
      [|by rewrite Hm].
    unfold matchAt. cbn [m source ignoreCase rxi seqs literally foldr before after].
    destruct (N.eqb_spec (canonicalize x) (canonicalize sign)) as [Hc | Hc];
      [|by destruct (xorb _ _)].
    pose proof (canonicalize_word x sign Hc) as Hx. rewrite Hw in Hx.
    rewrite Hx, xorb_false_r.
    unfold advance. cbn [before after caps]. rewrite Hx, xorb_false_l.
    simpl in Hhere.
    destruct bef as [|p bef']; simpl in *; [reflexivity|].
    destruct (isWord p); [|reflexivity]. simpl in Hhere.
    destruct rest as [|y rest']; [reflexivity|]. by rewrite Hhere.
Qed.

End RuleFacts.

(** X19.  A rule for a single ASCII sign that is neither a word character, a
    full stop nor a space replaces the sign only where it stands between
    two word characters: a text in which the sign does not stand between
    two word characters is left as it is, whatever the replacement.  So
    the rules of a model without rules of its own take out an asterisk,
    or put a comma for a closing bracket, only inside a word.  (The sign
    is taken in the ASCII range, where [canonicalize] is the [i] flag of
    JavaScript on every text.) *)
Theorem sign_is_replaced_only_between_words (sign : N) (replace text0 : Js.str) :
  (sign < 128)%N ->
  Regex.isWord sign = false -> sign <> 46%N -> sign <> 32%N ->
  enclosed sign None text0 = false ->
  Text.applyReplacements text0 [([sign], replace)] = text0.
Proof.
  intros _ Hw H46 H32 He. unfold Text.applyReplacements.
  destruct text0 as [|x l]; [reflexivity|]. cbn [fold_left].
  unfold Text.applyRule. cbn [fst snd].
  rewrite (rulePattern_sign sign Hw H46 H32).
  unfold Regex.replaceAll. cbn [Regex.replaceFold].
  by rewrite (search_sign sign Hw (x :: l) [] He).
Qed.

(** The theorem at the asterisk and a text in which no asterisk stands
    between two word characters; in the second text one does, and it is
    replaced. *)
Lemma sign_is_replaced_only_between_words_witness :
  Text.applyReplacements (Js.lit "**hola** (mundo)") [(Js.lit "*", [])]
    = Js.lit "**hola** (mundo)" /\
  Text.applyReplacements (Js.lit "2*3") [(Js.lit "*", [])] = Js.lit "23".
Proof.
  split; [|vm_compute; reflexivity].
  apply (sign_is_replaced_only_between_words 42%N []); try reflexivity; discriminate.
Defined.

Section LineFeedFacts.
Import Js Regex Text.

Lemma no_line_feed_enclosed (s : str) :
  free otherSpace s -> forall prev, enclosed 10 prev s = false.
Proof.
  induction 1 as [|x s Hx _ IH]; intros prev; [reflexivity|].
  cbn [enclosed]. rewrite IH, orb_false_r.
  destruct (N.eqb_spec (canonicalize x) (canonicalize 10)) as [Hc | Hc]; [|reflexivity].
  exfalso. change (canonicalize 10) with 10%N in Hc.
  assert (x = 10%N).
  { destruct (canonicalize_cases x) as [[? Hx']|[[? Hx']|[[? Hx']|[[? Hx']|[? Hx']]]]];
      rewrite Hx' in Hc; lia. }
  subst x. discriminate Hx.
Qed.

Lemma line_feed_rule (text0 replace : str) :
  applyRule (processLineBreaks text0) ([10%N], replace) = processLineBreaks text0.
Proof.
  unfold applyRule. cbn [fst snd].
  rewrite (rulePattern_sign 10) by (reflexivity || discriminate).
  unfold replaceAll. cbn [replaceFold].
  rewrite (search_sign 10 eq_refl); [reflexivity|].
  apply no_line_feed_enclosed, processLineBreaks_otherSpace.
Qed.

End LineFeedFacts.

(** X20.  The rule for the line feed is dead: when [filterTextSegment] comes to
    the rules of the model the line breaks are gone, so that a first rule
    whose [find] is the line feed changes nothing, whatever it puts in; the
    first of the three rules of a model without rules of its own is such a
    rule. *)
Theorem line_feed_rule_is_dead (textSegment replace : Js.str)
    (rules : list (Js.str * Js.str)) :
  Text.filterTextSegment textSegment (([10%N], replace) :: rules)
    = Text.filterTextSegment textSegment rules /\
  Text.filterTextSegment textSegment Text.defaultReplacements
    = Text.filterTextSegment textSegment (tail Text.defaultReplacements).
Proof.
  assert (H : forall r rs,
            Text.filterTextSegment textSegment (([10%N], r) :: rs)
            = Text.filterTextSegment textSegment rs).
  { intros r rs. unfold Text.filterTextSegment. cbv zeta. f_equal. f_equal.
    unfold Text.applyReplacements.
    destruct (Text.processLineBreaks (Text.filterCodeBlocks textSegment)) as [|x l] eqn:E.
    - by destruct rs.
    - cbn [fold_left]. rewrite <- E, line_feed_rule. by destruct rs. }
  split; [apply H|]. apply H.
Qed.
